(** * AdvancedVector: a shallow embedding of [vector.h]

    [RawMemory<T>] owns a block of raw slots, [Vector<T>] owns one
    [RawMemory<T>] and a count of live elements.  The embedding keeps
    the heap of raw blocks, the store of [Vector] objects (so that
    [this] and a reference argument may alias) and a log of every
    operation performed on the element type. *)

From Stdlib Require Import ZArith Lia.
From stdpp Require Import base option list gmap.

Open Scope Z_scope.

(** ** Machine integers: [size_t] is a 64-bit unsigned integer *)

Definition size_t_modulus : Z := 2 ^ 64.

Definition wrap (z : Z) : Z := z mod size_t_modulus.

Definition in_size_t (z : Z) : Prop := 0 <= z < size_t_modulus.

(** ** Pointers into raw blocks *)

Inductive ptr : Type :=
| Null
| Ptr (b : nat) (off : Z).

Global Instance ptr_eq_dec : EqDecision ptr.
Proof. solve_decision. Defined.

(** [p + n] on a [T*] *)
Definition ptr_add (p : ptr) (n : Z) : ptr :=
  match p with
  | Null => Null
  | Ptr b off => Ptr b (off + n)
  end.

Infix "+p" := ptr_add (at level 50, left associativity).

(** [p - q] on two [T*]; only defined inside one block *)
Definition ptr_diff (p q : ptr) : option Z :=
  match p, q with
  | Null, Null => Some 0
  | Ptr b i, Ptr c j => if decide (b = c) then Some (i - j) else None
  | _, _ => None
  end.

(** ** The two classes, as records of their data members *)

Record RawMemory : Type := mkRawMemory {
  buffer_ : ptr;
  capacity_ : Z
}.

Record Vector : Type := mkVector {
  data_ : RawMemory;
  size_ : Z
}.

(** ** The log of operations on the element type *)

(** Where an object lives: a slot of a raw block, a local variable of
    the running member function, or the caller's argument. *)
Inductive place : Type :=
| At (p : ptr)
| Local
| Argument.

Inductive event : Type :=
| EvValueCtor (dst : place)            (* T() *)
| EvCopyCtor (src dst : place)         (* T(const T&) *)
| EvMoveCtor (src dst : place)         (* T(T&&) *)
| EvArgsCtor (dst : place)             (* T(args...) *)
| EvCopyAssign (src dst : place)       (* operator=(const T&) *)
| EvMoveAssign (src dst : place)       (* operator=(T&&) *)
| EvDtor (p : place).                  (* ~T() *)

Definition is_copy (e : event) : bool :=
  match e with
  | EvCopyCtor _ _ | EvCopyAssign _ _ => true
  | _ => false
  end.

Definition is_ctor (e : event) : bool :=
  match e with
  | EvValueCtor _ | EvCopyCtor _ _ | EvMoveCtor _ _ | EvArgsCtor _ => true
  | _ => false
  end.

(** ** The element type *)

(** What the container needs to know about [T]: which of its special
    member functions throw on which value, what a moved-from object
    looks like, and the two traits the relocation policy tests. *)
Class Element (T : Type) : Type := {
  Args : Type;                       (* constructor arguments of Emplace *)
  value_init : T;                    (* the value of T() *)
  value_init_throws : bool;
  make : Args → T;                   (* the value of T(args...) *)
  make_throws : Args → bool;
  copy_throws : T → bool;            (* T(const T&) on this source *)
  move_throws : T → bool;            (* T(T&&) on this source *)
  copy_assign_throws : T → bool;     (* operator=(const T&) from this source *)
  move_assign_throws : T → bool;     (* operator=(T&&) from this source *)
  moved_from : T → T;                (* what a source is left as *)
  is_nothrow_move_constructible : bool;
  is_copy_constructible : bool;
  sizeof : Z;
  sizeof_pos : 0 < sizeof
}.

Section Model.

Context {T : Type} `{Element T}.

(** ** Memory *)

(** A raw block is a row of slots; a slot holds a live object or
    nothing. *)
#[local] Abbreviation block := (list (option T)).

Record mem : Type := mkMem {
  heap : gmap nat block;     (* raw blocks by block number *)
  vecs : gmap nat Vector;    (* Vector objects by address *)
  log : list event;          (* operations on T, oldest first *)
  max_alloc : Z              (* largest request operator new grants, in bytes *)
}.

Definition empty_mem (limit : Z) : mem := mkMem ∅ ∅ [] limit.

Definition set_heap (f : gmap nat block → gmap nat block) (m : mem) : mem :=
  mkMem (f (heap m)) (vecs m) (log m) (max_alloc m).

Definition set_vecs (f : gmap nat Vector → gmap nat Vector) (m : mem) : mem :=
  mkMem (heap m) (f (vecs m)) (log m) (max_alloc m).

Definition add_log (e : event) (m : mem) : mem :=
  mkMem (heap m) (vecs m) (log m ++ [e]) (max_alloc m).

(** ** Outcomes of a call *)

Inductive outcome (A : Type) : Type :=
| Ret (a : A) (m : mem)      (* normal return *)
| Exc (m : mem)              (* an exception leaves the call *)
| Abort.                     (* failed assert or undefined behaviour *)

Arguments Ret {A} a m.
Arguments Exc {A} m.
Arguments Abort {A}.

Definition M (A : Type) : Type := mem → outcome A.

Definition ret {A} (a : A) : M A := fun m => Ret a m.

Definition bind {A B} (c : M A) (f : A → M B) : M B :=
  fun m =>
    match c m with
    | Ret a m' => f a m'
    | Exc m' => Exc m'
    | Abort => Abort
    end.

Definition throw {A} : M A := fun m => Exc m.

Definition abort {A} : M A := fun _ => Abort.

(** [assert(c)] *)
Definition assert (c : bool) : M unit := if c then ret tt else abort.

(** Run [h] when an exception passes through [c] (a catch-and-rethrow
    block, or the destructor of a local during unwinding). *)
Definition on_exception {A} (c : M A) (h : M unit) : M A :=
  fun m =>
    match c m with
    | Exc m' =>
        match h m' with
        | Ret _ m'' => Exc m''
        | _ => Abort
        end
    | r => r
    end.

Notation "'let*' x ':=' c 'in' f" := (bind c (fun x => f))
  (at level 10, x name, c at level 100, f at level 200).
Notation "c >> f" := (bind c (fun _ => f))
  (at level 100, f at level 200, right associativity).

Definition emit (e : event) : M unit :=
  fun m => Ret tt (add_log e m).

(** ** Raw allocation *)

(** [operator new(bytes)] *)
Definition operator_new (bytes : Z) : M ptr :=
  fun m =>
    if bytes <=? max_alloc m then
      let b := fresh (dom (heap m)) in
      Ret (Ptr b 0)
          (set_heap <[b := replicate (Z.to_nat (bytes / sizeof)) None]> m)
    else Exc m.

(** [operator delete(p)] *)
Definition operator_delete (p : ptr) : M unit :=
  fun m =>
    match p with
    | Null => Ret tt m
    | Ptr b off =>
        if decide (off = 0) then
          match heap m !! b with
          | Some _ => Ret tt (set_heap (delete b) m)
          | None => Abort
          end
        else Abort
    end.

(** ** Access to one slot *)

Definition slot (m : mem) (p : ptr) : option (option T) :=
  match p with
  | Null => None
  | Ptr b i =>
      if 0 <=? i then blk ← heap m !! b; blk !! Z.to_nat i else None
  end.

(** Read the live object at [p]. *)
Definition load (p : ptr) : M T :=
  fun m =>
    match slot m p with
    | Some (Some x) => Ret x m
    | _ => Abort
    end.

(** Overwrite the slot at [p], which must lie inside its block. *)
Definition store (p : ptr) (o : option T) : M unit :=
  fun m =>
    match p, slot m p with
    | Ptr b i, Some _ =>
        Ret tt (set_heap (alter (<[Z.to_nat i := o]>) b) m)
    | _, _ => Abort
    end.

(** ** Special member functions of [T], applied in memory *)

(** How a new element is initialised from values: [T(value)] for the
    value of the object a [const T&] refers to, [T(std::move(value))]
    for an object that the memory does not hold, such as a temporary,
    or [T(std::forward<Args>(args)...)] for other arguments. *)
Inductive init : Type :=
| ByCopy (x : T)
| ByMove (x : T)
| ByArgs (a : Args).

Definition init_event (a : init) (dst : place) : event :=
  match a with
  | ByCopy _ => EvCopyCtor Argument dst
  | ByMove _ => EvMoveCtor Argument dst
  | ByArgs _ => EvArgsCtor dst
  end.

Definition init_throws (a : init) : bool :=
  match a with
  | ByCopy x => copy_throws x
  | ByMove x => move_throws x
  | ByArgs a => make_throws a
  end.

Definition init_value (a : init) : T :=
  match a with
  | ByCopy x => x
  | ByMove x => x
  | ByArgs a => make a
  end.

(** [new (p) T(...)] *)
Definition construct_at (p : ptr) (a : init) : M unit :=
  emit (init_event a (At p)) >>
  if init_throws a then throw else store p (Some (init_value a)).

(** [T elem(...)], a local object *)
Definition construct_local (a : init) : M T :=
  emit (init_event a Local) >>
  if init_throws a then throw else ret (init_value a).

(** What [std::forward<Args>(args)...] hands to the constructor of a
    new element: values, as above, or an rvalue reference to an object
    held in a raw block, such as an element of a vector.  The move
    constructor leaves that object moved-from. *)
Inductive forwarded : Type :=
| Values (a : init)
| MoveOf (src : ptr).

Coercion Values : init >-> forwarded.

Definition forwarded_event (a : forwarded) (dst : place) : event :=
  match a with
  | Values a => init_event a dst
  | MoveOf _ => EvMoveCtor Argument dst
  end.

(** [new (p) T(std::forward<Args>(args)...)] *)
Definition placement_new (p : ptr) (a : forwarded) : M unit :=
  match a with
  | Values a => construct_at p a
  | MoveOf src =>
      let* x := load src in
      emit (EvMoveCtor Argument (At p)) >>
      if move_throws x then throw
      else store src (Some (moved_from x)) >> store p (Some x)
  end.

(** [T elem(std::forward<Args>(args)...)], a local object *)
Definition local_object (a : forwarded) : M T :=
  match a with
  | Values a => construct_local a
  | MoveOf src =>
      let* x := load src in
      emit (EvMoveCtor Argument Local) >>
      if move_throws x then throw
      else store src (Some (moved_from x)) >> ret x
  end.

(** What a parameter of type [T&&] is bound to: an object that the
    memory does not hold, known by its value, or an object held in a
    raw block. *)
Inductive rvalue : Type :=
| Temporary (x : T)
| Held (src : ptr).

(** [std::move(value)] for a parameter [T&& value] *)
Definition std_move_rvalue (value : rvalue) : forwarded :=
  match value with
  | Temporary x => Values (ByMove x)
  | Held src => MoveOf src
  end.

(** [new (p) T()] *)
Definition value_construct_at (p : ptr) : M unit :=
  emit (EvValueCtor (At p)) >>
  if value_init_throws then throw else store p (Some value_init).

(** [new (dst) T(x)] for the object [x] at [src] *)
Definition copy_construct (src dst : ptr) : M unit :=
  let* x := load src in
  emit (EvCopyCtor (At src) (At dst)) >>
  if copy_throws x then throw else store dst (Some x).

(** [new (dst) T(std::move(x))] for the object [x] at [src] *)
Definition move_construct (src dst : ptr) : M unit :=
  let* x := load src in
  emit (EvMoveCtor (At src) (At dst)) >>
  if move_throws x then throw
  else store dst (Some x) >> store src (Some (moved_from x)).

(** [d = x] for the objects [d] at [dst] and [x] at [src] *)
Definition copy_assign (src dst : ptr) : M unit :=
  let* x := load src in
  let* _ := load dst in
  emit (EvCopyAssign (At src) (At dst)) >>
  if copy_assign_throws x then throw else store dst (Some x).

(** [d = std::move(x)] for the objects [d] at [dst] and [x] at [src] *)
Definition move_assign (src dst : ptr) : M unit :=
  let* x := load src in
  let* _ := load dst in
  emit (EvMoveAssign (At src) (At dst)) >>
  if move_assign_throws x then throw
  else store dst (Some x) >> store src (Some (moved_from x)).

(** [d = std::move(elem)] for [d] at [dst] and a local [elem] *)
Definition move_assign_local (x : T) (dst : ptr) : M unit :=
  let* _ := load dst in
  emit (EvMoveAssign Local (At dst)) >>
  if move_assign_throws x then throw else store dst (Some x).

(** [std::destroy_at(p)] *)
Definition destroy_at (p : ptr) : M unit :=
  let* _ := load p in
  emit (EvDtor (At p)) >>
  store p None.

(** ** The algorithms of [<memory>] and [<algorithm>] *)

(** [body i; body (i+1); ...], [k] times *)
Fixpoint for_n (k : nat) (i : Z) (body : Z → M unit) : M unit :=
  match k with
  | O => ret tt
  | S k' => body i >> for_n k' (i + 1) body
  end.

Definition destroy_n (first : ptr) (n : Z) : M unit :=
  for_n (Z.to_nat n) 0 (fun i => destroy_at (first +p i)).

(** The three [uninitialized_*_n]: when a construction throws, the
    objects built so far are destroyed and the exception goes on. *)
Definition uninitialized_value_construct_n (first : ptr) (n : Z) : M unit :=
  for_n (Z.to_nat n) 0
    (fun i => on_exception (value_construct_at (first +p i)) (destroy_n first i)).

Definition uninitialized_copy_n (src : ptr) (n : Z) (dst : ptr) : M unit :=
  for_n (Z.to_nat n) 0
    (fun i => on_exception (copy_construct (src +p i) (dst +p i)) (destroy_n dst i)).

Definition uninitialized_move_n (src : ptr) (n : Z) (dst : ptr) : M unit :=
  for_n (Z.to_nat n) 0
    (fun i => on_exception (move_construct (src +p i) (dst +p i)) (destroy_n dst i)).

(** [std::copy_n], returning the end of the destination *)
Definition copy_n (src : ptr) (n : Z) (dst : ptr) : M ptr :=
  for_n (Z.to_nat n) 0 (fun i => copy_assign (src +p i) (dst +p i)) >>
  ret (dst +p n).

(** The length of the range [first, last) *)
Definition distance (first last : ptr) : M Z :=
  match ptr_diff last first with
  | Some n => assert (0 <=? n) >> ret n
  | None => abort
  end.

(** [std::move(first, last, d_first)], front to back *)
Definition std_move (first last d_first : ptr) : M unit :=
  let* n := distance first last in
  for_n (Z.to_nat n) 0 (fun i => move_assign (first +p i) (d_first +p i)).

(** [std::move_backward(first, last, d_last)], back to front *)
Definition move_backward (first last d_last : ptr) : M unit :=
  let* n := distance first last in
  for_n (Z.to_nat n) 1 (fun i => move_assign (last +p (- i)) (d_last +p (- i))).

(** ** RawMemory *)

Definition Allocate (n : Z) : M ptr :=
  if decide (n ≠ 0) then operator_new (wrap (n * sizeof)) else ret Null.

Definition Deallocate (buf : ptr) : M unit := operator_delete buf.

(** [RawMemory()] *)
Definition RawMemory_default : RawMemory := mkRawMemory Null 0.

(** [RawMemory(size_t capacity)] *)
Definition RawMemory_ctor (capacity : Z) : M RawMemory :=
  let* b := Allocate capacity in
  ret (mkRawMemory b capacity).

(** [~RawMemory()] *)
Definition RawMemory_dtor (r : RawMemory) : M unit := Deallocate (buffer_ r).

(** [RawMemory(RawMemory&& other)]: the new object and what [other] is
    left as.  [std::move] of a pointer or of a [size_t] is a copy. *)
Definition RawMemory_move_ctor (other : RawMemory) : RawMemory * RawMemory :=
  let this := RawMemory_default in
  let this := mkRawMemory (buffer_ other) (capacity_ this) in
  let this := mkRawMemory (buffer_ this) (capacity_ other) in
  (this, other).

(** [operator=(RawMemory&& rhs)]: the new [*this] and what [rhs] is
    left as. *)
Definition RawMemory_move_assign (this rhs : RawMemory) : RawMemory * RawMemory :=
  let this := mkRawMemory (buffer_ rhs) (capacity_ this) in
  let this := mkRawMemory (buffer_ this) (capacity_ rhs) in
  (this, rhs).

(** [operator+(size_t offset)] *)
Definition RawMemory_plus (r : RawMemory) (offset : Z) : M ptr :=
  assert (offset <=? capacity_ r) >> ret (buffer_ r +p offset).

(** [operator[](size_t index)], as the address of the slot *)
Definition RawMemory_index (r : RawMemory) (index : Z) : M ptr :=
  assert (index <? capacity_ r) >> ret (buffer_ r +p index).

(** [Swap(RawMemory& other)]: the new [*this] and the new [other] *)
Definition RawMemory_Swap (this other : RawMemory) : RawMemory * RawMemory :=
  (mkRawMemory (buffer_ other) (capacity_ other),
   mkRawMemory (buffer_ this) (capacity_ this)).

Definition GetAddress (r : RawMemory) : ptr := buffer_ r.

Definition RawMemory_Capacity (r : RawMemory) : Z := capacity_ r.

(** ** Vector *)

(** Objects of class [Vector] live in the store [vecs]; a member
    function takes the address of [*this]. *)

Definition get (a : nat) : M Vector :=
  fun m =>
    match vecs m !! a with
    | Some v => Ret v m
    | None => Abort
    end.

Definition put (a : nat) (v : Vector) : M unit :=
  fun m => Ret tt (set_vecs <[a := v]> m).

Definition forget (a : nat) : M unit :=
  fun m => Ret tt (set_vecs (delete a) m).

(** Assignment to one data member of the object at [a] *)
Definition set_data (a : nat) (d : RawMemory) : M unit :=
  let* v := get a in put a (mkVector d (size_ v)).

Definition set_size (a : nat) (n : Z) : M unit :=
  let* v := get a in put a (mkVector (data_ v) n).

(** An address for a local [Vector] *)
Definition new_local : M nat :=
  fun m => Ret (fresh (dom (vecs m))) m.

(** [x.data_ = RawMemory<T>()]: move-assign from a temporary, which is
    then destroyed *)
Definition reset_data (a : nat) : M unit :=
  let* v := get a in
  let '(d, tmp) := RawMemory_move_assign (data_ v) RawMemory_default in
  set_data a d >>
  RawMemory_dtor tmp.

(** The relocation step shared by [Reserve] and the growing paths:
    the [if constexpr] on the two traits *)
Definition relocate (src : ptr) (n : Z) (dst : ptr) : M unit :=
  if is_nothrow_move_constructible || negb is_copy_constructible
  then uninitialized_move_n src n dst
  else uninitialized_copy_n src n dst.

(** [Vector()] *)
Definition Vector_default (this : nat) : M unit :=
  put this (mkVector RawMemory_default 0).

(** [Vector(size_t size)] *)
Definition Vector_sized (this : nat) (size : Z) : M unit :=
  let* d := RawMemory_ctor size in
  on_exception
    (uninitialized_value_construct_n (GetAddress d) size)
    (RawMemory_dtor d) >>
  put this (mkVector d size).

(** [Vector(const Vector& other)] *)
Definition Vector_copy (this other : nat) : M unit :=
  let* o := get other in
  let* d := RawMemory_ctor (size_ o) in
  on_exception
    (uninitialized_copy_n (GetAddress (data_ o)) (size_ o) (GetAddress d))
    (RawMemory_dtor d) >>
  put this (mkVector d (size_ o)).

(** [Vector(Vector&& other)] *)
Definition Vector_move (this other : nat) : M unit :=
  let* o := get other in
  let '(d, od) := RawMemory_move_ctor (data_ o) in
  set_data other od >>
  put this (mkVector d (size_ o)) >>
  reset_data other >>
  set_size other 0.

(** [~Vector()] *)
Definition Vector_dtor (this : nat) : M unit :=
  let* v := get this in
  destroy_n (GetAddress (data_ v)) (size_ v) >>
  RawMemory_dtor (data_ v) >>
  forget this.

Definition Size (this : nat) : M Z :=
  let* v := get this in ret (size_ v).

Definition Capacity (this : nat) : M Z :=
  let* v := get this in ret (RawMemory_Capacity (data_ v)).

(** [begin()] and [cbegin()] *)
Definition begin (this : nat) : M ptr :=
  let* v := get this in ret (GetAddress (data_ v)).

(** [end()] and [cend()] *)
Definition end_ (this : nat) : M ptr :=
  let* v := get this in RawMemory_plus (data_ v) (size_ v).

(** [operator[](size_t index)], as the address of the element *)
Definition Vector_index (this : nat) (index : Z) : M ptr :=
  let* v := get this in
  assert (index <? size_ v) >>
  RawMemory_index (data_ v) index.

(** [Swap(Vector& other)] *)
Definition Swap (this other : nat) : M unit :=
  let* t := get this in
  let* o := get other in
  let '(td, od) := RawMemory_Swap (data_ t) (data_ o) in
  set_data this td >>
  set_data other od >>
  let* t := get this in
  let* o := get other in
  set_size this (size_ o) >>
  set_size other (size_ t).

(** [operator=(const Vector& rhs)] *)
Definition Vector_copy_assign (this rhs : nat) : M unit :=
  if decide (this ≠ rhs) then
    let* t := get this in
    let* r := get rhs in
    if RawMemory_Capacity (data_ r) >? RawMemory_Capacity (data_ t) then
      let* rhs_copy := new_local in
      Vector_copy rhs_copy rhs >>
      Swap this rhs_copy >>
      Vector_dtor rhs_copy
    else if size_ t >? size_ r then
      let* it := copy_n (GetAddress (data_ r)) (size_ r) (GetAddress (data_ t)) in
      destroy_n it (wrap (size_ t - size_ r)) >>
      set_size this (size_ r)
    else
      let* it := copy_n (GetAddress (data_ r)) (size_ t) (GetAddress (data_ t)) in
      let rhs_it := GetAddress (data_ r) +p size_ t in
      uninitialized_copy_n rhs_it (wrap (size_ r - size_ t)) it >>
      set_size this (size_ r)
  else ret tt.

(** [operator=(Vector&& rhs)] *)
Definition Vector_move_assign (this rhs : nat) : M unit :=
  let* t := get this in
  let* r := get rhs in
  let '(td, rd) := RawMemory_move_assign (data_ t) (data_ r) in
  set_data this td >>
  set_data rhs rd >>
  let* r := get rhs in
  set_size this (size_ r) >>
  reset_data rhs >>
  set_size rhs 0.

(** [Reserve(size_t new_capacity)] *)
Definition Reserve (this : nat) (new_capacity : Z) : M unit :=
  let* v := get this in
  if new_capacity <=? RawMemory_Capacity (data_ v) then ret tt
  else
    let* new_data := RawMemory_ctor new_capacity in
    on_exception
      (relocate (GetAddress (data_ v)) (size_ v) (GetAddress new_data) >>
       destroy_n (GetAddress (data_ v)) (size_ v))
      (RawMemory_dtor new_data) >>
    let '(d, new_data) := RawMemory_Swap (data_ v) new_data in
    set_data this d >>
    RawMemory_dtor new_data.

(** [Resize(size_t new_size)] *)
Definition Resize (this : nat) (new_size : Z) : M unit :=
  let* v := get this in
  if decide (new_size = size_ v) then ret tt
  else if new_size <? size_ v then
    let it := GetAddress (data_ v) +p new_size in
    destroy_n it (wrap (size_ v - new_size)) >>
    set_size this new_size
  else
    Reserve this new_size >>
    let* v := get this in
    let it := GetAddress (data_ v) +p size_ v in
    uninitialized_value_construct_n it (wrap (new_size - size_ v)) >>
    set_size this new_size.

(** The capacity a full vector grows to *)
Definition grown (size : Z) : Z :=
  if decide (size = 0) then 1 else wrap (size * 2).

(** The tail shared by the four growing paths, after the elements
    have been built in [new_data]: destroy the old elements, take the
    new block, count the new element. *)
Definition adopt (this : nat) (new_data : RawMemory) : M unit :=
  let* v := get this in
  let '(d, new_data) := RawMemory_move_assign (data_ v) new_data in
  set_data this d >>
  let '(new_data, tmp) := RawMemory_move_assign new_data RawMemory_default in
  RawMemory_dtor tmp >>
  set_size this (wrap (size_ v + 1)) >>
  RawMemory_dtor new_data.

(** The body shared by [PushBack(const T&)], [PushBack(T&&)] and
    [EmplaceBack(Args&&...)], which differ in the constructor of the
    new element only; the result is the address of the new element. *)
Definition append (this : nat) (a : forwarded) : M ptr :=
  let* v := get this in
  if decide (size_ v = RawMemory_Capacity (data_ v)) then
    let* new_data := RawMemory_ctor (grown (size_ v)) in
    let* elem :=
      on_exception
        (let* p := RawMemory_plus new_data (size_ v) in
         placement_new p a >>
         relocate (GetAddress (data_ v)) (size_ v) (GetAddress new_data) >>
         destroy_n (GetAddress (data_ v)) (size_ v) >>
         ret p)
        (RawMemory_dtor new_data) in
    adopt this new_data >>
    ret elem
  else
    let* p := RawMemory_plus (data_ v) (size_ v) in
    placement_new p a >>
    set_size this (wrap (size_ v + 1)) >>
    ret p.

(** [PushBack(const T& value)] *)
Definition PushBack (this : nat) (value : T) : M unit :=
  append this (ByCopy value) >> ret tt.

(** [PushBack(T&& value)] *)
Definition PushBack_rvalue (this : nat) (value : rvalue) : M unit :=
  append this (std_move_rvalue value) >> ret tt.

(** [EmplaceBack(Args&&... args)] *)
Definition EmplaceBack (this : nat) (args : forwarded) : M ptr :=
  append this args.

(** [pos - begin()], converted to [size_t] *)
Definition index_of (this : nat) (pos : ptr) : M Z :=
  let* b := begin this in
  match ptr_diff pos b with
  | Some d => ret (wrap d)
  | None => abort
  end.

(** The body of [Emplace(const_iterator pos, Args&&... args)] *)
Definition emplace (this : nat) (pos : ptr) (a : forwarded) : M ptr :=
  let* index := index_of this pos in
  let* v := get this in
  (if decide (size_ v = index) then
     append this a >> ret tt
   else if decide (size_ v = RawMemory_Capacity (data_ v)) then
     let* new_data := RawMemory_ctor (grown (size_ v)) in
     on_exception
       (let* p := RawMemory_plus new_data index in
        placement_new p a >>
        let* src := RawMemory_plus (data_ v) index in
        let* dst := RawMemory_plus new_data (wrap (index + 1)) in
        relocate (GetAddress (data_ v)) index (GetAddress new_data) >>
        relocate src (wrap (size_ v - index)) dst >>
        destroy_n (GetAddress (data_ v)) (size_ v))
       (RawMemory_dtor new_data) >>
     adopt this new_data
   else
     let* elem := local_object a in
     on_exception
       (let* back := RawMemory_plus (data_ v) (size_ v) in
        let* last := RawMemory_plus (data_ v) (wrap (size_ v - 1)) in
        move_construct last back >>
        move_backward (GetAddress (data_ v) +p index)
                      (GetAddress (data_ v) +p wrap (size_ v - 1))
                      (GetAddress (data_ v) +p size_ v) >>
        let* p := RawMemory_index (data_ v) index in
        move_assign_local elem p >>
        set_size this (wrap (size_ v + 1)))
       (emit (EvDtor Local)) >>
     emit (EvDtor Local)) >>
  let* v := get this in
  RawMemory_plus (data_ v) index.

(** [Emplace(const_iterator pos, Args&&... args)] *)
Definition Emplace (this : nat) (pos : ptr) (args : forwarded) : M ptr :=
  emplace this pos args.

(** [Insert(const_iterator pos, const T& value)] *)
Definition Insert (this : nat) (pos : ptr) (value : T) : M ptr :=
  Emplace this pos (ByCopy value).

(** [Insert(const_iterator pos, T&& value)] *)
Definition Insert_rvalue (this : nat) (pos : ptr) (value : rvalue) : M ptr :=
  Emplace this pos (std_move_rvalue value).

(** [Erase(const_iterator pos)] *)
Definition Erase (this : nat) (pos : ptr) : M ptr :=
  let* index := index_of this pos in
  let* v := get this in
  let* first := RawMemory_plus (data_ v) (wrap (index + 1)) in
  let* last := RawMemory_plus (data_ v) (size_ v) in
  let* d_first := RawMemory_plus (data_ v) index in
  std_move first last d_first >>
  let* back := RawMemory_plus (data_ v) (wrap (size_ v - 1)) in
  destroy_at back >>
  set_size this (wrap (size_ v - 1)) >>
  RawMemory_plus (data_ v) index.

(** [PopBack()] *)
Definition PopBack (this : nat) : M unit :=
  let* v := get this in
  let* back := RawMemory_plus (data_ v) (wrap (size_ v - 1)) in
  destroy_at back >>
  set_size this (wrap (size_ v - 1)).

(** ** The public interface as data *)

(** One constructor per public member function, so that a property of
    every operation can be stated once. *)
Inductive call : Type :=
| CallDefault (this : nat)
| CallSized (this : nat) (size : Z)
| CallCopy (this other : nat)
| CallMove (this other : nat)
| CallDtor (this : nat)
| CallBegin (this : nat)
| CallEnd (this : nat)
| CallCopyAssign (this rhs : nat)
| CallMoveAssign (this rhs : nat)
| CallReserve (this : nat) (new_capacity : Z)
| CallResize (this : nat) (new_size : Z)
| CallPushBack (this : nat) (value : T)
| CallPushBackRvalue (this : nat) (value : rvalue)
| CallEmplaceBack (this : nat) (args : forwarded)
| CallEmplace (this : nat) (pos : ptr) (args : forwarded)
| CallInsert (this : nat) (pos : ptr) (value : T)
| CallInsertRvalue (this : nat) (pos : ptr) (value : rvalue)
| CallErase (this : nat) (pos : ptr)
| CallPopBack (this : nat)
| CallSwap (this other : nat)
| CallSize (this : nat)
| CallCapacity (this : nat)
| CallIndex (this : nat) (index : Z).

Definition exec (c : call) : M unit :=
  match c with
  | CallDefault this => Vector_default this
  | CallSized this size => Vector_sized this size
  | CallCopy this other => Vector_copy this other
  | CallMove this other => Vector_move this other
  | CallDtor this => Vector_dtor this
  | CallBegin this => begin this >> ret tt
  | CallEnd this => end_ this >> ret tt
  | CallCopyAssign this rhs => Vector_copy_assign this rhs
  | CallMoveAssign this rhs => Vector_move_assign this rhs
  | CallReserve this n => Reserve this n
  | CallResize this n => Resize this n
  | CallPushBack this value => PushBack this value
  | CallPushBackRvalue this value => PushBack_rvalue this value
  | CallEmplaceBack this args => EmplaceBack this args >> ret tt
  | CallEmplace this pos args => Emplace this pos args >> ret tt
  | CallInsert this pos value => Insert this pos value >> ret tt
  | CallInsertRvalue this pos value => Insert_rvalue this pos value >> ret tt
  | CallErase this pos => Erase this pos >> ret tt
  | CallPopBack this => PopBack this
  | CallSwap this other => Swap this other
  | CallSize this => Size this >> ret tt
  | CallCapacity this => Capacity this >> ret tt
  | CallIndex this index => Vector_index this index >> ret tt
  end.

(** The object a call constructs, if it is a constructor *)
Definition constructs (c : call) : option nat :=
  match c with
  | CallDefault this | CallSized this _ | CallCopy this _ | CallMove this _ =>
      Some this
  | _ => None
  end.

(** The vector a call inserts one element into, if it is one of
    [PushBack], [EmplaceBack], [Emplace] and [Insert] *)
Definition inserts_into (c : call) : option nat :=
  match c with
  | CallPushBack this _ | CallPushBackRvalue this _ | CallEmplaceBack this _
  | CallEmplace this _ _ | CallInsert this _ _ | CallInsertRvalue this _ _ =>
      Some this
  | _ => None
  end.

(** The vector and the arguments of the new element, for each of the
    six inserting calls *)
Definition inserts (c : call) : option (nat * forwarded) :=
  match c with
  | CallPushBack this value => Some (this, Values (ByCopy value))
  | CallPushBackRvalue this value => Some (this, std_move_rvalue value)
  | CallEmplaceBack this args => Some (this, args)
  | CallEmplace this _ args => Some (this, args)
  | CallInsert this _ value => Some (this, Values (ByCopy value))
  | CallInsertRvalue this _ value => Some (this, std_move_rvalue value)
  | _ => None
  end.

(** The same for the three calls that insert at the end *)
Definition appends (c : call) : option (nat * forwarded) :=
  match c with
  | CallPushBack _ _ | CallPushBackRvalue _ _ | CallEmplaceBack _ _ =>
      inserts c
  | _ => None
  end.

(** The calls that may hand a vector a smaller block: the exchanges
    of storage, and copy assignment, which swaps with a fresh copy *)
Definition may_shrink (c : call) : bool :=
  match c with
  | CallSwap _ _ | CallMove _ _ | CallMoveAssign _ _ | CallCopyAssign _ _ =>
      true
  | _ => false
  end.

(** Arguments of type [size_t] are in its range. *)
Definition args_representable (c : call) : Prop :=
  match c with
  | CallSized _ n | CallReserve _ n | CallResize _ n | CallIndex _ n =>
      in_size_t n
  | _ => True
  end.

(** [PushBack] of each value of a list in turn *)
Fixpoint push_all (this : nat) (values : list T) : M unit :=
  match values with
  | [] => ret tt
  | x :: rest => PushBack this x >> push_all this rest
  end.

(** The calls of a list, one after the other *)
Fixpoint exec_all (calls : list call) : M unit :=
  match calls with
  | [] => ret tt
  | c :: rest => exec c >> exec_all rest
  end.

(** ** The representation invariant and the logical contents *)

(** Both counters fit [size_t]. *)
Definition representable (v : Vector) : Prop :=
  in_size_t (size_ v) ∧ in_size_t (capacity_ (data_ v)).

(** [0 <= size <= capacity] *)
Definition invariant (v : Vector) : Prop :=
  0 <= size_ v <= capacity_ (data_ v).

Definition is_live (o : option T) : bool :=
  match o with Some _ => true | None => false end.

(** The block has exactly [cap] slots, the first [size] of them live
    and the others raw. *)
Definition block_ok (blk : block) (size cap : Z) : bool :=
  bool_decide (Z.of_nat (length blk) = cap)
  && forallb is_live (take (Z.to_nat size) blk)
  && forallb (fun o => negb (is_live o)) (drop (Z.to_nat size) blk).

(** The full representation invariant of a [Vector] in memory *)
Definition wf (m : mem) (v : Vector) : Prop :=
  representable v ∧ invariant v ∧
  match buffer_ (data_ v) with
  | Null => capacity_ (data_ v) = 0
  | Ptr b off =>
      off = 0 ∧
      match heap m !! b with
      | Some blk => block_ok blk (size_ v) (capacity_ (data_ v)) = true
      | None => False
      end
  end.

(** Every [Vector] of the store satisfies it. *)
Definition store_wf (m : mem) : Prop :=
  map_Forall (fun _ v => wf m v) (vecs m).

Definition store_invariant (m : mem) : Prop :=
  map_Forall (fun _ v => invariant v) (vecs m).

(** The live object at [p], if there is one *)
Definition live (m : mem) (p : ptr) : option T := slot m p ≫= id.

(** The values of the elements [0, size), in order *)
Definition contents (m : mem) (v : Vector) : option (list T) :=
  mapM (fun i => live m (GetAddress (data_ v) +p Z.of_nat i))
       (seq 0 (Z.to_nat (size_ v))).

(** The value a new element is constructed from, where the arguments
    are bound to a live object *)
Definition forwarded_value (m : mem) (a : forwarded) : option T :=
  match a with
  | Values a => Some (init_value a)
  | MoveOf src => live m src
  end.

(** Whether its construction throws *)
Definition forwarded_throws (m : mem) (a : forwarded) : bool :=
  match a with
  | Values a => init_throws a
  | MoveOf src =>
      match live m src with
      | Some x => move_throws x
      | None => false
      end
  end.

(** An rvalue reference among the arguments is bound to a live
    object. *)
Definition bound (a : forwarded) (m : mem) : Prop :=
  match a with
  | Values _ => True
  | MoveOf src => is_Some (live m src)
  end.

(** The memory once the object the arguments refer to has been moved
    from: that object is left as [moved_from] says, and nothing else
    changes.  Arguments that are values leave the memory as it is. *)
Definition moved_out (a : forwarded) (m : mem) : mem :=
  match a with
  | Values _ => m
  | MoveOf src =>
      match (let* x := load src in store src (Some (moved_from x))) m with
      | Ret _ m' => m'
      | _ => m
      end
  end.

(** The vector at [this] has no room for another element. *)
Definition full (this : nat) (m : mem) : Prop :=
  ∃ v, vecs m !! this = Some v ∧ size_ v = capacity_ (data_ v).

(** The memory once the arguments of a call have been moved from *)
Definition arguments_moved (c : call) (m : mem) : mem :=
  match inserts c with
  | Some (_, a) => moved_out a m
  | None => m
  end.

(** The memory in which the construction of the new element leaves
    the arguments: moved from, unless the constructor throws *)
Definition constructed_from (a : forwarded) (m : mem) : mem :=
  if forwarded_throws m a then m else moved_out a m.

(** The elements [l] of [v] once the arguments have been moved from:
    if an rvalue reference among them is bound to an element of [v],
    that element is left as [moved_from] says *)
Definition left_behind (v : Vector) (a : forwarded) (l : list T) : list T :=
  match a with
  | Values _ => l
  | MoveOf src =>
      match ptr_diff src (buffer_ (data_ v)) with
      | Some k =>
          if decide (0 <= k < size_ v)
          then alter moved_from (Z.to_nat k) l
          else l
      | None => l
      end
  end.

(** The events of relocating [n] elements from [src] to [dst] *)
Definition moves (src : ptr) (n : Z) (dst : ptr) : list event :=
  (fun i => EvMoveCtor (At (src +p Z.of_nat i)) (At (dst +p Z.of_nat i)))
    <$> seq 0 (Z.to_nat n).

Definition copies (src : ptr) (n : Z) (dst : ptr) : list event :=
  (fun i => EvCopyCtor (At (src +p Z.of_nat i)) (At (dst +p Z.of_nat i)))
    <$> seq 0 (Z.to_nat n).

Definition dtors (first : ptr) (n : Z) : list event :=
  (fun i => EvDtor (At (first +p Z.of_nat i))) <$> seq 0 (Z.to_nat n).

(** The relocation policy, as the [if constexpr] computes it *)
Definition relocates_by_move : bool :=
  is_nothrow_move_constructible || negb is_copy_constructible.

(** The events of a relocation under the policy *)
Definition relocation (src : ptr) (n : Z) (dst : ptr) : list event :=
  if relocates_by_move then moves src n dst else copies src n dst.

(** The events of an insertion at [index] that moves a full vector of
    [size] elements from [old] to the new block [b]: the new element
    first, then the elements before it, the elements after it, and the
    destruction of the old ones. *)
Definition growth_log (a : forwarded) (old : ptr) (size index : Z) (b : nat) :
    list event :=
  forwarded_event a (At (Ptr b index))
  :: relocation old index (Ptr b 0)
  ++ relocation (old +p index) (size - index) (Ptr b (index + 1))
  ++ dtors old size.

(** ** What a call does to the slots of the heap *)

(** [c] carries the object at [src] to [dst] and touches no other
    slot except [src] itself. *)
Definition transfers (c : M unit) (src dst : ptr) : Prop :=
  ∀ m1 m2, c m1 = Ret tt m2 →
    ∃ x, slot m1 src = Some (Some x) ∧ slot m2 dst = Some (Some x) ∧
         ∀ q, q ≠ src → q ≠ dst → slot m2 q = slot m1 q.

(** [c] changes the slot at [p] only. *)
Definition touches (c : M unit) (p : ptr) : Prop :=
  ∀ m1 m2, c m1 = Ret tt m2 → ∀ q, q ≠ p → slot m2 q = slot m1 q.

(** ** Relations between the memory before and after a call *)

(** [c] relates the memory it starts in to the memory it returns or
    throws in by [R]. *)
Definition respects {A} (R : mem → mem → Prop) (c : M A) : Prop :=
  ∀ m, match c m with
       | Ret _ m' => R m m'
       | Exc m' => R m m'
       | Abort => True
       end.

Definition same_vecs (m m' : mem) : Prop := vecs m' = vecs m.

Definition same_heap (m m' : mem) : Prop := heap m' = heap m.

Definition same_limit (m m' : mem) : Prop := max_alloc m' = max_alloc m.

(** No block appears, disappears or changes its length. *)
Definition same_shape (m m' : mem) : Prop :=
  ∀ b, length <$> heap m' !! b = length <$> heap m !! b.

Definition same_log (m m' : mem) : Prop := log m' = log m.

(** ** The store as a whole *)

(** The blocks for which [P] does not hold are as they were. *)
Definition outside (P : nat → Prop) (m m' : mem) : Prop :=
  ∀ c, ¬ P c → heap m' !! c = heap m !! c.

(** No two [Vector] objects hold the same block. *)
Definition separate (m : mem) : Prop :=
  ∀ a a' v v' b o o',
    vecs m !! a = Some v → vecs m !! a' = Some v' →
    buffer_ (data_ v) = Ptr b o → buffer_ (data_ v') = Ptr b o' → a = a'.

(** Every [Vector] is well formed and owns its block alone. *)
Definition sound (m : mem) : Prop := store_wf m ∧ separate m.


(** A member function changes the object at [this] from [v] to [v'],
    which keeps its block, holds a new one or holds none, and leaves
    every other object and every other block that was there alone. *)
Definition updates (this : nat) (v v' : Vector) (m m' : mem) : Prop :=
  vecs m' = <[this := v']> (vecs m) ∧
  (buffer_ (data_ v') = buffer_ (data_ v) ∨
   buffer_ (data_ v') = Null ∨
   ∃ nb, buffer_ (data_ v') = Ptr nb 0 ∧ heap m !! nb = None) ∧
  ∀ c, is_Some (heap m !! c) → (∀ o, buffer_ (data_ v) ≠ Ptr c o) →
       heap m' !! c = heap m !! c.


(** Two objects at different addresses do not hold the same block. *)
Definition apart (a a' : nat) (v v' : Vector) : Prop :=
  match buffer_ (data_ v), buffer_ (data_ v') with
  | Ptr b _, Ptr b' _ => b = b' → a = a'
  | _, _ => True
  end.


(** The element count of a growing [Reserve] times the element size
    fits [size_t]. *)
Definition no_overflow (c : call) : Prop :=
  match c with
  | CallReserve _ n => n * sizeof < size_t_modulus
  | _ => True
  end.


(** ** Exceptions *)

(** No exception leaves [c]. *)
Definition nothrow {A} (c : M A) : Prop := ∀ m m', c m ≠ Exc m'.

(** The member functions declared [noexcept] (the destructor is so
    implicitly), [Erase] apart, whose [noexcept] is conditional *)
Definition declared_noexcept (c : call) : bool :=
  match c with
  | CallMove _ _ | CallDtor _ | CallBegin _ | CallEnd _
  | CallMoveAssign _ _ | CallPopBack _ | CallSwap _ _
  | CallSize _ | CallCapacity _ | CallIndex _ _ => true
  | _ => false
  end.



(** Relocation by move cannot throw: when the [if constexpr] picks
    [uninitialized_move_n], the move constructor throws on no value
    (what [is_nothrow_move_constructible] promises; for a type that
    can only be moved it is an assumption). *)
Definition relocation_nothrow : Prop :=
  relocates_by_move = true → ∀ x : T, move_throws x = false.


(** No block appears, disappears or changes its length, and every
    slot holds an object in one memory exactly when it does in the
    other: no object has been created or destroyed. *)
Definition same_live (m m' : mem) : Prop :=
  same_shape m m' ∧ ∀ p, is_live <$> slot m' p = is_live <$> slot m p.


(** The calls that insert at a position, shifting the elements behind
    it by move assignment when there is room *)
Definition shifts (c : call) : bool :=
  match c with
  | CallEmplace _ _ _ | CallInsert _ _ _ | CallInsertRvalue _ _ _ => true
  | _ => false
  end.

(** The element count of a growing [Resize] times the element size
    fits [size_t]. *)
Definition resize_fits (c : call) : Prop :=
  match c with
  | CallResize _ n => n * sizeof < size_t_modulus
  | _ => True
  end.


(** The [Vector] objects a call is applied to: [*this] and the
    argument of type [Vector] *)
Definition operands (c : call) : list nat :=
  match c with
  | CallDefault this | CallSized this _ | CallDtor this
  | CallBegin this | CallEnd this
  | CallReserve this _ | CallResize this _
  | CallPushBack this _ | CallPushBackRvalue this _
  | CallEmplaceBack this _ | CallEmplace this _ _
  | CallInsert this _ _ | CallInsertRvalue this _ _
  | CallErase this _ | CallPopBack this
  | CallSize this | CallCapacity this | CallIndex this _ => [this]
  | CallCopy this other | CallMove this other
  | CallCopyAssign this other | CallMoveAssign this other
  | CallSwap this other => [this; other]
  end.


(** ** Running without undefined behaviour *)

(** [c], started in [m], does not abort: it returns a value and a
    memory that satisfy [Q], or throws in a memory that satisfies
    [E]. *)
Definition wp {A} (c : M A) (Q : A → mem → Prop) (E : mem → Prop)
    (m : mem) : Prop :=
  match c m with
  | Ret a m' => Q a m'
  | Exc m' => E m'
  | Abort => False
  end.

(** Objects have been created or overwritten and none destroyed: the
    [Vector] objects and the shape of the heap are the same, and
    every slot that held an object holds one. *)
Definition extends (m m' : mem) : Prop :=
  vecs m' = vecs m ∧ same_shape m m' ∧
  ∀ q, is_Some (live m q) → is_Some (live m' q).


(** [n] elements take a byte count that fits [size_t]. *)
Definition fits (n : Z) : Prop := n * sizeof < size_t_modulus.

(** What a caller owes each member function: the operands exist, a
    size is in the range of [size_t], a position lies inside the
    vector, [PopBack] has an element to remove, and the byte count of
    a block that may be requested fits [size_t]. *)
Definition precondition (c : call) (m : mem) : Prop :=
  match c with
  | CallDefault _ => True
  | CallSized _ n => in_size_t n ∧ fits n
  | CallCopy _ other => ∃ o, vecs m !! other = Some o ∧ fits (size_ o)
  | CallMove _ other => is_Some (vecs m !! other)
  | CallDtor this | CallBegin this | CallEnd this
  | CallSize this | CallCapacity this => is_Some (vecs m !! this)
  | CallCopyAssign this rhs =>
      is_Some (vecs m !! this) ∧
      ∃ r, vecs m !! rhs = Some r ∧ fits (size_ r)
  | CallMoveAssign this rhs | CallSwap this rhs =>
      is_Some (vecs m !! this) ∧ is_Some (vecs m !! rhs)
  | CallReserve this n | CallResize this n =>
      is_Some (vecs m !! this) ∧ in_size_t n ∧ fits n
  | CallPushBack this _ =>
      ∃ v, vecs m !! this = Some v ∧
           (size_ v = capacity_ (data_ v) → fits (Z.max 1 (2 * size_ v)))
  | CallPushBackRvalue this value =>
      bound (std_move_rvalue value) m ∧
      ∃ v, vecs m !! this = Some v ∧
           (size_ v = capacity_ (data_ v) → fits (Z.max 1 (2 * size_ v)))
  | CallEmplaceBack this args =>
      bound args m ∧
      ∃ v, vecs m !! this = Some v ∧
           (size_ v = capacity_ (data_ v) → fits (Z.max 1 (2 * size_ v)))
  | CallInsert this pos _ =>
      ∃ v i, vecs m !! this = Some v ∧
             (size_ v = capacity_ (data_ v) → fits (Z.max 1 (2 * size_ v))) ∧
             0 <= i <= size_ v ∧ pos = buffer_ (data_ v) +p i
  | CallInsertRvalue this pos value =>
      bound (std_move_rvalue value) m ∧
      ∃ v i, vecs m !! this = Some v ∧
             (size_ v = capacity_ (data_ v) → fits (Z.max 1 (2 * size_ v))) ∧
             0 <= i <= size_ v ∧ pos = buffer_ (data_ v) +p i
  | CallEmplace this pos args =>
      bound args m ∧
      ∃ v i, vecs m !! this = Some v ∧
             (size_ v = capacity_ (data_ v) → fits (Z.max 1 (2 * size_ v))) ∧
             0 <= i <= size_ v ∧ pos = buffer_ (data_ v) +p i
  | CallErase this pos =>
      ∃ v i, vecs m !! this = Some v ∧
             0 <= i < size_ v ∧ pos = buffer_ (data_ v) +p i
  | CallPopBack this => ∃ v, vecs m !! this = Some v ∧ 1 <= size_ v
  | CallIndex this i => ∃ v, vecs m !! this = Some v ∧ 0 <= i < size_ v
  end.


(** ** Exceptions of the vector's own *)

(** No special member function of [T] throws on any value. *)
Definition never_throws : Prop :=
  value_init_throws = false ∧ (∀ a, make_throws a = false) ∧
  ∀ x : T, copy_throws x = false ∧ move_throws x = false ∧
           copy_assign_throws x = false ∧ move_assign_throws x = false.

(** [c] does not throw where [operator new] grants every request
    that a [size_t] can express, and it leaves that limit alone. *)
Definition quiet {A} (c : M A) : Prop :=
  ∀ m, size_t_modulus <= max_alloc m →
    match c m with
    | Ret _ m' => max_alloc m' = max_alloc m
    | Exc _ => False
    | Abort => True
    end.

End Model.

Arguments Ret {T A} a m.
Arguments Exc {T A} m.
Arguments Abort {T A}.
Arguments mkMem {T} heap vecs log max_alloc.
Arguments same_vecs T m m' : clear implicits.
Arguments same_heap T m m' : clear implicits.
Arguments same_limit T m m' : clear implicits.
Arguments same_shape T m m' : clear implicits.
Arguments same_log T m m' : clear implicits.
Arguments transfers T c src dst : clear implicits.
Arguments touches T c p : clear implicits.
Arguments outside T P m m' : clear implicits.

Arguments nothrow T {A} c.
Arguments same_live T m m' : clear implicits.
Arguments extends T m m' : clear implicits.
Arguments quiet T {A} c.


Notation "'let*' x ':=' c 'in' f" := (bind c (fun x => f))
  (at level 10, x name, c at level 100, f at level 200).
Notation "c >> f" := (bind c (fun _ => f))
  (at level 100, f at level 200, right associativity).

(** The representation invariant can be checked by computation. *)
#[export] Instance wf_dec {T} `{Element T} (m : @mem T) (v : Vector) :
  Decision (wf m v).
Proof.
  unfold wf, representable, invariant, in_size_t.
  destruct (buffer_ (data_ v)) as [|b off]; [apply _|].
  destruct (heap m !! b); apply _.
Defined.

#[export] Instance store_wf_dec {T} `{Element T} (m : @mem T) :
  Decision (store_wf m).
Proof. unfold store_wf. apply _. Defined.

#[export] Instance apart_dec a a' v v' : Decision (apart a a' v v').
Proof.
  unfold apart.
  destruct (buffer_ (data_ v)), (buffer_ (data_ v')); apply _.
Defined.

(** Soundness of a store can be checked by computation. *)
#[export] Instance separate_dec {T} `{Element T} (m : @mem T) :
  Decision (separate m).
Proof.
  refine (cast_if (decide (map_Forall (fun a v =>
            map_Forall (fun a' v' => apart a a' v v') (vecs m)) (vecs m)))).
  - intros a a' v v' b o o' Ha Ha' Hb Hb'.
    specialize (m0 a v Ha a' v' Ha'). unfold apart in m0.
    rewrite Hb, Hb' in m0. by apply m0.
  - intros Hs. apply n. intros a v Ha a' v' Ha'. unfold apart.
    destruct (buffer_ (data_ v)) as [|b o] eqn:Hb; [done|].
    destruct (buffer_ (data_ v')) as [|b' o'] eqn:Hb'; [done|].
    intros <-. by apply (Hs a a' v v' b o o').
Defined.

#[export] Instance sound_dec {T} `{Element T} (m : @mem T) :
  Decision (sound m).
Proof. unfold sound. apply _. Defined.


(** ** An element type to run the code on *)

(** [T = long] with instrumented special members: copying a negative
    value throws, moving never does, and a moved-from object reads
    [-1]. *)
#[export] Program Instance Z_element : Element Z := {|
  Args := Z;
  value_init := 0;
  value_init_throws := false;
  make := fun a => a;
  make_throws := fun a => a <? 0;
  copy_throws := fun x => x <? 0;
  move_throws := fun _ => false;
  copy_assign_throws := fun x => x <? 0;
  move_assign_throws := fun _ => false;
  moved_from := fun _ => -1;
  is_nothrow_move_constructible := true;
  is_copy_constructible := true;
  sizeof := 8
|}.
Next Obligation. done. Qed.

(** A memory in which every allocation of at most 1024 bytes succeeds *)
Definition mem0 : @mem Z := empty_mem 1024.

(** The memory a computation ends in, or the starting one *)
Definition after {A} (c : @M Z A) (m : @mem Z) : @mem Z :=
  match c m with
  | Ret _ m' => m'
  | Exc m' => m'
  | Abort => m
  end.

(** A vector [1, 2] of capacity 2 at address 0 *)
Definition mem12 : @mem Z :=
  after (Vector_default 0 >> PushBack 0 1 >> PushBack 0 2) mem0.

(** An empty vector of capacity 4 at address 0 and a vector [7] of
    capacity 8 at address 1 *)
Definition mem_4_8 : @mem Z :=
  after (Vector_default 0 >> Reserve 0 4 >>
         Vector_default 1 >> Reserve 1 8 >> PushBack 1 7) mem0.

(** A vector [-5] at address 0 *)
Definition mem_neg : @mem Z :=
  after (Vector_default 0 >> PushBack_rvalue 0 (Temporary (-5))) mem0.

(** A vector [1, -5] of capacity 2 at address 0 *)
Definition mem_1_neg : @mem Z :=
  after (Vector_default 0 >> PushBack 0 1 >>
         PushBack_rvalue 0 (Temporary (-5))) mem0.


(** [long] again, with a move constructor that is not declared
    [noexcept], so that relocation copies, and a move assignment that
    throws on a negative value *)
Definition Z_fragile : Element Z := {|
  Args := Z;
  value_init := 0;
  value_init_throws := false;
  make := fun a => a;
  make_throws := fun a => a <? 0;
  copy_throws := fun x => x <? 0;
  move_throws := fun _ => false;
  copy_assign_throws := fun x => x <? 0;
  move_assign_throws := fun x => x <? 0;
  moved_from := fun _ => -1;
  is_nothrow_move_constructible := false;
  is_copy_constructible := true;
  sizeof := 8;
  sizeof_pos := eq_refl
|}.


(** [long] as the language has it: no operation on it throws *)
Definition Z_plain : Element Z := {|
  Args := Z;
  value_init := 0;
  value_init_throws := false;
  make := fun a => a;
  make_throws := fun _ => false;
  copy_throws := fun _ => false;
  move_throws := fun _ => false;
  copy_assign_throws := fun _ => false;
  move_assign_throws := fun _ => false;
  moved_from := fun x => x;
  is_nothrow_move_constructible := true;
  is_copy_constructible := true;
  sizeof := 8;
  sizeof_pos := eq_refl
|}.

(** A memory in which every allocation succeeds *)
Definition mem_unbounded : @mem Z := empty_mem size_t_modulus.


(** ** Proofs *)

Section Proofs.

Context {T : Type} `{Element T}.

Implicit Types (m : @mem T) (v : Vector) (p : ptr).

Lemma bind_Ret {A B} (c : M A) (f : A → M B) m b m' :
  bind c f m = Ret b m' → ∃ a m1, c m = Ret a m1 ∧ f a m1 = Ret b m'.
Proof. unfold bind. destruct (c m); naive_solver. Qed.

Lemma bind_Exc {A B} (c : M A) (f : A → M B) m m' :
  bind c f m = Exc m' →
  c m = Exc m' ∨ ∃ a m1, c m = Ret a m1 ∧ f a m1 = Exc m'.
Proof. unfold bind. destruct (c m); naive_solver. Qed.

Lemma on_exception_Ret {A} (c : M A) h m a m' :
  on_exception c h m = Ret a m' → c m = Ret a m'.
Proof. unfold on_exception. destruct (c m); [done| |done]. by destruct (h _). Qed.

Lemma on_exception_Exc {A} (c : M A) h m m' :
  on_exception c h m = Exc m' → ∃ m1, c m = Exc m1 ∧ h m1 = Ret tt m'.
Proof.
  unfold on_exception. destruct (c m) as [| m1 |]; [done| |done].
  destruct (h m1) as [[] m2| |] eqn:E; naive_solver.
Qed.

(** *** The combinators respect every preorder *)

Section Respects.

Context (R : @mem T → @mem T → Prop) `{!PreOrder R}.

Lemma respects_Ret {A} (c : M A) m a m' :
  respects R c → c m = Ret a m' → R m m'.
Proof. intros Hc E. specialize (Hc m). by rewrite E in Hc. Qed.

Lemma respects_Exc {A} (c : M A) m m' :
  respects R c → c m = Exc m' → R m m'.
Proof. intros Hc E. specialize (Hc m). by rewrite E in Hc. Qed.

Lemma respects_ret {A} (a : A) : respects R (ret a).
Proof. intros m. simpl. reflexivity. Qed.

Lemma respects_throw {A} : respects R (@throw T A).
Proof. intros m. simpl. reflexivity. Qed.

Lemma respects_abort {A} : respects R (@abort T A).
Proof. by intros m. Qed.

Lemma respects_assert c : respects R (assert c).
Proof. destruct c; [apply respects_ret | apply respects_abort]. Qed.

Lemma respects_bind {A B} (c : M A) (f : A → M B) :
  respects R c → (∀ a, respects R (f a)) → respects R (bind c f).
Proof.
  intros Hc Hf m. unfold bind. specialize (Hc m).
  destruct (c m) as [a m1| |]; [|done..].
  specialize (Hf a m1). destruct (f a m1); [|by etrans|done]. by etrans.
Qed.

Lemma respects_on_exception {A} (c : M A) h :
  respects R c → respects R h → respects R (on_exception c h).
Proof.
  intros Hc Hh m. unfold on_exception. specialize (Hc m).
  destruct (c m) as [|m1|]; [done| |done].
  specialize (Hh m1). destruct (h m1); [by etrans|done..].
Qed.

Lemma respects_for_n k i body :
  (∀ j, respects R (body j)) → respects R (for_n k i body).
Proof.
  intros Hb. revert i. induction k as [|k IH]; intros i; simpl.
  - apply respects_ret.
  - apply respects_bind; [apply Hb | intros _; apply IH].
Qed.

End Respects.

(** *** The relations are preorders *)

#[local] Instance same_vecs_preorder : PreOrder (same_vecs T).
Proof. split; [done|]. intros x y z. unfold same_vecs. congruence. Qed.

#[local] Instance same_heap_preorder : PreOrder (same_heap T).
Proof. split; [done|]. intros x y z. unfold same_heap. congruence. Qed.

#[local] Instance same_limit_preorder : PreOrder (same_limit T).
Proof. split; [done|]. intros x y z. unfold same_limit. congruence. Qed.

#[local] Instance same_shape_preorder : PreOrder (same_shape T).
Proof.
  split; [done|]. intros x y z Hxy Hyz b. by rewrite Hyz, Hxy.
Qed.

#[local] Instance same_log_preorder : PreOrder (same_log T).
Proof. split; [done|]. intros x y z. unfold same_log. congruence. Qed.

(** *** What each primitive leaves alone *)

Ltac prim :=
  let m := fresh "m" in
  intros m;
  unfold emit, operator_new, operator_delete, load, store, get, put, forget,
    new_local;
  repeat case_match; simplify_eq;
  unfold same_vecs, same_heap, same_limit, same_shape, same_log; simpl;
  try done.

Lemma emit_same_vecs e : respects (same_vecs T) (emit e).
Proof. prim. Qed.
Lemma operator_new_same_vecs n : respects (same_vecs T) (operator_new n).
Proof. prim. Qed.
Lemma operator_delete_same_vecs p : respects (same_vecs T) (operator_delete p).
Proof. prim. Qed.
Lemma load_same_vecs p : respects (same_vecs T) (load p).
Proof. prim. Qed.
Lemma store_same_vecs p o : respects (same_vecs T) (store p o).
Proof. prim. Qed.

Lemma emit_same_heap e : respects (same_heap T) (emit e).
Proof. prim. Qed.
Lemma load_same_heap p : respects (same_heap T) (load p).
Proof. prim. Qed.
Lemma get_same_heap a : respects (same_heap T) (get a).
Proof. prim. Qed.
Lemma put_same_heap a v : respects (same_heap T) (put a v).
Proof. prim. Qed.
Lemma forget_same_heap a : respects (same_heap T) (forget a).
Proof. prim. Qed.
Lemma new_local_same_heap : respects (same_heap T) new_local.
Proof. prim. Qed.

Lemma emit_same_limit e : respects (same_limit T) (emit e).
Proof. prim. Qed.
Lemma operator_new_same_limit n : respects (same_limit T) (operator_new n).
Proof. prim. Qed.
Lemma operator_delete_same_limit p : respects (same_limit T) (operator_delete p).
Proof. prim. Qed.
Lemma load_same_limit p : respects (same_limit T) (load p).
Proof. prim. Qed.
Lemma store_same_limit p o : respects (same_limit T) (store p o).
Proof. prim. Qed.
Lemma get_same_limit a : respects (same_limit T) (get a).
Proof. prim. Qed.
Lemma put_same_limit a v : respects (same_limit T) (put a v).
Proof. prim. Qed.
Lemma forget_same_limit a : respects (same_limit T) (forget a).
Proof. prim. Qed.
Lemma new_local_same_limit : respects (same_limit T) new_local.
Proof. prim. Qed.

Lemma emit_same_shape e : respects (same_shape T) (emit e).
Proof. prim. Qed.
Lemma load_same_shape p : respects (same_shape T) (load p).
Proof. prim. Qed.
Lemma store_same_shape p o : respects (same_shape T) (store p o).
Proof.
  prim. intros c. rewrite lookup_alter. case_decide; [|done]. simplify_eq.
  rewrite <- option_fmap_compose. apply option_fmap_ext. intros blk.
  unfold compose. apply length_insert.
Qed.
Lemma get_same_shape a : respects (same_shape T) (get a).
Proof. prim. Qed.
Lemma put_same_shape a v : respects (same_shape T) (put a v).
Proof. prim. Qed.
Lemma forget_same_shape a : respects (same_shape T) (forget a).
Proof. prim. Qed.
Lemma new_local_same_shape : respects (same_shape T) new_local.
Proof. prim. Qed.

Lemma operator_new_same_log n : respects (same_log T) (operator_new n).
Proof. prim. Qed.
Lemma operator_delete_same_log p : respects (same_log T) (operator_delete p).
Proof. prim. Qed.
Lemma load_same_log p : respects (same_log T) (load p).
Proof. prim. Qed.
Lemma store_same_log p o : respects (same_log T) (store p o).
Proof. prim. Qed.
Lemma get_same_log a : respects (same_log T) (get a).
Proof. prim. Qed.
Lemma put_same_log a v : respects (same_log T) (put a v).
Proof. prim. Qed.
Lemma forget_same_log a : respects (same_log T) (forget a).
Proof. prim. Qed.
Lemma new_local_same_log : respects (same_log T) new_local.
Proof. prim. Qed.

Create HintDb respects discriminated.

#[local] Hint Resolve emit_same_vecs operator_new_same_vecs
  operator_delete_same_vecs load_same_vecs store_same_vecs
  emit_same_heap load_same_heap get_same_heap put_same_heap forget_same_heap
  new_local_same_heap
  emit_same_limit operator_new_same_limit operator_delete_same_limit
  load_same_limit store_same_limit get_same_limit put_same_limit
  forget_same_limit new_local_same_limit
  emit_same_shape load_same_shape store_same_shape get_same_shape
  put_same_shape forget_same_shape new_local_same_shape
  operator_new_same_log operator_delete_same_log load_same_log
  store_same_log get_same_log put_same_log forget_same_log
  new_local_same_log : respects.

(** Decompose a goal [respects R c] along the structure of [c]. *)
Ltac respects_step :=
  match goal with
  | |- respects _ (ret _) => apply respects_ret; typeclasses eauto
  | |- respects _ (bind _ _) =>
      apply respects_bind; [typeclasses eauto | | intros ?]
  | |- respects _ throw => apply respects_throw; typeclasses eauto
  | |- respects _ abort => apply respects_abort
  | |- respects _ (assert _) => apply respects_assert; typeclasses eauto
  | |- respects _ (on_exception _ _) =>
      apply respects_on_exception; [typeclasses eauto | |]
  | |- respects _ (for_n _ _ _) =>
      apply respects_for_n; [typeclasses eauto | intros ?]
  | |- respects _ (if ?c then _ else _) => destruct c
  | |- respects _ (match ?x with _ => _ end) => destruct x
  end.

Ltac solve_respects :=
  repeat first
    [ respects_step
    | solve [eauto with respects]
    | progress unfold placement_new, local_object,
        construct_at, construct_local, value_construct_at,
        copy_construct, move_construct, copy_assign, move_assign,
        move_assign_local, destroy_at, destroy_n,
        uninitialized_value_construct_n, uninitialized_copy_n,
        uninitialized_move_n, copy_n, distance, std_move, move_backward,
        Allocate, Deallocate, RawMemory_ctor, RawMemory_dtor, RawMemory_plus,
        RawMemory_index, relocate, set_data, set_size, reset_data ].

(** The heap-level code never touches a [Vector] object. *)
Lemma destroy_n_same_vecs p n : respects (same_vecs T) (destroy_n p n).
Proof. solve_respects. Qed.
Lemma relocate_same_vecs src n dst : respects (same_vecs T) (relocate src n dst).
Proof. solve_respects. Qed.
Lemma uninitialized_value_construct_n_same_vecs p n :
  respects (same_vecs T) (uninitialized_value_construct_n p n).
Proof. solve_respects. Qed.
Lemma uninitialized_copy_n_same_vecs src n dst :
  respects (same_vecs T) (uninitialized_copy_n src n dst).
Proof. solve_respects. Qed.
Lemma copy_n_same_vecs src n dst : respects (same_vecs T) (copy_n src n dst).
Proof. solve_respects. Qed.
Lemma std_move_same_vecs a b c : respects (same_vecs T) (std_move a b c).
Proof. solve_respects. Qed.
Lemma move_backward_same_vecs a b c : respects (same_vecs T) (move_backward a b c).
Proof. solve_respects. Qed.
Lemma construct_at_same_vecs p a : respects (same_vecs T) (construct_at p a).
Proof. solve_respects. Qed.
Lemma construct_local_same_vecs a : respects (same_vecs T) (construct_local a).
Proof. solve_respects. Qed.
Lemma move_construct_same_vecs a b : respects (same_vecs T) (move_construct a b).
Proof. solve_respects. Qed.
Lemma move_assign_local_same_vecs x p : respects (same_vecs T) (move_assign_local x p).
Proof. solve_respects. Qed.
Lemma destroy_at_same_vecs p : respects (same_vecs T) (destroy_at p).
Proof. solve_respects. Qed.
Lemma RawMemory_ctor_same_vecs n : respects (same_vecs T) (RawMemory_ctor n).
Proof. solve_respects. Qed.
Lemma RawMemory_dtor_same_vecs r : respects (same_vecs T) (RawMemory_dtor r).
Proof. solve_respects. Qed.
Lemma RawMemory_plus_same_vecs r n : respects (same_vecs T) (RawMemory_plus r n).
Proof. solve_respects. Qed.
Lemma RawMemory_index_same_vecs r n : respects (same_vecs T) (RawMemory_index r n).
Proof. solve_respects. Qed.

(** *** Running the store operations forward *)

Lemma mem_eq m1 m2 :
  heap m1 = heap m2 → vecs m1 = vecs m2 → log m1 = log m2 →
  max_alloc m1 = max_alloc m2 → m1 = m2.
Proof. destruct m1, m2; simpl; congruence. Qed.

Lemma run_bind {A B} (c : M A) (f : A → M B) m a m1 :
  c m = Ret a m1 → bind c f m = f a m1.
Proof. intros E. unfold bind. by rewrite E. Qed.

Lemma get_Some a v m : vecs m !! a = Some v → get a m = Ret v m.
Proof. intros E. unfold get. by rewrite E. Qed.

Lemma put_eq a v m : put a v m = Ret tt (set_vecs <[a := v]> m).
Proof. done. Qed.

Lemma set_data_Some a d v m :
  vecs m !! a = Some v →
  set_data a d m = Ret tt (set_vecs <[a := mkVector d (size_ v)]> m).
Proof.
  intros E. unfold set_data.
  by rewrite (run_bind _ _ _ _ _ (get_Some _ _ _ E)).
Qed.

Lemma set_size_Some a n v m :
  vecs m !! a = Some v →
  set_size a n m = Ret tt (set_vecs <[a := mkVector (data_ v) n]> m).
Proof.
  intros E. unfold set_size.
  by rewrite (run_bind _ _ _ _ _ (get_Some _ _ _ E)).
Qed.

Lemma reset_data_Some a v m :
  vecs m !! a = Some v →
  reset_data a m =
    Ret tt (set_vecs <[a := mkVector RawMemory_default (size_ v)]> m).
Proof.
  intros E. unfold reset_data.
  rewrite (run_bind _ _ _ _ _ (get_Some _ _ _ E)). simpl.
  by rewrite (run_bind _ _ _ _ _ (set_data_Some _ _ _ _ E)).
Qed.

(** *** Reading a successful run backwards *)

Lemma ret_Ret {A} (a b : A) m m' : ret a m = Ret b m' → a = b ∧ m = m'.
Proof. unfold ret. by intros [= -> ->]. Qed.

Lemma get_Ret a m v m' : get a m = Ret v m' → m' = m ∧ vecs m !! a = Some v.
Proof. unfold get. destruct (vecs m !! a); by intros [= -> ->]. Qed.

Lemma put_Ret a v m u m' : put a v m = Ret u m' → m' = set_vecs <[a := v]> m.
Proof. unfold put. by intros [= <-]. Qed.

Lemma assert_Ret c m u m' : assert c m = Ret u m' → c = true ∧ m' = m.
Proof. destruct c; simpl; [|done]. unfold ret. by intros [= <-]. Qed.

Lemma set_data_Ret a d m u m' :
  set_data a d m = Ret u m' →
  ∃ v, vecs m !! a = Some v ∧ m' = set_vecs <[a := mkVector d (size_ v)]> m.
Proof.
  unfold set_data. intros (v & m1 & [-> E]%get_Ret & ->%put_Ret)%bind_Ret. eauto.
Qed.

Lemma set_size_Ret a n m u m' :
  set_size a n m = Ret u m' →
  ∃ v, vecs m !! a = Some v ∧ m' = set_vecs <[a := mkVector (data_ v) n]> m.
Proof.
  unfold set_size. intros (v & m1 & [-> E]%get_Ret & ->%put_Ret)%bind_Ret. eauto.
Qed.

Lemma reset_data_Ret a m u m' :
  reset_data a m = Ret u m' →
  ∃ v, vecs m !! a = Some v ∧
       m' = set_vecs <[a := mkVector RawMemory_default (size_ v)]> m.
Proof.
  unfold reset_data. intros (v & m1 & [-> E]%get_Ret & E2)%bind_Ret.
  simpl in E2. apply bind_Ret in E2 as (u1 & m2 & E2 & E3).
  rewrite (set_data_Some _ _ _ _ E) in E2. exists v. split; [done|].
  unfold RawMemory_dtor, Deallocate, operator_delete in E3. simpl in E3. by simplify_eq.
Qed.

Lemma RawMemory_plus_Ret r n m p m' :
  RawMemory_plus r n m = Ret p m' →
  n <= capacity_ r ∧ p = buffer_ r +p n ∧ m' = m.
Proof.
  unfold RawMemory_plus.
  intros (u & m1 & [E ->]%assert_Ret & [<- <-]%ret_Ret)%bind_Ret.
  split; [lia|done].
Qed.

Lemma RawMemory_index_Ret r n m p m' :
  RawMemory_index r n m = Ret p m' →
  n < capacity_ r ∧ p = buffer_ r +p n ∧ m' = m.
Proof.
  unfold RawMemory_index.
  intros (u & m1 & [E ->]%assert_Ret & [<- <-]%ret_Ret)%bind_Ret.
  split; [lia|done].
Qed.

(** Take a successful run apart, one call at a time. *)
Ltac inv_step :=
  match goal with
  | H : placement_new _ (Values _) _ = _ |- _ =>
      progress cbn [placement_new] in H
  | H : local_object (Values _) _ = _ |- _ =>
      progress cbn [local_object] in H
  | H : bind _ _ _ = Ret _ _ |- _ =>
      apply bind_Ret in H; destruct H as (? & ? & ? & H); cbv beta in H
  | H : ret _ _ = Ret _ _ |- _ => apply ret_Ret in H; destruct H; subst
  | H : get _ _ = Ret _ _ |- _ => apply get_Ret in H; destruct H; subst
  | H : put _ _ _ = Ret _ _ |- _ => apply put_Ret in H; subst
  | H : assert _ _ = Ret _ _ |- _ => apply assert_Ret in H; destruct H; subst
  | H : set_data _ _ _ = Ret _ _ |- _ =>
      apply set_data_Ret in H; destruct H as (? & ? & ?); subst
  | H : set_size _ _ _ = Ret _ _ |- _ =>
      apply set_size_Ret in H; destruct H as (? & ? & ?); subst
  | H : reset_data _ _ = Ret _ _ |- _ =>
      apply reset_data_Ret in H; destruct H as (? & ? & ?); subst
  | H : RawMemory_plus _ _ _ = Ret _ _ |- _ =>
      apply RawMemory_plus_Ret in H; destruct H as (? & ? & ?); subst
  | H : RawMemory_index _ _ _ = Ret _ _ |- _ =>
      apply RawMemory_index_Ret in H; destruct H as (? & ? & ?); subst
  | H : on_exception _ _ _ = Ret _ _ |- _ => apply on_exception_Ret in H
  | H : abort _ = Ret _ _ |- _ => discriminate H
  | H : throw _ = Ret _ _ |- _ => discriminate H
  | H : (if ?c then _ else _) _ = Ret _ _ |- _ => destruct c eqn:?
  | H : (if ?c then _ else _) = Ret _ _ |- _ => destruct c eqn:?
  | H : (let '(_, _) := ?x in _) _ = Ret _ _ |- _ => destruct x eqn:?
  | H : (match ?x with _ => _ end) _ = Ret _ _ |- _ => destruct x eqn:?
  end.

(** Comparisons of the code, as propositions *)
Ltac bool_to_prop :=
  match goal with
  | u : unit |- _ => destruct u
  | H : (_ <=? _) = true |- _ => apply Z.leb_le in H
  | H : (_ <=? _) = false |- _ => apply Z.leb_gt in H
  | H : (_ <? _) = true |- _ => apply Z.ltb_lt in H
  | H : (_ <? _) = false |- _ => apply Z.ltb_ge in H
  | H : (_ >? _) = true |- _ => rewrite Z.gtb_ltb in H; apply Z.ltb_lt in H
  | H : (_ >? _) = false |- _ => rewrite Z.gtb_ltb in H; apply Z.ltb_ge in H
  | H : decide _ = left _ |- _ => clear H
  | H : decide _ = right _ |- _ => clear H
  end.

Ltac inv_M := repeat first [inv_step | bool_to_prop]; simplify_eq.

(** The store after a heap-level call is the store before it. *)
Ltac frame_vecs :=
  repeat match goal with
  | E : ?c ?m = Ret _ ?m' |- _ =>
      lazymatch goal with
      | _ : vecs m' = vecs m |- _ => fail
      | _ => idtac
      end;
      let Hv := fresh "Hv" in
      assert (Hv : vecs m' = vecs m)
        by (eapply (respects_Ret (same_vecs T)); [|exact E]; solve_respects)
  end.


(** *** Arithmetic of [size_t] *)

Lemma wrap_small z : in_size_t z → wrap z = z.
Proof. intros Hz. apply Z.mod_small. exact Hz. Qed.

Lemma wrap_range z : in_size_t (wrap z).
Proof. apply Z.mod_pos_bound. done. Qed.

Lemma wrap_minus_one z : in_size_t z → wrap (z - 1) = if decide (z = 0) then size_t_modulus - 1 else z - 1.
Proof.
  intros Hz. case_decide; subst.
  - done.
  - apply wrap_small. unfold in_size_t in *. lia.
Qed.

Lemma wrap_double z :
  in_size_t z → wrap (z * 2) = if decide (z * 2 < size_t_modulus) then z * 2 else z * 2 - size_t_modulus.
Proof.
  intros Hz. unfold in_size_t, wrap in *. case_decide.
  - apply Z.mod_small. lia.
  - symmetry. apply (Z.mod_unique _ _ 1); lia.
Qed.

(** A full vector that grows and keeps its elements has doubled. *)
Lemma grown_spec s :
  in_size_t s → s <= grown s →
  grown s = Z.max 1 (2 * s) ∧ s + 1 <= grown s ∧ in_size_t (grown s).
Proof.
  intros Hs Hle. unfold grown in *. case_decide; subst.
  - done.
  - pose proof (wrap_range (s * 2)) as Hr. rewrite wrap_double in * by done.
    unfold in_size_t in *. case_decide; lia.
Qed.


(** Rewrite the store of every intermediate memory into the store of
    the first one. *)
Ltac tidy_vecs :=
  frame_vecs; cbn [vecs set_vecs] in *;
  repeat match goal with
  | Hv : vecs ?m' = _ |- _ => is_var m'; progress (rewrite Hv in * )
  end;
  simplify_map_eq.

(** *** What a live slot says about a well-formed vector *)

Lemma slot_Ptr m b i o :
  slot m (Ptr b i) = Some o ↔
  0 <= i ∧ ∃ blk, heap m !! b = Some blk ∧ blk !! Z.to_nat i = Some o.
Proof.
  unfold slot. destruct (Z.leb_spec 0 i).
  - destruct (heap m !! b) as [blk|]; simpl.
    + split; [intros E; split; [done|by exists blk] |].
      by intros (_ & blk' & [= <-] & E).
    + split; [done|]. by intros (_ & blk' & [=] & _).
  - split; [done|]. lia.
Qed.

Lemma wf_slot m v i o :
  wf m v → slot m (buffer_ (data_ v) +p i) = Some o →
  0 <= i < capacity_ (data_ v) ∧ (is_live o = true ↔ i < size_ v).
Proof.
  intros (_ & [Hs0 Hsc] & Hb). destruct (buffer_ (data_ v)) as [|b off]; [done|].
  destruct Hb as [-> Hb]. simpl. rewrite Z.add_0_l.
  intros (Hi & blk & Eb & Ei)%slot_Ptr. rewrite Eb in Hb.
  unfold block_ok in Hb. apply andb_prop in Hb as [[Hl Hlive]%andb_prop Hraw].
  apply bool_decide_eq_true in Hl.
  apply lookup_lt_Some in Ei as Hlt. split; [lia|].
  destruct (decide (i < size_ v)) as [Hlt'|Hge].
  - split; [done|intros _].
    rewrite forallb_forall in Hlive. apply Hlive. apply list_elem_of_In.
    apply (list_elem_of_lookup_2 _ (Z.to_nat i)). rewrite lookup_take_lt by lia. done.
  - split; [|done]. intros Hl'.
    rewrite forallb_forall in Hraw.
    assert (negb (is_live o) = true) as Hn; [|by rewrite Hl' in Hn].
    apply Hraw. apply list_elem_of_In.
    apply (list_elem_of_lookup_2 _ (Z.to_nat i - Z.to_nat (size_ v))).
    rewrite lookup_drop. rewrite <- Ei. f_equal. lia.
Qed.

Lemma wf_live m v i x :
  wf m v → slot m (buffer_ (data_ v) +p i) = Some (Some x) → 0 <= i < size_ v.
Proof.
  intros Hwf Hs. destruct (wf_slot _ _ _ _ Hwf Hs) as [Hr Hl].
  split; [lia|]. by apply Hl.
Qed.

Lemma load_Ret p m x m' :
  load p m = Ret x m' → m' = m ∧ slot m p = Some (Some x).
Proof.
  unfold load. destruct (slot m p) as [[y|]|]; [|done..]. by intros [= -> ->].
Qed.

Lemma destroy_at_live p m u m' :
  destroy_at p m = Ret u m' → ∃ x, slot m p = Some (Some x).
Proof.
  unfold destroy_at. intros (x & m1 & [-> E]%load_Ret & _)%bind_Ret. eauto.
Qed.

(** *** The effect of each member function on the store *)


Lemma RawMemory_eta (r : RawMemory) :
  mkRawMemory (buffer_ r) (capacity_ r) = r.
Proof. by destruct r. Qed.

Lemma Vector_eta v : mkVector (data_ v) (size_ v) = v.
Proof. by destruct v. Qed.

(** Name what the moves and swaps of [RawMemory] values return. *)
Ltac inv_raw :=
  repeat match goal with
  | H : RawMemory_move_assign _ _ = _ |- _ =>
      unfold RawMemory_move_assign in H; cbn [buffer_ capacity_] in H;
      rewrite ?RawMemory_eta in H; simplify_eq
  | H : RawMemory_move_ctor _ = _ |- _ =>
      unfold RawMemory_move_ctor in H; cbn [buffer_ capacity_] in H;
      rewrite ?RawMemory_eta in H; simplify_eq
  | H : RawMemory_Swap _ _ = _ |- _ =>
      unfold RawMemory_Swap in H; rewrite ?RawMemory_eta in H; simplify_eq
  end.

Ltac inv_vecs := inv_M; inv_raw; tidy_vecs; rewrite ?Vector_eta in *.

Lemma Erase_vecs this pos m it m' v :
  vecs m !! this = Some v →
  Erase this pos m = Ret it m' →
  vecs m' = <[this := mkVector (data_ v) (wrap (size_ v - 1))]> (vecs m) ∧
  wrap (size_ v - 1) <= capacity_ (data_ v).
Proof.
  intros Hv E. unfold Erase, index_of, begin in E. inv_vecs; done.
Qed.

Lemma PopBack_vecs this m m' v :
  vecs m !! this = Some v →
  PopBack this m = Ret tt m' →
  vecs m' = <[this := mkVector (data_ v) (wrap (size_ v - 1))]> (vecs m) ∧
  wrap (size_ v - 1) <= capacity_ (data_ v).
Proof.
  intros Hv E. unfold PopBack in E. inv_vecs; done.
Qed.

Lemma RawMemory_ctor_capacity n m r m' :
  RawMemory_ctor n m = Ret r m' → capacity_ r = n.
Proof. unfold RawMemory_ctor. intros E. by inv_M. Qed.

Lemma adopt_vecs this new_data m m' v :
  vecs m !! this = Some v →
  adopt this new_data m = Ret tt m' →
  vecs m' = <[this := mkVector new_data (wrap (size_ v + 1))]> (vecs m).
Proof.
  intros Hv E. unfold adopt in E. inv_vecs. by rewrite insert_insert_eq.
Qed.

Lemma append_vecs this a m p m' v :
  vecs m !! this = Some v →
  append this a m = Ret p m' →
  ∃ d, vecs m' = <[this := mkVector d (wrap (size_ v + 1))]> (vecs m) ∧
       size_ v <= capacity_ d ∧
       ((size_ v ≠ capacity_ (data_ v) ∧ d = data_ v) ∨
        (size_ v = capacity_ (data_ v) ∧ capacity_ d = grown (size_ v))).
Proof.
  intros Hv E. unfold append in E. inv_M.
  - match goal with E : RawMemory_ctor _ _ = _ |- _ =>
      pose proof (RawMemory_ctor_capacity _ _ _ _ E) as Hc end.
    match goal with E : adopt _ _ ?m3 = _ |- _ =>
      assert (Hx : vecs m3 = vecs m) by (frame_vecs; congruence);
      eapply adopt_vecs in E; [|rewrite Hx; eassumption]; rewrite Hx in E end.
    simplify_eq. unfold RawMemory_Capacity in *.
    eexists; split; [done|]. split; [lia|]. right. done.
  - inv_vecs. unfold RawMemory_Capacity in *. eexists; split; [done|]. split; [done|]. by left.
Qed.

Lemma Reserve_vecs this n m m' v :
  vecs m !! this = Some v →
  Reserve this n m = Ret tt m' →
  (n <= capacity_ (data_ v) ∧ m' = m) ∨
  (capacity_ (data_ v) < n ∧
   ∃ d, capacity_ d = n ∧ vecs m' = <[this := mkVector d (size_ v)]> (vecs m)).
Proof.
  intros Hv E. unfold Reserve, RawMemory_Capacity in E. inv_M.
  - left. split; [lia|done].
  - right. split; [lia|].
    match goal with E : RawMemory_ctor _ _ = _ |- _ =>
      pose proof (RawMemory_ctor_capacity _ _ _ _ E) as Hc end.
    inv_vecs. eexists; split; [|done]. done.
Qed.

Lemma Resize_vecs this n m m' v :
  vecs m !! this = Some v →
  Resize this n m = Ret tt m' →
  (n = size_ v ∧ m' = m) ∨
  (n < size_ v ∧ vecs m' = <[this := mkVector (data_ v) n]> (vecs m)) ∨
  (size_ v < n ∧
   ∃ d, vecs m' = <[this := mkVector d n]> (vecs m) ∧
        ((n <= capacity_ (data_ v) ∧ d = data_ v) ∨
         (capacity_ (data_ v) < n ∧ capacity_ d = n))).
Proof.
  intros Hv E. unfold Resize in E. inv_M.
  - by left.
  - right; left. inv_vecs. split; [lia|done].
  - right; right. split; [lia|].
    match goal with E : Reserve _ _ _ = _ |- _ =>
      eapply Reserve_vecs in E as [[Hle ->]|(Hlt & d & Hd & Hr)]; [| |done] end.
    + inv_vecs. eexists; split; [done|]. by left.
    + inv_vecs. eexists; split; [by rewrite insert_insert_eq|]. by right.
Qed.

Lemma Vector_default_vecs this m m' :
  Vector_default this m = Ret tt m' →
  vecs m' = <[this := mkVector RawMemory_default 0]> (vecs m).
Proof. intros E. unfold Vector_default in E. by inv_vecs. Qed.

Lemma Vector_sized_vecs this n m m' :
  Vector_sized this n m = Ret tt m' →
  ∃ d, capacity_ d = n ∧ vecs m' = <[this := mkVector d n]> (vecs m).
Proof.
  intros E. unfold Vector_sized in E. inv_M.
  match goal with E : RawMemory_ctor _ _ = _ |- _ =>
    pose proof (RawMemory_ctor_capacity _ _ _ _ E) as Hc end.
  inv_vecs. by eexists.
Qed.

Lemma Vector_copy_vecs this other m m' o :
  vecs m !! other = Some o →
  Vector_copy this other m = Ret tt m' →
  ∃ d, capacity_ d = size_ o ∧
       vecs m' = <[this := mkVector d (size_ o)]> (vecs m).
Proof.
  intros Ho E. unfold Vector_copy in E. inv_M.
  match goal with E : RawMemory_ctor _ _ = _ |- _ =>
    pose proof (RawMemory_ctor_capacity _ _ _ _ E) as Hc end.
  inv_vecs. by eexists.
Qed.

Lemma Vector_dtor_vecs this m m' :
  Vector_dtor this m = Ret tt m' → vecs m' = delete this (vecs m).
Proof. intros E. unfold Vector_dtor, forget in E. inv_M. by inv_vecs. Qed.

Lemma Vector_move_vecs this other m m' o :
  vecs m !! other = Some o →
  Vector_move this other m = Ret tt m' →
  vecs m' = <[other := mkVector RawMemory_default 0]> (<[this := o]> (vecs m)).
Proof.
  intros Ho E. unfold Vector_move in E. inv_M. inv_raw.
  destruct (decide (this = other)) as [->|Hne]; inv_vecs.
  - by rewrite !insert_insert_eq.
  - rewrite !insert_insert_eq.
    rewrite (insert_insert_ne _ this other) by done.
    by rewrite insert_insert_eq.
Qed.

Lemma Swap_vecs this other m m' t o :
  vecs m !! this = Some t →
  vecs m !! other = Some o →
  Swap this other m = Ret tt m' →
  vecs m' = <[other := t]> (<[this := o]> (vecs m)).
Proof.
  intros Ht Ho E. unfold Swap in E. inv_M. inv_raw.
  destruct (decide (this = other)) as [->|Hne]; inv_vecs.
  - by rewrite !insert_insert_eq.
  - apply map_eq. intros k. rewrite !lookup_insert.
    repeat case_decide; simplify_eq; done.
Qed.

Lemma Vector_move_assign_vecs this rhs m m' r :
  vecs m !! rhs = Some r →
  Vector_move_assign this rhs m = Ret tt m' →
  vecs m' = <[rhs := mkVector RawMemory_default 0]> (<[this := r]> (vecs m)).
Proof.
  intros Hr E. unfold Vector_move_assign in E. inv_M. inv_raw.
  destruct (decide (this = rhs)) as [->|Hne]; inv_vecs.
  - by rewrite !insert_insert_eq.
  - apply map_eq. intros k. rewrite !lookup_insert.
    repeat case_decide; simplify_eq; done.
Qed.

Lemma Vector_copy_assign_vecs this rhs m m' t r :
  this ≠ rhs →
  vecs m !! this = Some t →
  vecs m !! rhs = Some r →
  Vector_copy_assign this rhs m = Ret tt m' →
  (capacity_ (data_ t) < capacity_ (data_ r) ∧
   ∃ d, capacity_ d = size_ r ∧
        vecs m' = <[this := mkVector d (size_ r)]> (vecs m)) ∨
  (capacity_ (data_ r) <= capacity_ (data_ t) ∧
   vecs m' = <[this := mkVector (data_ t) (size_ r)]> (vecs m)).
Proof.
  intros Hne Ht Hr E. unfold Vector_copy_assign, RawMemory_Capacity in E.
  case_decide; [|done]. inv_M.
  - left. split; [done|].
    match goal with E : new_local _ = _ |- _ =>
      unfold new_local in E; injection E as <- <- end.
    set (c := fresh (dom (vecs m))) in *.
    assert (Hc : vecs m !! c = None)
      by (apply not_elem_of_dom; apply is_fresh).
    assert (c ≠ this) by congruence. assert (c ≠ rhs) by congruence.
    match goal with E : Vector_copy _ _ _ = _ |- _ =>
      eapply Vector_copy_vecs in E as (d & Hd & Hv1); [|done] end.
    match goal with E : Swap _ _ _ = _ |- _ =>
      eapply Swap_vecs in E;
        [| rewrite Hv1; by rewrite lookup_insert_ne
         | rewrite Hv1; apply lookup_insert_eq] end.
    match goal with E : Vector_dtor _ _ = _ |- _ =>
      apply Vector_dtor_vecs in E end.
    exists d. split; [done|].
    match goal with E : vecs m' = _ |- _ => rewrite E end.
    match goal with E : vecs _ = <[c := t]> _ |- _ => rewrite E end.
    rewrite Hv1. apply map_eq. intros k.
    rewrite lookup_delete, !lookup_insert.
    repeat case_decide; simplify_eq; done.
  - right. split; [lia|]. by inv_vecs.
  - right. split; [lia|]. by inv_vecs.
Qed.

Lemma accessor_same {A} (f : Vector → M A) this m a m' :
  (∀ v m a m', f v m = Ret a m' → m' = m) →
  (let* v := get this in f v) m = Ret a m' → m' = m.
Proof. intros Hf E. inv_M. by eapply Hf. Qed.

Lemma begin_same this m p m' : begin this m = Ret p m' → m' = m.
Proof. unfold begin. intros E. by inv_M. Qed.

Lemma end_same this m p m' : end_ this m = Ret p m' → m' = m.
Proof. unfold end_. intros E. by inv_M. Qed.

Lemma Size_same this m n m' : Size this m = Ret n m' → m' = m.
Proof. unfold Size. intros E. by inv_M. Qed.

Lemma Capacity_same this m n m' : Capacity this m = Ret n m' → m' = m.
Proof. unfold Capacity. intros E. by inv_M. Qed.

Lemma Vector_index_same this i m p m' :
  Vector_index this i m = Ret p m' → m' = m.
Proof. unfold Vector_index. intros E. by inv_M. Qed.

(** *** Loops: every iteration of a successful loop succeeded *)

Lemma for_n_Ret_body k i body m m' :
  (∀ j, respects (same_shape T) (body j)) →
  for_n k i body m = Ret tt m' →
  ∀ j, i <= j < i + Z.of_nat k →
       ∃ m1 m2, same_shape T m m1 ∧ body j m1 = Ret tt m2.
Proof.
  intros Hb. revert i m. induction k as [|k IH]; intros i m E j Hj; [lia|].
  simpl in E. apply bind_Ret in E as ([] & m1 & E1 & E2).
  destruct (decide (j = i)) as [->|Hne].
  - exists m, m1. split; [reflexivity|done].
  - destruct (IH _ _ E2 j) as (m2 & m3 & Hs & E3); [lia|].
    exists m2, m3. split; [|done].
    etrans; [|exact Hs]. apply (respects_Ret (same_shape T) _ _ _ _ (Hb i) E1).
Qed.

Lemma slot_add_log e m p : slot (add_log e m) p = slot m p.
Proof. done. Qed.

Lemma store_Ret_slot p o m u m' : store p o m = Ret u m' → is_Some (slot m p).
Proof.
  unfold store. destruct p as [|b i]; [done|].
  destruct (slot m (Ptr b i)); [eauto|done].
Qed.

Lemma emit_Ret e m u m' : emit e m = Ret u m' → m' = add_log e m.
Proof. unfold emit. by intros [= <-]. Qed.

Lemma move_construct_Ret_dst src dst m u m' :
  move_construct src dst m = Ret u m' → is_Some (slot m dst).
Proof.
  unfold move_construct. intros E. inv_M.
  repeat match goal with E : load _ _ = _ |- _ => apply load_Ret in E as [-> ?] end.
  repeat match goal with E : emit _ _ = _ |- _ => apply emit_Ret in E as -> end.
  match goal with E : store dst _ _ = _ |- _ => by apply store_Ret_slot in E end.
Qed.

Lemma copy_construct_Ret_dst src dst m u m' :
  copy_construct src dst m = Ret u m' → is_Some (slot m dst).
Proof.
  unfold copy_construct. intros E. inv_M.
  repeat match goal with E : load _ _ = _ |- _ => apply load_Ret in E as [-> ?] end.
  repeat match goal with E : emit _ _ = _ |- _ => apply emit_Ret in E as -> end.
  match goal with E : store dst _ _ = _ |- _ => by apply store_Ret_slot in E end.
Qed.

Lemma store_is_slot p o m m' q :
  store p o m = Ret tt m' → is_Some (slot m' q) ↔ is_Some (slot m q).
Proof.
  unfold store. destruct p as [|b i]; [done|].
  destruct (slot m (Ptr b i)) eqn:Hp; [|done]. intros [= <-].
  destruct q as [|c j]; [done|]. unfold slot. cbn [heap set_heap].
  destruct (0 <=? j); [|done].
  destruct (decide (c = b)) as [->|Hne].
  - rewrite lookup_alter_eq. destruct (heap m !! b) as [blk|]; simpl; [|done].
    by rewrite !lookup_lt_is_Some, length_insert.
  - by rewrite lookup_alter_ne.
Qed.

Lemma construct_at_Ret_dst p (a : init) m u m' :
  construct_at p a m = Ret u m' → is_Some (slot m p).
Proof.
  unfold construct_at. intros E. inv_M.
  repeat match goal with E : emit _ _ = _ |- _ => apply emit_Ret in E as -> end.
  match goal with E : store p _ _ = _ |- _ => by apply store_Ret_slot in E end.
Qed.

(** A new element is built in a slot of a block. *)
Lemma placement_new_Ret_slot p (a : forwarded) m u m' :
  placement_new p a m = Ret u m' → is_Some (slot m p).
Proof.
  destruct a as [a|src]; simpl; [apply construct_at_Ret_dst|].
  intros E. inv_M.
  repeat match goal with E : load _ _ = _ |- _ => apply load_Ret in E as [-> ?] end.
  repeat match goal with E : emit _ _ = _ |- _ => apply emit_Ret in E as -> end.
  match goal with
  | E1 : store src _ _ = _, E2 : store p _ _ = _ |- _ =>
      apply store_Ret_slot in E2; by apply (store_is_slot _ _ _ _ p E1) in E2
  end.
Qed.

(** No element is built at the null pointer. *)
Ltac no_null_new :=
  match goal with
  | E : placement_new Null _ _ = Ret _ _ |- _ =>
      by apply placement_new_Ret_slot in E as [? ?]
  | E : placement_new (Null +p _) _ _ = Ret _ _ |- _ =>
      by apply placement_new_Ret_slot in E as [? ?]
  | E : construct_at Null _ _ = Ret _ _ |- _ =>
      by apply construct_at_Ret_dst in E as [? ?]
  | E : construct_at (Null +p _) _ _ = Ret _ _ |- _ =>
      by apply construct_at_Ret_dst in E as [? ?]
  end.

(** A relocation that succeeds had room for all its elements. *)
Lemma relocate_Ret_room src n b o m m' :
  relocate src n (Ptr b o) m = Ret tt m' →
  0 < n →
  ∃ len, length <$> heap m !! b = Some len ∧ 0 <= o ∧ o + n <= Z.of_nat len.
Proof.
  intros E Hn.
  assert (∀ j, 0 <= j < n → ∃ m1, same_shape T m m1 ∧
            is_Some (slot m1 (Ptr b (o + j)))) as Hall.
  { intros j Hj. unfold relocate, uninitialized_move_n, uninitialized_copy_n in E.
    destruct (_ || _).
    - eapply for_n_Ret_body with (j := j) in E as (m1 & m2 & Hs & E);
        [|intros; solve_respects|lia].
      exists m1. split; [done|].
      apply on_exception_Ret in E. by apply move_construct_Ret_dst in E.
    - eapply for_n_Ret_body with (j := j) in E as (m1 & m2 & Hs & E);
        [|intros; solve_respects|lia].
      exists m1. split; [done|].
      apply on_exception_Ret in E. by apply copy_construct_Ret_dst in E. }
  destruct (Hall 0) as (m0 & Hs0 & [o0 E0]); [lia|].
  destruct (Hall (n - 1)) as (m1 & Hs1 & [o1 E1]); [lia|].
  apply slot_Ptr in E0 as (Ho & _).
  apply slot_Ptr in E1 as (_ & blk & Eb & Ei).
  exists (length blk). rewrite <- (Hs1 b), Eb. split; [done|].
  apply lookup_lt_Some in Ei. lia.
Qed.

Lemma RawMemory_ctor_Ret n m r m' :
  RawMemory_ctor n m = Ret r m' →
  capacity_ r = n ∧
  ((n = 0 ∧ buffer_ r = Null ∧ m' = m) ∨
   (n ≠ 0 ∧ ∃ b, buffer_ r = Ptr b 0 ∧ heap m !! b = None ∧
      m' = set_heap <[b := replicate (Z.to_nat (wrap (n * sizeof) / sizeof)) None]> m)).
Proof.
  unfold RawMemory_ctor, Allocate, operator_new. intros E. inv_M.
  - split; [done|]. right. split; [done|]. eexists. split; [done|].
    split; [|done]. apply not_elem_of_dom, is_fresh.
  - split; [done|]. left. split; [|done]. by destruct (decide (n = 0)).
Qed.

Lemma alloc_slots_le n :
  0 <= n → Z.of_nat (Z.to_nat (wrap (n * sizeof) / sizeof)) <= n.
Proof.
  intros Hn. pose proof sizeof_pos as Hp.
  pose proof (wrap_range (n * sizeof)) as [Hw0 _].
  assert (wrap (n * sizeof) <= n * sizeof) by (apply Z.mod_le; [nia|done]).
  rewrite Z2Nat.id by (apply Z.div_pos; lia).
  apply Z.div_le_upper_bound; lia.
Qed.

Lemma same_shape_len m m' b :
  same_shape T m m' → length <$> heap m' !! b = length <$> heap m !! b.
Proof. intros Hs. apply Hs. Qed.

Lemma index_of_Ret this pos m i m' :
  index_of this pos m = Ret i m' → m' = m ∧ in_size_t i.
Proof.
  unfold index_of, begin. intros E. inv_M. split; [done|]. apply wrap_range.
Qed.

Lemma emplace_vecs this pos a m it m' v :
  vecs m !! this = Some v →
  in_size_t (size_ v) →
  emplace this pos a m = Ret it m' →
  ∃ d, vecs m' = <[this := mkVector d (wrap (size_ v + 1))]> (vecs m) ∧
       size_ v <= capacity_ d ∧
       ((size_ v ≠ capacity_ (data_ v) ∧ d = data_ v) ∨
        (size_ v = capacity_ (data_ v) ∧ capacity_ d = grown (size_ v))).
Proof.
  intros Hv Hsz E. unfold emplace in E.
  apply bind_Ret in E as (index & m0 & [-> Hi]%index_of_Ret & E).
  unfold RawMemory_Capacity in E. inv_M.
  - (* at the end: EmplaceBack *)
    match goal with E : append _ _ _ = _ |- _ =>
      eapply append_vecs in E as (d & Hm & Hd); [|done] end.
    exists d. split; [|done]. rewrite <- Hm. by inv_vecs.
  - (* full: grow around the new element *)
    match goal with E : RawMemory_ctor _ _ = _ |- _ =>
      apply RawMemory_ctor_Ret in E as (Hc & Hb) end.
    match goal with E : adopt _ _ ?m3 = _ |- _ =>
      assert (Hx : vecs m3 = vecs m)
        by (frame_vecs; destruct Hb as [(_ & _ & ->)|(_ & b & _ & _ & ->)];
            cbn [vecs set_heap] in *; congruence);
      eapply adopt_vecs in E; [|rewrite Hx; eassumption]; rewrite Hx in E
    end.
    match goal with E : placement_new (buffer_ ?d +p _) _ _ = _ |- _ =>
      rename d into new_data end.
    exists new_data.
    assert (size_ v + 1 <= grown (size_ v)) as Hroom.
    { destruct Hb as [(_ & Hnull & _)|(_ & b & Hbuf & _ & ->)].
      - rewrite Hnull in *. simpl in *.
        no_null_new.
      - unfold GetAddress in *. rewrite Hbuf in *. simpl in *.
        assert (wrap (size_ v - index) = size_ v - index) as Hn
          by (apply wrap_small; unfold in_size_t in *; lia).
        assert (wrap (index + 1) = index + 1) as Hi1
          by (apply wrap_small; unfold in_size_t in *; lia).
        rewrite Hn, Hi1 in *.
        match goal with
        | E1 : placement_new _ _ ?m1 = Ret _ ?m2,
          E2 : relocate _ index _ ?m2 = Ret _ ?m3,
          E3 : relocate _ (size_ v - index) _ ?m3 = _ |- _ =>
            apply relocate_Ret_room in E3 as (len & Hlen & _ & Hle); [|lia];
            rewrite (same_shape_len m2 m3) in Hlen
              by (eapply (respects_Ret (same_shape T)); [|exact E2];
                  solve_respects);
            rewrite (same_shape_len m1 m2) in Hlen
              by (eapply (respects_Ret (same_shape T)); [|exact E1];
                  solve_respects)
        end.
        cbn [heap set_heap] in Hlen. rewrite lookup_insert_eq in Hlen.
        simpl in Hlen. injection Hlen as <-. rewrite length_replicate in Hle.
        pose proof (alloc_slots_le (grown (size_ v))) as Ha.
        assert (0 <= grown (size_ v)).
        { unfold grown. case_decide; [done|]. apply wrap_range. }
        lia. }
    split; [done|]. split; [lia|]. right. done.
  - (* room left: shift in place *)
    inv_vecs. eexists. split; [done|]. split; [done|]. by left.
Qed.

(** *** A call that returns found its objects in the store *)

Lemma append_this this a m p m' :
  append this a m = Ret p m' → is_Some (vecs m !! this).
Proof. unfold append. intros E. inv_M; eauto. Qed.

Lemma emplace_this this pos a m p m' :
  emplace this pos a m = Ret p m' → is_Some (vecs m !! this).
Proof. unfold emplace, index_of, begin. intros E. inv_M; eauto. Qed.

Lemma Erase_this this pos m p m' :
  Erase this pos m = Ret p m' → is_Some (vecs m !! this).
Proof. unfold Erase, index_of, begin. intros E. inv_M; eauto. Qed.

Lemma PopBack_this this m m' :
  PopBack this m = Ret tt m' → is_Some (vecs m !! this).
Proof. unfold PopBack. intros E. inv_M; eauto. Qed.

Lemma Reserve_this this n m m' :
  Reserve this n m = Ret tt m' → is_Some (vecs m !! this).
Proof. unfold Reserve. intros E. inv_M; eauto. Qed.

Lemma Resize_this this n m m' :
  Resize this n m = Ret tt m' → is_Some (vecs m !! this).
Proof. unfold Resize. intros E. inv_M; eauto. Qed.

Lemma Vector_copy_this this other m m' :
  Vector_copy this other m = Ret tt m' → is_Some (vecs m !! other).
Proof. unfold Vector_copy. intros E. inv_M; eauto. Qed.

Lemma Vector_move_this this other m m' :
  Vector_move this other m = Ret tt m' → is_Some (vecs m !! other).
Proof. unfold Vector_move. intros E. inv_M; eauto. Qed.

Lemma Vector_move_assign_this this rhs m m' :
  Vector_move_assign this rhs m = Ret tt m' →
  is_Some (vecs m !! this) ∧ is_Some (vecs m !! rhs).
Proof. unfold Vector_move_assign. intros E. inv_M; eauto. Qed.

Lemma Vector_copy_assign_this this rhs m m' :
  this ≠ rhs →
  Vector_copy_assign this rhs m = Ret tt m' →
  is_Some (vecs m !! this) ∧ is_Some (vecs m !! rhs).
Proof.
  unfold Vector_copy_assign. intros Hne E. case_decide; [|done].
  apply bind_Ret in E as (t & m1 & [-> Ht]%get_Ret & E).
  apply bind_Ret in E as (r & m1 & [-> Hr]%get_Ret & E). eauto.
Qed.

Lemma Swap_this this other m m' :
  Swap this other m = Ret tt m' →
  is_Some (vecs m !! this) ∧ is_Some (vecs m !! other).
Proof.
  unfold Swap. intros E.
  apply bind_Ret in E as (t & m1 & [-> Ht]%get_Ret & E).
  apply bind_Ret in E as (r & m1 & [-> Hr]%get_Ret & E). eauto.
Qed.

(** *** The invariant [0 <= size <= capacity] *)

Lemma store_wf_lookup m a v :
  store_wf m → vecs m !! a = Some v → representable v ∧ invariant v.
Proof. intros Hm Hv. destruct (Hm a v Hv) as (? & ? & _). done. Qed.

Lemma store_wf_invariant m : store_wf m → store_invariant m.
Proof. intros Hm a v Hv. by destruct (store_wf_lookup _ _ _ Hm Hv). Qed.

Lemma store_invariant_insert m m' a v :
  store_invariant m → invariant v → vecs m' = <[a := v]> (vecs m) →
  store_invariant m'.
Proof.
  intros Hm Hv E. unfold store_invariant. rewrite E.
  by apply map_Forall_insert_2.
Qed.

Lemma store_invariant_same m m' :
  store_invariant m → vecs m' = vecs m → store_invariant m'.
Proof. intros Hm E. unfold store_invariant. by rewrite E. Qed.

(** After an insertion the new size fits the new capacity. *)
Lemma inserted_invariant v d :
  representable v → invariant v →
  size_ v <= capacity_ d →
  (size_ v ≠ capacity_ (data_ v) ∧ d = data_ v) ∨
  (size_ v = capacity_ (data_ v) ∧ capacity_ d = grown (size_ v)) →
  invariant (mkVector d (wrap (size_ v + 1))).
Proof.
  intros [Hs Hc] Hi Hle Hd. unfold invariant, in_size_t in *. simpl.
  destruct Hd as [[Hne ->]|[He Hg]].
  - rewrite wrap_small by (unfold in_size_t; lia). lia.
  - rewrite Hg in *. destruct (grown_spec (size_ v)) as (_ & Hr & Hg'); [done..|].
    rewrite wrap_small by (unfold in_size_t in *; lia). lia.
Qed.

(** C2: every public member function, run in a store whose vectors all
    satisfy the representation invariant (counters in range,
    [0 <= size <= capacity], a block of exactly [capacity] slots with
    the first [size] live and the others raw), leaves every vector of
    the store with [0 <= size <= capacity] when it returns normally;
    this covers the receiver, the source of a move and the argument of
    [Swap].  Arguments of type [size_t] are taken in range. *)
Theorem exec_preserves_invariant c m m' :
  store_wf m → args_representable c →
  exec c m = Ret tt m' →
  store_invariant m'.
Proof.
  intros Hm Ha E. pose proof (store_wf_invariant _ Hm) as Hi.
  destruct c; simpl in E; simpl in Ha.
  - (* Vector() *)
    apply Vector_default_vecs in E.
    eapply store_invariant_insert; [done| |done]. done.
  - (* Vector(size) *)
    apply Vector_sized_vecs in E as (d & Hd & E).
    eapply store_invariant_insert; [done| |done].
    unfold invariant, in_size_t in *. simpl. lia.
  - (* Vector(const Vector&) *)
    destruct (Vector_copy_this _ _ _ _ E) as [o Ho].
    destruct (store_wf_lookup _ _ _ Hm Ho) as [_ Hio].
    eapply Vector_copy_vecs in E as (d & Hd & E); [|done].
    eapply store_invariant_insert; [done| |done].
    unfold invariant in *. simpl. lia.
  - (* Vector(Vector&&) *)
    destruct (Vector_move_this _ _ _ _ E) as [o Ho].
    destruct (store_wf_lookup _ _ _ Hm Ho) as [_ Hio].
    eapply Vector_move_vecs in E; [|done].
    unfold store_invariant. rewrite E.
    apply map_Forall_insert_2; [done|]. by apply map_Forall_insert_2.
  - (* ~Vector() *)
    apply Vector_dtor_vecs in E. unfold store_invariant. rewrite E.
    by apply map_Forall_delete.
  - (* begin *)
    inv_M. match goal with E : begin _ _ = _ |- _ => by apply begin_same in E as -> end.
  - (* end *)
    inv_M. match goal with E : end_ _ _ = _ |- _ => by apply end_same in E as -> end.
  - (* operator=(const Vector&) *)
    destruct (decide (this = rhs)) as [->|Hne].
    { unfold Vector_copy_assign in E. case_decide; [done|]. by inv_M. }
    destruct (Vector_copy_assign_this _ _ _ _ Hne E) as [[t Ht] [r Hr]].
    destruct (store_wf_lookup _ _ _ Hm Ht) as [_ Hit].
    destruct (store_wf_lookup _ _ _ Hm Hr) as [_ Hir].
    eapply Vector_copy_assign_vecs in E as [(_ & d & Hd & E)|(Hle & E)];
      [| |done..];
      (eapply store_invariant_insert; [done| |done]);
      unfold invariant in *; simpl; lia.
  - (* operator=(Vector&&) *)
    destruct (Vector_move_assign_this _ _ _ _ E) as [_ [r Hr]].
    destruct (store_wf_lookup _ _ _ Hm Hr) as [_ Hir].
    eapply Vector_move_assign_vecs in E; [|done].
    unfold store_invariant. rewrite E.
    apply map_Forall_insert_2; [done|]. by apply map_Forall_insert_2.
  - (* Reserve *)
    destruct (Reserve_this _ _ _ _ E) as [v Hv].
    destruct (store_wf_lookup _ _ _ Hm Hv) as [_ Hiv].
    eapply Reserve_vecs in E as [[_ ->]|(Hlt & d & Hd & E)]; [done| |done].
    eapply store_invariant_insert; [done| |done].
    unfold invariant in *. simpl. lia.
  - (* Resize *)
    destruct (Resize_this _ _ _ _ E) as [v Hv].
    destruct (store_wf_lookup _ _ _ Hm Hv) as [_ Hiv].
    eapply Resize_vecs in E
      as [[_ ->]|[[Hlt E]|(Hlt & d & E & [[Hle ->]|[Hlt' Hd]])]];
      [done| | | |done];
      (eapply store_invariant_insert; [done| |done]);
      unfold invariant, in_size_t in *; simpl; lia.
  - (* PushBack(const T&) *)
    unfold PushBack in E. inv_M.
    match goal with E : append _ _ _ = _ |- _ =>
      destruct (append_this _ _ _ _ _ E) as [v Hv];
      destruct (store_wf_lookup _ _ _ Hm Hv) as [Hrv Hiv];
      eapply append_vecs in E as (d & E & Hle & Hd); [|done] end.
    eapply store_invariant_insert; [done| |done]. by apply inserted_invariant.
  - (* PushBack(T&&) *)
    unfold PushBack_rvalue in E. inv_M.
    match goal with E : append _ _ _ = _ |- _ =>
      destruct (append_this _ _ _ _ _ E) as [v Hv];
      destruct (store_wf_lookup _ _ _ Hm Hv) as [Hrv Hiv];
      eapply append_vecs in E as (d & E & Hle & Hd); [|done] end.
    eapply store_invariant_insert; [done| |done]. by apply inserted_invariant.
  - (* EmplaceBack *)
    unfold EmplaceBack in E. inv_M.
    match goal with E : append _ _ _ = _ |- _ =>
      destruct (append_this _ _ _ _ _ E) as [v Hv];
      destruct (store_wf_lookup _ _ _ Hm Hv) as [Hrv Hiv];
      eapply append_vecs in E as (d & E & Hle & Hd); [|done] end.
    eapply store_invariant_insert; [done| |done]. by apply inserted_invariant.
  - (* Emplace *)
    unfold Emplace in E. inv_M.
    match goal with E : emplace _ _ _ _ = _ |- _ =>
      destruct (emplace_this _ _ _ _ _ _ E) as [v Hv];
      destruct (store_wf_lookup _ _ _ Hm Hv) as [Hrv Hiv];
      eapply emplace_vecs in E as (d & E & Hle & Hd); [|done|apply Hrv] end.
    eapply store_invariant_insert; [done| |done]. by apply inserted_invariant.
  - (* Insert(const T&) *)
    unfold Insert, Emplace in E. inv_M.
    match goal with E : emplace _ _ _ _ = _ |- _ =>
      destruct (emplace_this _ _ _ _ _ _ E) as [v Hv];
      destruct (store_wf_lookup _ _ _ Hm Hv) as [Hrv Hiv];
      eapply emplace_vecs in E as (d & E & Hle & Hd); [|done|apply Hrv] end.
    eapply store_invariant_insert; [done| |done]. by apply inserted_invariant.
  - (* Insert(T&&) *)
    unfold Insert_rvalue, Emplace in E. inv_M.
    match goal with E : emplace _ _ _ _ = _ |- _ =>
      destruct (emplace_this _ _ _ _ _ _ E) as [v Hv];
      destruct (store_wf_lookup _ _ _ Hm Hv) as [Hrv Hiv];
      eapply emplace_vecs in E as (d & E & Hle & Hd); [|done|apply Hrv] end.
    eapply store_invariant_insert; [done| |done]. by apply inserted_invariant.
  - (* Erase *)
    inv_M.
    match goal with E : Erase _ _ _ = _ |- _ =>
      destruct (Erase_this _ _ _ _ _ E) as [v Hv];
      eapply Erase_vecs in E as [E Hle]; [|done] end.
    eapply store_invariant_insert; [done| |done].
    unfold invariant. simpl. split; [apply wrap_range|done].
  - (* PopBack *)
    destruct (PopBack_this _ _ _ E) as [v Hv].
    eapply PopBack_vecs in E as [E Hle]; [|done].
    eapply store_invariant_insert; [done| |done].
    unfold invariant. simpl. split; [apply wrap_range|done].
  - (* Swap *)
    destruct (Swap_this _ _ _ _ E) as [[t Ht] [o Ho]].
    destruct (store_wf_lookup _ _ _ Hm Ht) as [_ Hit].
    destruct (store_wf_lookup _ _ _ Hm Ho) as [_ Hio].
    eapply Swap_vecs in E; [|done..].
    unfold store_invariant. rewrite E.
    apply map_Forall_insert_2; [done|]. by apply map_Forall_insert_2.
  - (* Size *)
    inv_M. match goal with E : Size _ _ = _ |- _ => by apply Size_same in E as -> end.
  - (* Capacity *)
    inv_M. match goal with E : Capacity _ _ = _ |- _ => by apply Capacity_same in E as -> end.
  - (* operator[] *)
    inv_M. match goal with E : Vector_index _ _ _ = _ |- _ => by apply Vector_index_same in E as -> end.
Qed.

(** *** Insertions, seen through [exec] *)

Lemma exec_insert_vecs c this m m' v :
  inserts_into c = Some this →
  vecs m !! this = Some v →
  in_size_t (size_ v) →
  exec c m = Ret tt m' →
  ∃ d, vecs m' = <[this := mkVector d (wrap (size_ v + 1))]> (vecs m) ∧
       size_ v <= capacity_ d ∧
       ((size_ v ≠ capacity_ (data_ v) ∧ d = data_ v) ∨
        (size_ v = capacity_ (data_ v) ∧ capacity_ d = grown (size_ v))).
Proof.
  intros Hc Hv Hs E.
  destruct c; simpl in Hc; simplify_eq; simpl in E;
    unfold PushBack, PushBack_rvalue, EmplaceBack, Insert,
      Insert_rvalue, Emplace in E;
    inv_M;
    first [ by eapply append_vecs | by eapply emplace_vecs ].
Qed.

(** C5: when [PushBack], [EmplaceBack], [Emplace] or [Insert] returns
    from a call on a vector whose size equals its capacity, the new
    capacity is [max(1, 2 * old capacity)]. *)
Theorem full_vector_doubles c this m m' v :
  inserts_into c = Some this →
  vecs m !! this = Some v →
  representable v →
  size_ v = capacity_ (data_ v) →
  exec c m = Ret tt m' →
  ∃ v', vecs m' !! this = Some v' ∧
        capacity_ (data_ v') = Z.max 1 (2 * capacity_ (data_ v)).
Proof.
  intros Hc Hv [Hs _] Hfull E.
  destruct (exec_insert_vecs _ _ _ _ _ Hc Hv Hs E) as (d & Hm & Hle & Hd).
  eexists. split; [rewrite Hm; apply lookup_insert_eq|]. simpl.
  destruct Hd as [[Hne _]|[_ Hg]]; [done|].
  rewrite Hg in *. rewrite <- Hfull.
  by destruct (grown_spec (size_ v)) as (-> & _).
Qed.

(** *** Capacity over time *)

Lemma Reserve_noop this n m v :
  vecs m !! this = Some v →
  n <= capacity_ (data_ v) →
  Reserve this n m = Ret tt m.
Proof.
  intros Hv Hle. unfold Reserve.
  rewrite (run_bind _ _ _ _ _ (get_Some _ _ _ Hv)).
  unfold RawMemory_Capacity. by destruct (Z.leb_spec n (capacity_ (data_ v))); [|lia].
Qed.

Lemma lookup_insert_cases {V} (vs : gmap nat V) a b x y :
  <[b := x]> vs !! a = Some y →
  (a = b ∧ y = x) ∨ (a ≠ b ∧ vs !! a = Some y).
Proof.
  rewrite lookup_insert. case_decide; [left|right]; by simplify_eq.
Qed.

(** C3, as the code has it: a call other than [Swap], move
    construction, move assignment and copy assignment never lowers the
    capacity of any vector.  Copy assignment leaves the capacity of
    [*this] as it is when [rhs.Capacity() <= Capacity()], and
    otherwise swaps in a copy, so that the capacity becomes
    [rhs.Size()].  An insertion leaves the capacity as it is when the
    vector has room and makes it [max(1, 2 * capacity)] when the
    vector is full.  [Reserve(n)], also reached through [Resize(n)],
    leaves the capacity as it is when [n] is at most the capacity and
    makes it [n] otherwise.  No other call changes a capacity, and
    none changes the capacity of a vector other than [*this]. *)
Theorem capacity_changes c m m' a v v' :
  store_wf m → args_representable c →
  exec c m = Ret tt m' →
  vecs m !! a = Some v → vecs m' !! a = Some v' →
  constructs c ≠ Some a →
  (may_shrink c = false → capacity_ (data_ v) <= capacity_ (data_ v')) ∧
  match c with
  | CallSwap _ _ | CallMove _ _ | CallMoveAssign _ _ => True
  | CallCopyAssign this rhs =>
      (a ≠ this → capacity_ (data_ v') = capacity_ (data_ v)) ∧
      (a = this →
       ∃ r, vecs m !! rhs = Some r ∧
            (capacity_ (data_ r) <= capacity_ (data_ v) →
             capacity_ (data_ v') = capacity_ (data_ v)) ∧
            (capacity_ (data_ v) < capacity_ (data_ r) →
             capacity_ (data_ v') = size_ r))
  | CallReserve this n | CallResize this n =>
      (a ≠ this → capacity_ (data_ v') = capacity_ (data_ v)) ∧
      (a = this →
       (n <= capacity_ (data_ v) →
        capacity_ (data_ v') = capacity_ (data_ v)) ∧
       (capacity_ (data_ v) < n → capacity_ (data_ v') = n))
  | CallPushBack this _ | CallPushBackRvalue this _ | CallEmplaceBack this _
  | CallEmplace this _ _ | CallInsert this _ _ | CallInsertRvalue this _ _ =>
      (a ≠ this → capacity_ (data_ v') = capacity_ (data_ v)) ∧
      (a = this →
       (size_ v ≠ capacity_ (data_ v) →
        capacity_ (data_ v') = capacity_ (data_ v)) ∧
       (size_ v = capacity_ (data_ v) →
        capacity_ (data_ v') = Z.max 1 (2 * capacity_ (data_ v))))
  | _ => capacity_ (data_ v') = capacity_ (data_ v)
  end.
Proof.
  intros Hm Ha E Hv Hv' Hc.
  destruct (store_wf_lookup _ _ _ Hm Hv) as [[Hsr Hcr] Hiv].
  assert (∀ this, inserts_into c = Some this →
    (a ≠ this → capacity_ (data_ v') = capacity_ (data_ v)) ∧
    (a = this →
     (size_ v ≠ capacity_ (data_ v) →
      capacity_ (data_ v') = capacity_ (data_ v)) ∧
     (size_ v = capacity_ (data_ v) →
      capacity_ (data_ v') = Z.max 1 (2 * capacity_ (data_ v))))) as Hins.
  { intros this Hi.
    assert (is_Some (vecs m !! this)) as [t Ht].
    { destruct c; simpl in Hi; simplify_eq; simpl in E;
        unfold PushBack, PushBack_rvalue, EmplaceBack, Insert,
          Insert_rvalue, Emplace in E; inv_M;
        first [by eapply append_this | by eapply emplace_this]. }
    destruct (store_wf_lookup _ _ _ Hm Ht) as [[Hst _] _].
    destruct (exec_insert_vecs _ _ _ _ _ Hi Ht Hst E) as (d & Hm' & Hle & Hd).
    rewrite Hm' in Hv'.
    apply lookup_insert_cases in Hv' as [[-> ->]|[Hne Hv']]; simplify_eq;
      [|by split].
    simpl. split; [done|]. intros _.
    destruct Hd as [[Hne ->]|[Hfull Hg]]; [by split|].
    split; [done|]. intros _. rewrite Hg, <- Hfull.
    by destruct (grown_spec (size_ v)) as (-> & _); [|lia|]. }
  assert (0 <= capacity_ (data_ v)) as Hc0 by (unfold in_size_t in *; lia).
  destruct c; simpl in E, Ha, Hc |- *;
    try (specialize (Hins _ eq_refl); split; [intros _|exact Hins];
         destruct Hins as [Hi1 Hi2];
         match goal with
         | |- context [capacity_ (data_ v')] =>
             destruct (decide (a = this)) as [Heq|Hne];
               [destruct (Hi2 Heq) as [Hi3 Hi4];
                destruct (decide (size_ v = capacity_ (data_ v)));
                  [rewrite Hi4 by done|rewrite Hi3 by done]
               |rewrite Hi1 by done]; lia
         end).
  - (* Vector() *)
    apply Vector_default_vecs in E. rewrite E in Hv'.
    rewrite lookup_insert_ne in Hv' by congruence. simplify_eq. split; done.
  - (* Vector(size) *)
    apply Vector_sized_vecs in E as (d & _ & E). rewrite E in Hv'.
    rewrite lookup_insert_ne in Hv' by congruence. simplify_eq. split; done.
  - (* Vector(const Vector&) *)
    destruct (Vector_copy_this _ _ _ _ E) as [o Ho].
    eapply Vector_copy_vecs in E as (d & _ & E); [|done]. rewrite E in Hv'.
    rewrite lookup_insert_ne in Hv' by congruence. simplify_eq. split; done.
  - (* Vector(Vector&&) *) done.
  - (* ~Vector() *)
    apply Vector_dtor_vecs in E. rewrite E in Hv'.
    apply lookup_delete_Some in Hv' as [_ Hv']. simplify_eq. split; done.
  - (* begin *)
    inv_M. match goal with E : begin _ _ = _ |- _ => apply begin_same in E as -> end.
    simplify_eq. split; done.
  - (* end *)
    inv_M. match goal with E : end_ _ _ = _ |- _ => apply end_same in E as -> end.
    simplify_eq. split; done.
  - (* operator=(const Vector&) *)
    split; [done|].
    destruct (decide (this = rhs)) as [->|Hne].
    { unfold Vector_copy_assign in E. case_decide; [done|]. inv_M.
      simplify_eq. split; [done|]. intros ->. exists v.
      split; [done|]. split; [done|lia]. }
    destruct (Vector_copy_assign_this _ _ _ _ Hne E) as [[t Ht] [r Hr]].
    eapply Vector_copy_assign_vecs in E as [(Hlt & d & Hd & E)|(Hle & E)];
      [| |done..]; rewrite E in Hv';
      apply lookup_insert_cases in Hv' as [[-> ->]|[Hne' Hv']]; simplify_eq;
      simpl; (split; [intros; first [done|congruence|lia]|]); intros Heq;
      first [congruence
            |exists r; (split; [done|]); split; intros; first [done|lia]].
  - (* operator=(Vector&&) *) done.
  - (* Reserve *)
    destruct (Reserve_this _ _ _ _ E) as [t Ht].
    eapply Reserve_vecs in E as [[Hle ->]|(Hlt & d & Hd & E)]; [| |done].
    { simplify_eq. split; [lia|]. split; [done|]. intros ->.
      simplify_eq. split; [done|lia]. }
    rewrite E in Hv'.
    apply lookup_insert_cases in Hv' as [[-> ->]|[Hne' Hv']]; simplify_eq;
      simpl; (split; [lia|]);
      (split; [intros; first [done|congruence|lia]|]); intros Heq;
      first [congruence|split; intros; first [done|lia]].
  - (* Resize *)
    destruct (Resize_this _ _ _ _ E) as [t Ht].
    destruct (store_wf_lookup _ _ _ Hm Ht) as [_ [Ht0 Htc]].
    eapply Resize_vecs in E
      as [[Hns ->]|[[Hlt E]|(Hlt & d & E & [[Hle ->]|[Hlt' Hd]])]]; [| | | |done].
    { simplify_eq. split; [lia|]. split; [done|]. intros ->.
      simplify_eq. split; [done|lia]. }
    all: rewrite E in Hv';
      apply lookup_insert_cases in Hv' as [[-> ->]|[Hne' Hv']]; simplify_eq;
      simpl; (split; [lia|]);
      (split; [intros; first [done|congruence|lia]|]); intros Heq;
      first [congruence|split; intros; first [done|lia]].
  - (* Erase *)
    inv_M.
    match goal with X : Erase _ _ _ = _ |- _ =>
      destruct (Erase_this _ _ _ _ _ X) as [t Ht];
      eapply Erase_vecs in X as [E Hle]; [|done] end.
    rewrite E in Hv'.
    apply lookup_insert_cases in Hv' as [[-> ->]|[Hne' Hv']]; simplify_eq;
      simpl; split; done.
  - (* PopBack *)
    destruct (PopBack_this _ _ _ E) as [t Ht].
    eapply PopBack_vecs in E as [E Hle]; [|done].
    rewrite E in Hv'.
    apply lookup_insert_cases in Hv' as [[-> ->]|[Hne' Hv']]; simplify_eq;
      simpl; split; done.
  - (* Swap *) done.
  - (* Size *)
    inv_M. match goal with E : Size _ _ = _ |- _ => apply Size_same in E as -> end.
    simplify_eq. split; done.
  - (* Capacity *)
    inv_M. match goal with E : Capacity _ _ = _ |- _ => apply Capacity_same in E as -> end.
    simplify_eq. split; done.
  - (* operator[] *)
    inv_M. match goal with E : Vector_index _ _ _ = _ |- _ => apply Vector_index_same in E as -> end.
    simplify_eq. split; done.
Qed.

(** *** The log of element operations *)

(** The log after a call that performs no element operation *)
Ltac frame_log :=
  repeat match goal with
  | E : ?c ?m = Ret _ ?m' |- _ =>
      lazymatch goal with
      | _ : log m' = log m |- _ => fail
      | _ => idtac
      end;
      let Hl := fresh "Hl" in
      assert (Hl : log m' = log m)
        by (eapply (respects_Ret (same_log T)); [|exact E]; solve_respects)
  end.

Lemma for_n_log (ev : Z → event) k body : ∀ i m m',
  (∀ j m1 m2, body j m1 = Ret tt m2 → log m2 = log m1 ++ [ev j]) →
  for_n k i body m = Ret tt m' →
  log m' = log m ++ ((fun t => ev (i + Z.of_nat t)) <$> seq 0 k).
Proof.
  induction k as [|k IH]; intros i m m' Hb E; simpl in E.
  - inv_M. by rewrite app_nil_r.
  - apply bind_Ret in E as ([] & m1 & E1 & E2).
    rewrite (IH _ _ _ Hb E2), (Hb _ _ _ E1), <- app_assoc. f_equal.
    simpl. rewrite Z.add_0_r. f_equal.
    rewrite <- fmap_S_seq, <- list_fmap_compose.
    apply list_fmap_ext. intros _ t _. simpl. f_equal. lia.
Qed.

Lemma log_add_log e m : log (add_log e m) = log m ++ [e].
Proof. done. Qed.

Ltac inv_emit :=
  repeat match goal with
  | E : emit _ _ = Ret _ _ |- _ => apply emit_Ret in E; subst
  end.

Lemma construct_at_log p a m m' :
  construct_at p a m = Ret tt m' →
  log m' = log m ++ [init_event a (At p)].
Proof. unfold construct_at. intros E. inv_M. inv_emit. by frame_log. Qed.

Lemma construct_local_log a m x m' :
  construct_local a m = Ret x m' →
  log m' = log m ++ [init_event a Local] ∧ x = init_value a.
Proof. unfold construct_local. intros E. inv_M. inv_emit. done. Qed.

Lemma placement_new_log p (a : forwarded) m m' :
  placement_new p a m = Ret tt m' →
  log m' = log m ++ [forwarded_event a (At p)].
Proof.
  destruct a as [a|src]; simpl; [apply construct_at_log|].
  intros E. inv_M. inv_emit. frame_log. cbn [log add_log] in *. congruence.
Qed.

Lemma local_object_log (a : forwarded) m x m' :
  local_object a m = Ret x m' →
  log m' = log m ++ [forwarded_event a Local].
Proof.
  destruct a as [a|src]; simpl; [intros E; by apply construct_local_log in E as [? _]|].
  intros E. inv_M. inv_emit. frame_log. cbn [log add_log] in *. congruence.
Qed.

Lemma move_construct_log src dst m m' :
  move_construct src dst m = Ret tt m' →
  log m' = log m ++ [EvMoveCtor (At src) (At dst)].
Proof.
  unfold move_construct. intros E. inv_M. inv_emit. frame_log.
  cbn [log add_log] in *. congruence.
Qed.

Lemma copy_construct_log src dst m m' :
  copy_construct src dst m = Ret tt m' →
  log m' = log m ++ [EvCopyCtor (At src) (At dst)].
Proof.
  unfold copy_construct. intros E. inv_M. inv_emit. frame_log.
  cbn [log add_log] in *. congruence.
Qed.

Lemma destroy_at_log p m m' :
  destroy_at p m = Ret tt m' → log m' = log m ++ [EvDtor (At p)].
Proof.
  unfold destroy_at. intros E. inv_M. inv_emit. frame_log.
  cbn [log add_log] in *. congruence.
Qed.

Lemma destroy_n_log p n m m' :
  destroy_n p n m = Ret tt m' → log m' = log m ++ dtors p n.
Proof.
  unfold destroy_n, dtors. intros E.
  eapply (for_n_log (fun j => EvDtor (At (p +p j)))) in E.
  - rewrite E. f_equal.
  - intros j m1 m2. apply destroy_at_log.
Qed.

Lemma relocate_log src n dst m m' :
  relocate src n dst m = Ret tt m' →
  log m' = log m ++ relocation src n dst.
Proof.
  unfold relocate, relocation, relocates_by_move, uninitialized_move_n,
    uninitialized_copy_n, moves, copies.
  intros E. destruct (_ || _).
  - eapply (for_n_log (fun j => EvMoveCtor (At (src +p j)) (At (dst +p j)))) in E.
    + rewrite E. f_equal.
    + intros j m1 m2 Eb%on_exception_Ret. by apply move_construct_log.
  - eapply (for_n_log (fun j => EvCopyCtor (At (src +p j)) (At (dst +p j)))) in E.
    + rewrite E. f_equal.
    + intros j m1 m2 Eb%on_exception_Ret. by apply copy_construct_log.
Qed.

Lemma moves_no_copy src n dst :
  Forall (fun e => is_copy e = false) (moves src n dst).
Proof. unfold moves. apply Forall_fmap, Forall_forall. done. Qed.

Lemma dtors_no_copy p n : Forall (fun e => is_copy e = false) (dtors p n).
Proof. unfold dtors. apply Forall_fmap, Forall_forall. done. Qed.

Lemma adopt_log this new_data m m' :
  adopt this new_data m = Ret tt m' → log m' = log m.
Proof.
  intros E. eapply (respects_Ret (same_log T)); [|exact E].
  unfold adopt. solve_respects.
Qed.

Lemma grown_nonneg s : 0 <= grown s.
Proof. unfold grown. case_decide; [done|]. apply wrap_range. Qed.

(** *** The three reallocating paths, event by event *)

Lemma Reserve_grow this n m m' v :
  vecs m !! this = Some v →
  0 <= capacity_ (data_ v) < n →
  Reserve this n m = Ret tt m' →
  ∃ b, heap m !! b = None ∧
       vecs m' = <[this := mkVector (mkRawMemory (Ptr b 0) n) (size_ v)]> (vecs m) ∧
       log m' = log m ++ relocation (buffer_ (data_ v)) (size_ v) (Ptr b 0)
                      ++ dtors (buffer_ (data_ v)) (size_ v).
Proof.
  intros Hv Hlt E.
  unfold Reserve, RawMemory_Capacity in E. inv_M; [lia|]. inv_raw.
  match goal with X : RawMemory_ctor _ _ = Ret ?nd _ |- _ =>
    pose proof (RawMemory_ctor_Ret _ _ _ _ X) as (Hc & Hb) end.
  destruct Hb as [(Hn0 & _)|(_ & b & Hbuf & Hf & Hm1)]; [lia|].
  exists b. split; [done|]. split.
  { clear Hm1. tidy_vecs. do 2 f_equal. destruct r; simpl in *; congruence. }
  match goal with
  | E1 : relocate _ _ _ _ = _, E2 : destroy_n _ _ _ = _ |- _ =>
      pose proof (relocate_log _ _ _ _ _ E1) as Hl1;
      pose proof (destroy_n_log _ _ _ _ E2) as Hl2
  end.
  clear Hm1. frame_log. cbn [log set_vecs] in *. unfold GetAddress in *.
  rewrite Hbuf in *. rewrite app_assoc. congruence.
Qed.

Lemma append_grow this a m p m' v :
  vecs m !! this = Some v →
  size_ v = capacity_ (data_ v) →
  append this a m = Ret p m' →
  ∃ b, p = Ptr b (size_ v) ∧ heap m !! b = None ∧
       vecs m' = <[this := mkVector (mkRawMemory (Ptr b 0) (grown (size_ v)))
                                    (wrap (size_ v + 1))]> (vecs m) ∧
       log m' = log m ++ forwarded_event a (At (Ptr b (size_ v)))
                      :: relocation (buffer_ (data_ v)) (size_ v) (Ptr b 0)
                      ++ dtors (buffer_ (data_ v)) (size_ v).
Proof.
  intros Hv Hfull E.
  unfold append, RawMemory_Capacity in E. inv_M.
  match goal with X : RawMemory_ctor _ _ = Ret ?nd _ |- _ =>
    pose proof (RawMemory_ctor_Ret _ _ _ _ X) as (Hc & Hb) end.
  destruct Hb as [(_ & Hnull & _)|(_ & b & Hbuf & Hf & Hm1)].
  { rewrite Hnull in *.
    no_null_new. }
  exists b. unfold GetAddress in *. rewrite Hbuf in *. simpl in *.
  split; [done|]. split; [done|].
  match goal with X : adopt _ _ ?m3 = _ |- _ =>
    assert (Hx : vecs m3 = vecs m) by (clear Hm1; frame_vecs; congruence);
    pose proof (adopt_log _ _ _ _ X) as Hla;
    eapply adopt_vecs in X; [|rewrite Hx; eassumption]; rewrite Hx in X
  end.
  split.
  { match goal with X : vecs m' = _ |- _ => rewrite X end.
    do 2 f_equal. destruct x0; simpl in *; congruence. }
  match goal with
  | E0 : placement_new _ _ _ = _, E1 : relocate _ _ _ _ = _,
    E2 : destroy_n _ _ _ = _ |- _ =>
      pose proof (placement_new_log _ _ _ _ E0) as Hl0;
      pose proof (relocate_log _ _ _ _ _ E1) as Hl1;
      pose proof (destroy_n_log _ _ _ _ E2) as Hl2
  end.
  subst. cbn [log set_heap] in *. rewrite Z.add_0_l in *.
  rewrite Hla, Hl2, Hl1, Hl0, <- !app_assoc. done.
Qed.

Lemma relocation_nil src dst : relocation src 0 dst = [].
Proof. unfold relocation, moves, copies. by destruct relocates_by_move. Qed.

Lemma emplace_grow this pos a m it m' v :
  vecs m !! this = Some v →
  in_size_t (size_ v) →
  size_ v = capacity_ (data_ v) →
  emplace this pos a m = Ret it m' →
  ∃ b index,
    index_of this pos m = Ret index m ∧ 0 <= index <= size_ v ∧
    it = Ptr b index ∧ heap m !! b = None ∧
    vecs m' = <[this := mkVector (mkRawMemory (Ptr b 0) (grown (size_ v)))
                                 (wrap (size_ v + 1))]> (vecs m) ∧
    log m' = log m ++ forwarded_event a (At (Ptr b index))
                   :: relocation (buffer_ (data_ v)) index (Ptr b 0)
                   ++ relocation (buffer_ (data_ v) +p index)
                                 (size_ v - index) (Ptr b (index + 1))
                   ++ dtors (buffer_ (data_ v)) (size_ v).
Proof.
  intros Hv Hsz Hfull E. unfold emplace in E.
  apply bind_Ret in E as (index & m0 & Ei & E).
  destruct (index_of_Ret _ _ _ _ _ Ei) as [-> Hi].
  unfold RawMemory_Capacity in E. inv_M.
  - (* at the end: EmplaceBack *)
    match goal with X : append _ _ _ = _ |- _ =>
      eapply append_grow in X as (b & _ & Hf & Hm & Hl); [|done..] end.
    exists b, (size_ v). split; [done|]. split; [unfold in_size_t in *; lia|].
    rewrite Hm in *. simplify_map_eq. simpl. rewrite Z.add_0_l.
    split; [done|]. split; [done|]. split; [done|].
    by rewrite Hl, Z.sub_diag, relocation_nil.
  - (* full: grow around the new element *)
    match goal with X : RawMemory_ctor _ _ = Ret ?nd _ |- _ =>
      pose proof (RawMemory_ctor_Ret _ _ _ _ X) as (Hc & Hb) end.
    destruct Hb as [(_ & Hnull & _)|(_ & b & Hbuf & Hf & Hm1)].
    { rewrite Hnull in *.
      no_null_new. }
    exists b, index. unfold GetAddress in *. rewrite Hbuf in *. simpl in *.
    assert (wrap (size_ v - index) = size_ v - index) as Hn
      by (apply wrap_small; unfold in_size_t in *; lia).
    assert (wrap (index + 1) = index + 1) as Hi1
      by (apply wrap_small; unfold in_size_t in *; lia).
    rewrite Hn, Hi1, !Z.add_0_l in *.
    split; [done|]. split; [unfold in_size_t in *; lia|].
    match goal with X : adopt _ _ ?m3 = _ |- _ =>
      assert (Hx : vecs m3 = vecs m) by (clear Hm1; frame_vecs; congruence);
      pose proof (adopt_log _ _ _ _ X) as Hla;
      eapply adopt_vecs in X; [|rewrite Hx; eassumption]; rewrite Hx in X
    end.
    match goal with X : vecs _ = <[this := _]> (vecs m) |- _ =>
      rewrite X in *; rename X into Hm' end.
    simplify_map_eq. simpl. rewrite Hbuf. simpl. rewrite Z.add_0_l.
    split; [done|]. split; [done|]. split.
    { do 2 f_equal. destruct x0; simpl in *; congruence. }
    match goal with
    | E0 : placement_new _ _ _ = _, E1 : relocate _ index _ _ = _,
      E2 : relocate _ (size_ v - index) _ _ = _,
      E3 : destroy_n _ _ _ = _ |- _ =>
        pose proof (placement_new_log _ _ _ _ E0) as Hl0;
        pose proof (relocate_log _ _ _ _ _ E1) as Hl1;
        pose proof (relocate_log _ _ _ _ _ E2) as Hl2;
        pose proof (destroy_n_log _ _ _ _ E3) as Hl3
    end.
    subst. cbn [log set_heap] in *.
    rewrite Hla, Hl3, Hl2, Hl1, Hl0, <- !app_assoc. done.
Qed.

Lemma RawMemory_ctor_cases n m :
  n ≠ 0 →
  RawMemory_ctor n m = Exc m ∨
  ∃ b, heap m !! b = None ∧
       RawMemory_ctor n m =
         Ret (mkRawMemory (Ptr b 0) n)
             (set_heap <[b := replicate (Z.to_nat (wrap (n * sizeof) / sizeof)) None]> m).
Proof.
  intros Hn. unfold RawMemory_ctor, Allocate. case_decide; [|done].
  unfold bind, operator_new. destruct (wrap (n * sizeof) <=? max_alloc m).
  - right. eexists. split; [|done]. apply not_elem_of_dom, is_fresh.
  - by left.
Qed.

Lemma run_bind_Exc {A B} (c : M A) (f : A → M B) m m1 :
  c m = Exc m1 → bind c f m = Exc m1.
Proof. intros E. unfold bind. by rewrite E. Qed.

Lemma construct_at_throws p a m :
  init_throws a = true →
  construct_at p a m = Exc (add_log (init_event a (At p)) m).
Proof. intros Ht. unfold construct_at, bind, emit. by rewrite Ht. Qed.

(** A fresh block holds no object. *)
Lemma live_fresh_block m b n q :
  heap m !! b = None →
  live (set_heap <[b := replicate n None]> m) q = live m q.
Proof.
  intros Hb. unfold live, slot. destruct q as [|c i]; [done|].
  cbn [heap set_heap]. destruct (0 <=? i); [|done].
  destruct (decide (c = b)) as [->|Hne].
  - rewrite lookup_insert_eq, Hb. simpl.
    destruct (replicate n None !! Z.to_nat i) as [o|] eqn:E; [|done].
    by apply lookup_replicate in E as [-> _].
  - by rewrite lookup_insert_ne.
Qed.

Lemma live_load m src x : live m src = Some x → load src m = Ret x m.
Proof.
  unfold live, load. destruct (slot m src) as [[y|]|]; simpl; congruence.
Qed.

Lemma placement_new_throws p (a : forwarded) m :
  forwarded_throws m a = true →
  placement_new p a m = Exc (add_log (forwarded_event a (At p)) m).
Proof.
  destruct a as [a|src]; simpl; [apply construct_at_throws|].
  destruct (live m src) as [x|] eqn:Hx; [|done]. intros Ht.
  rewrite (run_bind _ _ _ _ _ (live_load _ _ _ Hx)).
  unfold bind, emit. by rewrite Ht.
Qed.

(** Construction of the new element fails in a full vector: the call
    throws and neither the store nor the heap has changed. *)
Lemma append_construct_fails this (a : forwarded) m v :
  vecs m !! this = Some v →
  size_ v = capacity_ (data_ v) →
  in_size_t (size_ v) →
  size_ v * 2 < size_t_modulus →
  forwarded_throws m a = true →
  ∃ m', append this a m = Exc m' ∧ vecs m' = vecs m ∧ heap m' = heap m.
Proof.
  intros Hv Hfull Hs Hno Ht. unfold append.
  rewrite (run_bind _ _ _ _ _ (get_Some _ _ _ Hv)).
  unfold RawMemory_Capacity. case_decide; [|done].
  assert (grown (size_ v) ≠ 0 ∧ size_ v <= grown (size_ v)) as [Hg Hle].
  { unfold grown. case_decide; [lia|].
    rewrite wrap_small by (unfold in_size_t in *; lia).
    unfold in_size_t in *. lia. }
  destruct (RawMemory_ctor_cases (grown (size_ v)) m Hg) as [Ec|(b & Hb & Ec)].
  { exists m. unfold bind at 1. by rewrite Ec. }
  rewrite (run_bind _ _ _ _ _ Ec).
  unfold bind at 1, on_exception, RawMemory_plus, assert. simpl.
  destruct (Z.leb_spec (size_ v) (grown (size_ v))); [|lia].
  unfold bind at 1. unfold bind at 1. simpl.
  match goal with |- context [bind (placement_new ?q a) _ ?m1] =>
    assert (forwarded_throws m1 a = true) as Ht1
      by (destruct a; simpl in *; rewrite ?live_fresh_block; done);
    rewrite (run_bind_Exc _ _ _ _ (placement_new_throws q _ _ Ht1))
  end.
  unfold RawMemory_dtor, Deallocate, operator_delete. simpl.
  rewrite lookup_insert_eq.
  eexists. split; [done|]. simpl. split; [done|].
  by apply delete_insert_id.
Qed.

Lemma contents_same_heap m m' v : heap m' = heap m → contents m' v = contents m v.
Proof.
  intros Hh. unfold contents, live, slot. apply mapM_ext. intros i.
  by rewrite Hh.
Qed.

Lemma exec_appends c this a m o :
  appends c = Some (this, a) →
  exec c m = o →
  match o with
  | Ret _ m' => ∃ p, append this a m = Ret p m'
  | Exc m' => append this a m = Exc m'
  | Abort => append this a m = Abort
  end.
Proof.
  intros Hc <-.
  destruct c; simpl in Hc; simplify_eq; simpl;
    unfold PushBack, PushBack_rvalue, EmplaceBack, bind, ret;
    destruct (append _ _ m); eauto.
Qed.

Lemma exec_inserts c this a m m' :
  inserts c = Some (this, a) →
  exec c m = Ret tt m' →
  (∃ p, append this a m = Ret p m') ∨ (∃ pos it, emplace this pos a m = Ret it m').
Proof.
  intros Hc E.
  destruct c; simpl in Hc; simplify_eq; simpl in E;
    unfold PushBack, PushBack_rvalue, EmplaceBack, Insert,
      Insert_rvalue, Emplace in E; inv_M; eauto.
Qed.

(** C4: on a vector whose size equals its capacity, a [PushBack] or
    [EmplaceBack] that returns has first built the new element, at
    index [size] of the new block (the block the vector owns
    afterwards), and only then relocated the old elements and
    destroyed them.  If the constructor of the new element throws, the
    call throws and the store of vectors and the heap are what they
    were, hence the vector has the same size, capacity and elements
    (the doubled size is taken to fit [size_t]). *)
Theorem append_builds_new_element_first c this a m v :
  appends c = Some (this, a) →
  vecs m !! this = Some v →
  in_size_t (size_ v) →
  size_ v = capacity_ (data_ v) →
  (∀ m', exec c m = Ret tt m' →
     ∃ b, heap m !! b = None ∧
          vecs m' !! this =
            Some (mkVector (mkRawMemory (Ptr b 0) (grown (size_ v)))
                           (wrap (size_ v + 1))) ∧
          log m' = log m ++ forwarded_event a (At (Ptr b (size_ v)))
                         :: relocation (buffer_ (data_ v)) (size_ v) (Ptr b 0)
                         ++ dtors (buffer_ (data_ v)) (size_ v)) ∧
  (forwarded_throws m a = true → size_ v * 2 < size_t_modulus →
     ∃ m', exec c m = Exc m' ∧ vecs m' = vecs m ∧ heap m' = heap m ∧
           contents m' v = contents m v).
Proof.
  intros Hc Hv Hs Hfull. split.
  - intros m' E. apply (exec_appends _ _ _ _ _ Hc) in E as [p E].
    destruct (append_grow _ _ _ _ _ _ Hv Hfull E) as (b & _ & Hb & Hm & Hl).
    exists b. split; [done|]. split; [|done].
    rewrite Hm. apply lookup_insert_eq.
  - intros Ht Hno.
    destruct (append_construct_fails _ _ _ _ Hv Hfull Hs Hno Ht)
      as (m' & E & Hm & Hh).
    exists m'. split; [|by auto using contents_same_heap].
    pose proof (exec_appends c this a m _ Hc eq_refl) as Ho.
    destruct (exec c m) as [[] m1|m1|]; [destruct Ho|..]; congruence.
Qed.

Lemma moves_dtors_no_copy src n dst p k :
  Forall (fun e => is_copy e = false) (moves src n dst ++ dtors p k).
Proof. apply Forall_app. split; [apply moves_no_copy|apply dtors_no_copy]. Qed.

(** C6: the relocating paths follow the policy.  [Reserve] above the
    capacity and every insertion into a full vector append to the log
    of element operations the construction of the new element (for an
    insertion), one relocation event per live element, in order, from
    its old slot to its new slot, and then the destruction of the old
    elements.  When the element type is nothrow-move-constructible or
    not copy-constructible every relocation event is a move
    construction and no copy is among them; otherwise every relocation
    event is a copy construction. *)
Theorem relocation_follows_policy this m v :
  vecs m !! this = Some v →
  representable v →
  (∀ n m', capacity_ (data_ v) < n → Reserve this n m = Ret tt m' →
     ∃ b, vecs m' !! this = Some (mkVector (mkRawMemory (Ptr b 0) n) (size_ v)) ∧
          log m' = log m ++ relocation (buffer_ (data_ v)) (size_ v) (Ptr b 0)
                         ++ dtors (buffer_ (data_ v)) (size_ v)) ∧
  (∀ c a m', inserts c = Some (this, a) → size_ v = capacity_ (data_ v) →
     exec c m = Ret tt m' →
     ∃ b index, 0 <= index <= size_ v ∧
       vecs m' !! this =
         Some (mkVector (mkRawMemory (Ptr b 0) (grown (size_ v)))
                        (wrap (size_ v + 1))) ∧
       log m' = log m ++ growth_log a (buffer_ (data_ v)) (size_ v) index b) ∧
  (is_nothrow_move_constructible || negb is_copy_constructible = true →
     ∀ src n dst, relocation src n dst = moves src n dst ∧
                  Forall (fun e => is_copy e = false)
                         (relocation src n dst ++ dtors src n)) ∧
  (is_nothrow_move_constructible || negb is_copy_constructible = false →
     ∀ src n dst, relocation src n dst = copies src n dst).
Proof.
  intros Hv [Hs Hc]. split; [|split; [|split]].
  - intros n m' Hlt E.
    destruct (Reserve_grow this n m m' v Hv) as (b & _ & Hm & Hl);
      [unfold in_size_t in *; lia|done|].
    exists b. split; [|done]. rewrite Hm. apply lookup_insert_eq.
  - intros c a m' Hi Hfull E.
    destruct (exec_inserts _ _ _ _ _ Hi E) as [[p Ea]|(pos & it & Ee)].
    + destruct (append_grow _ _ _ _ _ _ Hv Hfull Ea) as (b & _ & Hb & Hm & Hl).
      exists b, (size_ v). split; [unfold in_size_t in *; lia|].
      split; [rewrite Hm; apply lookup_insert_eq|].
      unfold growth_log. by rewrite Hl, Z.sub_diag, relocation_nil.
    + destruct (emplace_grow _ _ _ _ _ _ _ Hv Hs Hfull Ee)
        as (b & index & _ & Hi' & _ & _ & Hm & Hl).
      exists b, index. split; [done|].
      split; [rewrite Hm; apply lookup_insert_eq|done].
  - intros Hp src n dst. unfold relocation, relocates_by_move. rewrite Hp.
    split; [done|]. apply moves_dtors_no_copy.
  - intros Hp src n dst. unfold relocation, relocates_by_move. by rewrite Hp.
Qed.

(** *** The heap, slot by slot *)

Lemma store_slot p o m m' :
  store p o m = Ret tt m' →
  is_Some (slot m p) ∧
  ∀ q, slot m' q = if decide (q = p) then Some o else slot m q.
Proof.
  intros E. pose proof (store_Ret_slot _ _ _ _ _ E) as Hp. split; [done|].
  unfold store in E. destruct p as [|b i]; [done|].
  destruct Hp as [o' Hp]. rewrite Hp in E. injection E as <-.
  apply slot_Ptr in Hp as (Hi & blk & Eb & Ei).
  intros [|c j]; [done|]. case_decide as Hq.
  - injection Hq as -> ->. apply slot_Ptr. split; [done|].
    exists (<[Z.to_nat i := o]> blk). cbn [heap set_heap].
    rewrite lookup_alter_eq, Eb. split; [done|].
    apply list_lookup_insert_eq. by apply lookup_lt_Some in Ei.
  - unfold slot. cbn [heap set_heap]. destruct (Z.leb_spec 0 j); [|done].
    destruct (decide (c = b)) as [->|Hne].
    + rewrite lookup_alter_eq, Eb. simpl.
      apply list_lookup_insert_ne. intros Heq. apply Hq. f_equal. lia.
    + by rewrite lookup_alter_ne.
Qed.

Lemma live_slot m p x : slot m p = Some (Some x) → live m p = Some x.
Proof. unfold live. by intros ->. Qed.

Ltac inv_heap :=
  repeat match goal with
  | E : load _ _ = Ret _ _ |- _ => apply load_Ret in E as [-> ?]
  | E : emit _ _ = Ret _ _ |- _ => apply emit_Ret in E as ->
  | E : store _ _ _ = Ret _ _ |- _ => apply store_slot in E as [? ?]
  end.

(** Read a slot of the final memory through the chain of stores. *)
Ltac slot_cases :=
  repeat match goal with
  | Hs : ∀ q, slot ?m q = _ |- context [slot ?m _] => rewrite Hs
  end;
  rewrite ?slot_add_log;
  repeat case_decide; simplify_eq; done.

Lemma move_construct_transfers src dst :
  src ≠ dst → transfers T (move_construct src dst) src dst.
Proof.
  intros Hne m1 m2 E. unfold move_construct in E. inv_M. inv_heap.
  eexists. split; [done|]. split; [|intros q Hq1 Hq2]; slot_cases.
Qed.

Lemma copy_construct_transfers src dst :
  transfers T (copy_construct src dst) src dst.
Proof.
  intros m1 m2 E. unfold copy_construct in E. inv_M. inv_heap.
  eexists. split; [done|]. split; [|intros q Hq1 Hq2]; slot_cases.
Qed.

Lemma move_assign_transfers src dst :
  src ≠ dst → transfers T (move_assign src dst) src dst.
Proof.
  intros Hne m1 m2 E. unfold move_assign in E. inv_M. inv_heap.
  eexists. split; [done|]. split; [|intros q Hq1 Hq2]; slot_cases.
Qed.

Lemma destroy_at_touches p : touches T (destroy_at p) p.
Proof.
  intros m1 m2 E q Hq. unfold destroy_at in E. inv_M. inv_heap. slot_cases.
Qed.

Lemma destroy_at_slot p m m' :
  destroy_at p m = Ret tt m' →
  ∀ q, slot m' q = if decide (q = p) then Some None else slot m q.
Proof.
  intros E q. unfold destroy_at in E. inv_M. inv_heap. slot_cases.
Qed.

Lemma construct_at_slot p a m m' :
  construct_at p a m = Ret tt m' →
  ∀ q, slot m' q = if decide (q = p) then Some (Some (init_value a)) else slot m q.
Proof.
  intros E q. unfold construct_at in E. inv_M. inv_heap. slot_cases.
Qed.

Lemma move_assign_local_slot x p m m' :
  move_assign_local x p m = Ret tt m' →
  ∀ q, slot m' q = if decide (q = p) then Some (Some x) else slot m q.
Proof.
  intros E q. unfold move_assign_local in E. inv_M. inv_heap. slot_cases.
Qed.


(** *** Loops of transfers *)

(** A loop whose [j]-th iteration carries [src j] to [dst j], where no
    iteration reads or overwrites what an earlier one wrote or left
    behind: every [dst j] ends up with what [src j] held at the start,
    and slots outside all the [src j] and [dst j] keep their state. *)
Lemma for_n_transfers (src dst : Z → ptr) body k : ∀ i m m',
  (∀ j, transfers T (body j) (src j) (dst j)) →
  (∀ j j', i <= j' < j → j < i + Z.of_nat k →
     src j ≠ src j' ∧ src j ≠ dst j' ∧ dst j ≠ dst j') →
  for_n k i body m = Ret tt m' →
  (∀ j, i <= j < i + Z.of_nat k →
     ∃ x, slot m (src j) = Some (Some x) ∧ slot m' (dst j) = Some (Some x)) ∧
  (∀ q, (∀ j, i <= j < i + Z.of_nat k → q ≠ src j ∧ q ≠ dst j) →
     slot m' q = slot m q).
Proof.
  induction k as [|k IH]; intros i m m' Hb Hd E; simpl in E.
  - inv_M. split; [intros; lia|done].
  - apply bind_Ret in E as ([] & m1 & E1 & E2).
    destruct (Hb i _ _ E1) as (x & Hx & Hx' & Hf).
    destruct (IH (i + 1) m1 m' Hb) as [IH1 IH2]; [|done|].
    { intros j j' Hj Hk. apply Hd; lia. }
    split.
    + intros j Hj. destruct (decide (j = i)) as [->|Hne].
      * exists x. split; [done|]. rewrite IH2; [done|].
        intros j Hj'. destruct (Hd j i) as (? & ? & ?); [lia..|]. done.
      * destruct (IH1 j) as (y & Hy & Hy'); [lia|].
        exists y. split; [|done]. rewrite <- Hy. symmetry.
        destruct (Hd j i) as (? & ? & ?); [lia..|]. by apply Hf.
    + intros q Hq. rewrite IH2 by (intros j Hj; apply Hq; lia).
      destruct (Hq i) as [? ?]; [lia|]. by apply Hf.
Qed.

Lemma for_n_touches (at_ : Z → ptr) body k : ∀ i m m',
  (∀ j, touches T (body j) (at_ j)) →
  for_n k i body m = Ret tt m' →
  ∀ q, (∀ j, i <= j < i + Z.of_nat k → q ≠ at_ j) → slot m' q = slot m q.
Proof.
  induction k as [|k IH]; intros i m m' Hb E q Hq; simpl in E.
  - by inv_M.
  - apply bind_Ret in E as ([] & m1 & E1 & E2).
    rewrite (IH _ _ _ Hb E2) by (intros j Hj; apply Hq; lia).
    apply (Hb i _ _ E1). apply Hq. lia.
Qed.

Lemma transfers_on_exception c h src dst :
  transfers T c src dst → transfers T (on_exception c h) src dst.
Proof. intros Hc m1 m2 E%on_exception_Ret. by apply Hc. Qed.

(** Relocation between two different blocks *)
Lemma relocate_slots sb so n db do_ m m' :
  sb ≠ db →
  relocate (Ptr sb so) n (Ptr db do_) m = Ret tt m' →
  (∀ j, 0 <= j < n →
     ∃ x, slot m (Ptr sb (so + j)) = Some (Some x) ∧
          slot m' (Ptr db (do_ + j)) = Some (Some x)) ∧
  (∀ c i, c ≠ sb → ¬ (c = db ∧ do_ <= i < do_ + n) →
     slot m' (Ptr c i) = slot m (Ptr c i)) ∧
  (∀ i, ¬ (so <= i < so + n) → slot m' (Ptr sb i) = slot m (Ptr sb i)).
Proof.
  intros Hne E.
  assert (for_n (Z.to_nat n) 0
            (fun j => if relocates_by_move
                      then on_exception (move_construct (Ptr sb so +p j) (Ptr db do_ +p j))
                                        (destroy_n (Ptr db do_) j)
                      else on_exception (copy_construct (Ptr sb so +p j) (Ptr db do_ +p j))
                                        (destroy_n (Ptr db do_) j)) m = Ret tt m') as E'.
  { unfold relocate, relocates_by_move, uninitialized_move_n, uninitialized_copy_n in *.
    by destruct (_ || _). }
  clear E.
  apply (for_n_transfers (fun j => Ptr sb (so + j)) (fun j => Ptr db (do_ + j))) in E'.
  - destruct E' as [H1 H2]. split; [|split].
    + intros j Hj. apply H1. lia.
    + intros c i Hc Hi. apply H2. intros j Hj. split; [congruence|].
      intros [= -> ->]. apply Hi. split; [done|lia].
    + intros i Hi. apply H2. intros j Hj. split; [|congruence].
      intros [= ->]. apply Hi. lia.
  - intros j. destruct relocates_by_move; apply transfers_on_exception.
    + apply move_construct_transfers. simpl. congruence.
    + apply copy_construct_transfers.
  - intros j j' Hj Hk. repeat split; intros [=]; try done; lia.
Qed.

Lemma destroy_n_slots p n m m' :
  destroy_n p n m = Ret tt m' →
  ∀ q, (∀ j, 0 <= j < n → q ≠ p +p j) → slot m' q = slot m q.
Proof.
  intros E q Hq. unfold destroy_n in E.
  eapply (for_n_touches (fun j => p +p j)) in E; [done| |].
  - intros j. apply destroy_at_touches.
  - intros j Hj. apply Hq. lia.
Qed.

Lemma slot_same_heap m m' q : heap m' = heap m → slot m' q = slot m q.
Proof. intros Hh. unfold slot. by rewrite Hh. Qed.

Lemma slot_set_heap_insert m b blk c i :
  c ≠ b → slot (set_heap <[b := blk]> m) (Ptr c i) = slot m (Ptr c i).
Proof. intros Hne. unfold slot. cbn [heap set_heap]. by rewrite lookup_insert_ne. Qed.

Lemma slot_fresh_block m b n i :
  slot (set_heap <[b := replicate n None]> m) (Ptr b i) =
    if decide (0 <= i < Z.of_nat n) then Some None else None.
Proof.
  unfold slot. cbn [heap set_heap]. rewrite lookup_insert_eq. simpl.
  destruct (Z.leb_spec 0 i); case_decide; try lia.
  - apply lookup_replicate_2. lia.
  - apply lookup_ge_None. rewrite length_replicate. lia.
  - done.
Qed.

Lemma RawMemory_dtor_slots r m m' :
  RawMemory_dtor r m = Ret tt m' →
  vecs m' = vecs m ∧
  ∀ c i, buffer_ r ≠ Ptr c 0 → slot m' (Ptr c i) = slot m (Ptr c i).
Proof.
  unfold RawMemory_dtor, Deallocate, operator_delete. intros E.
  destruct (buffer_ r) as [|b off]; inv_M; [done|].
  split; [done|]. intros c i Hc. unfold slot. cbn [heap set_heap].
  rewrite lookup_delete_ne; [done|]. congruence.
Qed.

(** *** The logical contents *)

Lemma contents_ext m m' v v' :
  size_ v' = size_ v →
  (∀ i, 0 <= i < size_ v →
     live m' (buffer_ (data_ v') +p i) = live m (buffer_ (data_ v) +p i)) →
  contents m' v' = contents m v.
Proof.
  intros Hs Hl. unfold contents, GetAddress. rewrite Hs.
  apply Forall_mapM_ext, Forall_forall. intros i Hi%elem_of_seq.
  apply Hl. lia.
Qed.

Lemma wf_buffer m v :
  wf m v →
  (buffer_ (data_ v) = Null ∧ size_ v = 0 ∧ capacity_ (data_ v) = 0) ∨
  (∃ b, buffer_ (data_ v) = Ptr b 0 ∧ is_Some (heap m !! b)).
Proof.
  intros (_ & [Hs Hc] & Hb). destruct (buffer_ (data_ v)) as [|b off].
  - left. split; [done|]. split; [lia|done].
  - right. destruct Hb as [-> Hb]. exists b. split; [done|].
    destruct (heap m !! b); [eauto|done].
Qed.

Lemma Reserve_contents this n m m' v :
  vecs m !! this = Some v →
  wf m v →
  capacity_ (data_ v) < n →
  Reserve this n m = Ret tt m' →
  ∃ v', vecs m' !! this = Some v' ∧ size_ v' = size_ v ∧
        capacity_ (data_ v') = n ∧ contents m' v' = contents m v.
Proof.
  intros Hv Hwf Hlt E.
  pose proof Hwf as ([_ Hcr] & [Hs0 Hsc] & _).
  unfold Reserve, RawMemory_Capacity in E. inv_M; [lia|]. inv_raw.
  match goal with X : RawMemory_ctor _ _ = Ret ?nd _ |- _ =>
    apply RawMemory_ctor_Ret in X as (Hc & [(Hn0 & _)|(_ & b & Hbuf & Hf & ->)]) end;
    [unfold in_size_t in *; lia|].
  match goal with
  | E1 : relocate _ _ _ _ = Ret _ ?m2, E2 : destroy_n _ _ ?m2 = Ret _ ?m3,
    E3 : RawMemory_dtor _ _ = _ |- _ =>
      assert (vecs m3 = vecs m) as Hv3
        by (frame_vecs; cbn [vecs set_heap] in *; congruence);
      apply RawMemory_dtor_slots in E3 as [Hv' Hd]
  end.
  cbn [vecs set_vecs] in Hv'. rewrite Hv3 in *. simplify_eq.
  eexists. split; [rewrite Hv'; apply lookup_insert_eq|]. simpl.
  split; [done|]. split; [done|].
  apply contents_ext; [done|]. simpl. intros i Hi.
  destruct (wf_buffer _ _ Hwf) as [(_ & Hz & _)|(ob & Hob & [blk Hblk])]; [lia|].
  assert (ob ≠ b) as Hne by congruence.
  unfold GetAddress, live in *. cbn [data_ buffer_].
  rewrite Hob, Hbuf in *. cbn [ptr_add].
  rewrite Hd by congruence. rewrite (slot_same_heap x3) by done.
  match goal with
  | E1 : relocate _ _ _ _ = _, E2 : destroy_n _ _ _ = _ |- _ =>
      apply relocate_slots in E1 as (Hr & _ & _); [|done];
      rewrite (destroy_n_slots _ _ _ _ E2) by (cbn [ptr_add]; intros; congruence)
  end.
  destruct (Hr i Hi) as (x & Hx & ->).
  rewrite slot_set_heap_insert in Hx by done. by rewrite Hx.
Qed.

Lemma relocate_0 src dst m : relocate src 0 dst m = Ret tt m.
Proof.
  unfold relocate, uninitialized_move_n, uninitialized_copy_n.
  by destruct (_ || _).
Qed.

Lemma destroy_n_0 p m : destroy_n p 0 m = Ret tt m.
Proof. done. Qed.

(** Growing around a new element at [index]: where every element is
    afterwards *)
Lemma grow_slots m v b blk a index m2 m3 m4 m5 :
  wf m v → heap m !! b = None → 0 <= index <= size_ v →
  construct_at (Ptr b index) a (set_heap <[b := blk]> m) = Ret tt m2 →
  relocate (buffer_ (data_ v)) index (Ptr b 0) m2 = Ret tt m3 →
  relocate (buffer_ (data_ v) +p index) (size_ v - index) (Ptr b (index + 1)) m3
    = Ret tt m4 →
  destroy_n (buffer_ (data_ v)) (size_ v) m4 = Ret tt m5 →
  (∀ k, 0 <= k < index →
     live m5 (Ptr b k) = live m (buffer_ (data_ v) +p k)) ∧
  live m5 (Ptr b index) = Some (init_value a) ∧
  (∀ k, index < k <= size_ v →
     live m5 (Ptr b k) = live m (buffer_ (data_ v) +p (k - 1))).
Proof.
  intros Hwf Hb Hi E1 E2 E3 E4.
  pose proof (construct_at_slot _ _ _ _ E1) as H1.
  destruct (wf_buffer _ _ Hwf) as [(Hnull & Hz & _)|(ob & Hob & [oblk Hoblk])].
  - rewrite Hnull, Hz in *. assert (index = 0) as -> by lia.
    rewrite relocate_0 in E2. rewrite relocate_0 in E3.
    rewrite destroy_n_0 in E4. simplify_eq.
    split; [intros; lia|]. split; [|intros; lia].
    unfold live. rewrite H1. by rewrite decide_True.
  - assert (ob ≠ b) as Hne by congruence. rewrite Hob in *. cbn [ptr_add] in *.
    apply relocate_slots in E2 as (A2 & B2 & C2); [|done].
    apply relocate_slots in E3 as (A3 & B3 & C3); [|done].
    pose proof (destroy_n_slots _ _ _ _ E4) as H4. cbn [ptr_add] in H4.
    assert (∀ i, slot m2 (Ptr ob i) = slot m (Ptr ob i)) as Hold.
    { intros i. rewrite H1, decide_False by congruence.
      by apply slot_set_heap_insert. }
    unfold live. split; [|split].
    + intros k Hk. rewrite H4 by (intros; congruence).
      rewrite B3 by (try done; lia).
      destruct (A2 k Hk) as (x & Hx & Hx').
      rewrite Z.add_0_l in Hx'. rewrite Hx', <- Hold, Hx. done.
    + rewrite H4 by (intros; congruence).
      rewrite B3 by (try done; lia). rewrite B2 by (try done; lia).
      rewrite H1. by rewrite decide_True.
    + intros k Hk. rewrite H4 by (intros; congruence).
      destruct (A3 (k - index - 1)) as (x & Hx & Hx'); [lia|].
      replace (index + 1 + (k - index - 1)) with k in Hx' by lia.
      replace (0 + index + (k - index - 1)) with (0 + (k - 1)) in Hx by lia.
      rewrite Hx'. rewrite C2 in Hx by lia. rewrite Hold in Hx. by rewrite Hx.
Qed.

Lemma distance_Ret b i j m n m' :
  distance (Ptr b i) (Ptr b j) m = Ret n m' → n = j - i ∧ 0 <= n ∧ m' = m.
Proof.
  unfold distance. simpl. rewrite decide_True by done. intros E. inv_M.
  split; [done|]. split; [lia|done].
Qed.

(** [std::move_backward] inside one block *)
Lemma move_backward_slots b first last m m' :
  move_backward (Ptr b first) (Ptr b last) (Ptr b (last + 1)) m = Ret tt m' →
  first <= last ∧
  (∀ k, first < k <= last →
     ∃ x, slot m (Ptr b (k - 1)) = Some (Some x) ∧
          slot m' (Ptr b k) = Some (Some x)) ∧
  (∀ q, (∀ k, first <= k <= last → q ≠ Ptr b k) → slot m' q = slot m q).
Proof.
  unfold move_backward. intros E.
  apply bind_Ret in E as (n & m1 & (-> & Hn & ->)%distance_Ret & E).
  apply (for_n_transfers (fun j => Ptr b (last + - j))
                         (fun j => Ptr b (last + 1 + - j))) in E.
  - destruct E as [H1 H2]. split; [lia|]. split.
    + intros k Hk. destruct (H1 (last + 1 - k)) as (x & Hx & Hx'); [lia|].
      exists x. split.
      * rewrite <- Hx. do 2 f_equal. lia.
      * rewrite <- Hx'. do 2 f_equal. lia.
    + intros q Hq. apply H2. intros j Hj. split; apply Hq; lia.
  - intros j. apply move_assign_transfers. intros [=]. lia.
  - intros j j' Hj Hk. repeat split; intros [=]; lia.
Qed.

(** [std::move] to the left inside one block *)
Lemma std_move_slots b first last m m' :
  std_move (Ptr b first) (Ptr b last) (Ptr b (first - 1)) m = Ret tt m' →
  first <= last ∧
  (∀ k, first <= k < last →
     ∃ x, slot m (Ptr b k) = Some (Some x) ∧
          slot m' (Ptr b (k - 1)) = Some (Some x)) ∧
  (∀ q, (∀ k, first - 1 <= k < last → q ≠ Ptr b k) → slot m' q = slot m q).
Proof.
  unfold std_move. intros E.
  apply bind_Ret in E as (n & m1 & (-> & Hn & ->)%distance_Ret & E).
  apply (for_n_transfers (fun j => Ptr b (first + j))
                         (fun j => Ptr b (first - 1 + j))) in E.
  - destruct E as [H1 H2]. split; [lia|]. split.
    + intros k Hk. destruct (H1 (k - first)) as (x & Hx & Hx'); [lia|].
      exists x. split.
      * rewrite <- Hx. do 2 f_equal. lia.
      * rewrite <- Hx'. do 2 f_equal. lia.
    + intros q Hq. apply H2. intros j Hj. split; apply Hq; lia.
  - intros j. apply move_assign_transfers. intros [=]. lia.
  - intros j j' Hj Hk. repeat split; intros [=]; lia.
Qed.

(** Inserting in place: the last element is moved into the raw slot
    behind it, the elements from [index] on are shifted right, and the
    new value is assigned at [index]. *)
Lemma shift_slots b size index x m m1 m2 m3 :
  move_construct (Ptr b (size - 1)) (Ptr b size) m = Ret tt m1 →
  move_backward (Ptr b index) (Ptr b (size - 1)) (Ptr b size) m1 = Ret tt m2 →
  move_assign_local x (Ptr b index) m2 = Ret tt m3 →
  index < size ∧
  (∀ k, k < index → live m3 (Ptr b k) = live m (Ptr b k)) ∧
  live m3 (Ptr b index) = Some x ∧
  (∀ k, index < k <= size → live m3 (Ptr b k) = live m (Ptr b (k - 1))).
Proof.
  intros E1 E2 E3.
  apply move_construct_transfers in E1 as (x0 & Hx0 & Hx0' & F1);
    [|intros [=]; lia].
  replace (Ptr b size) with (Ptr b (size - 1 + 1)) in E2 by (f_equal; lia).
  apply move_backward_slots in E2 as (Hle & A2 & F2).
  pose proof (move_assign_local_slot _ _ _ _ E3) as H3.
  unfold live. split; [lia|]. split; [|split].
  - intros k Hk. rewrite H3, decide_False by (intros [=]; lia).
    rewrite F2 by (intros; intros [=]; lia).
    rewrite F1 by (intros [=]; lia). done.
  - rewrite H3. by rewrite decide_True.
  - intros k Hk. rewrite H3, decide_False by (intros [=]; lia).
    destruct (decide (k = size)) as [->|Hne].
    + rewrite F2 by (intros; intros [=]; lia). by rewrite Hx0', Hx0.
    + destruct (A2 k) as (y & Hy & ->); [lia|].
      rewrite F1 in Hy by (intros [=]; lia). by rewrite Hy.
Qed.

Lemma adopt_same_heap this new_data m m' :
  adopt this new_data m = Ret tt m' → heap m' = heap m.
Proof.
  unfold adopt. intros E. inv_M. inv_raw.
  repeat match goal with
  | X : RawMemory_dtor RawMemory_default _ = Ret _ _ |- _ =>
      unfold RawMemory_dtor, Deallocate, operator_delete in X; simpl in X;
      simplify_eq
  end.
  done.
Qed.

Lemma append_slots this (a : init) m p m' v :
  vecs m !! this = Some v → wf m v →
  append this a m = Ret p m' →
  ∃ b c,
    p = Ptr b (size_ v) ∧
    vecs m' = <[this := mkVector (mkRawMemory (Ptr b 0) c) (size_ v + 1)]> (vecs m) ∧
    (∀ k, 0 <= k < size_ v →
       live m' (Ptr b k) = live m (buffer_ (data_ v) +p k)) ∧
    live m' (Ptr b (size_ v)) = Some (init_value a).
Proof.
  intros Hv Hwf E.
  pose proof Hwf as ([Hsr Hcr] & [Hs0 Hsc] & _).
  unfold append, RawMemory_Capacity in E. inv_M.
  - (* full *)
    match goal with X : RawMemory_ctor _ _ = Ret ?nd _ |- _ =>
      apply RawMemory_ctor_Ret in X as (Hc & [(_ & Hnull & _)|(_ & b & Hbuf & Hf & ->)]) end.
    { rewrite Hnull in *.
      no_null_new. }
    unfold GetAddress in *. rewrite Hbuf in *. cbn [ptr_add] in *.
    rewrite Z.add_0_l in *.
    match goal with X : construct_at _ _ _ = Ret _ ?m2 |- _ =>
      rename X into Ec; rename m2 into mc end.
    match goal with X : relocate _ _ _ _ = Ret _ ?m2 |- _ =>
      rename X into Er; rename m2 into mr end.
    match goal with X : destroy_n _ _ _ = Ret _ ?m2 |- _ =>
      rename X into Ed; rename m2 into md end.
    match goal with X : adopt _ _ _ = _ |- _ => rename X into Ea end.
    assert (vecs md = vecs m) as Hv4
      by (frame_vecs; cbn [vecs set_heap] in *; congruence).
    pose proof (adopt_same_heap _ _ _ _ Ea) as Hh.
    eapply adopt_vecs in Ea; [|rewrite Hv4; eassumption]. rewrite Hv4 in Ea.
    assert (relocate (buffer_ (data_ v) +p size_ v) (size_ v - size_ v)
              (Ptr b (size_ v + 1)) mr = Ret tt mr) as Er0
      by (rewrite Z.sub_diag; apply relocate_0).
    destruct (grow_slots m v b _ a (size_ v) mc mr mr md Hwf Hf
                ltac:(lia) Ec Er Er0 Ed) as (G1 & G2 & _).
    destruct (grown_spec (size_ v)) as (_ & Hg & Hgr); [done|lia|].
    exists b, (capacity_ x0). split; [done|]. split.
    { match goal with X : vecs m' = _ |- _ => rewrite X end.
      rewrite wrap_small by (unfold in_size_t in *; lia).
      do 2 f_equal. destruct x0; simpl in *; congruence. }
    unfold live in *. split.
    + intros k Hk. rewrite (slot_same_heap md) by done. by apply G1.
    + by rewrite (slot_same_heap md).
  - (* room left *)
    destruct (wf_buffer _ _ Hwf) as [(_ & _ & Hz)|(b & Hb & _)].
    { unfold in_size_t in *. lia. }
    rewrite Hb in *. cbn [ptr_add] in *. rewrite Z.add_0_l in *.
    match goal with E1 : construct_at _ _ _ = _ |- _ =>
      pose proof (construct_at_slot _ _ _ _ E1) as H1 end.
    exists b, (capacity_ (data_ v)). split; [done|]. split.
    { tidy_vecs. rewrite wrap_small by (unfold in_size_t in *; lia).
      do 2 f_equal. destruct (data_ v); simpl in *; congruence. }
    unfold live. split.
    + intros k Hk. rewrite (slot_same_heap x3) by done.
      rewrite H1, decide_False by (intros [=]; lia). done.
    + rewrite (slot_same_heap x3) by done. rewrite H1. by rewrite decide_True.
Qed.

Lemma index_of_Ptr this b index m v :
  vecs m !! this = Some v →
  buffer_ (data_ v) = Ptr b 0 →
  in_size_t index →
  index_of this (Ptr b index) m = Ret index m.
Proof.
  intros Hv Hb Hi. unfold index_of, begin, bind, get, ret, GetAddress.
  rewrite Hv, Hb. simpl.
  rewrite decide_True by done. rewrite Z.sub_0_r. by rewrite wrap_small.
Qed.

(** Where every element is after an insertion at a position *)
Lemma emplace_slots this pos (a : init) m it m' v :
  vecs m !! this = Some v → wf m v →
  emplace this pos a m = Ret it m' →
  ∃ b c index,
    index_of this pos m = Ret index m ∧
    0 <= index <= size_ v ∧ it = Ptr b index ∧
    vecs m' = <[this := mkVector (mkRawMemory (Ptr b 0) c) (size_ v + 1)]> (vecs m) ∧
    (∀ k, 0 <= k < index →
       live m' (Ptr b k) = live m (buffer_ (data_ v) +p k)) ∧
    live m' (Ptr b index) = Some (init_value a) ∧
    (∀ k, index < k <= size_ v →
       live m' (Ptr b k) = live m (buffer_ (data_ v) +p (k - 1))).
Proof.
  intros Hv Hwf E.
  pose proof Hwf as ([Hsr Hcr] & [Hs0 Hsc] & _).
  unfold emplace in E.
  apply bind_Ret in E as (index & m0 & Ei & E).
  destruct (index_of_Ret _ _ _ _ _ Ei) as [-> Hi].
  enough (∃ b c index',
    index' = index ∧
    0 <= index' <= size_ v ∧ it = Ptr b index' ∧
    vecs m' = <[this := mkVector (mkRawMemory (Ptr b 0) c) (size_ v + 1)]> (vecs m) ∧
    (∀ k, 0 <= k < index' →
       live m' (Ptr b k) = live m (buffer_ (data_ v) +p k)) ∧
    live m' (Ptr b index') = Some (init_value a) ∧
    (∀ k, index' < k <= size_ v →
       live m' (Ptr b k) = live m (buffer_ (data_ v) +p (k - 1))))
    as (b & c & ? & -> & Hrest) by (by exists b, c, index).
  clear Ei.
  unfold RawMemory_Capacity in E. inv_M.
  - (* at the end *)
    match goal with X : append _ _ _ = _ |- _ =>
      eapply append_slots in X as (b & c & -> & Hm & G1 & G2); [|done..] end.
    rewrite Hm in *. simplify_map_eq. simpl. rewrite Z.add_0_l.
    exists b, c, (size_ v). split; [done|]. split; [lia|]. split; [done|]. split; [done|].
    split; [done|]. split; [done|]. intros; lia.
  - (* full: grow around the new element *)
    match goal with X : RawMemory_ctor _ _ = Ret ?nd _ |- _ =>
      apply RawMemory_ctor_Ret in X as (Hc & [(_ & Hnull & _)|(_ & b & Hbuf & Hf & ->)]) end.
    { rewrite Hnull in *.
      no_null_new. }
    unfold GetAddress in *. rewrite Hbuf in *. cbn [ptr_add] in *.
    assert (wrap (size_ v - index) = size_ v - index) as Hn
      by (apply wrap_small; unfold in_size_t in *; lia).
    assert (wrap (index + 1) = index + 1) as Hi1
      by (apply wrap_small; unfold in_size_t in *; lia).
    rewrite Hn, Hi1, !Z.add_0_l in *.
    match goal with X : construct_at _ _ _ = Ret _ ?m2 |- _ =>
      rename X into Ec; rename m2 into mc end.
    match goal with X : relocate _ index _ _ = Ret _ ?m2 |- _ =>
      rename X into Er; rename m2 into mr end.
    match goal with X : relocate _ (size_ v - index) _ _ = Ret _ ?m2 |- _ =>
      rename X into Er'; rename m2 into mr' end.
    match goal with X : destroy_n _ _ _ = Ret _ ?m2 |- _ =>
      rename X into Ed; rename m2 into md end.
    match goal with X : adopt _ _ _ = _ |- _ => rename X into Ea end.
    assert (vecs md = vecs m) as Hv4
      by (frame_vecs; cbn [vecs set_heap] in *; congruence).
    pose proof (adopt_same_heap _ _ _ _ Ea) as Hh.
    eapply adopt_vecs in Ea; [|rewrite Hv4; eassumption]. rewrite Hv4 in Ea.
    assert (0 <= index <= size_ v) as Hrange by (unfold in_size_t in *; lia).
    destruct (grow_slots m v b _ a index mc mr mr' md Hwf Hf
                Hrange Ec Er Er' Ed) as (G1 & G2 & G3).
    assert (size_ v <= grown (size_ v)) as Hle.
    { apply relocate_Ret_room in Er' as (len & Hlen & _ & Hle); [|lia].
      rewrite (same_shape_len mc mr) in Hlen
        by (eapply (respects_Ret (same_shape T)); [|exact Er]; solve_respects).
      rewrite (same_shape_len _ mc) in Hlen
        by (eapply (respects_Ret (same_shape T)); [|exact Ec]; solve_respects).
      cbn [heap set_heap] in Hlen. rewrite lookup_insert_eq in Hlen.
      simpl in Hlen. injection Hlen as <-. rewrite length_replicate in Hle.
      pose proof (alloc_slots_le (grown (size_ v)) (grown_nonneg _)). lia. }
    destruct (grown_spec (size_ v)) as (_ & Hg & Hgr); [done..|].
    rewrite Ea in *. simplify_map_eq. simpl. rewrite Hbuf. cbn [ptr_add].
    rewrite Z.add_0_l.
    exists b, (capacity_ x0), index. split; [done|]. split; [lia|]. split; [done|]. split.
    { rewrite wrap_small by (unfold in_size_t in *; lia).
      do 2 f_equal. destruct x0; simpl in *; congruence. }
    unfold live in *. split; [|split].
    + intros k Hk. rewrite (slot_same_heap md) by done. by apply G1.
    + by rewrite (slot_same_heap md).
    + intros k Hk. rewrite (slot_same_heap md) by done. by apply G3.
  - (* room left: shift in place *)
    destruct (wf_buffer _ _ Hwf) as [(_ & _ & Hz)|(b & Hb & _)]; [lia|].
    unfold GetAddress in *. rewrite Hb in *. cbn [ptr_add] in *.
    match goal with X : construct_local _ _ = Ret ?x ?m1 |- _ =>
      assert (x = init_value a ∧ heap m1 = heap m) as [-> Hh1]
        by (unfold construct_local in X; inv_M; inv_emit; done);
      assert (vecs m1 = vecs m) as Hv1
        by (unfold construct_local in X; inv_M; inv_emit; done);
      clear X; rename m1 into ml
    end.
    assert (1 <= size_ v) as Hpos.
    { match goal with X : move_construct _ _ _ = _ |- _ => rename X into Em end.
      unfold move_construct in Em. apply bind_Ret in Em as (y & my & Ey & _).
      apply load_Ret in Ey as [_ Ey].
      rewrite (slot_same_heap m) in Ey by done.
      replace (Ptr b (0 + wrap (size_ v - 1)))
        with (buffer_ (data_ v) +p wrap (size_ v - 1)) in Ey by (by rewrite Hb).
      apply (wf_live _ _ _ _ Hwf) in Ey.
      rewrite wrap_minus_one in Ey by done.
      case_decide; unfold size_t_modulus in *; lia. }
    rewrite (wrap_small (size_ v - 1)) in * by (unfold in_size_t in *; lia).
    rewrite !Z.add_0_l in *.
    match goal with
    | E1 : move_construct _ _ _ = _, E2 : move_backward _ _ _ _ = _,
      E3 : move_assign_local _ _ _ = Ret _ ?m3 |- _ =>
        pose proof (shift_slots _ _ _ _ _ _ _ _ E1 E2 E3) as (Hlt & S1 & S2 & S3);
        assert (vecs m3 = vecs m) as Hv3 by (frame_vecs; congruence);
        rename m3 into ms
    end.
    inv_emit. cbn [vecs set_vecs add_log] in *. rewrite Hv3 in *.
    simplify_map_eq. simpl. rewrite Hb. cbn [ptr_add]. rewrite Z.add_0_l.
    exists b, (capacity_ (data_ v)), index. split; [done|].
    split; [unfold in_size_t in *; lia|]. split; [done|]. split.
    { rewrite wrap_small by (unfold in_size_t in *; lia).
      do 2 f_equal. destruct (data_ v); simpl in *; congruence. }
    assert (∀ q, live (add_log (EvDtor Local)
                   (set_vecs <[this:={| data_ := data_ v; size_ := wrap (size_ v + 1) |}]> ms)) q
                 = live ms q) as Hl by done.
    assert (∀ q, live ml q = live m q) as Hl'
      by (intros q; unfold live; by rewrite (slot_same_heap m)).
    split; [|split].
    + intros k Hk. rewrite Hl, S1 by lia. apply Hl'.
    + by rewrite Hl.
    + intros k Hk. rewrite Hl, S3 by lia. apply Hl'.
Qed.

(** Where every element is after an erasure *)
Lemma Erase_slots this b c index size m it m' :
  vecs m !! this = Some (mkVector (mkRawMemory (Ptr b 0) c) size) →
  0 <= index < size → in_size_t size →
  Erase this (Ptr b index) m = Ret it m' →
  vecs m' = <[this := mkVector (mkRawMemory (Ptr b 0) c) (size - 1)]> (vecs m) ∧
  (∀ k, 0 <= k < index → live m' (Ptr b k) = live m (Ptr b k)) ∧
  (∀ k, index <= k < size - 1 → live m' (Ptr b k) = live m (Ptr b (k + 1))).
Proof.
  intros Hv Hi Hs E. unfold Erase in E.
  rewrite (run_bind _ _ _ _ _ (index_of_Ptr _ _ index _ _ Hv eq_refl
             ltac:(unfold in_size_t in *; lia))) in E.
  inv_M. cbn [data_ buffer_ size_ capacity_ ptr_add] in *.
  rewrite (wrap_small (index + 1)) in * by (unfold in_size_t in *; lia).
  rewrite (wrap_small (size - 1)) in * by (unfold in_size_t in *; lia).
  rewrite !Z.add_0_l in *.
  match goal with
  | E1 : std_move _ _ _ _ = Ret _ ?m1, E2 : destroy_at _ _ = Ret _ ?m2 |- _ =>
      assert (vecs m2 = vecs m) as Hv2 by (frame_vecs; congruence);
      replace (Ptr b index) with (Ptr b (index + 1 - 1)) in E1
        by (f_equal; lia);
      apply std_move_slots in E1 as (_ & A1 & F1);
      pose proof (destroy_at_slot _ _ _ E2) as Hdes;
      rename m2 into md
  end.
  cbn [vecs set_vecs] in *. rewrite Hv2 in *. simplify_eq.
  split; [done|].
  assert (∀ q, live (set_vecs
                 <[this:={| data_ := {| buffer_ := Ptr b 0; capacity_ := c |};
                            size_ := size - 1 |}]> md) q = live md q) as Hl by done.
  unfold live in *. split.
  - intros k Hk. rewrite Hl, Hdes, decide_False by (intros [=]; lia).
    rewrite F1 by (intros; intros [=]; lia). done.
  - intros k Hk. rewrite Hl, Hdes, decide_False by (intros [=]; lia).
    destruct (A1 (k + 1)) as (x & Hx & Hx'); [lia|].
    replace (k + 1 - 1) with k in Hx' by lia. by rewrite Hx', Hx.
Qed.

(** *** Reserve *)

Lemma exec_all_appends_vecs this calls : ∀ m m' v,
  vecs m !! this = Some v →
  0 <= size_ v →
  size_ v + Z.of_nat (length calls) <= capacity_ (data_ v) →
  in_size_t (capacity_ (data_ v)) →
  (∀ c, c ∈ calls → ∃ a, appends c = Some (this, a)) →
  exec_all calls m = Ret tt m' →
  vecs m' !! this =
    Some (mkVector (data_ v) (size_ v + Z.of_nat (length calls))).
Proof.
  induction calls as [|c calls IH]; intros m m' v Hv Hs Hle Hc Hall E;
    simpl in *.
  - inv_M. rewrite Z.add_0_r. by rewrite Vector_eta.
  - destruct (Hall c) as [a Ha]; [by left|].
    destruct (exec c m) as [[] m1|m1|] eqn:Ec;
      unfold bind in E; rewrite Ec in E; try done.
    destruct (exec_appends _ _ _ _ _ Ha Ec) as [p Ep].
    destruct (append_vecs _ _ _ _ _ _ Hv Ep) as (d & Hm & _ & Hd).
    destruct Hd as [[_ ->]|[Hfull _]]; [|lia].
    rewrite wrap_small in Hm by (unfold in_size_t in *; lia).
    eapply IH in E; [|rewrite Hm; apply lookup_insert_eq|..];
      simpl; try lia; try done.
    + simpl in E. rewrite E. do 2 f_equal. lia.
    + intros c' Hc'. apply Hall. by right.
Qed.

(** C9: on a well-formed vector and for [n] a [size_t], [Reserve(n)]
    with [n] at most the capacity returns with the memory exactly as it
    was.  With a larger [n], if it returns, the capacity is [n] and the
    size and the element values are those from before.  And whenever
    [Reserve(n)] has returned, a series of pushes, each one a
    [PushBack] of either kind or an [EmplaceBack], that brings the
    number of elements to at most [n] and returns leaves the capacity
    as [Reserve] left it, at least [n], and the size larger by the
    number of pushes. *)
Theorem Reserve_then_pushes this n m v :
  vecs m !! this = Some v →
  wf m v →
  in_size_t n →
  (n <= capacity_ (data_ v) → Reserve this n m = Ret tt m) ∧
  (∀ m', capacity_ (data_ v) < n →
     Reserve this n m = Ret tt m' →
     ∃ v', vecs m' !! this = Some v' ∧
           capacity_ (data_ v') = n ∧
           size_ v' = size_ v ∧
           contents m' v' = contents m v) ∧
  (∀ m1 pushes m2,
     Reserve this n m = Ret tt m1 →
     (∀ c, c ∈ pushes →
        (∃ value, c = CallPushBack this value) ∨
        (∃ value, c = CallPushBackRvalue this value) ∨
        (∃ args, c = CallEmplaceBack this args)) →
     size_ v + Z.of_nat (length pushes) <= n →
     exec_all pushes m1 = Ret tt m2 →
     ∃ v1 v2, vecs m1 !! this = Some v1 ∧ vecs m2 !! this = Some v2 ∧
              n <= capacity_ (data_ v1) ∧
              capacity_ (data_ v2) = capacity_ (data_ v1) ∧
              size_ v2 = size_ v + Z.of_nat (length pushes)).
Proof.
  intros Hv Hwf Hn.
  pose proof Hwf as ([Hsr Hcr] & [Hs0 Hsc] & _).
  split; [by apply Reserve_noop|]. split.
  - intros m' Hlt E.
    destruct (Reserve_contents _ _ _ _ _ Hv Hwf Hlt E)
      as (v' & ? & ? & ? & ?).
    by exists v'.
  - intros m1 pushes m2 Er Hall Hle Ep.
    assert (∃ v1, vecs m1 !! this = Some v1 ∧ size_ v1 = size_ v ∧
                  n <= capacity_ (data_ v1) ∧ in_size_t (capacity_ (data_ v1)))
      as (v1 & Hv1 & Hs1 & Hn1 & Hc1).
    { destruct (Reserve_vecs _ _ _ _ _ Hv Er) as [[? ->]|[Hlt (d & Hd & Hm1)]].
      - by exists v.
      - eexists. split; [rewrite Hm1; apply lookup_insert_eq|]. simpl.
        split; [done|]. split; [lia|]. by rewrite Hd. }
    pose proof (exec_all_appends_vecs this pushes m1 m2 v1 Hv1) as Hp.
    rewrite Hs1 in Hp. specialize (Hp Hs0 ltac:(lia) Hc1).
    eexists v1, _. split; [done|]. split; [apply Hp|by simpl].
    + intros c Hc. destruct (Hall c Hc) as [[x ->]|[[x ->]|[x ->]]];
        by eexists.
    + done.
Qed.


(** *** RawMemory: what a move leaves behind *)

Lemma RawMemory_move_ctor_eq (S : RawMemory) :
  RawMemory_move_ctor S = (mkRawMemory (buffer_ S) (capacity_ S), S).
Proof. done. Qed.

Lemma RawMemory_move_assign_eq (D S : RawMemory) :
  RawMemory_move_assign D S = (mkRawMemory (buffer_ S) (capacity_ S), S).
Proof. done. Qed.

(** C1, at the failing input: a [RawMemory] that owns block 0 with
    three slots.  Move construction and move assignment both hand the
    block pointer and the capacity to the destination, and both leave
    the source as it was: the source still holds the pointer and the
    capacity 3, so two [RawMemory] values reference the block. *)
Theorem RawMemory_move_keeps_source :
  let S := mkRawMemory (Ptr 0 0) 3 in
  RawMemory_move_ctor S = (S, S) ∧
  RawMemory_move_assign RawMemory_default S = (S, S) ∧
  snd (RawMemory_move_ctor S) ≠ RawMemory_default ∧
  snd (RawMemory_move_assign RawMemory_default S) ≠ RawMemory_default.
Proof. by repeat split. Qed.

(** *** Move construction of a Vector *)

(** C8: [Vector(Vector&& other)] always returns normally; the new
    object holds exactly what [other] held (same block, same capacity,
    same size, hence the same elements), [other] is left with a null
    buffer, capacity 0 and size 0, and neither the heap nor the log of
    element operations changes: no element is constructed, copied,
    moved or destroyed, and no loop over the elements runs. *)
Theorem Vector_move_steals m this other o :
  this ≠ other →
  vecs m !! other = Some o →
  Vector_move this other m =
    Ret tt (set_vecs (fun vs => <[other := mkVector RawMemory_default 0]>
                                  (<[this := o]> vs)) m).
Proof.
  intros Hne Ho. unfold Vector_move.
  rewrite (run_bind _ _ _ _ _ (get_Some _ _ _ Ho)). cbn [RawMemory_move_ctor].
  rewrite (run_bind _ _ _ _ _ (set_data_Some _ _ _ _ Ho)).
  rewrite (run_bind _ _ _ _ _ (put_eq _ _ _)).
  erewrite run_bind; cycle 1.
  { apply reset_data_Some. unfold set_vecs; cbn [vecs].
    rewrite lookup_insert_ne by done. apply lookup_insert_eq. }
  erewrite set_size_Some; cycle 1.
  { unfold set_vecs; cbn [vecs]. apply lookup_insert_eq. }
  f_equal. destruct o as [[buf cap] sz]. apply mem_eq; try done.
  unfold set_vecs; cbn -[insert]. apply map_eq. intros k.
  rewrite !lookup_insert. repeat case_decide; congruence.
Qed.

(** *** Copy assignment to itself *)

(** C10: [v = v] returns at once with the memory untouched: the test
    [this != &rhs] skips the whole body. *)
Theorem Vector_copy_assign_self m this :
  Vector_copy_assign this this m = Ret tt m.
Proof. unfold Vector_copy_assign. by case_decide. Qed.

(** ** Each member function on the contents of the vector *)

(** *** The contents as a list *)

Lemma contents_elim m v l :
  contents m v = Some l →
  length l = Z.to_nat (size_ v) ∧
  ∀ k, 0 <= k < size_ v → live m (buffer_ (data_ v) +p k) = l !! Z.to_nat k.
Proof.
  unfold contents, GetAddress. intros HF%mapM_Some.
  pose proof (Forall2_length _ _ _ HF) as Hlen. rewrite length_seq in Hlen.
  split; [done|]. intros k Hk.
  destruct (Forall2_lookup_l _ _ _ (Z.to_nat k) (Z.to_nat k) HF) as (y & Hy & Hf).
  { apply lookup_seq. split; [done|lia]. }
  rewrite Z2Nat.id in Hf by lia. by rewrite Hf, Hy.
Qed.

Lemma contents_intro m v l :
  length l = Z.to_nat (size_ v) →
  (∀ k, 0 <= k < size_ v → live m (buffer_ (data_ v) +p k) = l !! Z.to_nat k) →
  contents m v = Some l.
Proof.
  intros Hlen Hl. unfold contents, GetAddress. apply mapM_Some.
  apply Forall2_same_length_lookup_2; [by rewrite length_seq|].
  intros i j x [-> Hi]%lookup_seq Hx. simpl in *.
  rewrite Hl by lia. by rewrite Nat2Z.id.
Qed.

(** *** Well-formedness, slot by slot *)

Lemma wf_elim m v b o :
  wf m v → buffer_ (data_ v) = Ptr b o →
  o = 0 ∧
  length <$> heap m !! b = Some (Z.to_nat (capacity_ (data_ v))) ∧
  (∀ k, 0 <= k < size_ v → is_Some (live m (Ptr b k))) ∧
  (∀ k, size_ v <= k < capacity_ (data_ v) → slot m (Ptr b k) = Some None).
Proof.
  intros Hwf Hb. pose proof Hwf as (_ & [Hs0 Hsc] & Hblk).
  rewrite Hb in Hblk. destruct Hblk as [-> Hblk]. split; [done|].
  destruct (heap m !! b) as [blk|] eqn:Eb; [|done].
  unfold block_ok in Hblk. apply andb_prop in Hblk as [[Hl _]%andb_prop _].
  apply bool_decide_eq_true in Hl. split; [simpl; f_equal; lia|].
  assert (∀ k, 0 <= k < capacity_ (data_ v) →
            ∃ o, slot m (Ptr b k) = Some o) as Hex.
  { intros k Hk. destruct (lookup_lt_is_Some_2 blk (Z.to_nat k)) as [o Ho]; [lia|].
    exists o. apply slot_Ptr. split; [lia|]. by exists blk. }
  split.
  - intros k Hk. destruct (Hex k) as [o Ho]; [lia|].
    pose proof Ho as Ho'. rewrite <- (Z.add_0_l k) in Ho'.
    change (Ptr b (0 + k)) with (Ptr b 0 +p k) in Ho'. rewrite <- Hb in Ho'.
    apply (wf_slot _ _ _ _ Hwf) in Ho' as [_ Hl'].
    unfold live. rewrite Ho. simpl. destruct o; [eauto|].
    simpl in Hl'. destruct Hl' as [_ Hl']. by specialize (Hl' ltac:(lia)).
  - intros k Hk. destruct (Hex k) as [o Ho]; [lia|].
    pose proof Ho as Ho'. rewrite <- (Z.add_0_l k) in Ho'.
    change (Ptr b (0 + k)) with (Ptr b 0 +p k) in Ho'. rewrite <- Hb in Ho'.
    apply (wf_slot _ _ _ _ Hwf) in Ho' as [_ Hl'].
    rewrite Ho. destruct o; [|done]. simpl in Hl'.
    destruct Hl' as [Hl' _]. specialize (Hl' eq_refl). lia.
Qed.

Lemma wf_intro m v b :
  representable v → invariant v →
  buffer_ (data_ v) = Ptr b 0 →
  length <$> heap m !! b = Some (Z.to_nat (capacity_ (data_ v))) →
  (∀ k, 0 <= k < size_ v → is_Some (live m (Ptr b k))) →
  (∀ k, size_ v <= k < capacity_ (data_ v) → slot m (Ptr b k) = Some None) →
  wf m v.
Proof.
  intros Hr [Hs0 Hsc] Hb Hlen Hlive Hraw.
  split; [done|]. split; [done|]. rewrite Hb. split; [done|].
  destruct (heap m !! b) as [blk|] eqn:Eb; [|done].
  injection Hlen as Hlen.
  assert (∀ k, 0 <= k → slot m (Ptr b k) = blk !! Z.to_nat k) as Hslot.
  { intros k Hk. unfold slot. destruct (Z.leb_spec 0 k); [|lia]. by rewrite Eb. }
  unfold block_ok. rewrite !andb_true_iff. split; [split|].
  - apply bool_decide_eq_true. lia.
  - apply forallb_forall. intros o Ho%list_elem_of_In.
    apply list_elem_of_lookup in Ho as [i Hi].
    apply lookup_take_Some in Hi as [Hi Hlt].
    destruct (Hlive (Z.of_nat i)) as [x Hx]; [lia|].
    unfold live in Hx. rewrite Hslot, Nat2Z.id, Hi in Hx by lia.
    by destruct o.
  - apply forallb_forall. intros o Ho%list_elem_of_In.
    apply list_elem_of_lookup in Ho as [i Hi].
    rewrite lookup_drop in Hi. apply lookup_lt_Some in Hi as Hlt.
    specialize (Hraw (Z.of_nat (Z.to_nat (size_ v) + i)) ltac:(lia)).
    rewrite Hslot, Nat2Z.id, Hi in Hraw by lia. by injection Hraw as ->.
Qed.

(** A well-formed vector has contents. *)
Lemma wf_contents m v : wf m v → ∃ l, contents m v = Some l.
Proof.
  intros Hwf. pose proof Hwf as (_ & [Hs0 Hsc] & _).
  destruct (buffer_ (data_ v)) as [|b o] eqn:Hb.
  - destruct (wf_buffer _ _ Hwf) as [(_ & Hz & _)|(b & Hb' & _)]; [|congruence].
    exists []. apply contents_intro; [by rewrite Hz|]. intros; lia.
  - destruct (wf_elim _ _ _ _ Hwf Hb) as (-> & _ & Hlive & _).
    unfold contents, GetAddress. rewrite Hb.
    apply mapM_is_Some, Forall_forall. intros i [_ Hi]%elem_of_seq.
    apply Hlive. lia.
Qed.

(** The well-formedness of a vector depends on its block only. *)
Lemma wf_frame m m' v :
  wf m v →
  (∀ b o, buffer_ (data_ v) = Ptr b o → heap m' !! b = heap m !! b) →
  wf m' v.
Proof.
  intros (Hr & Hi & Hb) Hh. split; [done|]. split; [done|].
  destruct (buffer_ (data_ v)) as [|b o]; [done|].
  by rewrite (Hh b o).
Qed.

Lemma contents_frame m m' v :
  (∀ b o, buffer_ (data_ v) = Ptr b o → heap m' !! b = heap m !! b) →
  contents m' v = contents m v.
Proof.
  intros Hh. unfold contents, GetAddress. apply mapM_ext. intros i.
  unfold live, slot. destruct (buffer_ (data_ v)) as [|b o]; [done|]. simpl.
  by rewrite (Hh b o).
Qed.


(** *** Blocks a call leaves alone *)

#[local] Instance outside_preorder P : PreOrder (outside T P).
Proof.
  split; [by intros m c _|].
  intros m1 m2 m3 H1 H2 c Hc. by rewrite H2, H1.
Qed.

Lemma same_heap_outside P {A} (c : M A) :
  respects (same_heap T) c → respects (outside T P) c.
Proof.
  intros Hc m. specialize (Hc m). unfold same_heap in Hc.
  destruct (c m); try done; intros b _; by rewrite Hc.
Qed.

Lemma store_outside (P : nat → Prop) p o :
  (∀ b i, p = Ptr b i → P b) → respects (outside T P) (store p o).
Proof.
  intros Hp m. unfold store. destruct p as [|b i]; [done|].
  destruct (slot m (Ptr b i)); [|done].
  intros c Hc. cbn [heap set_heap]. apply lookup_alter_ne.
  intros ->. apply Hc. by apply (Hp c i).
Qed.

Lemma operator_delete_outside (P : nat → Prop) p :
  (∀ b i, p = Ptr b i → P b) → respects (outside T P) (operator_delete p).
Proof.
  intros Hp m. unfold operator_delete. destruct p as [|b i]; [done|].
  case_decide; [|done]. destruct (heap m !! b) eqn:Eb; [|done].
  intros c Hc. cbn [heap set_heap]. apply lookup_delete_ne.
  intros ->. apply Hc. by apply (Hp c i).
Qed.

Lemma ptr_add_block p j b i : p +p j = Ptr b i → ∃ o, p = Ptr b o.
Proof. destruct p; [done|]. simpl. intros [= -> _]. eauto. Qed.

(** The block of a pointer expression is among those of [P]. *)
Ltac in_blocks :=
  let b := fresh "b" in let i := fresh "i" in let Hp := fresh "Hp" in
  intros b i Hp;
  repeat (apply ptr_add_block in Hp as [? Hp]);
  simplify_eq; hnf; eauto.

Ltac solve_outside :=
  repeat first
    [ respects_step
    | apply same_heap_outside; solve [eauto with respects]
    | apply store_outside; in_blocks
    | apply operator_delete_outside; in_blocks
    | progress unfold placement_new, local_object,
        construct_at, construct_local, value_construct_at,
        copy_construct, move_construct, copy_assign, move_assign,
        move_assign_local, destroy_at, destroy_n,
        uninitialized_value_construct_n, uninitialized_copy_n,
        uninitialized_move_n, copy_n, distance, std_move, move_backward,
        Deallocate, RawMemory_dtor, RawMemory_plus,
        RawMemory_index, relocate, set_data, set_size, reset_data ].

(** Derive what a run leaves outside the blocks of [P]. *)
Ltac frame_outside P :=
  repeat match goal with
  | E : ?c ?m = Ret _ ?m' |- _ =>
      lazymatch goal with
      | _ : outside T P m m' |- _ => fail
      | _ => idtac
      end;
      let Ho := fresh "Ho" in
      assert (Ho : outside T P m m')
        by (eapply (respects_Ret (outside T P)); [|exact E]; solve_outside)
  end.

Ltac frame_shape :=
  repeat match goal with
  | E : ?c ?m = Ret _ ?m' |- _ =>
      lazymatch goal with
      | _ : same_shape T m m' |- _ => fail
      | _ => idtac
      end;
      let Hs := fresh "Hsh" in
      assert (Hs : same_shape T m m')
        by (eapply (respects_Ret (same_shape T)); [|exact E]; solve_respects)
  end.

(** Follow a block back through the memories of a run. *)
Ltac shape_chain b :=
  repeat match goal with
  | Hs : same_shape T ?m ?m' |- context [heap ?m' !! b] => rewrite (Hs b)
  end.

Ltac outside_chain c :=
  repeat match goal with
  | Ho : outside T _ ?m ?m' |- context [heap ?m' !! c] =>
      rewrite (Ho c) by assumption
  end.

(** *** Allocation in bytes *)

(** A request for [n] elements that yields at least [k] slots, with
    [n < 2 * k], has not wrapped around: it yields [n] slots. *)
Lemma alloc_exact n k :
  0 < n → n < 2 * k →
  k <= wrap (n * sizeof) / sizeof →
  wrap (n * sizeof) / sizeof = n.
Proof.
  intros Hn Hk Hle. unfold wrap in *. pose proof sizeof_pos as Hp.
  assert (0 < size_t_modulus) as HM by done.
  pose proof (Z.div_mod (n * sizeof) size_t_modulus ltac:(lia)) as Hdm.
  pose proof (Z.mod_pos_bound (n * sizeof) size_t_modulus HM) as [Hw0 Hw1].
  set (w := (n * sizeof) mod size_t_modulus) in *.
  set (q := n * sizeof / size_t_modulus) in *.
  assert (k * sizeof <= w) by (pose proof (Z.mul_div_le w sizeof Hp); nia).
  assert (0 <= q) by (apply Z.div_pos; nia).
  assert (q = 0) by nia.
  replace w with (n * sizeof) by nia. apply Z.div_mul. lia.
Qed.


(** *** Appending *)

Lemma slot_live_None m p : slot m p = Some None → live m p = None.
Proof. unfold live. by intros ->. Qed.

Lemma construct_at_Ret_slot p a m m' :
  construct_at p a m = Ret tt m' → is_Some (slot m p).
Proof.
  unfold construct_at. intros E. inv_M. inv_heap.
  by rewrite slot_add_log in *.
Qed.

(** The block of the vector after an append: its length and its raw
    tail, and the blocks that have not changed *)
Lemma append_block this (a : init) m p m' v b c :
  vecs m !! this = Some v → wf m v →
  append this a m = Ret p m' →
  vecs m' !! this = Some (mkVector (mkRawMemory (Ptr b 0) c) (size_ v + 1)) →
  in_size_t c ∧ size_ v + 1 <= c ∧
  length <$> heap m' !! b = Some (Z.to_nat c) ∧
  (∀ k, size_ v + 1 <= k < c → slot m' (Ptr b k) = Some None) ∧
  (buffer_ (data_ v) = Ptr b 0 ∨ heap m !! b = None) ∧
  (∀ c', is_Some (heap m !! c') → (∀ o, buffer_ (data_ v) ≠ Ptr c' o) →
         heap m' !! c' = heap m !! c').
Proof.
  intros Hv Hwf E Hv'.
  pose proof Hwf as ([Hsr Hcr] & [Hs0 Hsc] & _).
  unfold append, RawMemory_Capacity in E. inv_M.
  - (* full *)
    match goal with X : RawMemory_ctor _ _ = Ret ?nd _ |- _ =>
      apply RawMemory_ctor_Ret in X as (Hc & [(_ & Hnull & _)|(_ & nb & Hbuf & Hf & ->)]) end.
    { rewrite Hnull in *.
      no_null_new. }
    unfold GetAddress in *. rewrite Hbuf in *. cbn [ptr_add] in *.
    rewrite Z.add_0_l in *.
    match goal with X : construct_at _ _ _ = Ret _ ?m2 |- _ =>
      rename X into Ec; rename m2 into mc end.
    match goal with X : relocate _ _ _ _ = Ret _ ?m2 |- _ =>
      rename X into Er; rename m2 into mr end.
    match goal with X : destroy_n _ _ _ = Ret _ ?m2 |- _ =>
      rename X into Ed; rename m2 into md end.
    match goal with X : adopt _ _ _ = _ |- _ => rename X into Ea end.
    assert (vecs md = vecs m) as Hv4
      by (frame_vecs; cbn [vecs set_heap] in *; congruence).
    set (L := Z.to_nat (wrap (grown (size_ v) * sizeof) / sizeof)) in *.
    set (m1 := set_heap <[nb := replicate L None]> m) in *.
    pose proof (adopt_same_heap _ _ _ _ Ea) as Hh.
    eapply adopt_vecs in Ea; [|rewrite Hv4; eassumption]. rewrite Hv4 in Ea.
    rewrite Ea, lookup_insert_eq in Hv'. injection Hv' as Hx0 Hw.
    rewrite Hx0 in *. cbn [buffer_ capacity_] in *. injection Hbuf as ->.
    destruct (grown_spec (size_ v)) as (Hg & Hg1 & Hgr); [done|lia|].
    (* the new block has room for the new element, so the request in
       bytes did not wrap around *)
    subst c.
    assert (Z.of_nat L = grown (size_ v)) as HL.
    { pose proof (construct_at_Ret_slot _ _ _ _ Ec) as [o Ho].
      unfold m1 in Ho. rewrite slot_fresh_block in Ho. case_decide; [|done].
      pose proof sizeof_pos.
      assert (0 <= wrap (grown (size_ v) * sizeof) / sizeof)
        by (apply Z.div_pos; [apply wrap_range|lia]).
      unfold L in *. rewrite Z2Nat.id in * by done.
      apply (alloc_exact (grown (size_ v)) (size_ v + 1)); lia. }
    set (P := fun c' : nat => c' = nb ∨ ∃ o, buffer_ (data_ v) = Ptr c' o).
    frame_shape. frame_outside P.
    assert (¬ P nb → False) as HPnb by (intros X; apply X; by left).
    split; [done|]. split; [done|]. split; [|split; [|split; [by right|]]].
    + rewrite Hh. shape_chain nb. unfold m1.
      cbn [heap set_heap]. rewrite lookup_insert_eq. simpl.
      rewrite length_replicate. f_equal. lia.
    + intros k Hk. rewrite (slot_same_heap md) by done.
      assert (slot md (Ptr nb k) = slot mc (Ptr nb k)) as ->.
      { destruct (wf_buffer _ _ Hwf) as [(Hnull & Hz & _)|(ob & Hob & [oblk Hoblk])].
        - rewrite Hnull, Hz in *. rewrite relocate_0 in Er.
          rewrite destroy_n_0 in Ed. by simplify_eq.
        - assert (ob ≠ nb) as Hne by congruence. rewrite Hob in *.
          rewrite (destroy_n_slots _ _ _ _ Ed)
            by (cbn [ptr_add]; intros; congruence).
          apply relocate_slots in Er as (_ & B2 & _); [|done].
          apply B2; [done|lia]. }
      rewrite (construct_at_slot _ _ _ _ Ec), decide_False by (intros [=]; lia).
      unfold m1. rewrite slot_fresh_block. case_decide; [done|lia].
    + intros c' [blk Hblk] Hne. rewrite Hh.
      assert (¬ P c') as HP.
      { intros [->|[o Hbo]]; [congruence|by eapply Hne]. }
      outside_chain c'. unfold m1. cbn [heap set_heap]. apply lookup_insert_ne. congruence.
  - (* room left *)
    match goal with X : construct_at _ _ _ = Ret _ ?m2 |- _ =>
      rename X into Ec; rename m2 into mc end.
    assert (vecs mc = vecs m) as Hv1 by (by frame_vecs).
    cbn [vecs set_vecs heap] in *. rewrite lookup_insert_eq in Hv'.
    match goal with X : vecs mc !! this = Some _ |- _ =>
      rewrite Hv1, Hv in X; injection X as <- end.
    injection Hv' as Hd Hw.
    assert (buffer_ (data_ v) = Ptr b 0 ∧ capacity_ (data_ v) = c) as [Hb <-]
      by (by rewrite Hd).
    destruct (wf_elim _ _ _ _ Hwf Hb) as (_ & Hlen & _ & Hraw).
    set (P := fun c' : nat => ∃ o, buffer_ (data_ v) = Ptr c' o).
    frame_shape. frame_outside P.
    split; [done|]. split; [lia|]. split; [|split; [|split; [by left|]]].
    + by shape_chain b.
    + intros k Hk. rewrite (slot_same_heap mc) by done.
      rewrite (construct_at_slot _ _ _ _ Ec), decide_False
        by (rewrite Hb; intros [=]; lia).
      apply Hraw. lia.
    + intros c' _ Hne. apply Ho. intros [o Hbo]. by eapply Hne.
Qed.

Lemma append_spec this (a : init) m p m' v l :
  vecs m !! this = Some v → wf m v → contents m v = Some l →
  append this a m = Ret p m' →
  ∃ v', updates this v v' m m' ∧ wf m' v' ∧
        size_ v' = size_ v + 1 ∧
        contents m' v' = Some (l ++ [init_value a]) ∧
        p = buffer_ (data_ v') +p size_ v.
Proof.
  intros Hv Hwf Hl E.
  pose proof Hwf as ([Hsr Hcr] & [Hs0 Hsc] & _).
  destruct (append_slots _ _ _ _ _ _ Hv Hwf E) as (b & c & -> & Hm' & L1 & L2).
  destruct (contents_elim _ _ _ Hl) as [Hlen Hlk].
  destruct (append_block _ _ _ _ _ _ b c Hv Hwf E)
    as (Hc & Hsc' & Hblen & Hraw & Hnew & Hframe).
  { rewrite Hm'. apply lookup_insert_eq. }
  exists (mkVector (mkRawMemory (Ptr b 0) c) (size_ v + 1)).
  cbn [data_ buffer_ size_ capacity_ ptr_add]. rewrite Z.add_0_l.
  split; [|split; [|split; [done|split; [|done]]]].
  - split; [done|]. split; [|done]. cbn [data_ buffer_].
    destruct Hnew as [->|Hnew]; [by left|right; right; eauto].
  - apply (wf_intro _ _ b); cbn [data_ buffer_ size_ capacity_]; try done.
    + unfold representable, in_size_t in *. simpl. lia.
    + unfold invariant. simpl. lia.
    + intros k Hk. destruct (decide (k = size_ v)) as [->|Hne].
      * rewrite L2. by eexists.
      * rewrite L1, Hlk by lia. apply lookup_lt_is_Some_2. lia.
  - apply contents_intro; cbn [data_ buffer_ size_ capacity_ ptr_add].
    + rewrite length_app. simpl. lia.
    + intros k Hk. rewrite Z.add_0_l. destruct (decide (k = size_ v)) as [->|Hne].
      * rewrite L2. symmetry. rewrite <- Hlen. apply list_lookup_middle. done.
      * rewrite L1, Hlk by lia. symmetry. apply lookup_app_l. lia.
Qed.


(** *** Inserting at a position *)

(** Growing around a new element at [index]: the new block and the
    blocks that have not changed *)
Lemma grow_block m v nb L a index mc mr mr' md :
  wf m v → heap m !! nb = None → 0 <= index <= size_ v →
  construct_at (Ptr nb index) a (set_heap <[nb := replicate L None]> m)
    = Ret tt mc →
  relocate (buffer_ (data_ v)) index (Ptr nb 0) mc = Ret tt mr →
  relocate (buffer_ (data_ v) +p index) (size_ v - index) (Ptr nb (index + 1)) mr
    = Ret tt mr' →
  destroy_n (buffer_ (data_ v)) (size_ v) mr' = Ret tt md →
  length <$> heap md !! nb = Some L ∧
  size_ v + 1 <= Z.of_nat L ∧
  (∀ k, size_ v + 1 <= k < Z.of_nat L → slot md (Ptr nb k) = Some None) ∧
  (∀ c', is_Some (heap m !! c') → (∀ o, buffer_ (data_ v) ≠ Ptr c' o) →
         heap md !! c' = heap m !! c').
Proof.
  intros Hwf Hf Hi Ec Er Er' Ed.
  set (m1 := set_heap <[nb := replicate L None]> m) in *.
  set (P := fun c' : nat => c' = nb ∨ ∃ o, buffer_ (data_ v) = Ptr c' o).
  frame_shape. frame_outside P.
  assert (∀ m0, length <$> heap m0 !! nb = length <$> heap m1 !! nb →
                length <$> heap m0 !! nb = Some L) as Hlen.
  { intros m0 ->. unfold m1. cbn [heap set_heap]. rewrite lookup_insert_eq.
    simpl. by rewrite length_replicate. }
  split; [apply Hlen; by shape_chain nb|].
  pose proof (construct_at_Ret_slot _ _ _ _ Ec) as [o Ho'].
  unfold m1 in Ho'. rewrite slot_fresh_block in Ho'. case_decide; [|done].
  split.
  { destruct (decide (index = size_ v)) as [->|Hne]; [lia|].
    apply relocate_Ret_room in Er' as (len & Hl & _ & Hle); [|lia].
    rewrite Hlen in Hl by (by shape_chain nb). injection Hl as <-. lia. }
  split.
  - intros k Hk.
    assert (slot md (Ptr nb k) = slot mc (Ptr nb k)) as ->.
    { destruct (wf_buffer _ _ Hwf) as [(Hnull & Hz & _)|(ob & Hob & [oblk Hoblk])].
      - rewrite Hnull, Hz in *. assert (index = 0) as -> by lia.
        rewrite relocate_0 in Er. rewrite relocate_0 in Er'.
        rewrite destroy_n_0 in Ed. by simplify_eq.
      - assert (ob ≠ nb) as Hne by congruence. rewrite Hob in *.
        cbn [ptr_add] in *.
        rewrite (destroy_n_slots _ _ _ _ Ed)
          by (cbn [ptr_add]; intros; congruence).
        apply relocate_slots in Er as (_ & B2 & _); [|done].
        apply relocate_slots in Er' as (_ & B3 & _); [|done].
        rewrite B3 by (try done; lia). apply B2; [done|lia]. }
    rewrite (construct_at_slot _ _ _ _ Ec), decide_False by (intros [=]; lia).
    unfold m1. rewrite slot_fresh_block. case_decide; [done|lia].
  - intros c' [blk Hblk] Hne.
    assert (¬ P c') as HP.
    { intros [->|[o0 Hbo]]; [congruence|by eapply Hne]. }
    outside_chain c'. unfold m1. cbn [heap set_heap].
    apply lookup_insert_ne. congruence.
Qed.

(** Inserting in place: the slots behind the new last element stay
    as they are. *)
Lemma shift_tail b size index x m m1 m2 m3 :
  move_construct (Ptr b (size - 1)) (Ptr b size) m = Ret tt m1 →
  move_backward (Ptr b index) (Ptr b (size - 1)) (Ptr b size) m1 = Ret tt m2 →
  move_assign_local x (Ptr b index) m2 = Ret tt m3 →
  ∀ k, size < k → slot m3 (Ptr b k) = slot m (Ptr b k).
Proof.
  intros E1 E2 E3 k Hk.
  apply move_construct_transfers in E1 as (x0 & Hx0 & Hx0' & F1);
    [|intros [=]; lia].
  replace (Ptr b size) with (Ptr b (size - 1 + 1)) in E2 by (f_equal; lia).
  apply move_backward_slots in E2 as (Hle & A2 & F2).
  rewrite (move_assign_local_slot _ _ _ _ E3), decide_False by (intros [=]; lia).
  rewrite F2 by (intros; intros [=]; lia).
  apply F1; intros [=]; lia.
Qed.


Lemma emplace_block this pos (a : init) m it m' v b c :
  vecs m !! this = Some v → wf m v →
  emplace this pos a m = Ret it m' →
  vecs m' !! this = Some (mkVector (mkRawMemory (Ptr b 0) c) (size_ v + 1)) →
  in_size_t c ∧ size_ v + 1 <= c ∧
  length <$> heap m' !! b = Some (Z.to_nat c) ∧
  (∀ k, size_ v + 1 <= k < c → slot m' (Ptr b k) = Some None) ∧
  (buffer_ (data_ v) = Ptr b 0 ∨ heap m !! b = None) ∧
  (∀ c', is_Some (heap m !! c') → (∀ o, buffer_ (data_ v) ≠ Ptr c' o) →
         heap m' !! c' = heap m !! c').
Proof.
  intros Hv Hwf E Hv'.
  pose proof Hwf as ([Hsr Hcr] & [Hs0 Hsc] & _).
  unfold emplace in E.
  apply bind_Ret in E as (index & m0 & Ei & E).
  destruct (index_of_Ret _ _ _ _ _ Ei) as [-> Hi]. clear Ei.
  unfold RawMemory_Capacity in E. inv_M.
  - (* at the end *)
    match goal with X : append _ _ _ = _ |- _ =>
      eapply append_block in X; [exact X|done..] end.
  - (* full: grow around the new element *)
    match goal with X : RawMemory_ctor _ _ = Ret ?nd _ |- _ =>
      apply RawMemory_ctor_Ret in X as (Hc & [(_ & Hnull & _)|(_ & nb & Hbuf & Hf & ->)]) end.
    { rewrite Hnull in *.
      no_null_new. }
    unfold GetAddress in *. rewrite Hbuf in *. cbn [ptr_add] in *.
    assert (wrap (size_ v - index) = size_ v - index) as Hn
      by (apply wrap_small; unfold in_size_t in *; lia).
    assert (wrap (index + 1) = index + 1) as Hi1
      by (apply wrap_small; unfold in_size_t in *; lia).
    rewrite Hn, Hi1, !Z.add_0_l in *.
    match goal with X : construct_at _ _ _ = Ret _ ?m2 |- _ =>
      rename X into Ec; rename m2 into mc end.
    match goal with X : relocate _ index _ _ = Ret _ ?m2 |- _ =>
      rename X into Er; rename m2 into mr end.
    match goal with X : relocate _ (size_ v - index) _ _ = Ret _ ?m2 |- _ =>
      rename X into Er'; rename m2 into mr' end.
    match goal with X : destroy_n _ _ _ = Ret _ ?m2 |- _ =>
      rename X into Ed; rename m2 into md end.
    match goal with X : adopt _ _ _ = _ |- _ => rename X into Ea end.
    assert (vecs md = vecs m) as Hv4
      by (frame_vecs; cbn [vecs set_heap] in *; congruence).
    pose proof (adopt_same_heap _ _ _ _ Ea) as Hh.
    eapply adopt_vecs in Ea; [|rewrite Hv4; eassumption]. rewrite Hv4 in Ea.
    assert (0 <= index <= size_ v) as Hrange by (unfold in_size_t in *; lia).
    destruct (grow_block m v nb _ a index mc mr mr' md Hwf Hf
                Hrange Ec Er Er' Ed) as (Hlen & Hroom & Hraw & Hframe).
    match goal with
    | X : vecs ?m2 !! this = Some _ , Y : heap ?m2 = heap md |- _ =>
        rewrite Ea, lookup_insert_eq in X; injection X as Hx0 Hw;
        rename m2 into mf
    end.
    rewrite Hx0 in *. cbn [buffer_ capacity_] in *. injection Hbuf as ->.
    subst c.
    pose proof sizeof_pos.
    assert (0 <= wrap (grown (size_ v) * sizeof) / sizeof)
      by (apply Z.div_pos; [apply wrap_range|lia]).
    rewrite Z2Nat.id in * by done.
    assert (size_ v <= grown (size_ v)) as Hle.
    { pose proof (alloc_slots_le (grown (size_ v)) (grown_nonneg _)) as Hal.
      rewrite Z2Nat.id in Hal by done. lia. }
    destruct (grown_spec (size_ v)) as (Hg & Hg1 & Hgr); [done..|].
    assert (wrap (grown (size_ v) * sizeof) / sizeof = grown (size_ v)) as HL
      by (apply (alloc_exact (grown (size_ v)) (size_ v + 1)); lia).
    rewrite HL in *.
    split; [done|]. split; [done|]. split; [by rewrite Hh|].
    split; [|split; [by right|]].
    + intros k Hk. rewrite (slot_same_heap md) by done. by apply Hraw.
    + intros c' Hc' Hne. rewrite Hh. by apply Hframe.
  - (* room left: shift in place *)
    destruct (wf_buffer _ _ Hwf) as [(_ & _ & Hz)|(ob & Hb & _)]; [lia|].
    unfold GetAddress in *. rewrite Hb in *. cbn [ptr_add] in *.
    match goal with X : construct_local _ _ = Ret ?x ?m1 |- _ =>
      assert (heap m1 = heap m) as Hh1
        by (unfold construct_local in X; inv_M; inv_emit; done);
      assert (vecs m1 = vecs m) as Hv1
        by (unfold construct_local in X; inv_M; inv_emit; done);
      clear X; rename m1 into ml
    end.
    assert (1 <= size_ v) as Hpos.
    { match goal with X : move_construct _ _ _ = _ |- _ => rename X into Em end.
      unfold move_construct in Em. apply bind_Ret in Em as (y & my & Ey & _).
      apply load_Ret in Ey as [_ Ey].
      rewrite (slot_same_heap m) in Ey by done.
      replace (Ptr ob (0 + wrap (size_ v - 1)))
        with (buffer_ (data_ v) +p wrap (size_ v - 1)) in Ey by (by rewrite Hb).
      apply (wf_live _ _ _ _ Hwf) in Ey.
      rewrite wrap_minus_one in Ey by done.
      case_decide; unfold size_t_modulus in *; lia. }
    rewrite (wrap_small (size_ v - 1)) in * by (unfold in_size_t in *; lia).
    rewrite !Z.add_0_l in *.
    match goal with
    | E1 : move_construct _ _ _ = _, E2 : move_backward _ _ _ _ = _,
      E3 : move_assign_local _ _ _ = Ret _ ?m3 |- _ =>
        pose proof (shift_tail _ _ _ _ _ _ _ _ E1 E2 E3) as Htail;
        assert (vecs m3 = vecs m) as Hv3 by (frame_vecs; congruence);
        rename m3 into ms
    end.
    set (P := fun c' : nat => ∃ o, buffer_ (data_ v) = Ptr c' o).
    frame_shape. frame_outside P.
    inv_emit. cbn [vecs set_vecs add_log heap] in *. rewrite Hv3 in *.
    match goal with X : vecs m !! this = Some ?x |- _ =>
      tryif constr_eq x v then fail else (rewrite Hv in X; injection X as <-) end.
    match goal with X : <[this := _]> _ !! this = Some _ |- _ =>
      rewrite lookup_insert_eq in X; injection X as Hd Hw end.
    assert (ob = b ∧ capacity_ (data_ v) = c) as [-> <-]
      by (rewrite Hd in Hb |- *; simpl in *; by simplify_eq).
    destruct (wf_elim _ _ _ _ Hwf Hb) as (_ & Hlen & _ & Hraw).
    split; [done|]. split; [lia|]. split; [|split; [|split; [by left|]]].
    + shape_chain b. by rewrite Hh1.
    + intros k Hk. rewrite (slot_same_heap ms) by done.
      rewrite Htail by lia. rewrite (slot_same_heap m) by done.
      apply Hraw. lia.
    + intros c' _ Hne.
      assert (¬ P c') as HP
        by (intros [o Hbo]; rewrite ?Hb in Hbo; by eapply Hne).
      outside_chain c'. by rewrite Hh1.
Qed.

Lemma lookup_insert_at {A} (l : list A) (i : nat) (x : A) (k : nat) :
  (i <= length l)%nat →
  (take i l ++ x :: drop i l) !! k =
    if decide (k < i)%nat then l !! k
    else if decide (k = i) then Some x else l !! (k - 1)%nat.
Proof.
  intros Hi. repeat case_decide.
  - rewrite lookup_app_l by (rewrite length_take; lia).
    apply lookup_take_lt. lia.
  - subst. rewrite list_lookup_middle; [done|]. rewrite length_take. lia.
  - rewrite lookup_app_r by (rewrite length_take; lia).
    rewrite length_take, Nat.min_l by done.
    destruct (k - i)%nat as [|j] eqn:Hj; [lia|]. simpl.
    rewrite lookup_drop. f_equal. lia.
Qed.

Lemma emplace_spec this pos (a : init) m it m' v l :
  vecs m !! this = Some v → wf m v → contents m v = Some l →
  emplace this pos a m = Ret it m' →
  ∃ v' index,
    index_of this pos m = Ret index m ∧ 0 <= index <= size_ v ∧
    updates this v v' m m' ∧ wf m' v' ∧
    size_ v' = size_ v + 1 ∧
    contents m' v' =
      Some (take (Z.to_nat index) l ++ init_value a :: drop (Z.to_nat index) l) ∧
    it = buffer_ (data_ v') +p index.
Proof.
  intros Hv Hwf Hl E.
  pose proof Hwf as ([Hsr Hcr] & [Hs0 Hsc] & _).
  destruct (emplace_slots _ _ _ _ _ _ _ Hv Hwf E)
    as (b & c & index & Hidx & Hi & -> & Hm' & L1 & L2 & L3).
  destruct (contents_elim _ _ _ Hl) as [Hlen Hlk].
  destruct (emplace_block _ _ _ _ _ _ _ b c Hv Hwf E)
    as (Hc & Hsc' & Hblen & Hraw & Hnew & Hframe).
  { rewrite Hm'. apply lookup_insert_eq. }
  exists (mkVector (mkRawMemory (Ptr b 0) c) (size_ v + 1)), index.
  cbn [data_ buffer_ size_ capacity_ ptr_add]. rewrite Z.add_0_l.
  assert (∀ k, 0 <= k < size_ v + 1 →
            live m' (Ptr b k) =
              (take (Z.to_nat index) l ++ init_value a :: drop (Z.to_nat index) l)
                !! Z.to_nat k) as Hall.
  { intros k Hk. rewrite lookup_insert_at by lia. repeat case_decide.
    - rewrite L1, Hlk by lia. done.
    - assert (k = index) as -> by lia. done.
    - rewrite L3, Hlk by lia. f_equal. lia. }
  split; [done|]. split; [done|].
  split; [|split; [|split; [done|split; [|done]]]].
  - split; [done|]. split; [|done]. cbn [data_ buffer_].
    destruct Hnew as [->|Hnew]; [by left|right; right; eauto].
  - apply (wf_intro _ _ b); cbn [data_ buffer_ size_ capacity_]; try done.
    + unfold representable, in_size_t in *. simpl. lia.
    + unfold invariant. simpl. lia.
    + intros k Hk. rewrite Hall by done. apply lookup_lt_is_Some_2.
      rewrite length_app, length_take. simpl. rewrite length_drop. lia.
  - apply contents_intro; cbn [data_ buffer_ size_ capacity_ ptr_add].
    + rewrite length_app, length_take. simpl. rewrite length_drop. lia.
    + intros k Hk. rewrite Z.add_0_l. by apply Hall.
Qed.


(** *** Erasing *)

Lemma Erase_block this b c index size m it m' :
  vecs m !! this = Some (mkVector (mkRawMemory (Ptr b 0) c) size) →
  0 <= index < size → in_size_t size →
  Erase this (Ptr b index) m = Ret it m' →
  it = Ptr b index ∧
  same_shape T m m' ∧
  slot m' (Ptr b (size - 1)) = Some None ∧
  (∀ k, size <= k → slot m' (Ptr b k) = slot m (Ptr b k)) ∧
  (∀ c', c' ≠ b → heap m' !! c' = heap m !! c').
Proof.
  intros Hv Hi Hs E. unfold Erase in E.
  rewrite (run_bind _ _ _ _ _ (index_of_Ptr _ _ index _ _ Hv eq_refl
             ltac:(unfold in_size_t in *; lia))) in E.
  inv_M. cbn [data_ buffer_ size_ capacity_ ptr_add] in *.
  rewrite (wrap_small (index + 1)) in * by (unfold in_size_t in *; lia).
  rewrite (wrap_small (size - 1)) in * by (unfold in_size_t in *; lia).
  rewrite !Z.add_0_l in *.
  set (P := fun c' : nat => c' = b).
  frame_shape. frame_outside P.
  match goal with
  | E1 : std_move _ _ _ _ = Ret _ ?m1, E2 : destroy_at _ _ = Ret _ ?m2 |- _ =>
      replace (Ptr b index) with (Ptr b (index + 1 - 1)) in E1
        by (f_equal; lia);
      apply std_move_slots in E1 as (_ & A1 & F1);
      pose proof (destroy_at_slot _ _ _ E2) as Hdes;
      rename m2 into md
  end.
  split; [f_equal; lia|].
  split; [intros b'; cbn [heap set_vecs]; by shape_chain b'|].
  split; [|split].
  - rewrite (slot_same_heap md) by done. rewrite Hdes. by rewrite decide_True.
  - intros k Hk. rewrite (slot_same_heap md) by done.
    rewrite Hdes, decide_False by (intros [=]; lia).
    apply F1. intros; intros [=]; lia.
  - intros c' Hc'. cbn [heap set_vecs]. assert (¬ P c') by done.
    by outside_chain c'.
Qed.


Lemma move_assign_Ret_dst src dst m u m' :
  move_assign src dst m = Ret u m' → is_Some (slot m dst).
Proof.
  unfold move_assign. intros E. inv_M. inv_heap. eauto.
Qed.

(** An [Erase] that returns was given a position of an element. *)
Lemma Erase_valid this pos m it m' v :
  vecs m !! this = Some v → wf m v →
  Erase this pos m = Ret it m' →
  ∃ b index,
    buffer_ (data_ v) = Ptr b 0 ∧
    index_of this pos m = Ret index m ∧
    0 <= index < size_ v ∧
    Erase this (Ptr b index) m = Ret it m'.
Proof.
  intros Hv Hwf E. pose proof E as E0. unfold Erase in E.
  apply bind_Ret in E as (index & m0 & Ei & E).
  destruct (index_of_Ret _ _ _ _ _ Ei) as [-> Hi].
  pose proof Hwf as ([Hsr Hcr] & [Hs0 Hsc] & _).
  inv_M.
  match goal with
  | E1 : std_move _ _ _ _ = Ret _ ?m1, E2 : destroy_at _ _ = Ret _ ?m2 |- _ =>
      rename E1 into Em; rename E2 into Ed; rename m1 into mm; rename m2 into md
  end.
  destruct (wf_buffer _ _ Hwf) as [(Hnull & _ & _)|(b & Hb & _)].
  { rewrite Hnull in Ed. by apply destroy_at_live in Ed as [x Hx]. }
  destruct (wf_elim _ _ _ _ Hwf Hb) as (_ & Hlen & _ & _).
  rewrite Hb in *. cbn [ptr_add] in *. rewrite !Z.add_0_l in *.
  exists b, index. split; [done|]. split; [done|].
  assert (0 <= index < size_ v) as Hrange; [|split; [done|]].
  - unfold std_move in Em.
    apply bind_Ret in Em as (n & m1 & (-> & Hn & ->)%distance_Ret & Em).
    destruct (decide (index = size_t_modulus - 1)) as [->|Hne].
    + (* the position is one before [begin()] *)
      exfalso.
      assert (capacity_ (data_ v) = size_t_modulus - 1) as Hcap
        by (unfold in_size_t in *; lia).
      change (wrap (size_t_modulus - 1 + 1)) with 0 in *.
      destruct (decide (size_ v = 0)) as [Hz|Hnz].
      * rewrite Hz in *. change (wrap (0 - 1)) with (size_t_modulus - 1) in *.
        assert (same_shape T m mm) as Hs
          by (eapply (respects_Ret (same_shape T)); [|exact Em]; solve_respects).
        apply destroy_at_live in Ed as [x (_ & blk & Hblk & Hx)%slot_Ptr].
        apply lookup_lt_Some in Hx. specialize (Hs b).
        rewrite Hblk, Hlen in Hs. injection Hs as Hs. lia.
      * eapply for_n_Ret_body with (j := 0) in Em as (m1 & m2 & Hs & Em);
          [|intros; solve_respects|lia].
        apply move_assign_Ret_dst in Em as [o (_ & blk & Hblk & Hx)%slot_Ptr].
        apply lookup_lt_Some in Hx. specialize (Hs b).
        rewrite Hblk, Hlen in Hs. injection Hs as Hs.
        cbn [ptr_add] in Hx. lia.
    + rewrite (wrap_small (index + 1)) in * by (unfold in_size_t in *; lia).
      unfold in_size_t in *. lia.
  - rewrite <- E0. unfold Erase, bind. rewrite Ei.
    by rewrite (index_of_Ptr _ _ index _ _ Hv Hb Hi).
Qed.

Lemma Erase_spec this pos m it m' v l :
  vecs m !! this = Some v → wf m v → contents m v = Some l →
  Erase this pos m = Ret it m' →
  ∃ v' index,
    index_of this pos m = Ret index m ∧ 0 <= index < size_ v ∧
    updates this v v' m m' ∧ wf m' v' ∧
    data_ v' = data_ v ∧ size_ v' = size_ v - 1 ∧
    contents m' v' = Some (delete (Z.to_nat index) l) ∧
    it = buffer_ (data_ v) +p index.
Proof.
  intros Hv Hwf Hl E.
  pose proof Hwf as ([Hsr Hcr] & [Hs0 Hsc] & _).
  destruct (Erase_valid _ _ _ _ _ _ Hv Hwf E) as (b & index & Hb & Hidx & Hi & E').
  destruct (contents_elim _ _ _ Hl) as [Hlen Hlk].
  destruct (wf_elim _ _ _ _ Hwf Hb) as (_ & Hblen & Hlive & Hraw).
  assert (v = mkVector (mkRawMemory (Ptr b 0) (capacity_ (data_ v))) (size_ v))
    as Hveq by (destruct v as [[??]?]; simpl in *; by subst).
  rewrite Hveq in Hv.
  destruct (Erase_slots _ _ _ _ _ _ _ _ Hv Hi Hsr E') as (Hm' & S1 & S2).
  destruct (Erase_block _ _ _ _ _ _ _ _ Hv Hi Hsr E')
    as (-> & Hsh & Hlast & Htail & Hframe).
  rewrite <- Hveq in Hv.
  exists (mkVector (data_ v) (size_ v - 1)), index.
  cbn [data_ buffer_ size_ capacity_]. rewrite Hb. cbn [ptr_add].
  rewrite Z.add_0_l.
  assert (∀ k, 0 <= k < size_ v - 1 →
            live m' (Ptr b k) = delete (Z.to_nat index) l !! Z.to_nat k) as Hall.
  { assert (∀ k, 0 <= k < size_ v → live m (Ptr b k) = l !! Z.to_nat k) as Hlk'.
    { intros k Hk. rewrite <- Hlk by done. rewrite Hb. cbn [ptr_add].
      by rewrite Z.add_0_l. }
    intros k Hk. destruct (decide (k < index)).
    - rewrite S1 by lia. rewrite list_lookup_delete_lt by lia. apply Hlk'. lia.
    - rewrite S2 by lia. rewrite list_lookup_delete_ge by lia.
      rewrite Hlk' by lia. f_equal. lia. }
  split; [done|]. split; [done|].
  split; [|split; [|split; [done|split; [done|split; [|done]]]]].
  - split; [|split].
    + rewrite Hm'. do 2 f_equal. destruct (data_ v); simpl in *; by subst.
    + by left.
    + intros c' _ Hne. apply Hframe. intros ->. by eapply Hne.
  - apply (wf_intro _ _ b); cbn [data_ buffer_ size_ capacity_]; try done.
    + unfold representable, in_size_t in *. simpl. lia.
    + unfold invariant. simpl. lia.
    + by rewrite (Hsh b).
    + intros k Hk. rewrite Hall by done. apply lookup_lt_is_Some_2.
      rewrite length_delete; [lia|]. apply lookup_lt_is_Some_2. lia.
    + intros k Hk. destruct (decide (k = size_ v - 1)) as [->|Hne]; [done|].
      rewrite Htail by lia. apply Hraw. lia.
  - apply contents_intro; cbn [data_ buffer_ size_ capacity_ ptr_add].
    + rewrite length_delete; [lia|]. apply lookup_lt_is_Some_2. lia.
    + intros k Hk. rewrite Hb. cbn [ptr_add]. rewrite Z.add_0_l. by apply Hall.
Qed.


(** *** Removing the last element *)

Lemma RawMemory_plus_run r n m :
  n <= capacity_ r → RawMemory_plus r n m = Ret (buffer_ r +p n) m.
Proof.
  intros Hn. unfold RawMemory_plus, bind, assert.
  by destruct (Z.leb_spec n (capacity_ r)); [|lia].
Qed.

Lemma RawMemory_plus_Abort r n m :
  capacity_ r < n → RawMemory_plus r n m = Abort.
Proof.
  intros Hn. unfold RawMemory_plus, bind, assert.
  by destruct (Z.leb_spec n (capacity_ r)); [lia|].
Qed.

Lemma load_run p m x : slot m p = Some (Some x) → load p m = Ret x m.
Proof. intros Hx. unfold load. by rewrite Hx. Qed.

Lemma store_run p o m :
  is_Some (slot m p) → ∃ m', store p o m = Ret tt m'.
Proof.
  intros [o' Ho]. unfold store. destruct p; [done|]. rewrite Ho. eauto.
Qed.

Lemma destroy_at_run p m x :
  slot m p = Some (Some x) → ∃ m', destroy_at p m = Ret tt m'.
Proof.
  intros Hx. unfold destroy_at.
  rewrite (run_bind _ _ _ _ _ (load_run _ _ _ Hx)).
  unfold bind at 1, emit. apply store_run. rewrite slot_add_log. eauto.
Qed.

Lemma destroy_at_Abort p m :
  live m p = None → destroy_at p m = Abort.
Proof.
  unfold live, destroy_at, bind, load. by destruct (slot m p) as [[x|]|].
Qed.

(** Beyond the capacity there is no slot. *)
Lemma wf_no_slot m v k :
  wf m v → capacity_ (data_ v) <= k → slot m (buffer_ (data_ v) +p k) = None.
Proof.
  intros Hwf Hk. destruct (buffer_ (data_ v)) as [|b o] eqn:Hb; [done|].
  destruct (wf_elim _ _ _ _ Hwf Hb) as (-> & Hlen & _). simpl.
  destruct (slot m (Ptr b (0 + k))) as [o|] eqn:Hs; [|done].
  apply slot_Ptr in Hs as (_ & blk & Hblk & Hx). apply lookup_lt_Some in Hx.
  rewrite Hblk in Hlen. injection Hlen as Hlen.
  pose proof Hwf as ([_ Hcr] & _). unfold in_size_t in *. lia.
Qed.

Lemma PopBack_block this b c size m m' :
  vecs m !! this = Some (mkVector (mkRawMemory (Ptr b 0) c) size) →
  1 <= size → in_size_t size →
  PopBack this m = Ret tt m' →
  vecs m' = <[this := mkVector (mkRawMemory (Ptr b 0) c) (size - 1)]> (vecs m) ∧
  same_shape T m m' ∧
  (∀ k, slot m' (Ptr b k) =
        if decide (k = size - 1) then Some None else slot m (Ptr b k)) ∧
  (∀ c', c' ≠ b → heap m' !! c' = heap m !! c').
Proof.
  intros Hv Hi Hs E. unfold PopBack in E.
  inv_M. cbn [data_ buffer_ size_ capacity_ ptr_add] in *.
  rewrite (wrap_small (size - 1)) in * by (unfold in_size_t in *; lia).
  rewrite !Z.add_0_l in *.
  set (P := fun c' : nat => c' = b).
  frame_shape. frame_outside P.
  match goal with
  | E2 : destroy_at _ _ = Ret _ ?m2 |- _ =>
      assert (vecs m2 = vecs m) as Hv2 by (frame_vecs; congruence);
      pose proof (destroy_at_slot _ _ _ E2) as Hdes;
      rename m2 into md
  end.
  cbn [vecs set_vecs] in *. rewrite Hv2 in *. simplify_eq.
  split; [done|].
  split; [intros b'; cbn [heap set_vecs]; by shape_chain b'|].
  split.
  - intros k. rewrite (slot_same_heap md) by done. rewrite Hdes.
    repeat case_decide; simplify_eq; done.
  - intros c' Hc'. cbn [heap set_vecs]. assert (¬ P c') by done.
    by outside_chain c'.
Qed.

Lemma PopBack_spec this m m' v l :
  vecs m !! this = Some v → wf m v → contents m v = Some l →
  PopBack this m = Ret tt m' →
  1 <= size_ v ∧
  ∃ v', updates this v v' m m' ∧ wf m' v' ∧
        data_ v' = data_ v ∧ size_ v' = size_ v - 1 ∧
        contents m' v' = Some (take (Z.to_nat (size_ v - 1)) l).
Proof.
  intros Hv Hwf Hl E.
  pose proof Hwf as ([Hsr Hcr] & [Hs0 Hsc] & _).
  assert (1 <= size_ v) as Hpos.
  { unfold PopBack in E. inv_M.
    match goal with X : destroy_at _ _ = _ |- _ =>
      apply destroy_at_live in X as [x Hx] end.
    apply (wf_live _ _ _ _ Hwf) in Hx.
    rewrite wrap_minus_one in Hx by done.
    case_decide; unfold size_t_modulus in *; lia. }
  split; [done|].
  destruct (wf_buffer _ _ Hwf) as [(_ & Hz & _)|(b & Hb & _)]; [lia|].
  destruct (contents_elim _ _ _ Hl) as [Hlen Hlk].
  destruct (wf_elim _ _ _ _ Hwf Hb) as (_ & Hblen & Hlive & Hraw).
  assert (v = mkVector (mkRawMemory (Ptr b 0) (capacity_ (data_ v))) (size_ v))
    as Hveq by (destruct v as [[??]?]; simpl in *; by subst).
  rewrite Hveq in Hv.
  destruct (PopBack_block _ _ _ _ _ _ Hv Hpos Hsr E) as (Hm' & Hsh & Hslot & Hframe).
  rewrite <- Hveq in Hv.
  exists (mkVector (data_ v) (size_ v - 1)).
  cbn [data_ buffer_ size_ capacity_].
  assert (∀ k, 0 <= k < size_ v - 1 →
            live m' (Ptr b k) = take (Z.to_nat (size_ v - 1)) l !! Z.to_nat k)
    as Hall.
  { intros k Hk. unfold live. rewrite Hslot, decide_False by lia.
    rewrite lookup_take_lt by lia. rewrite <- Hlk by lia.
    rewrite Hb. cbn [ptr_add]. by rewrite Z.add_0_l. }
  split; [|split; [|split; [done|split; [done|]]]].
  - split; [|split].
    + rewrite Hm'. do 2 f_equal. destruct (data_ v); simpl in *; by subst.
    + by left.
    + intros c' _ Hne. apply Hframe. intros ->. by eapply Hne.
  - apply (wf_intro _ _ b); cbn [data_ buffer_ size_ capacity_]; try done.
    + unfold representable, in_size_t in *. simpl. lia.
    + unfold invariant. simpl. lia.
    + by rewrite (Hsh b).
    + intros k Hk. rewrite Hall by done. apply lookup_lt_is_Some_2.
      rewrite length_take. lia.
    + intros k Hk. rewrite Hslot. case_decide; [done|]. apply Hraw. lia.
  - apply contents_intro; cbn [data_ buffer_ size_ capacity_ ptr_add].
    + rewrite length_take. lia.
    + intros k Hk. rewrite Hb. cbn [ptr_add]. rewrite Z.add_0_l. by apply Hall.
Qed.

(** On a vector with an element [PopBack] returns. *)
Lemma PopBack_runs this m v :
  vecs m !! this = Some v → wf m v → 1 <= size_ v →
  ∃ m', PopBack this m = Ret tt m'.
Proof.
  intros Hv Hwf Hpos.
  pose proof Hwf as ([Hsr Hcr] & [Hs0 Hsc] & _).
  destruct (wf_buffer _ _ Hwf) as [(_ & Hz & _)|(b & Hb & _)]; [lia|].
  destruct (wf_elim _ _ _ _ Hwf Hb) as (_ & _ & Hlive & _).
  destruct (Hlive (size_ v - 1)) as [x Hx]; [lia|].
  unfold live in Hx. destruct (slot m (Ptr b (size_ v - 1))) as [[y|]|] eqn:Hy;
    [|done..].
  unfold PopBack. rewrite (run_bind _ _ _ _ _ (get_Some _ _ _ Hv)).
  rewrite (wrap_small (size_ v - 1)) by (unfold in_size_t in *; lia).
  rewrite (run_bind _ _ _ _ _
             (RawMemory_plus_run (data_ v) (size_ v - 1) m ltac:(lia))).
  rewrite Hb. cbn [ptr_add]. rewrite Z.add_0_l.
  destruct (destroy_at_run _ _ _ Hy) as [md Hd].
  rewrite (run_bind _ _ _ _ _ Hd).
  assert (vecs md = vecs m) as Hvd by (by frame_vecs).
  unfold set_size. rewrite (run_bind _ _ _ _ _ (get_Some _ v _ ltac:(by rewrite Hvd))).
  rewrite put_eq. eauto.
Qed.

(** On an empty vector it fails: the offset [size_ - 1] wraps around
    to the largest [size_t]. *)
Lemma PopBack_empty this m v :
  vecs m !! this = Some v → wf m v → size_ v = 0 → PopBack this m = Abort.
Proof.
  intros Hv Hwf Hz.
  pose proof Hwf as ([Hsr Hcr] & _).
  unfold PopBack. rewrite (run_bind _ _ _ _ _ (get_Some _ _ _ Hv)).
  rewrite Hz. change (wrap (0 - 1)) with (size_t_modulus - 1).
  destruct (decide (size_t_modulus - 1 <= capacity_ (data_ v))) as [Hle|Hgt].
  - rewrite (run_bind _ _ _ _ _ (RawMemory_plus_run _ _ _ Hle)).
    unfold bind at 1. rewrite destroy_at_Abort; [done|].
    unfold live. rewrite wf_no_slot; [done..|]. unfold in_size_t in *. lia.
  - unfold bind at 1. by rewrite RawMemory_plus_Abort by lia.
Qed.


(** *** The store as a whole *)

Lemma wf_block_exists m v b o :
  wf m v → buffer_ (data_ v) = Ptr b o → is_Some (heap m !! b).
Proof.
  intros Hwf Hb. destruct (wf_elim _ _ _ _ Hwf Hb) as (_ & Hlen & _).
  destruct (heap m !! b); [eauto|done].
Qed.

(** A member function that updates one vector, within its block or
    into a fresh one, keeps the store sound. *)
Lemma sound_update this v v' m m' :
  sound m → vecs m !! this = Some v →
  updates this v v' m m' → wf m' v' → sound m'.
Proof.
  intros [Hwf Hsep] Hv (Hm' & Hnew & Hframe) Hwf'.
  assert (∀ a u b o, a ≠ this → vecs m !! a = Some u →
            buffer_ (data_ u) = Ptr b o →
            buffer_ (data_ v') ≠ Ptr b 0 ∧ ∀ o', buffer_ (data_ v) ≠ Ptr b o')
    as Hother.
  { intros a u b o Hne Hu Hb. split.
    - destruct Hnew as [->|[->|(nb & -> & Hf)]].
      + intros Hb'. apply Hne. by apply (Hsep a this u v b o 0).
      + done.
      + intros [= ->]. pose proof (wf_block_exists _ _ _ _ (Hwf a u Hu) Hb) as [? ?].
        congruence.
    - intros o' Hb'. apply Hne. by apply (Hsep a this u v b o o'). }
  split.
  - intros a u Hu. rewrite Hm' in Hu. destruct (decide (a = this)) as [->|Hne].
    + rewrite lookup_insert_eq in Hu. by simplify_eq.
    + rewrite lookup_insert_ne in Hu by done.
      pose proof (Hwf a u Hu) as Hwu. apply (wf_frame m); [done|].
      intros b o Hb. apply Hframe; [exact (wf_block_exists _ _ _ _ Hwu Hb)|].
      by apply (Hother a u b o).
  - intros a a' u u' b o o' Hu Hu' Hb Hb'. rewrite Hm' in Hu, Hu'.
    destruct (decide (a = this)) as [->|Hne], (decide (a' = this)) as [->|Hne'];
      [done| | |].
    + rewrite lookup_insert_eq in Hu. rewrite lookup_insert_ne in Hu' by done.
      simplify_eq. exfalso.
      destruct (Hother a' u' b o' Hne' Hu' Hb') as [Hx _]. apply Hx.
      pose proof Hwf' as (_ & _ & Hblk). rewrite Hb in Hblk.
      destruct Hblk as [-> _]. done.
    + rewrite lookup_insert_eq in Hu'. rewrite lookup_insert_ne in Hu by done.
      simplify_eq. exfalso.
      destruct (Hother a u b o Hne Hu Hb) as [Hx _]. apply Hx.
      pose proof Hwf' as (_ & _ & Hblk). rewrite Hb' in Hblk.
      destruct Hblk as [-> _]. done.
    + rewrite lookup_insert_ne in Hu, Hu' by done. by eapply Hsep.
Qed.

(** ** Arguments that are moved from *)

(** An rvalue reference bound to an object in a block behaves as a
    temporary with the value of that object, in the memory where the
    object has been moved from. *)

Lemma live_slot_Some m p x : live m p = Some x → slot m p = Some (Some x).
Proof. unfold live. destruct (slot m p) as [[y|]|]; simpl; congruence. Qed.

Lemma moved_out_eq b i m x :
  live m (Ptr b i) = Some x →
  moved_out (MoveOf (Ptr b i)) m =
    set_heap (alter (<[Z.to_nat i := Some (moved_from x)]>) b) m.
Proof.
  intros Hx. unfold moved_out.
  rewrite (run_bind _ _ _ _ _ (live_load _ _ _ Hx)).
  unfold store. by rewrite (live_slot_Some _ _ _ Hx).
Qed.

Lemma moved_out_dead src m : live m src = None → moved_out (MoveOf src) m = m.
Proof.
  intros Hx. unfold moved_out, bind, load. unfold live in Hx.
  by destruct (slot m src) as [[y|]|].
Qed.

Lemma moved_out_store src m x :
  live m src = Some x →
  store src (Some (moved_from x)) m = Ret tt (moved_out (MoveOf src) m).
Proof.
  intros Hx. destruct src as [|b i]; [done|].
  rewrite (moved_out_eq _ _ _ _ Hx). unfold store.
  by rewrite (live_slot_Some _ _ _ Hx).
Qed.

Lemma moved_out_vecs (a : forwarded) m : vecs (moved_out a m) = vecs m.
Proof.
  destruct a as [a|src]; [done|]. destruct (live m src) as [x|] eqn:Hx.
  - destruct src as [|b i]; [done|]. by rewrite (moved_out_eq _ _ _ _ Hx).
  - by rewrite moved_out_dead.
Qed.

Lemma moved_out_log (a : forwarded) m : log (moved_out a m) = log m.
Proof.
  destruct a as [a|src]; [done|]. destruct (live m src) as [x|] eqn:Hx.
  - destruct src as [|b i]; [done|]. by rewrite (moved_out_eq _ _ _ _ Hx).
  - by rewrite moved_out_dead.
Qed.

Lemma moved_out_limit (a : forwarded) m :
  max_alloc (moved_out a m) = max_alloc m.
Proof.
  destruct a as [a|src]; [done|]. destruct (live m src) as [x|] eqn:Hx.
  - destruct src as [|b i]; [done|]. by rewrite (moved_out_eq _ _ _ _ Hx).
  - by rewrite moved_out_dead.
Qed.

(** The object is left moved-from and every other slot is as it was. *)
Lemma moved_out_slot src m x q :
  live m src = Some x →
  slot (moved_out (MoveOf src) m) q =
    if decide (q = src) then Some (Some (moved_from x)) else slot m q.
Proof.
  intros Hx. by destruct (store_slot _ _ _ _ (moved_out_store _ _ _ Hx)).
Qed.

Lemma moved_out_shape (a : forwarded) m : same_shape T m (moved_out a m).
Proof.
  destruct a as [a|src]; [done|]. destruct (live m src) as [x|] eqn:Hx.
  - eapply (respects_Ret (same_shape T)); [|exact (moved_out_store _ _ _ Hx)].
    solve_respects.
  - by rewrite moved_out_dead.
Qed.

Lemma moved_out_dom (a : forwarded) m :
  dom (heap (moved_out a m)) = dom (heap m).
Proof.
  apply set_eq. intros b. rewrite !elem_of_dom.
  pose proof (moved_out_shape a m b) as Hb.
  destruct (heap (moved_out a m) !! b), (heap m !! b); simpl in Hb;
    try done; split; intros [? ?]; done.
Qed.

(** A slot holds an object afterwards exactly when it did before. *)
Lemma moved_out_is_live (a : forwarded) m q :
  is_live <$> slot (moved_out a m) q = is_live <$> slot m q.
Proof.
  destruct a as [a|src]; [done|]. destruct (live m src) as [x|] eqn:Hx.
  - rewrite (moved_out_slot _ _ _ _ Hx). case_decide; [|done].
    subst. by rewrite (live_slot_Some _ _ _ Hx).
  - by rewrite moved_out_dead.
Qed.

Lemma moved_out_wf (a : forwarded) m v : wf m v → wf (moved_out a m) v.
Proof.
  intros Hwf. destruct (buffer_ (data_ v)) as [|b o] eqn:Hb.
  - unfold wf in *. by rewrite Hb in *.
  - destruct (wf_elim _ _ _ _ Hwf Hb) as (-> & Hlen & Hlive & Hraw).
    apply (wf_intro _ _ b); [apply Hwf|apply Hwf|done| | |].
    + by rewrite (moved_out_shape a m b).
    + intros k Hk. specialize (Hlive k Hk). unfold live in *.
      pose proof (moved_out_is_live a m (Ptr b k)) as Hq.
      destruct (slot m (Ptr b k)) as [[y|]|], (slot (moved_out a m) (Ptr b k))
        as [[y'|]|]; simpl in *; try done; by destruct Hlive.
    + intros k Hk. specialize (Hraw k Hk).
      pose proof (moved_out_is_live a m (Ptr b k)) as Hq. rewrite Hraw in Hq.
      by destruct (slot (moved_out a m) (Ptr b k)) as [[y'|]|].
Qed.

Lemma moved_out_store_wf (a : forwarded) m :
  store_wf m → store_wf (moved_out a m).
Proof.
  intros Hwf this v Hv. rewrite moved_out_vecs in Hv.
  by apply moved_out_wf, (Hwf this).
Qed.

Lemma moved_out_sound (a : forwarded) m : sound m → sound (moved_out a m).
Proof.
  intros [Hwf Hsep]. split; [by apply moved_out_store_wf|].
  unfold separate. rewrite moved_out_vecs. exact Hsep.
Qed.

(** Moving from the object and the steps before the construction of
    the new element can be exchanged. *)
Lemma moved_out_add_log (a : forwarded) e m :
  moved_out a (add_log e m) = add_log e (moved_out a m).
Proof.
  destruct a as [a|src]; [done|].
  assert (live (add_log e m) src = live m src) as Hl by done.
  destruct (live m src) as [x|] eqn:Hx.
  - destruct src as [|b i]; [done|].
    rewrite (moved_out_eq _ _ _ _ Hl). by rewrite (moved_out_eq _ _ _ _ Hx).
  - by rewrite !moved_out_dead.
Qed.

Lemma moved_out_fresh (a : forwarded) m b n :
  heap m !! b = None →
  moved_out a (set_heap <[b := replicate n None]> m) =
    set_heap <[b := replicate n None]> (moved_out a m).
Proof.
  intros Hb. destruct a as [a|src]; [done|].
  pose proof (live_fresh_block m b n src Hb) as Hl.
  destruct (live m src) as [x|] eqn:Hx.
  - destruct src as [|bs i]; [done|].
    rewrite (moved_out_eq _ _ _ _ Hl), (moved_out_eq _ _ _ _ Hx).
    assert (bs ≠ b) as Hne.
    { intros ->. apply live_slot_Some, slot_Ptr in Hx as (_ & blk & Hblk & _).
      congruence. }
    apply mem_eq; try done. cbn [heap set_heap]. apply map_eq. intros c.
    destruct (decide (c = bs)) as [->|Hc].
    + by rewrite lookup_alter_eq, !lookup_insert_ne, lookup_alter_eq by done.
    + rewrite lookup_alter_ne by done. destruct (decide (c = b)) as [->|Hc'].
      * by rewrite !lookup_insert_eq.
      * by rewrite !lookup_insert_ne, lookup_alter_ne by done.
  - by rewrite !moved_out_dead.
Qed.

Lemma RawMemory_ctor_moved_out (a : forwarded) n m nd m1 :
  RawMemory_ctor n m = Ret nd m1 →
  RawMemory_ctor n (moved_out a m) = Ret nd (moved_out a m1).
Proof.
  unfold RawMemory_ctor, Allocate, operator_new, bind, ret.
  case_decide; [|by intros [= <- <-]].
  rewrite moved_out_limit, moved_out_dom.
  destruct (_ <=? _); [|done]. intros [= <- <-].
  rewrite moved_out_fresh; [done|].
  apply not_elem_of_dom, is_fresh.
Qed.

Lemma bind_run {A B} (c : M A) (f : A → M B) m a m1 r :
  c m = Ret a m1 → f a m1 = r → bind c f m = r.
Proof. intros E <-. by apply run_bind. Qed.

Lemma on_exception_run {A} (c : M A) h m a m1 :
  c m = Ret a m1 → on_exception c h m = Ret a m1.
Proof. intros E. unfold on_exception. by rewrite E. Qed.

Lemma RawMemory_plus_pure r n m q m1 m2 :
  RawMemory_plus r n m = Ret q m1 → m1 = m ∧ RawMemory_plus r n m2 = Ret q m2.
Proof.
  unfold RawMemory_plus, assert, bind, ret, abort.
  destruct (_ <=? _); [|done]. by intros [= <- <-].
Qed.

Lemma RawMemory_index_pure r n m q m1 m2 :
  RawMemory_index r n m = Ret q m1 → m1 = m ∧ RawMemory_index r n m2 = Ret q m2.
Proof.
  unfold RawMemory_index, assert, bind, ret, abort.
  destruct (_ <? _); [|done]. by intros [= <- <-].
Qed.

Lemma index_of_vecs this pos m i m1 m2 :
  vecs m2 = vecs m →
  index_of this pos m = Ret i m1 → m1 = m ∧ index_of this pos m2 = Ret i m2.
Proof.
  unfold index_of, begin, get, bind, ret. intros ->.
  destruct (vecs m !! this); [|done].
  destruct (ptr_diff _ _); [|done]. by intros [= <- <-].
Qed.

(** The construction itself *)
Lemma placement_new_MoveOf p src m m' :
  placement_new p (MoveOf src) m = Ret tt m' →
  ∃ x, live m src = Some x ∧ move_throws x = false ∧
       construct_at p (ByMove x) (moved_out (MoveOf src) m) = Ret tt m'.
Proof.
  cbn [placement_new local_object]. intros E.
  apply bind_Ret in E as (x & m0 & [-> Hx%live_slot]%load_Ret & E).
  apply bind_Ret in E as ([] & m1 & ->%emit_Ret & E).
  destruct (move_throws x) eqn:Ht; [done|].
  apply bind_Ret in E as ([] & m2 & E1 & E2).
  exists x. split; [done|]. split; [done|].
  assert (live (add_log (EvMoveCtor Argument (At p)) m) src = Some x) as Hx'
    by done.
  rewrite (moved_out_store _ _ _ Hx') in E1.
  match type of E1 with Ret _ ?m3 = _ => assert (m2 = m3) as -> by congruence end.
  rewrite moved_out_add_log in E2.
  unfold construct_at, bind, emit.
  cbn [init_throws init_event init_value]. by rewrite Ht.
Qed.

Lemma local_object_MoveOf src m y m' :
  local_object (MoveOf src) m = Ret y m' →
  live m src = Some y ∧ move_throws y = false ∧
  construct_local (ByMove y) (moved_out (MoveOf src) m) = Ret y m'.
Proof.
  cbn [placement_new local_object]. intros E.
  apply bind_Ret in E as (x & m0 & [-> Hx%live_slot]%load_Ret & E).
  apply bind_Ret in E as ([] & m1 & ->%emit_Ret & E).
  destruct (move_throws x) eqn:Ht; [done|].
  apply bind_Ret in E as ([] & m2 & E1 & E2).
  injection E2 as <- <-. split; [done|]. split; [done|].
  assert (live (add_log (EvMoveCtor Argument Local) m) src = Some x) as Hx'
    by done.
  rewrite (moved_out_store _ _ _ Hx') in E1.
  match type of E1 with Ret _ ?m3 = _ => assert (m2 = m3) as -> by congruence end.
  rewrite moved_out_add_log.
  unfold construct_local, bind, emit, ret.
  cbn [init_throws init_event init_value]. by rewrite Ht.
Qed.

(** An append that returns *)
Lemma append_MoveOf this src m p m' :
  append this (MoveOf src) m = Ret p m' →
  ∃ x, live m src = Some x ∧ move_throws x = false ∧
       append this (ByMove x) (moved_out (MoveOf src) m) = Ret p m'.
Proof.
  unfold append. intros E.
  apply bind_Ret in E as (v & m0 & [-> Hv]%get_Ret & E).
  assert (get this (moved_out (MoveOf src) m) = Ret v (moved_out (MoveOf src) m))
    as Eg by (apply get_Some; by rewrite moved_out_vecs).
  case_decide as Hfull.
  - apply bind_Ret in E as (nd & m1 & Ec & E).
    apply bind_Ret in E as (elem & m2 & Eo%on_exception_Ret & Ek).
    apply bind_Ret in Eo as (q & m1' & Ep & Eo).
    apply (RawMemory_plus_pure _ _ _ _ _ (moved_out (MoveOf src) m1)) in Ep
      as [-> Ep].
    apply bind_Ret in Eo as ([] & mc & (x & Hx1 & Ht & En)%placement_new_MoveOf & Er).
    assert (live m src = Some x) as Hx.
    { apply RawMemory_ctor_Ret in Ec as (_ & [(_ & _ & ->)|(_ & b & _ & Hb & ->)]);
        [done|]. by rewrite live_fresh_block in Hx1. }
    exists x. split; [done|]. split; [done|].
    eapply bind_run; [exact Eg|]. rewrite decide_True by done.
    eapply bind_run; [by apply RawMemory_ctor_moved_out|].
    eapply bind_run; [|exact Ek]. apply on_exception_run.
    eapply bind_run; [exact Ep|]. eapply bind_run; [exact En|]. exact Er.
  - apply bind_Ret in E as (q & m1' & Ep & E).
    apply (RawMemory_plus_pure _ _ _ _ _ (moved_out (MoveOf src) m)) in Ep
      as [-> Ep].
    apply bind_Ret in E as ([] & mc & (x & Hx & Ht & En)%placement_new_MoveOf & Er).
    exists x. split; [done|]. split; [done|].
    eapply bind_run; [exact Eg|]. rewrite decide_False by done.
    eapply bind_run; [exact Ep|]. eapply bind_run; [exact En|]. exact Er.
Qed.

(** An insertion at a position that returns *)
Lemma emplace_MoveOf this pos src m it m' :
  emplace this pos (MoveOf src) m = Ret it m' →
  ∃ x, live m src = Some x ∧ move_throws x = false ∧
       emplace this pos (ByMove x) (moved_out (MoveOf src) m) = Ret it m'.
Proof.
  unfold emplace. intros E.
  set (m_ := moved_out (MoveOf src) m).
  apply bind_Ret in E as (index & m0 & Ei & E).
  apply (index_of_vecs _ _ _ _ _ m_) in Ei as [-> Ei];
    [|apply moved_out_vecs].
  apply bind_Ret in E as (v & m0 & [-> Hv]%get_Ret & E).
  assert (get this m_ = Ret v m_) as Eg
    by (apply get_Some; unfold m_; by rewrite moved_out_vecs).
  apply bind_Ret in E as ([] & mi & E & Ek).
  enough (∃ x, live m src = Some x ∧ move_throws x = false ∧
            (if decide (size_ v = index)
             then append this (ByMove x) >> ret tt
             else if decide (size_ v = RawMemory_Capacity (data_ v))
             then
               let* new_data := RawMemory_ctor (grown (size_ v)) in
               on_exception
                 (let* p := RawMemory_plus new_data index in
                  placement_new p (ByMove x) >>
                  let* src := RawMemory_plus (data_ v) index in
                  let* dst := RawMemory_plus new_data (wrap (index + 1)) in
                  relocate (GetAddress (data_ v)) index (GetAddress new_data) >>
                  relocate src (wrap (size_ v - index)) dst >>
                  destroy_n (GetAddress (data_ v)) (size_ v))
                 (RawMemory_dtor new_data) >>
               adopt this new_data
             else
               let* elem := local_object (ByMove x) in
               on_exception
                 (let* back := RawMemory_plus (data_ v) (size_ v) in
                  let* last := RawMemory_plus (data_ v) (wrap (size_ v - 1)) in
                  move_construct last back >>
                  move_backward (GetAddress (data_ v) +p index)
                                (GetAddress (data_ v) +p wrap (size_ v - 1))
                                (GetAddress (data_ v) +p size_ v) >>
                  let* p := RawMemory_index (data_ v) index in
                  move_assign_local elem p >>
                  set_size this (wrap (size_ v + 1)))
                 (emit (EvDtor Local)) >>
               emit (EvDtor Local)) m_ = Ret tt mi) as (x & Hx & Ht & E').
  { exists x. split; [done|]. split; [done|].
    eapply bind_run; [exact Ei|]. eapply bind_run; [exact Eg|].
    eapply bind_run; [exact E'|]. exact Ek. }
  clear Ek. case_decide as Hend; [|case_decide as Hfull].
  - apply bind_Ret in E as (q & m1 & (x & Hx & Ht & Ea)%append_MoveOf & [= <-]).
    exists x. split; [done|]. split; [done|].
    eapply bind_run; [exact Ea|]. done.
  - apply bind_Ret in E as (nd & m1 & Ec & E).
    apply bind_Ret in E as ([] & m2 & Eo%on_exception_Ret & Ek).
    apply bind_Ret in Eo as (q & m1' & Ep & Eo).
    apply (RawMemory_plus_pure _ _ _ _ _ (moved_out (MoveOf src) m1)) in Ep
      as [-> Ep].
    apply bind_Ret in Eo as ([] & mc & (x & Hx1 & Ht & En)%placement_new_MoveOf & Er).
    assert (live m src = Some x) as Hx.
    { apply RawMemory_ctor_Ret in Ec as (_ & [(_ & _ & ->)|(_ & b & _ & Hb & ->)]);
        [done|]. by rewrite live_fresh_block in Hx1. }
    exists x. split; [done|]. split; [done|].
    eapply bind_run; [by apply RawMemory_ctor_moved_out|].
    eapply bind_run; [|exact Ek]. apply on_exception_run.
    eapply bind_run; [exact Ep|]. eapply bind_run; [exact En|]. exact Er.
  - apply bind_Ret in E as (y & ml & (Hx & Ht & El)%local_object_MoveOf & E).
    exists y. split; [done|]. split; [done|].
    eapply bind_run; [exact El|]. exact E.
Qed.


(** *** Every outcome of an insertion handed an object in a block *)

Lemma bind_cong {A B} (c c' : M A) (f : A → M B) m m' :
  c m = c' m' → bind c f m = bind c' f m'.
Proof. unfold bind. by intros ->. Qed.

Lemma on_exception_cong {A} (c c' : M A) h m m' :
  c m = c' m' → on_exception c h m = on_exception c' h m'.
Proof. unfold on_exception. by intros ->. Qed.

Lemma on_exception_cong_Abort {A} (c : M A) h m :
  c m = Abort → on_exception c h m = Abort.
Proof. unfold on_exception. by intros ->. Qed.

Lemma RawMemory_plus_pure_Exc r n m m' : RawMemory_plus r n m ≠ Exc m'.
Proof.
  unfold RawMemory_plus, assert, bind, ret, abort. by destruct (_ <=? _).
Qed.

Lemma run_bind_Abort {A B} (c : M A) (f : A → M B) m :
  c m = Abort → bind c f m = Abort.
Proof. unfold bind. by intros ->. Qed.

Lemma constructed_from_vecs (a : forwarded) m :
  vecs (constructed_from a m) = vecs m.
Proof.
  unfold constructed_from. destruct (forwarded_throws m a); [done|].
  apply moved_out_vecs.
Qed.

Lemma constructed_from_add_log (a : forwarded) e m :
  constructed_from a (add_log e m) = add_log e (constructed_from a m).
Proof.
  unfold constructed_from.
  assert (forwarded_throws (add_log e m) a = forwarded_throws m a) as ->
    by (by destruct a).
  destruct (forwarded_throws m a); [done|]. apply moved_out_add_log.
Qed.

Lemma RawMemory_ctor_constructed (a : forwarded) n m nd m1 :
  RawMemory_ctor n m = Ret nd m1 →
  RawMemory_ctor n (constructed_from a m) = Ret nd (constructed_from a m1).
Proof.
  intros Ec. unfold constructed_from.
  assert (forwarded_throws m1 a = forwarded_throws m a) as ->.
  { destruct a as [a|src]; [done|]. simpl.
    apply RawMemory_ctor_Ret in Ec as (_ & [(_ & _ & ->)|(_ & b & _ & Hb & ->)]);
      [done|]. by rewrite live_fresh_block. }
  destruct (forwarded_throws m a); [done|]. by apply RawMemory_ctor_moved_out.
Qed.

Lemma RawMemory_ctor_live n m nd m1 q :
  RawMemory_ctor n m = Ret nd m1 → live m1 q = live m q.
Proof.
  intros Ec.
  apply RawMemory_ctor_Ret in Ec as (_ & [(_ & _ & ->)|(_ & b & _ & Hb & ->)]);
    [done|]. by rewrite live_fresh_block.
Qed.

Lemma RawMemory_ctor_Exc n m m' : RawMemory_ctor n m = Exc m' → m' = m.
Proof.
  unfold RawMemory_ctor, Allocate, operator_new, bind, ret.
  repeat case_match; congruence.
Qed.

Lemma RawMemory_ctor_no_abort n m : RawMemory_ctor n m ≠ Abort.
Proof.
  unfold RawMemory_ctor, Allocate, operator_new, bind, ret.
  case_decide; [|done]. by destruct (_ <=? _).
Qed.

Lemma RawMemory_plus_any r n m m2 :
  RawMemory_plus r n m =
    match RawMemory_plus r n m2 with
    | Ret q _ => Ret q m
    | Exc _ => Exc m
    | Abort => Abort
    end.
Proof.
  unfold RawMemory_plus, assert, bind, ret, abort. by destruct (_ <=? _).
Qed.

Lemma bind_plus_cong {B} r n (f f' : ptr → M B) m m2 :
  (∀ q, f q m = f' q m2) →
  bind (RawMemory_plus r n) f m = bind (RawMemory_plus r n) f' m2.
Proof.
  intros Hf. unfold RawMemory_plus, assert, bind, ret, abort.
  destruct (_ <=? _); [apply Hf|done].
Qed.

Lemma bind_plus_Abort {B} r n (f : ptr → M B) m :
  (∀ q, f q m = Abort) → bind (RawMemory_plus r n) f m = Abort.
Proof.
  intros Hf. unfold RawMemory_plus, assert, bind, ret, abort.
  destruct (_ <=? _); [apply Hf|done].
Qed.

Lemma index_of_any this pos m m2 :
  vecs m2 = vecs m →
  index_of this pos m2 =
    match index_of this pos m with
    | Ret i _ => Ret i m2
    | Exc _ => Exc m2
    | Abort => Abort
    end.
Proof.
  unfold index_of, begin, get, bind, ret. intros ->.
  destruct (vecs m !! this); [|done]. by destruct (ptr_diff _ _).
Qed.

Lemma index_of_no_Exc this pos m m' : index_of this pos m ≠ Exc m'.
Proof.
  unfold index_of, begin, get, bind, ret.
  destruct (vecs m !! this); [|done]. by destruct (ptr_diff _ _).
Qed.

Lemma dead_load m src {B} (f : T → M B) :
  live m src = None → bind (load src) f m = Abort.
Proof.
  intros Hx. unfold bind, load. unfold live in Hx.
  by destruct (slot m src) as [[y|]|].
Qed.

(** The construction of the new element from the object [x] at [src]
    is its construction from a temporary [x], in the memory where the
    construction leaves [src]. *)
Lemma placement_new_MoveOf_eq q src m x :
  live m src = Some x →
  placement_new q (MoveOf src) m =
    construct_at q (ByMove x) (constructed_from (MoveOf src) m).
Proof.
  intros Hx. cbn [placement_new]. unfold constructed_from.
  cbn [forwarded_throws]. rewrite Hx.
  rewrite (run_bind _ _ _ _ _ (live_load _ _ _ Hx)).
  unfold construct_at. cbn [init_throws init_event init_value].
  unfold bind at 1 3, emit. destruct (move_throws x) eqn:Ht; [done|].
  assert (live (add_log (EvMoveCtor Argument (At q)) m) src = Some x) as Hx'
    by done.
  rewrite (run_bind _ _ _ _ _ (moved_out_store _ _ _ Hx')).
  by rewrite moved_out_add_log.
Qed.

Lemma local_object_MoveOf_eq src m x :
  live m src = Some x →
  local_object (MoveOf src) m =
    construct_local (ByMove x) (constructed_from (MoveOf src) m).
Proof.
  intros Hx. cbn [local_object]. unfold constructed_from.
  cbn [forwarded_throws]. rewrite Hx.
  rewrite (run_bind _ _ _ _ _ (live_load _ _ _ Hx)).
  unfold construct_local. cbn [init_throws init_event init_value].
  unfold bind at 1 3, emit. destruct (move_throws x) eqn:Ht; [done|].
  assert (live (add_log (EvMoveCtor Argument Local) m) src = Some x) as Hx'
    by done.
  rewrite (run_bind _ _ _ _ _ (moved_out_store _ _ _ Hx')).
  by rewrite moved_out_add_log.
Qed.

(** An append handed the object at [src] fails to allocate and leaves
    the memory as it is, or runs as the append of a temporary with the
    value of that object does, in the memory where the construction of
    the new element leaves [src]; it is undefined if no object lives
    at [src] when the new element is to be constructed. *)
Lemma append_MoveOf_eq this src m :
  (append this (MoveOf src) m = Exc m ∧ full this m) ∨
  match live m src with
  | Some x =>
      append this (MoveOf src) m =
        append this (ByMove x) (constructed_from (MoveOf src) m)
  | None => append this (MoveOf src) m = Abort
  end.
Proof.
  set (m_ := constructed_from (MoveOf src) m).
  pose proof (constructed_from_vecs (MoveOf src) m) as Hvx. fold m_ in Hvx.
  unfold append.
  destruct (vecs m !! this) as [v|] eqn:Hv.
  2: { right. assert (get this m = Abort) as Eg by (unfold get; by rewrite Hv).
       rewrite (run_bind_Abort _ _ _ Eg).
       destruct (live m src); [|done].
       assert (get this m_ = Abort) as Eg'
         by (unfold get; by rewrite Hvx, Hv).
       by rewrite (run_bind_Abort _ _ _ Eg'). }
  rewrite (run_bind _ _ _ _ _ (get_Some _ _ _ Hv)).
  assert (get this m_ = Ret v m_) as Eg' by (apply get_Some; by rewrite Hvx).
  case_decide as Hfull.
  - destruct (RawMemory_ctor (grown (size_ v)) m) as [nd m1|mE|] eqn:Ec.
    + right. rewrite (run_bind _ _ _ _ _ Ec).
      pose proof (RawMemory_ctor_live _ _ _ _ src Ec) as Hl1.
      destruct (live m src) as [x|] eqn:Hx.
      * rewrite (run_bind _ _ _ _ _ Eg'). rewrite decide_True by done.
        rewrite (run_bind _ _ _ _ _
                   (RawMemory_ctor_constructed (MoveOf src) _ _ _ _ Ec)).
        apply bind_cong, on_exception_cong, bind_plus_cong. intros q.
        apply bind_cong. apply placement_new_MoveOf_eq. by rewrite Hl1.
      * apply run_bind_Abort, on_exception_cong_Abort, bind_plus_Abort.
        intros q. apply run_bind_Abort. cbn [placement_new].
        apply dead_load. by rewrite Hl1.
    + left. rewrite (run_bind_Exc _ _ _ _ Ec).
      apply RawMemory_ctor_Exc in Ec as ->. split; [done|by exists v].
    + by destruct (RawMemory_ctor_no_abort _ _ Ec).
  - right. destruct (live m src) as [x|] eqn:Hx.
    + rewrite (run_bind _ _ _ _ _ Eg'). rewrite decide_False by done.
      apply bind_plus_cong. intros q.
      apply bind_cong. by apply placement_new_MoveOf_eq.
    + apply bind_plus_Abort. intros q.
      apply run_bind_Abort. cbn [placement_new]. by apply dead_load.
Qed.

Lemma sim_bind_live {A B} (c c' : M A) (K : A → M B) (P : Prop) m m_ :
  (c m = Exc m ∧ P) ∨ c m = c' m_ →
  (bind c K m = Exc m ∧ P) ∨ bind c K m = bind c' K m_.
Proof.
  intros [[E HP]|E]; [left; split; [by apply run_bind_Exc|done]|
                      right; by apply bind_cong].
Qed.

Lemma sim_bind_dead {A B} (c : M A) (K : A → M B) (P : Prop) m :
  (c m = Exc m ∧ P) ∨ c m = Abort →
  (bind c K m = Exc m ∧ P) ∨ bind c K m = Abort.
Proof.
  intros [[E HP]|E]; [left; split; [by apply run_bind_Exc|done]|
                      right; by apply run_bind_Abort].
Qed.

(** The same for an insertion at a position *)
Lemma emplace_MoveOf_eq this pos src m :
  (emplace this pos (MoveOf src) m = Exc m ∧ full this m) ∨
  match live m src with
  | Some x =>
      emplace this pos (MoveOf src) m =
        emplace this pos (ByMove x) (constructed_from (MoveOf src) m)
  | None => emplace this pos (MoveOf src) m = Abort
  end.
Proof.
  set (m_ := constructed_from (MoveOf src) m).
  pose proof (constructed_from_vecs (MoveOf src) m) as Hvx. fold m_ in Hvx.
  pose proof (append_MoveOf_eq this src m) as Happ. fold m_ in Happ.
  pose proof (index_of_any this pos m m_ Hvx) as Ei'.
  unfold emplace.
  destruct (index_of this pos m) as [index m0|mE|] eqn:Ei;
    [|by destruct (index_of_no_Exc _ _ _ _ Ei)|].
  2: { right. rewrite (run_bind_Abort _ _ _ Ei).
       destruct (live m src); [|done]. by rewrite (run_bind_Abort _ _ _ Ei'). }
  apply index_of_Ret in Ei as Hm0. destruct Hm0 as [-> _].
  rewrite (run_bind _ _ _ _ _ Ei).
  destruct (vecs m !! this) as [v|] eqn:Hv.
  2: { right. assert (get this m = Abort) as Eg by (unfold get; by rewrite Hv).
       rewrite (run_bind_Abort _ _ _ Eg).
       destruct (live m src); [|done]. rewrite (run_bind _ _ _ _ _ Ei').
       assert (get this m_ = Abort) as Eg'
         by (unfold get; by rewrite Hvx, Hv).
       by rewrite (run_bind_Abort _ _ _ Eg'). }
  rewrite (run_bind _ _ _ _ _ (get_Some _ _ _ Hv)).
  assert (get this m_ = Ret v m_) as Eg' by (apply get_Some; by rewrite Hvx).
  destruct (live m src) as [x|] eqn:Hx.
  - rewrite (run_bind _ _ _ _ _ Ei'), (run_bind _ _ _ _ _ Eg').
    apply sim_bind_live. case_decide; [|case_decide].
    + by apply sim_bind_live.
    + destruct (RawMemory_ctor (grown (size_ v)) m) as [nd m1|mE|] eqn:Ec.
      * right. rewrite (run_bind _ _ _ _ _ Ec).
        rewrite (run_bind _ _ _ _ _
                   (RawMemory_ctor_constructed (MoveOf src) _ _ _ _ Ec)).
        apply bind_cong, on_exception_cong, bind_plus_cong. intros q.
        apply bind_cong. apply placement_new_MoveOf_eq.
        by rewrite (RawMemory_ctor_live _ _ _ _ src Ec).
      * left. rewrite (run_bind_Exc _ _ _ _ Ec).
        apply RawMemory_ctor_Exc in Ec as ->. split; [done|by exists v].
      * by destruct (RawMemory_ctor_no_abort _ _ Ec).
    + right. apply bind_cong. by apply local_object_MoveOf_eq.
  - apply sim_bind_dead. case_decide; [|case_decide].
    + by apply sim_bind_dead.
    + destruct (RawMemory_ctor (grown (size_ v)) m) as [nd m1|mE|] eqn:Ec.
      * right. rewrite (run_bind _ _ _ _ _ Ec).
        apply run_bind_Abort, on_exception_cong_Abort, bind_plus_Abort.
        intros q. apply run_bind_Abort. cbn [placement_new].
        apply dead_load. by rewrite (RawMemory_ctor_live _ _ _ _ src Ec).
      * left. rewrite (run_bind_Exc _ _ _ _ Ec).
        apply RawMemory_ctor_Exc in Ec as ->. split; [done|by exists v].
      * by destruct (RawMemory_ctor_no_abort _ _ Ec).
    + right. apply run_bind_Abort. cbn [local_object]. by apply dead_load.
Qed.

(** *** The contents after an insertion, whatever the arguments *)

Lemma contents_moved_out (a : forwarded) m v l :
  wf m v → contents m v = Some l →
  contents (moved_out a m) v = Some (left_behind v a l).
Proof.
  intros Hwf Hl. destruct a as [a|src]; [done|].
  destruct (contents_elim _ _ _ Hl) as [Hlen Hlk].
  pose proof Hwf as (_ & [Hs0 Hsc] & _).
  destruct (wf_buffer _ _ Hwf) as [(Hnull & Hz & _)|(b & Hb & _)].
  { apply contents_intro; [|intros; lia].
    unfold left_behind. rewrite Hnull.
    destruct (ptr_diff src Null); [case_decide; [lia|done]|done]. }
  destruct (wf_elim _ _ _ _ Hwf Hb) as (_ & _ & Hlive & _).
  unfold left_behind. rewrite Hb in *.
  destruct (live m src) as [x|] eqn:Hx.
  - apply contents_intro.
    + destruct (ptr_diff src (Ptr b 0)); [case_decide|];
        by rewrite ?length_alter.
    + intros k Hk. unfold live. rewrite (moved_out_slot _ _ _ _ Hx).
      rewrite Hb. cbn [ptr_add]. rewrite Z.add_0_l. specialize (Hlk k Hk).
      cbn [ptr_add] in Hlk. rewrite Z.add_0_l in Hlk.
      case_decide as Hsrc.
      * subst src. simpl. rewrite decide_True by done. rewrite Z.sub_0_r.
        rewrite decide_True by done. rewrite list_lookup_alter_eq.
        rewrite <- Hlk, Hx. done.
      * fold (live m (Ptr b k)). rewrite Hlk.
        destruct src as [|bs i]; [done|]. simpl.
        case_decide as Hbs; [|done]. subst bs. rewrite Z.sub_0_r.
        case_decide; [|done]. rewrite list_lookup_alter_ne; [done|].
        intros Heq. apply Hsrc. f_equal. lia.
  - rewrite moved_out_dead by done.
    destruct src as [|bs i]; [done|]. simpl.
    case_decide as Hbs; [|done]. subst bs. rewrite Z.sub_0_r.
    case_decide as Hi; [|done].
    destruct (Hlive i Hi) as [y Hy]. congruence.
Qed.

Lemma append_fwd_spec this (a : forwarded) m p m' v l :
  vecs m !! this = Some v → wf m v → contents m v = Some l →
  append this a m = Ret p m' →
  ∃ v' x, forwarded_value m a = Some x ∧
          updates this v v' (moved_out a m) m' ∧ wf m' v' ∧
          size_ v' = size_ v + 1 ∧
          contents m' v' = Some (left_behind v a l ++ [x]) ∧
          p = buffer_ (data_ v') +p size_ v.
Proof.
  intros Hv Hwf Hl E.
  pose proof (contents_moved_out a _ _ _ Hwf Hl) as Hl'.
  destruct a as [a|src].
  - destruct (append_spec _ _ _ _ _ _ _ Hv Hwf Hl E) as (v' & Hrest).
    by exists v', (init_value a).
  - apply append_MoveOf in E as (x & Hx & _ & E).
    destruct (append_spec this (ByMove x) (moved_out (MoveOf src) m) p m' v
                (left_behind v (MoveOf src) l))
      as (v' & Hrest); [by rewrite moved_out_vecs|by apply moved_out_wf|done..|].
    by exists v', x.
Qed.

Lemma emplace_fwd_spec this pos (a : forwarded) m it m' v l :
  vecs m !! this = Some v → wf m v → contents m v = Some l →
  emplace this pos a m = Ret it m' →
  ∃ v' x index,
    forwarded_value m a = Some x ∧
    index_of this pos m = Ret index m ∧ 0 <= index <= size_ v ∧
    updates this v v' (moved_out a m) m' ∧ wf m' v' ∧
    size_ v' = size_ v + 1 ∧
    contents m' v' =
      Some (take (Z.to_nat index) (left_behind v a l) ++
            x :: drop (Z.to_nat index) (left_behind v a l)) ∧
    it = buffer_ (data_ v') +p index.
Proof.
  intros Hv Hwf Hl E.
  pose proof (contents_moved_out a _ _ _ Hwf Hl) as Hl'.
  destruct a as [a|src].
  - destruct (emplace_spec _ _ _ _ _ _ _ _ Hv Hwf Hl E) as (v' & i & Hrest).
    by exists v', (init_value a), i.
  - apply emplace_MoveOf in E as (x & Hx & _ & E).
    destruct (emplace_spec this pos (ByMove x) (moved_out (MoveOf src) m)
                it m' v (left_behind v (MoveOf src) l))
      as (v' & i & Hi & Hrest);
      [by rewrite moved_out_vecs|by apply moved_out_wf|done..|].
    exists v', x, i. split; [done|]. split; [|done].
    apply (index_of_vecs _ _ _ _ _ m) in Hi as [_ Hi]; [done|].
    by rewrite moved_out_vecs.
Qed.

(** ** The member functions, one by one *)

Lemma index_of_at this i m v :
  vecs m !! this = Some v → wf m v → 0 <= i <= size_ v →
  index_of this (buffer_ (data_ v) +p i) m = Ret i m.
Proof.
  intros Hv Hwf Hi. pose proof Hwf as ([Hsr _] & _ & _).
  destruct (wf_buffer _ _ Hwf) as [(Hnull & Hz & _)|(b & Hb & _)].
  - unfold index_of, begin, bind, get, ret, GetAddress.
    rewrite Hv, Hnull. simpl. do 2 f_equal. rewrite wrap_small; [lia|done].
  - rewrite Hb. cbn [ptr_add]. rewrite Z.add_0_l.
    apply (index_of_Ptr _ _ _ _ v); [done..|].
    unfold in_size_t in *. lia.
Qed.

(** X1: on a well-formed vector with the elements [l], a [PushBack]
    (of either kind) or an [EmplaceBack] that returns leaves a
    well-formed vector with one element more.  The new last element
    has the value that the argument had before the call; the elements
    before it are those of [l], except that an element of the vector
    that the call was handed as an rvalue, as in
    [v.PushBack(std::move(v[0]))], is left moved-from. *)
Theorem append_adds_last c this a m m' v l :
  appends c = Some (this, a) →
  vecs m !! this = Some v → wf m v → contents m v = Some l →
  exec c m = Ret tt m' →
  ∃ v' x, forwarded_value m a = Some x ∧
          vecs m' !! this = Some v' ∧ wf m' v' ∧
          size_ v' = size_ v + 1 ∧
          contents m' v' = Some (left_behind v a l ++ [x]).
Proof.
  intros Hc Hv Hwf Hl E.
  destruct (exec_appends _ _ _ _ _ Hc E) as [p Ea].
  destruct (append_fwd_spec _ _ _ _ _ _ _ Hv Hwf Hl Ea)
    as (v' & x & Hx & (Hm' & _) & Hwf' & Hs & Hc' & _).
  exists v', x. split; [done|].
  split; [rewrite Hm', moved_out_vecs; apply lookup_insert_eq|done].
Qed.

(** X2: the reference that [EmplaceBack] returns is the new last
    element: [operator[]] at the old size gives the same address, and
    the object there has the value [T(args...)] is constructed with,
    [make args] for arguments that are values. *)
Theorem EmplaceBack_returns_last this args m p m' v :
  vecs m !! this = Some v → wf m v →
  EmplaceBack this args m = Ret p m' →
  ∃ x, forwarded_value m args = Some x ∧
       Vector_index this (size_ v) m' = Ret p m' ∧ load p m' = Ret x m'.
Proof.
  intros Hv Hwf E. destruct (wf_contents _ _ Hwf) as [l Hl].
  destruct (append_fwd_spec _ _ _ _ _ _ _ Hv Hwf Hl E)
    as (v' & x & Hx & (Hm' & _) & Hwf' & Hs & Hc' & ->).
  rewrite moved_out_vecs in Hm'.
  pose proof Hwf' as (_ & [Hs0 Hsc] & _).
  pose proof Hwf as (_ & [Hs0' _] & _).
  destruct (contents_elim _ _ _ (contents_moved_out args _ _ _ Hwf Hl))
    as [Hlen _].
  destruct (contents_elim _ _ _ Hc') as [_ Hlk].
  exists x. split; [done|]. split.
  - unfold Vector_index.
    rewrite (run_bind _ _ _ _ _ (get_Some _ v' _ ltac:(rewrite Hm'; apply lookup_insert_eq))).
    unfold bind at 1, assert. destruct (Z.ltb_spec (size_ v) (size_ v')); [|lia].
    unfold RawMemory_index, bind, assert.
    by destruct (Z.ltb_spec (size_ v) (capacity_ (data_ v'))); [|lia].
  - apply load_run. specialize (Hlk (size_ v) ltac:(lia)).
    rewrite <- Hlen, list_lookup_middle in Hlk by done.
    unfold live in Hlk.
    destruct (slot m' (buffer_ (data_ v') +p size_ v)) as [[y|]|];
      simpl in *; by simplify_eq.
Qed.

(** X3: on a well-formed vector with the elements [l], an [Insert] (of
    either kind) or an [Emplace] at the position of index [i], with
    [0 <= i <= size], that returns leaves a well-formed vector with one
    element more and returns the position at index [i], where the new
    element is, with the value that the argument had before the call.
    Before it are the first [i] elements of [l] and behind it the
    others, except that an element of the vector that the call was
    handed as an rvalue, as in [v.Insert(pos, std::move(v[0]))], is
    left moved-from. *)
Theorem Insert_places_value this pos i m v l :
  vecs m !! this = Some v → wf m v → contents m v = Some l →
  pos = buffer_ (data_ v) +p i → 0 <= i <= size_ v →
  let placed (insert : M ptr) (a : forwarded) :=
    ∀ it m', insert m = Ret it m' →
      ∃ v' x, forwarded_value m a = Some x ∧
        vecs m' !! this = Some v' ∧ wf m' v' ∧
        size_ v' = size_ v + 1 ∧
        contents m' v' =
          Some (take (Z.to_nat i) (left_behind v a l) ++
                x :: drop (Z.to_nat i) (left_behind v a l)) ∧
        it = buffer_ (data_ v') +p i in
  (∀ value, placed (Insert this pos value) (ByCopy value)) ∧
  (∀ value, placed (Insert_rvalue this pos value) (std_move_rvalue value)) ∧
  (∀ args, placed (Emplace this pos args) args).
Proof.
  intros Hv Hwf Hl -> Hi placed.
  assert (∀ a, placed (emplace this (buffer_ (data_ v) +p i) a) a) as Hall.
  { intros a it m' E.
    destruct (emplace_fwd_spec _ _ _ _ _ _ _ _ Hv Hwf Hl E)
      as (v' & x & i' & Hx & Hi' & Hr & (Hm' & _) & Hwf' & Hs & Hc' & ->).
    rewrite (index_of_at _ _ _ _ Hv Hwf Hi) in Hi'. injection Hi' as <-.
    exists v', x. split; [done|].
    split; [rewrite Hm', moved_out_vecs; apply lookup_insert_eq|done]. }
  split; [|split]; intros ?; apply Hall.
Qed.

(** X4: on a well-formed vector with the elements [l], an [Erase] at
    the position of the element of index [i], with [0 <= i < size],
    that returns leaves the vector well formed in the same block, with
    the elements of [l] except the one at [i], and returns the position
    at index [i]. *)
Theorem Erase_removes_element this pos i m it m' v l :
  vecs m !! this = Some v → wf m v → contents m v = Some l →
  pos = buffer_ (data_ v) +p i → 0 <= i < size_ v →
  Erase this pos m = Ret it m' →
  ∃ v',
    vecs m' !! this = Some v' ∧ wf m' v' ∧
    data_ v' = data_ v ∧ size_ v' = size_ v - 1 ∧
    contents m' v' = Some (delete (Z.to_nat i) l) ∧
    it = buffer_ (data_ v) +p i.
Proof.
  intros Hv Hwf Hl -> Hi E.
  destruct (Erase_spec _ _ _ _ _ _ _ Hv Hwf Hl E)
    as (v' & i' & Hi' & Hr & (Hm' & _) & Hwf' & Hd & Hs & Hc' & ->).
  rewrite (index_of_at _ _ _ _ Hv Hwf) in Hi' by lia. injection Hi' as <-.
  exists v'. split; [rewrite Hm'; apply lookup_insert_eq|done].
Qed.

(** *** Insert followed by Erase *)

Lemma emplace_then_Erase this i (a : forwarded) m v l it m1 it' m2 :
  vecs m !! this = Some v → wf m v → contents m v = Some l →
  0 <= i <= size_ v →
  emplace this (buffer_ (data_ v) +p i) a m = Ret it m1 →
  Erase this it m1 = Ret it' m2 →
  ∃ v2, index_of this it m1 = Ret i m1 ∧
        vecs m2 !! this = Some v2 ∧ size_ v2 = size_ v ∧
        contents m2 v2 = Some (left_behind v a l).
Proof.
  intros Hv Hwf Hl Hi Ei Ee.
  destruct (emplace_fwd_spec _ _ _ _ _ _ _ _ Hv Hwf Hl Ei)
    as (v1 & x & i' & _ & Hi' & _ & (Hm1 & _) & Hwf1 & Hs1 & Hc1 & ->).
  rewrite (index_of_at _ _ _ _ Hv Hwf Hi) in Hi'. injection Hi' as <-.
  assert (vecs m1 !! this = Some v1) as Hv1
    by (rewrite Hm1; apply lookup_insert_eq).
  destruct (Erase_spec _ _ _ _ _ _ _ Hv1 Hwf1 Hc1 Ee)
    as (v2 & j & Hj & _ & (Hm2 & _) & _ & _ & Hs2 & Hc2 & _).
  rewrite (index_of_at _ _ _ _ Hv1 Hwf1) in Hj by lia. injection Hj as <-.
  exists v2. split; [by apply index_of_at; [..|lia]|].
  split; [rewrite Hm2; apply lookup_insert_eq|]. split; [lia|].
  rewrite Hc2. f_equal.
  destruct (contents_elim _ _ _ (contents_moved_out a _ _ _ Hwf Hl))
    as [Hlen _].
  set (l' := left_behind v a l) in *.
  rewrite <- (length_take_le l' (Z.to_nat i)) at 1 by lia.
  rewrite delete_middle. apply take_drop.
Qed.

(** C7: take a well-formed vector with the elements [l] and the
    position [pos] of index [i], with [0 <= i <= size].  If an [Insert]
    (of either kind) or an [Emplace] at [pos] returns the iterator
    [it], then [it] is at index [i] of the vector as it is now, and an
    [Erase] at [it] that returns leaves the vector with the size it had
    before the insertion.  Its elements are those of [l], in the same
    order, when the value was given by reference to a constant or as a
    temporary.  When the call was handed an object in a block as an
    rvalue, as in [v.Insert(pos, std::move(v[0]))], the elements are
    those of [l] except that this object, if it is an element of the
    vector, is left moved-from. *)
Theorem Insert_then_Erase_restores this pos i m v l :
  vecs m !! this = Some v → wf m v → contents m v = Some l →
  pos = buffer_ (data_ v) +p i → 0 <= i <= size_ v →
  let restores (insert : M ptr) (l' : list T) :=
    ∀ it m1 it' m2,
      insert m = Ret it m1 → Erase this it m1 = Ret it' m2 →
      ∃ v2, index_of this it m1 = Ret i m1 ∧
            vecs m2 !! this = Some v2 ∧ size_ v2 = size_ v ∧
            contents m2 v2 = Some l' in
  (∀ value, restores (Insert this pos value) l) ∧
  (∀ x, restores (Insert_rvalue this pos (Temporary x)) l) ∧
  (∀ src, restores (Insert_rvalue this pos (Held src))
            (left_behind v (MoveOf src) l)) ∧
  (∀ args, restores (Emplace this pos args) (left_behind v args l)).
Proof.
  intros Hv Hwf Hl -> Hi restores.
  assert (∀ a, restores (emplace this (buffer_ (data_ v) +p i) a)
                 (left_behind v a l)) as Hall.
  { intros a it m1 it' m2 Ei Ee.
    by apply (emplace_then_Erase this i a m v l it m1 it' m2). }
  split; [|split; [|split]].
  - intros value. apply (Hall (ByCopy value)).
  - intros x. apply (Hall (ByMove x)).
  - intros src. apply (Hall (MoveOf src)).
  - intros args. apply (Hall args).
Qed.

(** X5: on a well-formed empty vector [PopBack] fails (the offset
    [size_ - 1] wraps around); on one with the elements [l], at least
    one, it returns, and the vector is well formed in the same block
    with all of [l] but the last. *)
Theorem PopBack_drops_last this m v l :
  vecs m !! this = Some v → wf m v → contents m v = Some l →
  (size_ v = 0 → PopBack this m = Abort) ∧
  (size_ v ≠ 0 →
   ∃ m' v', PopBack this m = Ret tt m' ∧
            vecs m' !! this = Some v' ∧ wf m' v' ∧
            data_ v' = data_ v ∧ size_ v' = size_ v - 1 ∧
            contents m' v' = Some (take (Z.to_nat (size_ v - 1)) l)).
Proof.
  intros Hv Hwf Hl. split; [by apply PopBack_empty|]. intros Hnz.
  pose proof Hwf as (_ & [Hs0 _] & _).
  destruct (PopBack_runs _ _ _ Hv Hwf ltac:(lia)) as [m' E].
  destruct (PopBack_spec _ _ _ _ _ Hv Hwf Hl E)
    as (_ & v' & (Hm' & _) & Hwf' & Hd & Hs & Hc').
  exists m', v'. split; [done|].
  split; [rewrite Hm'; apply lookup_insert_eq|done].
Qed.


Lemma live_Some_slot m p x : live m p = Some x → slot m p = Some (Some x).
Proof.
  unfold live. destruct (slot m p) as [[y|]|]; simpl; by intros [= ->].
Qed.

(** X6: [operator[]] on a well-formed vector with the elements [l]:
    an index from [size] on fails the assertion; an index below [size]
    gives the address [begin() + index], where the element [l[index]]
    lives, and changes nothing. *)
Theorem Vector_index_reads this index m v l :
  vecs m !! this = Some v → wf m v → contents m v = Some l →
  (size_ v <= index → Vector_index this index m = Abort) ∧
  (0 <= index < size_ v →
   ∃ x, l !! Z.to_nat index = Some x ∧
        Vector_index this index m = Ret (buffer_ (data_ v) +p index) m ∧
        load (buffer_ (data_ v) +p index) m = Ret x m).
Proof.
  intros Hv Hwf Hl. pose proof Hwf as (_ & [Hs0 Hsc] & _).
  unfold Vector_index. rewrite (run_bind _ _ _ _ _ (get_Some _ _ _ Hv)).
  split.
  - intros Hge. unfold bind, assert.
    by destruct (Z.ltb_spec index (size_ v)); [lia|].
  - intros Hi. destruct (contents_elim _ _ _ Hl) as [Hlen Hlk].
    destruct (lookup_lt_is_Some_2 l (Z.to_nat index)) as [x Hx]; [lia|].
    exists x. split; [done|]. split.
    + unfold bind at 1, assert. destruct (Z.ltb_spec index (size_ v)); [|lia].
      unfold RawMemory_index, bind, assert.
      by destruct (Z.ltb_spec index (capacity_ (data_ v))); [|lia].
    + apply load_run, live_Some_slot. by rewrite Hlk.
Qed.


(** *** Loops that write one slot per iteration *)

(** The [j]-th iteration writes [g j], read off the memory it starts
    in, to [dst j] and touches nothing else; what [g j] reads is not
    among the slots written.  Then every [dst j] ends up with [g j] of
    the first memory, and the other slots are as they were. *)
Lemma for_n_writes (dst : Z → ptr) (g : Z → mem → option T) body k :
  ∀ i m m',
  (∀ j m1 m2, body j m1 = Ret tt m2 →
     ∀ q, slot m2 q = if decide (q = dst j) then Some (g j m1) else slot m1 q) →
  (∀ j m1 m2, (∀ q, (∀ j', q ≠ dst j') → slot m2 q = slot m1 q) →
     g j m2 = g j m1) →
  (∀ j j', dst j = dst j' → j = j') →
  for_n k i body m = Ret tt m' →
  (∀ j, i <= j < i + Z.of_nat k → slot m' (dst j) = Some (g j m)) ∧
  (∀ q, (∀ j, i <= j < i + Z.of_nat k → q ≠ dst j) → slot m' q = slot m q) ∧
  (∀ j, i <= j < i + Z.of_nat k →
     ∃ m1 m2, body j m1 = Ret tt m2 ∧
              ∀ q, (∀ j', q ≠ dst j') → slot m1 q = slot m q).
Proof.
  induction k as [|k IH]; intros i m m' Hb Hg Hinj E; simpl in E.
  - inv_M. split; [intros; lia|]. split; [done|intros; lia].
  - apply bind_Ret in E as ([] & m1 & E1 & E2).
    pose proof (Hb _ _ _ E1) as H1.
    destruct (IH (i + 1) m1 m' Hb Hg Hinj E2) as (IH1 & IH2 & IH3).
    split; [|split].
    + intros j Hj. destruct (decide (j = i)) as [->|Hne].
      * rewrite IH2 by (intros j Hj' Heq; apply Hinj in Heq; lia).
        rewrite H1. by rewrite decide_True.
      * rewrite IH1 by lia. f_equal. apply Hg. intros q Hq.
        rewrite H1. by rewrite decide_False.
    + intros q Hq. rewrite IH2 by (intros j Hj; apply Hq; lia).
      rewrite H1. rewrite decide_False; [done|]. apply Hq. lia.
    + intros j Hj. destruct (decide (j = i)) as [->|Hne].
      * by exists m, m1.
      * destruct (IH3 j) as (ma & mb & Eb & Hq); [lia|].
        exists ma, mb. split; [done|]. intros q Hq'. rewrite Hq by done.
        rewrite H1. by rewrite decide_False.
Qed.

Lemma value_construct_at_slot p m m' :
  value_construct_at p m = Ret tt m' →
  ∀ q, slot m' q = if decide (q = p) then Some (Some value_init) else slot m q.
Proof.
  intros E q. unfold value_construct_at in E. inv_M. inv_heap. slot_cases.
Qed.

Lemma copy_construct_slot src dst m m' :
  copy_construct src dst m = Ret tt m' →
  is_Some (live m src) ∧
  ∀ q, slot m' q = if decide (q = dst) then Some (live m src) else slot m q.
Proof.
  intros E. unfold copy_construct in E. inv_M. inv_heap.
  match goal with X : slot m src = Some (Some ?x) |- _ =>
    assert (live m src = Some x) as -> by (by apply live_slot) end.
  split; [eauto|]. intros q. slot_cases.
Qed.

Lemma copy_assign_slot src dst m m' :
  copy_assign src dst m = Ret tt m' →
  is_Some (live m src) ∧ is_Some (live m dst) ∧
  ∀ q, slot m' q = if decide (q = dst) then Some (live m src) else slot m q.
Proof.
  intros E. unfold copy_assign in E. inv_M. inv_heap.
  repeat match goal with X : slot m _ = Some (Some ?x) |- _ =>
    apply live_slot in X end.
  match goal with X : live m src = Some _ |- _ => rewrite X end.
  split; [eauto|]. split; [eauto|]. intros q. slot_cases.
Qed.

Lemma live_ext m m' p : slot m' p = slot m p → live m' p = live m p.
Proof. unfold live. by intros ->. Qed.

(** [uninitialized_value_construct_n] *)
Lemma uninitialized_value_construct_n_slots b o n m m' :
  uninitialized_value_construct_n (Ptr b o) n m = Ret tt m' →
  (∀ j, 0 <= j < n → slot m' (Ptr b (o + j)) = Some (Some value_init)) ∧
  (∀ q, (∀ j, 0 <= j < n → q ≠ Ptr b (o + j)) → slot m' q = slot m q).
Proof.
  unfold uninitialized_value_construct_n. intros E.
  apply (for_n_writes (fun j => Ptr b (o + j)) (fun _ _ => Some value_init)) in E.
  - destruct E as (H1 & H2 & _). split.
    + intros j Hj. apply H1. lia.
    + intros q Hq. apply H2. intros j Hj. apply Hq. lia.
  - intros j m1 m2 E1%on_exception_Ret. by apply value_construct_at_slot.
  - done.
  - intros j j' [=]. lia.
Qed.

(** [destroy_n]: every slot of the range is raw afterwards. *)
Lemma destroy_n_raw b o n m m' :
  destroy_n (Ptr b o) n m = Ret tt m' →
  (∀ j, 0 <= j < n → slot m' (Ptr b (o + j)) = Some None) ∧
  (∀ q, (∀ j, 0 <= j < n → q ≠ Ptr b (o + j)) → slot m' q = slot m q).
Proof.
  unfold destroy_n. intros E.
  apply (for_n_writes (fun j => Ptr b (o + j)) (fun _ _ => None)) in E.
  - destruct E as (H1 & H2 & _). split.
    + intros j Hj. apply H1. lia.
    + intros q Hq. apply H2. intros j Hj. apply Hq. lia.
  - intros j m1 m2 E1. by apply destroy_at_slot.
  - done.
  - intros j j' [=]. lia.
Qed.

(** [uninitialized_copy_n] into another block: the copies are there
    and the sources are as they were. *)
Lemma uninitialized_copy_n_slots sb so n db do_ m m' :
  sb ≠ db →
  uninitialized_copy_n (Ptr sb so) n (Ptr db do_) m = Ret tt m' →
  (∀ j, 0 <= j < n →
     is_Some (live m (Ptr sb (so + j))) ∧
     slot m' (Ptr db (do_ + j)) = Some (live m (Ptr sb (so + j)))) ∧
  (∀ q, (∀ j, 0 <= j < n → q ≠ Ptr db (do_ + j)) → slot m' q = slot m q).
Proof.
  unfold uninitialized_copy_n. intros Hne E.
  apply (for_n_writes (fun j => Ptr db (do_ + j))
           (fun j m0 => live m0 (Ptr sb (so + j)))) in E.
  - destruct E as (H1 & H2 & H3). split.
    + intros j Hj. split; [|apply H1; lia].
      destruct (H3 j) as (m1 & m2 & E1 & Hq); [lia|].
      apply on_exception_Ret, copy_construct_slot in E1 as [Hl _].
      cbn [ptr_add] in Hl. unfold live in *.
      rewrite Hq in Hl; [done|]. intros j'. congruence.
    + intros q Hq. apply H2. intros j Hj. apply Hq. lia.
  - intros j m1 m2 E1%on_exception_Ret. by apply copy_construct_slot in E1 as [_ ?].
  - intros j m1 m2 Hq. apply live_ext, Hq. intros j'. congruence.
  - intros j j' [=]. lia.
Qed.


(** *** Construction into a fresh block *)

(** A block allocated for [n] elements and filled with the [n]
    elements of [l] makes a well-formed vector with these elements. *)
Lemma filled_block n m d m1 m2 (l : list T) :
  in_size_t n →
  RawMemory_ctor n m = Ret d m1 →
  same_shape T m1 m2 →
  (buffer_ d = Null → heap m2 = heap m1) →
  (∀ b, buffer_ d = Ptr b 0 → outside T (fun c => c = b) m1 m2) →
  (∀ b j, buffer_ d = Ptr b 0 → 0 <= j < n →
          ∃ x, slot m2 (Ptr b j) = Some (Some x) ∧ l !! Z.to_nat j = Some x) →
  length l = Z.to_nat n →
  capacity_ d = n ∧ wf m2 (mkVector d n) ∧
  contents m2 (mkVector d n) = Some l ∧
  (buffer_ d = Null ∨ ∃ nb, buffer_ d = Ptr nb 0 ∧ heap m !! nb = None) ∧
  (∀ c, is_Some (heap m !! c) → heap m2 !! c = heap m !! c).
Proof.
  intros Hn Ec Hsh Hnull Hout Hslots Hlen.
  apply RawMemory_ctor_Ret in Ec as (Hc & [(Hn0 & Hbuf & ->)|(Hn0 & nb & Hbuf & Hf & ->)]).
  - split; [done|]. rewrite Hn0 in *.
    split; [|split; [|split; [by left|]]].
    + split; [split; simpl; [done|by rewrite Hc]|].
      split; [unfold invariant; simpl; lia|].
      simpl. by rewrite Hbuf.
    + apply contents_intro; [done|]. simpl. intros; lia.
    + intros c _. by rewrite Hnull.
  - set (L := Z.to_nat (wrap (n * sizeof) / sizeof)) in *.
    set (m1 := set_heap <[nb := replicate L None]> m) in *.
    assert (length <$> heap m2 !! nb = Some L) as Hlen2.
    { rewrite (Hsh nb). unfold m1. cbn [heap set_heap].
      rewrite lookup_insert_eq. simpl. by rewrite length_replicate. }
    assert (Z.of_nat L = n) as HL.
    { destruct (Hslots nb (n - 1) Hbuf) as (x & (_ & blk & Hblk & Hx)%slot_Ptr & _);
        [unfold in_size_t in *; lia|].
      apply lookup_lt_Some in Hx. rewrite Hblk in Hlen2. injection Hlen2 as Hlen2.
      pose proof sizeof_pos.
      assert (0 <= wrap (n * sizeof) / sizeof)
        by (apply Z.div_pos; [apply wrap_range|lia]).
      unfold L in *. rewrite Z2Nat.id in * by done.
      apply (alloc_exact n n); unfold in_size_t in *; lia. }
    split; [done|]. split; [|split; [|split; [right; eauto|]]].
    + apply (wf_intro _ _ nb); cbn [data_ buffer_ size_ capacity_]; try done.
      * split; simpl; [done|by rewrite Hc].
      * unfold invariant. simpl. unfold in_size_t in *. lia.
      * rewrite Hlen2. f_equal. lia.
      * intros j Hj. destruct (Hslots nb j Hbuf Hj) as (x & Hx & _).
        unfold live. rewrite Hx. by eexists.
      * intros j Hj. lia.
    + apply contents_intro; [done|]. cbn [data_ buffer_ size_ capacity_].
      rewrite Hbuf. intros j Hj. cbn [ptr_add]. rewrite Z.add_0_l.
      destruct (Hslots nb j Hbuf Hj) as (x & Hx & ->). by apply live_slot.
    + intros c [blk Hblk]. rewrite (Hout nb Hbuf c) by congruence.
      unfold m1. cbn [heap set_heap]. apply lookup_insert_ne. congruence.
Qed.

Lemma uninitialized_value_construct_n_0 p m :
  uninitialized_value_construct_n p 0 m = Ret tt m.
Proof. done. Qed.

Lemma Vector_sized_spec this n m m' :
  in_size_t n →
  Vector_sized this n m = Ret tt m' →
  ∃ d, vecs m' = <[this := mkVector d n]> (vecs m) ∧
       capacity_ d = n ∧ wf m' (mkVector d n) ∧
       contents m' (mkVector d n) = Some (replicate (Z.to_nat n) value_init) ∧
       (buffer_ d = Null ∨ ∃ nb, buffer_ d = Ptr nb 0 ∧ heap m !! nb = None) ∧
       (∀ c, is_Some (heap m !! c) → heap m' !! c = heap m !! c).
Proof.
  intros Hn E. unfold Vector_sized in E. inv_M.
  match goal with
  | E1 : RawMemory_ctor _ _ = Ret ?d ?m1,
    E2 : uninitialized_value_construct_n _ _ _ = Ret _ ?m2 |- _ =>
      rename E1 into Ec; rename E2 into Eu; rename d into d0;
      rename m1 into ma; rename m2 into mb
  end.
  assert (vecs mb = vecs m) as Hvb by (frame_vecs; congruence).
  exists d0. cbn [vecs set_vecs]. rewrite Hvb. split; [done|].
  assert (same_shape T ma mb) as Hsh
    by (eapply (respects_Ret (same_shape T)); [|exact Eu]; solve_respects).
  unfold GetAddress in Eu.
  destruct (filled_block n m d0 ma mb (replicate (Z.to_nat n) value_init)
              Hn Ec Hsh) as (Hc & Hwf & Hcont & Hnew & Hframe).
  - intros Hnull. rewrite Hnull in Eu.
    apply RawMemory_ctor_Ret in Ec as (_ & [(-> & _ & _)|(_ & nb & ? & _)]);
      [|congruence].
    rewrite uninitialized_value_construct_n_0 in Eu. by simplify_eq.
  - intros b Hb. rewrite Hb in Eu.
    eapply (respects_Ret (outside T _)); [|exact Eu]. solve_outside.
  - intros b j Hb Hj. rewrite Hb in Eu.
    apply uninitialized_value_construct_n_slots in Eu as [H1 _].
    exists value_init. split; [by rewrite <- (H1 j Hj), Z.add_0_l|].
    apply lookup_replicate_2. lia.
  - by rewrite length_replicate.
  - split; [done|]. split; [|split; [|done]].
    + by apply (wf_frame mb).
    + by rewrite <- Hcont.
Qed.

Lemma Vector_copy_spec this other m m' o l :
  vecs m !! other = Some o → wf m o → contents m o = Some l →
  Vector_copy this other m = Ret tt m' →
  ∃ d, vecs m' = <[this := mkVector d (size_ o)]> (vecs m) ∧
       capacity_ d = size_ o ∧ wf m' (mkVector d (size_ o)) ∧
       contents m' (mkVector d (size_ o)) = Some l ∧
       (buffer_ d = Null ∨ ∃ nb, buffer_ d = Ptr nb 0 ∧ heap m !! nb = None) ∧
       (∀ c, is_Some (heap m !! c) → heap m' !! c = heap m !! c).
Proof.
  intros Ho Hwf Hl E. unfold Vector_copy in E. inv_M.
  pose proof Hwf as ([Hsr _] & [Hs0 _] & _).
  destruct (contents_elim _ _ _ Hl) as [Hlen Hlk].
  match goal with
  | E1 : RawMemory_ctor _ _ = Ret ?d ?m1,
    E2 : uninitialized_copy_n _ _ _ _ = Ret _ ?m2 |- _ =>
      rename E1 into Ec; rename E2 into Eu; rename d into d0;
      rename m1 into ma; rename m2 into mb
  end.
  assert (vecs mb = vecs m) as Hvb by (frame_vecs; congruence).
  exists d0. cbn [vecs set_vecs]. rewrite Hvb. split; [done|].
  assert (same_shape T ma mb) as Hsh
    by (eapply (respects_Ret (same_shape T)); [|exact Eu]; solve_respects).
  unfold GetAddress in Eu.
  destruct (filled_block (size_ o) m d0 ma mb l Hsr Ec Hsh)
    as (Hc & Hwf' & Hcont & Hnew & Hframe).
  - intros Hnull. rewrite Hnull in Eu.
    apply RawMemory_ctor_Ret in Ec as (_ & [(Hz & _ & _)|(_ & nb & ? & _)]);
      [|congruence].
    rewrite Hz in Eu. unfold uninitialized_copy_n in Eu. simpl in Eu.
    by inv_M.
  - intros b Hb. rewrite Hb in Eu.
    eapply (respects_Ret (outside T _)); [|exact Eu]. solve_outside.
  - intros b j Hb Hj. rewrite Hb in Eu.
    destruct (wf_buffer _ _ Hwf) as [(_ & Hz & _)|(ob & Hob & Hex)]; [lia|].
    apply RawMemory_ctor_Ret in Ec as (_ & [(_ & ? & _)|(_ & nb & Hnb & Hf & ->)]);
      [congruence|].
    assert (nb = b) as -> by congruence.
    assert (ob ≠ b) as Hne by (destruct Hex; congruence).
    rewrite Hob in Eu.
    apply uninitialized_copy_n_slots in Eu as [H1 _]; [|done].
    destruct (H1 j Hj) as [[x Hx] Hd]. rewrite !Z.add_0_l in *.
    exists x. rewrite Hd, Hx. split; [done|].
    rewrite <- Hlk by done. rewrite Hob. cbn [ptr_add]. rewrite Z.add_0_l.
    rewrite <- Hx. unfold live. by rewrite slot_set_heap_insert.
  - done.
  - split; [done|]. split; [|split; [|done]].
    + by apply (wf_frame mb).
    + by rewrite <- Hcont.
Qed.


(** *** Reserve and Resize *)

Lemma RawMemory_dtor_heap b m m' :
  RawMemory_dtor (mkRawMemory (Ptr b 0) 0) m = Ret tt m' →
  heap m' = delete b (heap m) ∧ vecs m' = vecs m.
Proof.
  unfold RawMemory_dtor, Deallocate, operator_delete. simpl.
  destruct (heap m !! b); [|done]. by intros [= <-].
Qed.

(** A growing [Reserve]: the new block, slot by slot, and what became
    of the old one *)
Lemma Reserve_block this n m m' v :
  vecs m !! this = Some v → wf m v →
  capacity_ (data_ v) < n →
  Reserve this n m = Ret tt m' →
  ∃ nb,
    heap m !! nb = None ∧
    vecs m' = <[this := mkVector (mkRawMemory (Ptr nb 0) n) (size_ v)]> (vecs m) ∧
    length <$> heap m' !! nb = Some (Z.to_nat (wrap (n * sizeof) / sizeof)) ∧
    (∀ k, 0 <= k < size_ v →
       live m' (Ptr nb k) = live m (buffer_ (data_ v) +p k)) ∧
    (∀ k, size_ v <= k < wrap (n * sizeof) / sizeof →
       slot m' (Ptr nb k) = Some None) ∧
    (∀ ob o, buffer_ (data_ v) = Ptr ob o → heap m' !! ob = None) ∧
    (∀ c, is_Some (heap m !! c) → (∀ o, buffer_ (data_ v) ≠ Ptr c o) →
          heap m' !! c = heap m !! c).
Proof.
  intros Hv Hwf Hlt E.
  pose proof Hwf as ([_ Hcr] & [Hs0 Hsc] & _).
  unfold Reserve, RawMemory_Capacity in E. inv_M; [lia|]. inv_raw.
  match goal with X : RawMemory_ctor _ _ = Ret ?nd _ |- _ =>
    apply RawMemory_ctor_Ret in X as (Hc & [(Hn0 & _)|(_ & nb & Hbuf & Hf & ->)]) end;
    [unfold in_size_t in *; lia|].
  unfold GetAddress in *. rewrite Hbuf in *.
  match goal with
  | E1 : relocate _ _ _ _ = Ret _ ?m2, E2 : destroy_n _ _ ?m2 = Ret _ ?m3,
    E3 : RawMemory_dtor _ _ = _ |- _ =>
      rename E1 into Er; rename E2 into Ed; rename E3 into Ef;
      rename m2 into mr; rename m3 into md
  end.
  assert (vecs md = vecs m) as Hvd
    by (frame_vecs; cbn [vecs set_heap] in *; congruence).
  match goal with X : vecs md !! this = Some ?x |- _ =>
    rewrite Hvd, Hv in X; injection X as <- end.
  assert (r = mkRawMemory (Ptr nb 0) n) as ->
    by (destruct r; simpl in *; by subst).
  set (L := Z.to_nat (wrap (n * sizeof) / sizeof)) in *.
  set (m1 := set_heap <[nb := replicate L None]> m) in *.
  pose proof sizeof_pos.
  assert (0 <= wrap (n * sizeof) / sizeof)
    by (apply Z.div_pos; [apply wrap_range|lia]).
  exists nb. split; [done|].
  destruct (wf_buffer _ _ Hwf) as [(Hnull & Hz & _)|(ob & Hob & [oblk Hoblk])].
  - (* nothing to relocate *)
    rewrite Hnull, Hz in *. rewrite relocate_0 in Er. rewrite destroy_n_0 in Ed.
    unfold RawMemory_dtor, Deallocate, operator_delete in Ef. rewrite Hnull in Ef.
    simplify_eq. cbn [vecs heap set_vecs set_heap].
    split; [done|]. split; [|split; [intros; lia|split; [|split; [done|]]]].
    + rewrite lookup_insert_eq. simpl. by rewrite length_replicate.
    + intros k Hk.
      etrans; [apply (slot_same_heap
                 (set_heap <[nb := replicate (Z.to_nat (wrap (n * sizeof) / sizeof))
                                     None]> m)); done|].
      rewrite slot_fresh_block. case_decide; [done|lia].
    + intros c [blk Hblk] _. apply lookup_insert_ne. congruence.
  - assert (ob ≠ nb) as Hne by congruence. rewrite Hob in *.
    set (P := fun c0 : nat => c0 = nb ∨ c0 = ob).
    frame_shape. frame_outside P.
    unfold RawMemory_dtor, Deallocate, operator_delete in Ef. rewrite Hob in Ef.
    simpl in Ef. cbn [heap set_vecs] in Ef.
    destruct (heap md !! ob) as [oblk2|] eqn:Hoblk2; [|done].
    injection Ef as <-. cbn [vecs heap set_vecs set_heap]. rewrite Hvd.
    apply relocate_slots in Er as (A & B & C); [|done].
    pose proof (destroy_n_slots _ _ _ _ Ed) as D. cbn [ptr_add] in D.
    assert (∀ k vs, slot (set_heap (delete ob) (set_vecs vs md)) (Ptr nb k)
                    = slot md (Ptr nb k)) as Hslot.
    { intros k vs. unfold slot. cbn [heap set_heap set_vecs].
      by rewrite lookup_delete_ne. }
    split; [done|]. split; [|split; [|split; [|split]]].
    + rewrite lookup_delete_ne by done. shape_chain nb. unfold m1.
      cbn [heap set_heap]. rewrite lookup_insert_eq. simpl.
      by rewrite length_replicate.
    + intros k Hk. unfold live. rewrite Hslot.
      rewrite D by (intros; congruence).
      destruct (A k Hk) as (x & Hx & Hx2). rewrite !Z.add_0_l in *.
      rewrite Hx2. unfold m1 in Hx. rewrite slot_set_heap_insert in Hx by done.
      cbn [ptr_add]. rewrite Z.add_0_l. by rewrite Hx.
    + intros k Hk. rewrite Hslot. rewrite D by (intros; congruence).
      rewrite B by (try done; lia). unfold m1. rewrite slot_fresh_block.
      case_decide; [done|lia].
    + intros ob2 o [= <- <-]. apply lookup_delete_eq.
    + intros c [blk Hblk] Hcb.
      assert (c ≠ ob) as Hc2 by (intros ->; by eapply Hcb).
      rewrite lookup_delete_ne by done.
      assert (¬ P c) as HP by (intros [->| ->]; congruence).
      outside_chain c. unfold m1. cbn [heap set_heap].
      apply lookup_insert_ne. congruence.
Qed.


Lemma updates_refl this v m : vecs m !! this = Some v → updates this v v m m.
Proof.
  intros Hv. split; [by rewrite insert_id|]. split; [by left|done].
Qed.

Lemma Reserve_spec this n m m' v l :
  vecs m !! this = Some v → wf m v → contents m v = Some l →
  in_size_t n → n * sizeof < size_t_modulus →
  Reserve this n m = Ret tt m' →
  ∃ v', updates this v v' m m' ∧ wf m' v' ∧
        size_ v' = size_ v ∧
        capacity_ (data_ v') = Z.max n (capacity_ (data_ v)) ∧
        contents m' v' = Some l.
Proof.
  intros Hv Hwf Hl Hn Hno E.
  pose proof Hwf as ([Hsr Hcr] & [Hs0 Hsc] & _).
  destruct (decide (n <= capacity_ (data_ v))) as [Hle|Hgt].
  - rewrite (Reserve_noop _ _ _ _ Hv Hle) in E. injection E as <-.
    exists v. split; [by apply updates_refl|]. split; [done|].
    split; [done|]. split; [lia|done].
  - destruct (Reserve_block this n m m' v Hv Hwf ltac:(lia) E)
      as (nb & Hf & Hm' & Hlen & Hlive & Hraw & Hfree & Hframe).
    pose proof sizeof_pos.
    assert (wrap (n * sizeof) / sizeof = n) as HL.
    { rewrite wrap_small by (unfold in_size_t in *; nia). by apply Z.div_mul, Z.neq_sym, Z.lt_neq. }
    rewrite HL in *.
    destruct (contents_elim _ _ _ Hl) as [Hll Hlk].
    exists (mkVector (mkRawMemory (Ptr nb 0) n) (size_ v)).
    cbn [data_ buffer_ size_ capacity_].
    split; [|split; [|split; [done|split; [lia|]]]].
    + split; [done|]. split; [right; right; eauto|done].
    + apply (wf_intro _ _ nb); cbn [data_ buffer_ size_ capacity_].
      * by split.
      * unfold invariant. simpl. lia.
      * done.
      * done.
      * intros k Hk. rewrite Hlive, Hlk by done. apply lookup_lt_is_Some_2. lia.
      * done.
    + apply contents_intro; [done|]. cbn [data_ buffer_ size_ capacity_ ptr_add].
      intros k Hk. rewrite Z.add_0_l. by rewrite Hlive, Hlk.
Qed.

(** Filling the raw slots from [size] up to [n] with [T()] *)
Lemma fill_tail b size n len (l : list T) m m' :
  0 <= size < n →
  length l = Z.to_nat size →
  length <$> heap m !! b = Some len →
  (∀ k, 0 <= k < size → live m (Ptr b k) = l !! Z.to_nat k) →
  (∀ k, size <= k < Z.of_nat len → slot m (Ptr b k) = Some None) →
  uninitialized_value_construct_n (Ptr b size) (n - size) m = Ret tt m' →
  n <= Z.of_nat len ∧
  length <$> heap m' !! b = Some len ∧
  (∀ k, 0 <= k < n →
     live m' (Ptr b k) =
       (l ++ replicate (Z.to_nat (n - size)) value_init) !! Z.to_nat k) ∧
  (∀ k, n <= k < Z.of_nat len → slot m' (Ptr b k) = Some None) ∧
  (∀ c, c ≠ b → heap m' !! c = heap m !! c).
Proof.
  intros Hsn Hll Hlen Hlive Hraw E.
  assert (same_shape T m m') as Hsh
    by (eapply (respects_Ret (same_shape T)); [|exact E]; solve_respects).
  assert (outside T (fun c => c = b) m m') as Ho
    by (eapply (respects_Ret (outside T _)); [|exact E]; solve_outside).
  apply uninitialized_value_construct_n_slots in E as [H1 H2].
  assert (n <= Z.of_nat len) as Hroom.
  { specialize (H1 (n - size - 1) ltac:(lia)).
    apply slot_Ptr in H1 as (_ & blk & Hblk & Hx). apply lookup_lt_Some in Hx.
    specialize (Hsh b). rewrite Hblk, Hlen in Hsh. injection Hsh as Hsh. lia. }
  split; [done|]. split; [by rewrite (Hsh b)|]. split; [|split].
  - intros k Hk. destruct (decide (k < size)).
    + rewrite lookup_app_l by lia. rewrite <- Hlive by lia.
      apply live_ext, H2. intros j Hj [=]. lia.
    + rewrite lookup_app_r by lia. specialize (H1 (k - size) ltac:(lia)).
      replace (size + (k - size)) with k in H1 by lia.
      unfold live. rewrite H1. simpl. symmetry. apply lookup_replicate_2. lia.
  - intros k Hk. rewrite H2 by (intros j Hj [=]; lia). apply Hraw. lia.
  - intros c Hc. by apply Ho.
Qed.

(** The second half of a growing [Resize], on the vector as [Reserve]
    left it *)
Lemma Resize_fill this b c size n len (l : list T) m m' :
  vecs m !! this = Some (mkVector (mkRawMemory (Ptr b 0) c) size) →
  in_size_t n → in_size_t c → 0 <= size < n → n <= c →
  length l = Z.to_nat size →
  length <$> heap m !! b = Some len →
  (n <= Z.of_nat len → Z.of_nat len = c) →
  (∀ k, 0 <= k < size → live m (Ptr b k) = l !! Z.to_nat k) →
  (∀ k, size <= k < Z.of_nat len → slot m (Ptr b k) = Some None) →
  (let* v := get this in
   let it := GetAddress (data_ v) +p size_ v in
   uninitialized_value_construct_n it (wrap (n - size_ v)) >>
   set_size this n) m = Ret tt m' →
  let v' := mkVector (mkRawMemory (Ptr b 0) c) n in
  vecs m' = <[this := v']> (vecs m) ∧ wf m' v' ∧
  contents m' v' = Some (l ++ replicate (Z.to_nat (n - size)) value_init) ∧
  (∀ c', c' ≠ b → heap m' !! c' = heap m !! c').
Proof.
  intros Hv Hn Hc Hsn Hnc Hll Hlen Hexact Hlive Hraw E v'. subst v'.
  rewrite (run_bind _ _ _ _ _ (get_Some _ _ _ Hv)) in E.
  cbn [data_ buffer_ size_ capacity_ GetAddress ptr_add] in E.
  rewrite Z.add_0_l in E.
  rewrite (wrap_small (n - size)) in E by (unfold in_size_t in *; lia).
  apply bind_Ret in E as ([] & mf & Ef & Es).
  assert (vecs mf = vecs m) as Hvf by (by frame_vecs).
  apply set_size_Ret in Es as (v0 & Hv0 & ->).
  rewrite Hvf, Hv in Hv0. injection Hv0 as <-.
  destruct (fill_tail _ _ _ _ _ _ _ Hsn Hll Hlen Hlive Hraw Ef)
    as (Hroom & Hlen' & Hlive' & Hraw' & Hframe).
  specialize (Hexact Hroom).
  cbn [vecs set_vecs heap data_ size_]. rewrite Hvf.
  split; [done|]. split; [|split; [|done]].
  - apply (wf_intro _ _ b); cbn [data_ buffer_ size_ capacity_].
    + by split.
    + unfold invariant. simpl. lia.
    + done.
    + cbn [heap set_vecs]. rewrite Hlen'. f_equal. lia.
    + intros k Hk. unfold live. rewrite (slot_same_heap mf) by done.
      fold (live mf (Ptr b k)). rewrite Hlive' by done.
      apply lookup_lt_is_Some_2. rewrite length_app, length_replicate. lia.
    + intros k Hk. rewrite (slot_same_heap mf) by done. apply Hraw'. lia.
  - apply contents_intro; cbn [data_ buffer_ size_ capacity_ ptr_add].
    + rewrite length_app, length_replicate. lia.
    + intros k Hk. rewrite Z.add_0_l. unfold live.
      rewrite (slot_same_heap mf) by done. by apply Hlive'.
Qed.

Lemma Resize_spec this n m m' v l :
  vecs m !! this = Some v → wf m v → contents m v = Some l →
  in_size_t n →
  Resize this n m = Ret tt m' →
  ∃ v', updates this v v' m m' ∧ wf m' v' ∧
        size_ v' = n ∧
        capacity_ (data_ v') = Z.max n (capacity_ (data_ v)) ∧
        contents m' v' =
          Some (take (Z.to_nat n) l
                  ++ replicate (Z.to_nat (n - size_ v)) value_init).
Proof.
  intros Hv Hwf Hl Hn E.
  pose proof Hwf as ([Hsr Hcr] & [Hs0 Hsc] & _).
  destruct (contents_elim _ _ _ Hl) as [Hll Hlk].
  unfold Resize in E. rewrite (run_bind _ _ _ _ _ (get_Some _ _ _ Hv)) in E.
  case_decide as Heq.
  - (* the size asked for is the size *)
    injection E as <-. subst n. exists v.
    split; [by apply updates_refl|]. split; [done|]. split; [done|].
    split; [lia|]. rewrite Z.sub_diag. simpl. rewrite app_nil_r.
    by rewrite take_ge by lia.
  - destruct (Z.ltb_spec n (size_ v)) as [Hlt|Hge].
    + (* shrink *)
      destruct (wf_buffer _ _ Hwf) as [(_ & Hz & _)|(b & Hb & _)];
        [unfold in_size_t in *; lia|].
      destruct (wf_elim _ _ _ _ Hwf Hb) as (_ & Hblen & _ & Hraw).
      unfold GetAddress in E. rewrite Hb in E. cbn [ptr_add] in E.
      rewrite Z.add_0_l in E.
      rewrite (wrap_small (size_ v - n)) in E by (unfold in_size_t in *; lia).
      apply bind_Ret in E as ([] & md & Ed & Es).
      assert (vecs md = vecs m) as Hvd by (by frame_vecs).
      assert (same_shape T m md) as Hsh
        by (eapply (respects_Ret (same_shape T)); [|exact Ed]; solve_respects).
      assert (outside T (fun c => c = b) m md) as Ho
        by (eapply (respects_Ret (outside T _)); [|exact Ed]; solve_outside).
      apply set_size_Ret in Es as (v0 & Hv0 & ->).
      rewrite Hvd, Hv in Hv0. injection Hv0 as <-.
      apply destroy_n_raw in Ed as [D1 D2].
      exists (mkVector (data_ v) n). cbn [data_ size_].
      assert (∀ k, 0 <= k < n →
                live (set_vecs <[this := mkVector (data_ v) n]> md) (Ptr b k)
                = l !! Z.to_nat k) as Hall.
      { intros k Hk. unfold live. rewrite (slot_same_heap md) by done.
        rewrite D2 by (intros j Hj [=]; lia).
        rewrite <- Hlk by lia. rewrite Hb. cbn [ptr_add]. by rewrite Z.add_0_l. }
      split; [|split; [|split; [done|split; [lia|]]]].
      * split; [cbn [vecs set_vecs]; by rewrite Hvd|].
        split; [by left|]. intros c _ Hc.
        cbn [heap set_vecs]. apply Ho. intros ->. by eapply Hc.
      * apply (wf_intro _ _ b); cbn [data_ buffer_ size_ capacity_].
        -- by split.
        -- unfold invariant, in_size_t in *. simpl. lia.
        -- done.
        -- cbn [heap set_vecs]. by rewrite (Hsh b).
        -- intros k Hk. rewrite Hall by done. apply lookup_lt_is_Some_2. lia.
        -- intros k Hk. rewrite (slot_same_heap md) by done.
           destruct (decide (k < size_ v)).
           ++ specialize (D1 (k - n) ltac:(lia)).
              by replace (n + (k - n)) with k in D1 by lia.
           ++ rewrite D2 by (intros j Hj [=]; lia). apply Hraw. lia.
      * replace (Z.to_nat (n - size_ v)) with 0%nat by lia. simpl.
        rewrite app_nil_r.
        apply contents_intro; cbn [data_ buffer_ size_ capacity_].
        -- rewrite length_take. unfold in_size_t in *. lia.
        -- intros k Hk. rewrite Hb. cbn [ptr_add]. rewrite Z.add_0_l.
           rewrite Hall by done. symmetry. apply lookup_take_lt. lia.
    + (* grow *)
      apply bind_Ret in E as ([] & mr & Er & E).
      rewrite take_ge by lia.
      destruct (decide (n <= capacity_ (data_ v))) as [Hle|Hgt].
      * (* within the capacity *)
        rewrite (Reserve_noop _ _ _ _ Hv Hle) in Er. injection Er as <-.
        destruct (wf_buffer _ _ Hwf) as [(_ & _ & Hz)|(b & Hb & _)]; [lia|].
        destruct (wf_elim _ _ _ _ Hwf Hb) as (_ & Hblen & _ & Hraw).
        assert (v = mkVector (mkRawMemory (Ptr b 0) (capacity_ (data_ v))) (size_ v))
          as Hveq by (destruct v as [[??]?]; simpl in *; by subst).
        rewrite Hveq in Hv.
        destruct (Resize_fill this b (capacity_ (data_ v)) (size_ v) n
                    (Z.to_nat (capacity_ (data_ v))) l m m' Hv Hn Hcr
                    ltac:(lia) Hle Hll Hblen ltac:(lia))
          as (Hm' & Hwf' & Hc' & Hframe); [| |done|].
        { intros k Hk. rewrite <- Hlk by done. rewrite Hb. cbn [ptr_add].
          by rewrite Z.add_0_l. }
        { intros k Hk. apply Hraw. lia. }
        rewrite <- Hveq in Hv.
        eexists. split; [|split; [exact Hwf'|split; [done|split; [simpl; lia|done]]]].
        split; [done|]. split; [left; simpl; by rewrite Hb|].
        intros c _ Hc. apply Hframe. intros ->. by eapply Hc.
      * (* into a new block *)
        destruct (Reserve_block this n m mr v Hv Hwf ltac:(lia) Er)
          as (nb & Hf & Hmr & Hlen & Hlive & Hraw & Hfree & Hframe).
        pose proof sizeof_pos.
        assert (0 <= wrap (n * sizeof) / sizeof)
          by (apply Z.div_pos; [apply wrap_range|lia]).
        assert (vecs mr !! this
                = Some (mkVector (mkRawMemory (Ptr nb 0) n) (size_ v))) as Hvr
          by (rewrite Hmr; apply lookup_insert_eq).
        assert (n <= Z.of_nat (Z.to_nat (wrap (n * sizeof) / sizeof)) →
                Z.of_nat (Z.to_nat (wrap (n * sizeof) / sizeof)) = n) as Hexact.
        { intros Hroom. rewrite Z2Nat.id in * by done.
          apply (alloc_exact n n); unfold in_size_t in *; lia. }
        assert (∀ k, 0 <= k < size_ v → live mr (Ptr nb k) = l !! Z.to_nat k)
          as Hlive2 by (intros k Hk; by rewrite Hlive, Hlk).
        assert (∀ k, size_ v <= k < Z.of_nat (Z.to_nat (wrap (n * sizeof) / sizeof)) →
                  slot mr (Ptr nb k) = Some None)
          as Hraw2 by (intros k Hk; apply Hraw; lia).
        destruct (Resize_fill this nb n (size_ v) n
                    (Z.to_nat (wrap (n * sizeof) / sizeof)) l mr m'
                    Hvr Hn Hn ltac:(lia) ltac:(lia) Hll Hlen Hexact Hlive2 Hraw2 E)
          as (Hm' & Hwf' & Hc' & Hframe').
        eexists. split; [|split; [exact Hwf'|split; [done|split; [simpl; lia|done]]]].
        split; [|split].
        -- rewrite Hm', Hmr. by rewrite insert_insert_eq.
        -- right. right. eauto.
        -- intros c Hc Hcb. rewrite Hframe' by (destruct Hc; congruence).
           by apply Hframe.
Qed.


(** X7: [Vector(size_t n)] with [n = 0] is [Vector()]: nothing is
    allocated.  For any [n], when it returns the new vector is well
    formed, its size and its capacity are [n], and its elements are
    [n] copies of [T()]. *)
Theorem Vector_sized_fills this n m :
  in_size_t n →
  (n = 0 → Vector_sized this n m = Vector_default this m) ∧
  (∀ m', Vector_sized this n m = Ret tt m' →
     ∃ v', vecs m' !! this = Some v' ∧ wf m' v' ∧
           size_ v' = n ∧ capacity_ (data_ v') = n ∧
           contents m' v' = Some (replicate (Z.to_nat n) value_init)).
Proof.
  intros Hn. split; [by intros ->|]. intros m' E.
  destruct (Vector_sized_spec _ _ _ _ Hn E) as (d & Hm' & Hc & Hwf & Hcont & _).
  eexists. split; [rewrite Hm'; apply lookup_insert_eq|done].
Qed.

(** X8: the copy constructor, when it returns, has built a well-formed
    vector with the elements of the source, whose size and capacity are
    the size of the source, in a block of its own; the source is as it
    was. *)
Theorem Vector_copy_copies this other m m' o l :
  this ≠ other →
  vecs m !! other = Some o → wf m o → contents m o = Some l →
  Vector_copy this other m = Ret tt m' →
  ∃ v', vecs m' !! this = Some v' ∧ wf m' v' ∧
        size_ v' = size_ o ∧ capacity_ (data_ v') = size_ o ∧
        contents m' v' = Some l ∧
        (∀ b i j, buffer_ (data_ v') = Ptr b i → buffer_ (data_ o) ≠ Ptr b j) ∧
        vecs m' !! other = Some o ∧ wf m' o ∧ contents m' o = Some l.
Proof.
  intros Hne Ho Hwf Hl E.
  destruct (Vector_copy_spec _ _ _ _ _ _ Ho Hwf Hl E)
    as (d & Hm' & Hc & Hwf' & Hcont & Hnew & Hframe).
  assert (∀ b i, buffer_ (data_ o) = Ptr b i → heap m' !! b = heap m !! b)
    as Hsame.
  { intros b i Hb. apply Hframe. by eapply wf_block_exists. }
  eexists. split; [rewrite Hm'; apply lookup_insert_eq|].
  split; [done|]. split; [done|]. split; [done|]. split; [done|].
  split; [|split; [|split]].
  - intros b i j Hb Hb'. simpl in Hb.
    destruct Hnew as [Hnull|(nb & Hnb & Hf)]; [congruence|].
    assert (b = nb) as -> by congruence.
    destruct (wf_block_exists _ _ _ _ Hwf Hb'). congruence.
  - rewrite Hm'. by rewrite lookup_insert_ne.
  - by apply (wf_frame m).
  - rewrite <- Hl. by apply contents_frame.
Qed.

(** X9: [Resize(n)] on a well-formed vector with the elements [l],
    when it returns, leaves a well-formed vector of size [n]: the first
    [n] elements of [l] when [n] is at most the old size, and [l]
    followed by copies of [T()] otherwise.  The capacity is the larger
    of [n] and the old capacity. *)
Theorem Resize_sets_size this n m m' v l :
  vecs m !! this = Some v → wf m v → contents m v = Some l →
  in_size_t n →
  Resize this n m = Ret tt m' →
  ∃ v', vecs m' !! this = Some v' ∧ wf m' v' ∧
        size_ v' = n ∧
        capacity_ (data_ v') = Z.max n (capacity_ (data_ v)) ∧
        contents m' v' =
          Some (take (Z.to_nat n) l
                  ++ replicate (Z.to_nat (n - size_ v)) value_init).
Proof.
  intros Hv Hwf Hl Hn E.
  destruct (Resize_spec _ _ _ _ _ _ Hv Hwf Hl Hn E)
    as (v' & (Hm' & _) & Hwf' & Hs & Hc & Hcont).
  exists v'. split; [rewrite Hm'; apply lookup_insert_eq|done].
Qed.

(** X10: a growing [Reserve(n)] asks [operator new] for [n * sizeof(T)]
    bytes computed in [size_t].  When the product fits, the vector is
    well formed afterwards; when it wraps around, the call can still
    return, and then the vector reports the capacity [n] over a block
    of fewer than [n] slots. *)
Theorem Reserve_allocates_modulo this n m m' v :
  vecs m !! this = Some v → wf m v → in_size_t n →
  capacity_ (data_ v) < n →
  Reserve this n m = Ret tt m' →
  ∃ v' b blk,
    vecs m' !! this = Some v' ∧ capacity_ (data_ v') = n ∧
    buffer_ (data_ v') = Ptr b 0 ∧ heap m' !! b = Some blk ∧
    Z.of_nat (length blk) = wrap (n * sizeof) / sizeof ∧
    (n * sizeof < size_t_modulus → wf m' v') ∧
    (size_t_modulus <= n * sizeof → Z.of_nat (length blk) < n ∧ ¬ wf m' v').
Proof.
  intros Hv Hwf Hn Hlt E.
  destruct (Reserve_block _ _ _ _ _ Hv Hwf Hlt E)
    as (nb & Hf & Hm' & Hlen & _).
  pose proof sizeof_pos.
  assert (0 <= wrap (n * sizeof) / sizeof)
    by (apply Z.div_pos; [apply wrap_range|lia]).
  destruct (heap m' !! nb) as [blk|] eqn:Hblk; [|done].
  injection Hlen as Hlen.
  eexists _, nb, blk. split; [rewrite Hm'; apply lookup_insert_eq|].
  split; [done|]. split; [done|]. split; [done|]. split; [lia|]. split.
  - intros Hno. destruct (wf_contents _ _ Hwf) as [l Hl].
    destruct (Reserve_spec _ _ _ _ _ _ Hv Hwf Hl Hn Hno E)
      as (v' & (Hm2 & _) & Hwf' & _).
    rewrite Hm2 in Hm'.
    assert (<[this:=v']> (vecs m) !! this
            = Some (mkVector (mkRawMemory (Ptr nb 0) n) (size_ v))) as Heq
      by (rewrite Hm'; apply lookup_insert_eq).
    rewrite lookup_insert_eq in Heq. by injection Heq as <-.
  - intros Hov.
    assert (Z.of_nat (length blk) < n) as Hshort.
    { rewrite Hlen, Z2Nat.id by done. apply Z.div_lt_upper_bound; [done|].
      pose proof (wrap_range (n * sizeof)) as [_ ?]. lia. }
    split; [done|]. intros Hwf'.
    destruct (wf_elim _ _ nb 0 Hwf' eq_refl) as (_ & Hlen' & _).
    rewrite Hblk in Hlen'. simpl in Hlen'. injection Hlen' as Hlen'. lia.
Qed.


(** *** Destruction, exchange and assignment *)

Lemma delete_outside b m m' :
  outside T (fun c => c = b) m m' → delete b (heap m') = delete b (heap m).
Proof.
  intros Ho. apply map_eq. intros c. destruct (decide (c = b)) as [->|Hne].
  - by rewrite !lookup_delete_eq.
  - rewrite !lookup_delete_ne by done. by apply Ho.
Qed.

Lemma Vector_dtor_spec this m m' v :
  vecs m !! this = Some v → wf m v →
  Vector_dtor this m = Ret tt m' →
  vecs m' = delete this (vecs m) ∧
  heap m' = match buffer_ (data_ v) with
            | Ptr b _ => delete b (heap m)
            | Null => heap m
            end ∧
  log m' = log m ++ dtors (buffer_ (data_ v)) (size_ v).
Proof.
  intros Hv Hwf E. pose proof (Vector_dtor_vecs _ _ _ E) as Hm'.
  split; [done|]. unfold Vector_dtor, forget in E. inv_M.
  match goal with
  | E1 : destroy_n _ _ _ = Ret _ ?m1, E2 : RawMemory_dtor _ _ = Ret _ ?m2 |- _ =>
      rename E1 into Ed; rename E2 into Ef; rename m1 into md; rename m2 into mf
  end.
  unfold GetAddress in *. cbn [heap log set_vecs].
  pose proof (destroy_n_log _ _ _ _ Ed) as Hlog.
  assert (log mf = log md) as ->
    by (eapply (respects_Ret (same_log T)); [|exact Ef]; solve_respects).
  split; [|done].
  destruct (wf_buffer _ _ Hwf) as [(Hnull & Hz & _)|(b & Hb & _)].
  - rewrite Hnull, Hz in *. rewrite destroy_n_0 in Ed.
    unfold RawMemory_dtor, Deallocate, operator_delete in Ef.
    rewrite Hnull in Ef. by simplify_eq.
  - rewrite Hb in *.
    assert (outside T (fun c => c = b) m md) as Ho
      by (eapply (respects_Ret (outside T _)); [|exact Ed]; solve_outside).
    unfold RawMemory_dtor, Deallocate, operator_delete in Ef. rewrite Hb in Ef.
    simpl in Ef. destruct (heap md !! b); [|done]. injection Ef as <-.
    cbn [heap set_heap]. by apply delete_outside.
Qed.

Lemma Swap_same_heap this other m m' :
  Swap this other m = Ret tt m' → heap m' = heap m ∧ log m' = log m.
Proof.
  intros E. split.
  - eapply (respects_Ret (same_heap T)); [|exact E]. unfold Swap.
    solve_respects.
  - eapply (respects_Ret (same_log T)); [|exact E]. unfold Swap.
    solve_respects.
Qed.

Lemma not_in_block src db j i :
  (∀ i, src ≠ Ptr db i) → src +p j ≠ Ptr db i.
Proof. intros Hs Heq. apply ptr_add_block in Heq as [o Ho]. by eapply Hs. Qed.

(** [copy_n] into a block that the sources are not in *)
Lemma copy_n_slots src n db do_ m it m' :
  (∀ i, src ≠ Ptr db i) → 0 <= n →
  copy_n src n (Ptr db do_) m = Ret it m' →
  it = Ptr db (do_ + n) ∧
  (∀ j, 0 <= j < n →
     is_Some (live m (src +p j)) ∧
     slot m' (Ptr db (do_ + j)) = Some (live m (src +p j))) ∧
  (∀ q, (∀ j, 0 <= j < n → q ≠ Ptr db (do_ + j)) → slot m' q = slot m q).
Proof.
  unfold copy_n. intros Hsrc Hn E. inv_M. split; [done|].
  match goal with X : for_n _ _ _ _ = _ |- _ => rename X into E end.
  apply (for_n_writes (fun j => Ptr db (do_ + j))
           (fun j m0 => live m0 (src +p j))) in E.
  - destruct E as (H1 & H2 & H3). split.
    + intros j Hj. split; [|apply H1; lia].
      destruct (H3 j) as (m1 & m2 & E1 & Hq); [lia|].
      apply copy_assign_slot in E1 as (Hl & _ & _).
      unfold live in *. rewrite Hq in Hl; [done|].
      intros j'. by apply not_in_block.
    + intros q Hq. apply H2. intros j Hj. apply Hq. lia.
  - intros j m1 m2 E1. by apply copy_assign_slot in E1 as (_ & _ & ?).
  - intros j m1 m2 Hq. apply live_ext, Hq. intros j'. by apply not_in_block.
  - intros j j' [=]. lia.
Qed.

(** [uninitialized_copy_n] into a block that the sources are not in *)
Lemma uninitialized_copy_n_into src n db do_ m m' :
  (∀ i, src ≠ Ptr db i) →
  uninitialized_copy_n src n (Ptr db do_) m = Ret tt m' →
  (∀ j, 0 <= j < n →
     is_Some (live m (src +p j)) ∧
     slot m' (Ptr db (do_ + j)) = Some (live m (src +p j))) ∧
  (∀ q, (∀ j, 0 <= j < n → q ≠ Ptr db (do_ + j)) → slot m' q = slot m q).
Proof.
  unfold uninitialized_copy_n. intros Hsrc E.
  apply (for_n_writes (fun j => Ptr db (do_ + j))
           (fun j m0 => live m0 (src +p j))) in E.
  - destruct E as (H1 & H2 & H3). split.
    + intros j Hj. split; [|apply H1; lia].
      destruct (H3 j) as (m1 & m2 & E1 & Hq); [lia|].
      apply on_exception_Ret, copy_construct_slot in E1 as [Hl _].
      unfold live in *. rewrite Hq in Hl; [done|].
      intros j'. by apply not_in_block.
    + intros q Hq. apply H2. intros j Hj. apply Hq. lia.
  - intros j m1 m2 E1%on_exception_Ret. by apply copy_construct_slot in E1 as [_ ?].
  - intros j m1 m2 Hq. apply live_ext, Hq. intros j'. by apply not_in_block.
  - intros j j' [=]. lia.
Qed.


Lemma ptr_add_add p a b : p +p a +p b = p +p (a + b).
Proof. destruct p; [done|]. simpl. f_equal. lia. Qed.

Lemma Vector_copy_assign_spec this rhs m m' t r l :
  this ≠ rhs →
  vecs m !! this = Some t → vecs m !! rhs = Some r →
  wf m t → wf m r → contents m r = Some l →
  (∀ b i j, buffer_ (data_ t) = Ptr b i → buffer_ (data_ r) ≠ Ptr b j) →
  Vector_copy_assign this rhs m = Ret tt m' →
  ∃ t', updates this t t' m m' ∧ wf m' t' ∧
        size_ t' = size_ r ∧ contents m' t' = Some l ∧
        capacity_ (data_ t') =
          if decide (capacity_ (data_ t) < capacity_ (data_ r))
          then size_ r else capacity_ (data_ t).
Proof.
  intros Hne Ht Hr Hwt Hwr Hl Hsep E.
  pose proof Hwt as ([Htsr Htcr] & [Hts0 Htsc] & _).
  pose proof Hwr as ([Hrsr Hrcr] & [Hrs0 Hrsc] & _).
  destruct (contents_elim _ _ _ Hl) as [Hll Hlk].
  unfold Vector_copy_assign, RawMemory_Capacity in E.
  case_decide; [|done].
  rewrite (run_bind _ _ _ _ _ (get_Some _ _ _ Ht)) in E.
  rewrite (run_bind _ _ _ _ _ (get_Some _ _ _ Hr)) in E.
  destruct (Z.gtb_spec (capacity_ (data_ r)) (capacity_ (data_ t))) as [Hgt|Hle].
  - (* copy and swap *)
    rewrite decide_True by lia.
    apply bind_Ret in E as (rc & m0 & En & E).
    unfold new_local in En. injection En as Hrc0 Hm0. subst rc m0.
    set (rc := fresh (dom (vecs m))) in *.
    assert (vecs m !! rc = None) as Hrc
      by (apply not_elem_of_dom; apply is_fresh).
    assert (rc ≠ this) by congruence. assert (rc ≠ rhs) by congruence.
    apply bind_Ret in E as ([] & m1 & Ec & E).
    apply bind_Ret in E as ([] & m2 & Es & Ed).
    destruct (Vector_copy_spec _ _ _ _ _ _ Hr Hwr Hl Ec)
      as (d & Hm1 & Hc & Hwf1 & Hcont1 & Hnew & Hframe1).
    pose proof (Swap_same_heap _ _ _ _ Es) as [Hh2 _].
    eapply Swap_vecs in Es;
      [| rewrite Hm1; by rewrite lookup_insert_ne
       | rewrite Hm1; apply lookup_insert_eq].
    assert (wf m2 t) as Hwt2.
    { apply (wf_frame m); [done|]. intros b o Hb. rewrite Hh2.
      apply Hframe1. exact (wf_block_exists _ _ _ _ Hwt Hb). }
    destruct (Vector_dtor_spec rc m2 m' t) as (Hm' & Hh' & _);
      [rewrite Es; apply lookup_insert_eq|done|done|].
    assert (∀ b o, buffer_ d = Ptr b o → heap m' !! b = heap m1 !! b) as Hnb.
    { intros b o Hb. destruct Hnew as [?|(nb & Hnb & Hf)]; [congruence|].
      assert (b = nb) as -> by congruence. rewrite Hh'.
      destruct (buffer_ (data_ t)) as [|tb to] eqn:Htb; [by rewrite Hh2|].
      destruct (wf_block_exists _ _ _ _ Hwt Htb).
      rewrite lookup_delete_ne by congruence. by rewrite Hh2. }
    exists (mkVector d (size_ r)). cbn [data_ size_].
    split; [|split; [|split; [done|split; [|done]]]].
    + split; [|split].
      * rewrite Hm', Es, Hm1. apply map_eq. intros k.
        rewrite lookup_delete, !lookup_insert.
        repeat case_decide; simplify_eq; done.
      * cbn [data_]. destruct Hnew as [->|Hnew]; [right; by left|].
        right. by right.
      * intros c Hex Hcb. rewrite Hh'.
        destruct (buffer_ (data_ t)) as [|tb to] eqn:Htb.
        -- rewrite Hh2. by apply Hframe1.
        -- rewrite lookup_delete_ne by (intros ->; by eapply Hcb).
           rewrite Hh2. by apply Hframe1.
    + by apply (wf_frame m1).
    + rewrite <- Hcont1. by apply contents_frame.
  - (* assign in place *)
    rewrite decide_False by lia.
    unfold GetAddress in E.
    destruct (wf_buffer _ _ Hwt) as [(Hnull & Hz & Hcz)|(tb & Htb & _)].
    { (* both vectors are empty and [*this] has no block *)
      assert (size_ r = 0) as Hrz by lia.
      rewrite Hnull, Hz, Hrz in E. unfold copy_n, uninitialized_copy_n in E.
      change (wrap (0 - 0)) with 0 in E. simpl in E.
      change (set_size this 0 m = Ret tt m') in E.
      apply set_size_Ret in E as (v0 & Hv0 & ->).
      rewrite Ht in Hv0. injection Hv0 as <-.
      exists (mkVector (data_ t) 0). cbn [data_ size_].
      split; [|split; [|split; [done|split; [|done]]]].
      - split; [done|]. split; [by left|done].
      - split; [split; simpl; [done|done]|].
        split; [unfold invariant; simpl; lia|]. simpl. by rewrite Hnull.
      - rewrite Hrz in Hll. destruct l; [|done].
        apply contents_intro; [done|]. simpl. intros; lia. }
    assert (∀ i, buffer_ (data_ r) ≠ Ptr tb i) as Hsrc
      by (intros i; by eapply Hsep).
    destruct (wf_elim _ _ _ _ Hwt Htb) as (_ & Hblen & _ & Hraw).
    rewrite Htb in E.
    enough (vecs m' = <[this := mkVector (data_ t) (size_ r)]> (vecs m) ∧
            same_shape T m m' ∧ outside T (fun c => c = tb) m m' ∧
            (∀ k, 0 <= k < size_ r →
               live m' (Ptr tb k) = live m (buffer_ (data_ r) +p k)) ∧
            (∀ k, size_ r <= k < capacity_ (data_ t) →
               slot m' (Ptr tb k) = Some None))
      as (Hm' & Hsh & Ho & Hlive & Hraw').
    { exists (mkVector (data_ t) (size_ r)). cbn [data_ size_].
      split; [|split; [|split; [done|split; [|done]]]].
      - split; [done|]. split; [by left|]. intros c _ Hc.
        apply Ho. intros ->. by eapply Hc.
      - apply (wf_intro _ _ tb); cbn [data_ buffer_ size_ capacity_].
        + by split.
        + unfold invariant. simpl. lia.
        + done.
        + by rewrite (Hsh tb).
        + intros k Hk. rewrite Hlive, Hlk by done. apply lookup_lt_is_Some_2. lia.
        + done.
      - apply contents_intro; [done|]. cbn [data_ buffer_ size_ capacity_].
        rewrite Htb. cbn [ptr_add]. intros k Hk. rewrite Z.add_0_l.
        by rewrite Hlive, Hlk. }
    destruct (Z.gtb_spec (size_ t) (size_ r)) as [Hbig|Hsmall].
    + (* more elements than [rhs]: assign, then destroy the rest *)
      apply bind_Ret in E as (it & m1 & Ec & E).
      apply bind_Ret in E as ([] & m2 & Ed & Es).
      assert (vecs m2 = vecs m) as Hv2 by (frame_vecs; congruence).
      destruct (copy_n_slots _ _ _ _ _ _ _ Hsrc Hrs0 Ec) as (-> & C1 & C2).
      set (P := fun c : nat => c = tb).
      frame_shape. frame_outside P.
      rewrite (wrap_small (size_ t - size_ r)) in Ed
        by (unfold in_size_t in *; lia).
      apply destroy_n_raw in Ed as [D1 D2].
      apply set_size_Ret in Es as (v0 & Hv0 & ->).
      rewrite Hv2, Ht in Hv0. injection Hv0 as <-.
      cbn [vecs heap set_vecs]. rewrite Hv2. split; [done|].
      split; [intros b; cbn [heap set_vecs]; by shape_chain b|].
      split; [intros c Hc; cbn [heap set_vecs]; by outside_chain c|].
      split.
      * intros k Hk. unfold live at 1. rewrite (slot_same_heap m2) by done.
        rewrite D2 by (intros j Hj [=]; lia).
        destruct (C1 k Hk) as [[x Hx] Hd]. rewrite Z.add_0_l in Hd.
        by rewrite Hd, Hx.
      * intros k Hk. rewrite (slot_same_heap m2) by done.
        destruct (decide (k < size_ t)).
        -- specialize (D1 (k - size_ r) ltac:(lia)).
           by replace (0 + size_ r + (k - size_ r)) with k in D1 by lia.
        -- rewrite D2 by (intros j Hj [=]; lia).
           rewrite C2 by (intros j Hj [=]; lia). apply Hraw. lia.
    + (* no more elements than [rhs]: assign, then copy the rest *)
      apply bind_Ret in E as (it & m1 & Ec & E).
      apply bind_Ret in E as ([] & m2 & Eu & Es).
      assert (vecs m2 = vecs m) as Hv2 by (frame_vecs; congruence).
      destruct (copy_n_slots _ _ _ _ _ _ _ Hsrc Hts0 Ec) as (-> & C1 & C2).
      set (P := fun c : nat => c = tb).
      frame_shape. frame_outside P.
      rewrite (wrap_small (size_ r - size_ t)) in Eu
        by (unfold in_size_t in *; lia).
      apply uninitialized_copy_n_into in Eu as [U1 U2];
        [|intros i; by apply not_in_block].
      apply set_size_Ret in Es as (v0 & Hv0 & ->).
      rewrite Hv2, Ht in Hv0. injection Hv0 as <-.
      cbn [vecs heap set_vecs]. rewrite Hv2. split; [done|].
      split; [intros b; cbn [heap set_vecs]; by shape_chain b|].
      split; [intros c Hc; cbn [heap set_vecs]; by outside_chain c|].
      split.
      * intros k Hk. unfold live at 1. rewrite (slot_same_heap m2) by done.
        destruct (decide (k < size_ t)).
        -- rewrite U2 by (intros j Hj [=]; lia).
           destruct (C1 k ltac:(lia)) as [[x Hx] Hd]. rewrite Z.add_0_l in Hd.
           by rewrite Hd, Hx.
        -- destruct (U1 (k - size_ t) ltac:(lia)) as [[x Hx] Hd].
           replace (0 + size_ t + (k - size_ t)) with k in Hd by lia.
           rewrite ptr_add_add in Hx, Hd.
           replace (size_ t + (k - size_ t)) with k in Hx, Hd by lia.
           rewrite Hd, Hx. simpl. rewrite <- Hx. apply live_ext, C2.
           intros j Hj. by apply not_in_block.
      * intros k Hk. rewrite (slot_same_heap m2) by done.
        rewrite U2 by (intros j Hj [=]; lia).
        rewrite C2 by (intros j Hj [=]; lia). apply Hraw. lia.
Qed.


(** X11: copy assignment between two different vectors of a sound
    store, when it returns, leaves [*this] well formed with the size
    and the elements of [rhs]; its capacity is the size of [rhs] if
    [rhs] had the larger capacity and is unchanged otherwise; [rhs] is
    as it was, and the store is sound. *)
Theorem Vector_copy_assign_copies this rhs m m' t r l :
  sound m → this ≠ rhs →
  vecs m !! this = Some t → vecs m !! rhs = Some r →
  contents m r = Some l →
  Vector_copy_assign this rhs m = Ret tt m' →
  sound m' ∧
  vecs m' !! rhs = Some r ∧ contents m' r = Some l ∧
  ∃ t', vecs m' !! this = Some t' ∧
        size_ t' = size_ r ∧ contents m' t' = Some l ∧
        capacity_ (data_ t') =
          if decide (capacity_ (data_ t) < capacity_ (data_ r))
          then size_ r else capacity_ (data_ t).
Proof.
  intros Hsound Hne Ht Hr Hl E. pose proof Hsound as [Hwf Hsep].
  pose proof (Hwf _ _ Ht) as Hwt. pose proof (Hwf _ _ Hr) as Hwr.
  simpl in Hwt, Hwr.
  assert (∀ b i j, buffer_ (data_ t) = Ptr b i → buffer_ (data_ r) ≠ Ptr b j)
    as Hapart.
  { intros b i j Hb Hb'. apply Hne. by apply (Hsep this rhs t r b i j). }
  destruct (Vector_copy_assign_spec _ _ _ _ _ _ _ Hne Ht Hr Hwt Hwr Hl Hapart E)
    as (t' & Hup & Hwt' & Hs & Hc & Hcap).
  split; [by apply (sound_update this t t' m m')|].
  destruct Hup as (Hm' & _ & Hframe).
  split; [rewrite Hm'; by rewrite lookup_insert_ne|]. split.
  - rewrite <- Hl. apply contents_frame. intros b o Hb. apply Hframe.
    + exact (wf_block_exists _ _ _ _ Hwr Hb).
    + intros o' Hb'. apply Hne. by apply (Hsep this rhs t r b o' o).
  - exists t'. split; [rewrite Hm'; apply lookup_insert_eq|done].
Qed.

(** X12: [Swap] of two vectors of the store always returns; it
    exchanges the two objects (block, capacity and size) and touches
    neither the heap nor any element, so each vector now has the
    elements of the other; a second [Swap] restores the memory. *)
Theorem Swap_exchanges this other m t o :
  vecs m !! this = Some t → vecs m !! other = Some o →
  ∃ m', Swap this other m = Ret tt m' ∧
        vecs m' = <[other := t]> (<[this := o]> (vecs m)) ∧
        heap m' = heap m ∧ log m' = log m ∧
        contents m' o = contents m o ∧ contents m' t = contents m t ∧
        Swap this other m' = Ret tt m.
Proof.
  intros Ht Ho.
  assert (∀ m0 t0 o0, vecs m0 !! this = Some t0 → vecs m0 !! other = Some o0 →
            Swap this other m0 =
              Ret tt (set_vecs (fun vs => <[other := t0]> (<[this := o0]> vs)) m0))
    as Hrun.
  { intros m0 t0 o0 Ht0 Ho0. unfold Swap.
    rewrite (run_bind _ _ _ _ _ (get_Some _ _ _ Ht0)).
    rewrite (run_bind _ _ _ _ _ (get_Some _ _ _ Ho0)).
    cbn [RawMemory_Swap].
    rewrite (run_bind _ _ _ _ _ (set_data_Some _ _ _ _ Ht0)).
    destruct (decide (this = other)) as [->|Hne].
    - assert (t0 = o0) as -> by congruence.
      erewrite run_bind; cycle 1.
      { apply set_data_Some. unfold set_vecs; cbn [vecs]. apply lookup_insert_eq. }
      erewrite run_bind; cycle 1.
      { apply get_Some. unfold set_vecs; cbn [vecs]. apply lookup_insert_eq. }
      erewrite run_bind; cycle 1.
      { apply get_Some. unfold set_vecs; cbn [vecs]. apply lookup_insert_eq. }
      erewrite run_bind; cycle 1.
      { apply set_size_Some. unfold set_vecs; cbn [vecs]. apply lookup_insert_eq. }
      erewrite set_size_Some; cycle 1.
      { unfold set_vecs; cbn [vecs]. apply lookup_insert_eq. }
      f_equal. destruct o0 as [[buf cap] sz]. apply mem_eq; try done.
      unfold set_vecs; cbn -[insert]. by rewrite !insert_insert_eq.
    - erewrite run_bind; cycle 1.
      { apply set_data_Some. unfold set_vecs; cbn [vecs].
        rewrite lookup_insert_ne by done. exact Ho0. }
      erewrite run_bind; cycle 1.
      { apply get_Some. unfold set_vecs; cbn [vecs].
        rewrite lookup_insert_ne by done. apply lookup_insert_eq. }
      erewrite run_bind; cycle 1.
      { apply get_Some. unfold set_vecs; cbn [vecs]. apply lookup_insert_eq. }
      erewrite run_bind; cycle 1.
      { apply set_size_Some. unfold set_vecs; cbn [vecs].
        rewrite lookup_insert_ne by done. apply lookup_insert_eq. }
      erewrite set_size_Some; cycle 1.
      { unfold set_vecs; cbn [vecs]. rewrite lookup_insert_ne by done.
        apply lookup_insert_eq. }
      f_equal. destruct o0 as [[buf cap] sz], t0 as [[buf' cap'] sz'].
      apply mem_eq; try done.
      unfold set_vecs; cbn -[insert]. apply map_eq. intros k.
      rewrite !lookup_insert. repeat case_decide; congruence. }
  eexists. split; [by apply Hrun|]. cbn [vecs heap log set_vecs].
  split; [done|]. split; [done|]. split; [done|].
  split; [by apply contents_same_heap|]. split; [by apply contents_same_heap|].
  destruct (decide (this = other)) as [->|Hne].
  - assert (t = o) as -> by congruence.
    erewrite Hrun; cycle 1.
    { cbn [vecs set_vecs]. apply lookup_insert_eq. }
    { cbn [vecs set_vecs]. apply lookup_insert_eq. }
    f_equal. apply mem_eq; try done. cbn [vecs set_vecs].
    rewrite !insert_insert_eq. by apply insert_id.
  - erewrite Hrun; cycle 1.
    { cbn [vecs set_vecs]. rewrite lookup_insert_ne by done.
      apply lookup_insert_eq. }
    { cbn [vecs set_vecs]. apply lookup_insert_eq. }
    f_equal. apply mem_eq; try done. cbn [vecs set_vecs].
    apply map_eq. intros k. rewrite !lookup_insert.
    repeat case_decide; congruence.
Qed.

(** X13: move assignment always returns and touches neither the heap
    nor any element: [*this] takes the block, the capacity and the size
    of [rhs], and [rhs] is left empty.  So the elements that [*this]
    held are not destroyed and its block is not freed; and a vector
    move-assigned to itself ends up empty. *)
Theorem Vector_move_assign_steals this rhs m t r :
  vecs m !! this = Some t → vecs m !! rhs = Some r →
  ∃ m', Vector_move_assign this rhs m = Ret tt m' ∧
        heap m' = heap m ∧ log m' = log m ∧
        vecs m' = <[rhs := mkVector RawMemory_default 0]> (<[this := r]> (vecs m)) ∧
        (this = rhs → vecs m' !! this = Some (mkVector RawMemory_default 0)) ∧
        (this ≠ rhs → vecs m' !! this = Some r ∧ contents m' r = contents m r).
Proof.
  intros Ht Hr.
  assert (Vector_move_assign this rhs m =
            Ret tt (set_vecs (fun vs => <[rhs := mkVector RawMemory_default 0]>
                                          (<[this := r]> vs)) m)) as Hrun.
  { unfold Vector_move_assign.
    rewrite (run_bind _ _ _ _ _ (get_Some _ _ _ Ht)).
    rewrite (run_bind _ _ _ _ _ (get_Some _ _ _ Hr)).
    cbn [RawMemory_move_assign buffer_ capacity_].
    rewrite (run_bind _ _ _ _ _ (set_data_Some _ _ _ _ Ht)).
    destruct (decide (this = rhs)) as [->|Hne].
    - assert (t = r) as -> by congruence.
      erewrite run_bind; cycle 1.
      { apply set_data_Some. unfold set_vecs; cbn [vecs]. apply lookup_insert_eq. }
      erewrite run_bind; cycle 1.
      { apply get_Some. unfold set_vecs; cbn [vecs]. apply lookup_insert_eq. }
      erewrite run_bind; cycle 1.
      { apply set_size_Some. unfold set_vecs; cbn [vecs]. apply lookup_insert_eq. }
      erewrite run_bind; cycle 1.
      { apply reset_data_Some. unfold set_vecs; cbn [vecs]. apply lookup_insert_eq. }
      erewrite set_size_Some; cycle 1.
      { unfold set_vecs; cbn [vecs]. apply lookup_insert_eq. }
      f_equal. destruct r as [[buf cap] sz]. apply mem_eq; try done.
      unfold set_vecs; cbn -[insert]. by rewrite !insert_insert_eq.
    - erewrite run_bind; cycle 1.
      { apply set_data_Some. unfold set_vecs; cbn [vecs].
        rewrite lookup_insert_ne by done. exact Hr. }
      erewrite run_bind; cycle 1.
      { apply get_Some. unfold set_vecs; cbn [vecs]. apply lookup_insert_eq. }
      erewrite run_bind; cycle 1.
      { apply set_size_Some. unfold set_vecs; cbn [vecs].
        rewrite lookup_insert_ne by done. apply lookup_insert_eq. }
      erewrite run_bind; cycle 1.
      { apply reset_data_Some. unfold set_vecs; cbn [vecs].
        rewrite lookup_insert_ne by done. apply lookup_insert_eq. }
      erewrite set_size_Some; cycle 1.
      { unfold set_vecs; cbn [vecs]. apply lookup_insert_eq. }
      f_equal. destruct r as [[buf cap] sz], t as [[buf' cap'] sz'].
      apply mem_eq; try done.
      unfold set_vecs; cbn -[insert]. apply map_eq. intros k.
      rewrite !lookup_insert. repeat case_decide; congruence. }
  eexists. split; [exact Hrun|]. cbn [vecs heap log set_vecs].
  split; [done|]. split; [done|]. split; [done|]. split.
  - intros ->. apply lookup_insert_eq.
  - intros Hne. split; [|by apply contents_same_heap].
    rewrite lookup_insert_ne by done. apply lookup_insert_eq.
Qed.

(** X14: the destructor of a well-formed vector, when it returns, has
    destroyed every element once, in order of index, has freed the
    block and has removed the object; nothing else in the heap has
    changed. *)
Theorem Vector_dtor_releases this m m' v :
  vecs m !! this = Some v → wf m v →
  Vector_dtor this m = Ret tt m' →
  vecs m' = delete this (vecs m) ∧
  log m' = log m ++ dtors (buffer_ (data_ v)) (size_ v) ∧
  heap m' = match buffer_ (data_ v) with
            | Ptr b _ => delete b (heap m)
            | Null => heap m
            end.
Proof.
  intros Hv Hwf E.
  destruct (Vector_dtor_spec _ _ _ _ Hv Hwf E) as (? & ? & ?). done.
Qed.


(** *** Every member function keeps the store sound *)

Lemma wf_empty m : wf m (mkVector RawMemory_default 0).
Proof.
  split; [by split|]. split; [unfold invariant; simpl; lia|done].
Qed.

(** A constructor puts a vector with a fresh block, or with none. *)
Lemma sound_create this v' m m' :
  sound m →
  vecs m' = <[this := v']> (vecs m) →
  wf m' v' →
  (buffer_ (data_ v') = Null ∨
   ∃ nb, buffer_ (data_ v') = Ptr nb 0 ∧ heap m !! nb = None) →
  (∀ c, is_Some (heap m !! c) → heap m' !! c = heap m !! c) →
  sound m'.
Proof.
  intros [Hwf Hsep] Hm' Hwf' Hnew Hframe.
  assert (∀ a u b o, vecs m !! a = Some u → buffer_ (data_ u) = Ptr b o →
            ∀ o', buffer_ (data_ v') ≠ Ptr b o') as Hother.
  { intros a u b o Hu Hb o' Hb'.
    destruct Hnew as [?|(nb & Hnb & Hf)]; [congruence|].
    assert (b = nb) as -> by congruence.
    destruct (wf_block_exists _ _ _ _ (Hwf a u Hu) Hb). congruence. }
  split.
  - intros a u Hu. rewrite Hm' in Hu. destruct (decide (a = this)) as [->|Hne].
    + rewrite lookup_insert_eq in Hu. by simplify_eq.
    + rewrite lookup_insert_ne in Hu by done.
      pose proof (Hwf a u Hu) as Hwu. apply (wf_frame m); [done|].
      intros b o Hb. apply Hframe. exact (wf_block_exists _ _ _ _ Hwu Hb).
  - intros a a' u u' b o o' Hu Hu' Hb Hb'. rewrite Hm' in Hu, Hu'.
    destruct (decide (a = this)) as [->|Hne], (decide (a' = this)) as [->|Hne'];
      [done| | |].
    + rewrite lookup_insert_eq in Hu. rewrite lookup_insert_ne in Hu' by done.
      simplify_eq. by destruct (Hother a' u' b o' Hu' Hb' o).
    + rewrite lookup_insert_eq in Hu'. rewrite lookup_insert_ne in Hu by done.
      simplify_eq. by destruct (Hother a u b o Hu Hb o').
    + rewrite lookup_insert_ne in Hu, Hu' by done. by eapply Hsep.
Qed.

(** A member function that only hands blocks from object to object:
    every object of the new store is empty or is the object that was
    at the address [f] gives, and no block is handed out twice. *)
Lemma sound_relabel (f : nat → nat) m m' :
  sound m → heap m' = heap m →
  (∀ a v', vecs m' !! a = Some v' →
     v' = mkVector RawMemory_default 0 ∨ vecs m !! f a = Some v') →
  (∀ a a' v v' b o o',
     vecs m' !! a = Some v → vecs m' !! a' = Some v' →
     buffer_ (data_ v) = Ptr b o → buffer_ (data_ v') = Ptr b o' →
     f a = f a' → a = a') →
  sound m'.
Proof.
  intros [Hwf Hsep] Hh Hfrom Hinj. split.
  - intros a v' Hv'. destruct (Hfrom a v' Hv') as [->|Hv]; [apply wf_empty|].
    apply (wf_frame m); [by apply (Hwf _ _ Hv)|]. intros. by rewrite Hh.
  - intros a a' v v' b o o' Hv Hv' Hb Hb'.
    apply (Hinj a a' v v' b o o'); try done.
    destruct (Hfrom a v Hv) as [->|Hv0]; [done|].
    destruct (Hfrom a' v' Hv') as [->|Hv0']; [done|].
    by apply (Hsep (f a) (f a') v v' b o o').
Qed.

Lemma RawMemory_dtor_default m m' :
  RawMemory_dtor RawMemory_default m = Ret tt m' → m' = m.
Proof.
  unfold RawMemory_dtor, Deallocate, operator_delete. simpl. by intros [= ->].
Qed.

Lemma Vector_move_heap this other m m' :
  Vector_move this other m = Ret tt m' → heap m' = heap m.
Proof.
  unfold Vector_move. intros E. inv_M. inv_raw.
  repeat match goal with
  | X : RawMemory_dtor RawMemory_default _ = Ret _ _ |- _ =>
      apply RawMemory_dtor_default in X; subst
  end.
  done.
Qed.

Lemma Vector_move_assign_heap this rhs m m' :
  Vector_move_assign this rhs m = Ret tt m' → heap m' = heap m.
Proof.
  unfold Vector_move_assign. intros E. inv_M. inv_raw.
  repeat match goal with
  | X : RawMemory_dtor RawMemory_default _ = Ret _ _ |- _ =>
      apply RawMemory_dtor_default in X; subst
  end.
  done.
Qed.

(** Moving [o] from [other] to [this] and leaving [other] empty *)
Lemma sound_handover this other o m m' :
  sound m → heap m' = heap m →
  vecs m !! other = Some o →
  vecs m' = <[other := mkVector RawMemory_default 0]> (<[this := o]> (vecs m)) →
  sound m'.
Proof.
  intros Hs Hh Ho Hm'.
  apply (sound_relabel (fun a => if decide (a = this) then other else a) m m');
    [done..| |].
  - intros a v' Hv'. rewrite Hm' in Hv'.
    destruct (decide (a = other)) as [->|Hne].
    { rewrite lookup_insert_eq in Hv'. left. by simplify_eq. }
    rewrite lookup_insert_ne in Hv' by done. right.
    case_decide as Ha.
    + subst a. rewrite lookup_insert_eq in Hv'. by simplify_eq.
    + by rewrite lookup_insert_ne in Hv' by done.
  - intros a a' v v' b i j Hv Hv' Hb Hb' Hf. rewrite Hm' in Hv, Hv'.
    assert (∀ x u c k, <[other := mkVector RawMemory_default 0]>
                         (<[this := o]> (vecs m)) !! x = Some u →
                       buffer_ (data_ u) = Ptr c k → x ≠ other) as Hno.
    { intros x u c k Hu Hc ->. rewrite lookup_insert_eq in Hu.
      by simplify_eq. }
    pose proof (Hno _ _ _ _ Hv Hb). pose proof (Hno _ _ _ _ Hv' Hb').
    repeat case_decide; congruence.
Qed.

Lemma sound_delete this v m m' :
  sound m → vecs m !! this = Some v →
  vecs m' = delete this (vecs m) →
  heap m' = match buffer_ (data_ v) with
            | Ptr b _ => delete b (heap m)
            | Null => heap m
            end →
  sound m'.
Proof.
  intros [Hwf Hsep] Hv Hm' Hh. split.
  - intros a u Hu. rewrite Hm' in Hu.
    apply lookup_delete_Some in Hu as [Hne Hu].
    apply (wf_frame m); [by apply (Hwf _ _ Hu)|]. intros b o Hb. rewrite Hh.
    destruct (buffer_ (data_ v)) as [|bv ov] eqn:Hbv; [done|].
    apply lookup_delete_ne. intros ->. apply Hne.
    by apply (Hsep this a v u b ov o).
  - intros a a' u u' b o o' Hu Hu' Hb Hb'. rewrite Hm' in Hu, Hu'.
    apply lookup_delete_Some in Hu as [_ Hu].
    apply lookup_delete_Some in Hu' as [_ Hu'].
    by apply (Hsep a a' u u' b o o').
Qed.


(** X15: every public member function keeps the store sound: if
    every vector is well formed (size at most capacity, a block of
    exactly capacity slots whose first size slots hold the elements
    and whose other slots are raw) and no two vectors hold the same
    block, then the same is true after any call that returns, given
    [size_t] arguments and, for [Reserve(n)], an [n * sizeof(T)] that
    fits [size_t]. *)
Theorem exec_preserves_sound c m m' :
  sound m → args_representable c → no_overflow c →
  exec c m = Ret tt m' →
  sound m'.
Proof.
  intros Hs Ha Hno E. pose proof Hs as [Hwf Hsep].
  destruct c; simpl in E; simpl in Ha; simpl in Hno.
  - (* Vector() *)
    apply Vector_default_vecs in E as Hm'.
    apply (sound_create this (mkVector RawMemory_default 0) m m');
      [done|done|apply wf_empty|by left|].
    intros c _. unfold Vector_default, put in E. by simplify_eq.
  - (* Vector(size) *)
    destruct (Vector_sized_spec _ _ _ _ Ha E)
      as (d & Hm' & _ & Hwf' & _ & Hnew & Hframe).
    by apply (sound_create this (mkVector d size) m m').
  - (* Vector(const Vector&) *)
    destruct (Vector_copy_this _ _ _ _ E) as [o Ho].
    pose proof (Hwf _ _ Ho) as Hwo. simpl in Hwo.
    destruct (wf_contents _ _ Hwo) as [l Hl].
    destruct (Vector_copy_spec _ _ _ _ _ _ Ho Hwo Hl E)
      as (d & Hm' & _ & Hwf' & _ & Hnew & Hframe).
    by apply (sound_create this (mkVector d (size_ o)) m m').
  - (* Vector(Vector&&) *)
    destruct (Vector_move_this _ _ _ _ E) as [o Ho].
    apply (sound_handover this other o m m'); [done| |done|].
    + by apply Vector_move_heap in E.
    + by apply (Vector_move_vecs _ _ _ _ _ Ho).
  - (* ~Vector() *)
    assert (is_Some (vecs m !! this)) as [v Hv]
      by (unfold Vector_dtor in E; inv_M; eauto).
    pose proof (Hwf _ _ Hv) as Hwv. simpl in Hwv.
    destruct (Vector_dtor_spec _ _ _ _ Hv Hwv E) as (Hm' & Hh & _).
    by apply (sound_delete this v m m').
  - (* begin() *)
    inv_M. match goal with X : begin _ _ = _ |- _ => apply begin_same in X end.
    by subst.
  - (* end() *)
    inv_M. match goal with X : end_ _ _ = _ |- _ => apply end_same in X end.
    by subst.
  - (* operator=(const Vector&) *)
    destruct (decide (this = rhs)) as [->|Hne].
    { unfold Vector_copy_assign in E. case_decide; [done|]. by inv_M. }
    destruct (Vector_copy_assign_this _ _ _ _ Hne E) as [[t Ht] [r Hr]].
    pose proof (Hwf _ _ Ht) as Hwt. pose proof (Hwf _ _ Hr) as Hwr.
    simpl in Hwt, Hwr. destruct (wf_contents _ _ Hwr) as [l Hl].
    assert (∀ b i j, buffer_ (data_ t) = Ptr b i → buffer_ (data_ r) ≠ Ptr b j)
      as Hapart.
    { intros b i j Hb Hb'. apply Hne. by apply (Hsep this rhs t r b i j). }
    destruct (Vector_copy_assign_spec _ _ _ _ _ _ _ Hne Ht Hr Hwt Hwr Hl Hapart E)
      as (t' & Hup & Hwt' & _).
    by apply (sound_update this t t' m m').
  - (* operator=(Vector&&) *)
    destruct (Vector_move_assign_this _ _ _ _ E) as [_ [r Hr]].
    apply (sound_handover this rhs r m m'); [done| |done|].
    + by apply Vector_move_assign_heap in E.
    + by apply (Vector_move_assign_vecs _ _ _ _ _ Hr).
  - (* Reserve *)
    destruct (Reserve_this _ _ _ _ E) as [v Hv].
    pose proof (Hwf _ _ Hv) as Hwv. simpl in Hwv.
    destruct (wf_contents _ _ Hwv) as [l Hl].
    destruct (Reserve_spec _ _ _ _ _ _ Hv Hwv Hl Ha Hno E)
      as (v' & Hup & Hwf' & _).
    by apply (sound_update this v v' m m').
  - (* Resize *)
    destruct (Resize_this _ _ _ _ E) as [v Hv].
    pose proof (Hwf _ _ Hv) as Hwv. simpl in Hwv.
    destruct (wf_contents _ _ Hwv) as [l Hl].
    destruct (Resize_spec _ _ _ _ _ _ Hv Hwv Hl Ha E)
      as (v' & Hup & Hwf' & _).
    by apply (sound_update this v v' m m').
  - (* PushBack(const T&) *)
    unfold PushBack in E. inv_M.
    match goal with X : append _ _ _ = _ |- _ => rename X into Ea end.
    destruct (append_this _ _ _ _ _ Ea) as [v Hv].
    pose proof (Hwf _ _ Hv) as Hwv. simpl in Hwv.
    destruct (wf_contents _ _ Hwv) as [l Hl].
    destruct (append_fwd_spec _ _ _ _ _ _ _ Hv Hwv Hl Ea)
      as (v' & y & _ & Hup & Hwf' & _).
    eapply (sound_update this v v'); [| |exact Hup|exact Hwf'];
      [by apply moved_out_sound|by rewrite moved_out_vecs].
  - (* PushBack(T&&) *)
    unfold PushBack_rvalue in E. inv_M.
    match goal with X : append _ _ _ = _ |- _ => rename X into Ea end.
    destruct (append_this _ _ _ _ _ Ea) as [v Hv].
    pose proof (Hwf _ _ Hv) as Hwv. simpl in Hwv.
    destruct (wf_contents _ _ Hwv) as [l Hl].
    destruct (append_fwd_spec _ _ _ _ _ _ _ Hv Hwv Hl Ea)
      as (v' & y & _ & Hup & Hwf' & _).
    eapply (sound_update this v v'); [| |exact Hup|exact Hwf'];
      [by apply moved_out_sound|by rewrite moved_out_vecs].
  - (* EmplaceBack *)
    unfold EmplaceBack in E. inv_M.
    match goal with X : append _ _ _ = _ |- _ => rename X into Ea end.
    destruct (append_this _ _ _ _ _ Ea) as [v Hv].
    pose proof (Hwf _ _ Hv) as Hwv. simpl in Hwv.
    destruct (wf_contents _ _ Hwv) as [l Hl].
    destruct (append_fwd_spec _ _ _ _ _ _ _ Hv Hwv Hl Ea)
      as (v' & y & _ & Hup & Hwf' & _).
    eapply (sound_update this v v'); [| |exact Hup|exact Hwf'];
      [by apply moved_out_sound|by rewrite moved_out_vecs].
  - (* Emplace *)
    unfold Emplace in E. inv_M.
    match goal with X : emplace _ _ _ _ = _ |- _ => rename X into Ea end.
    destruct (emplace_this _ _ _ _ _ _ Ea) as [v Hv].
    pose proof (Hwf _ _ Hv) as Hwv. simpl in Hwv.
    destruct (wf_contents _ _ Hwv) as [l Hl].
    destruct (emplace_fwd_spec _ _ _ _ _ _ _ _ Hv Hwv Hl Ea)
      as (v' & y & i & _ & _ & _ & Hup & Hwf' & _).
    eapply (sound_update this v v'); [| |exact Hup|exact Hwf'];
      [by apply moved_out_sound|by rewrite moved_out_vecs].
  - (* Insert(const T&) *)
    unfold Insert, Emplace in E. inv_M.
    match goal with X : emplace _ _ _ _ = _ |- _ => rename X into Ea end.
    destruct (emplace_this _ _ _ _ _ _ Ea) as [v Hv].
    pose proof (Hwf _ _ Hv) as Hwv. simpl in Hwv.
    destruct (wf_contents _ _ Hwv) as [l Hl].
    destruct (emplace_fwd_spec _ _ _ _ _ _ _ _ Hv Hwv Hl Ea)
      as (v' & y & i & _ & _ & _ & Hup & Hwf' & _).
    eapply (sound_update this v v'); [| |exact Hup|exact Hwf'];
      [by apply moved_out_sound|by rewrite moved_out_vecs].
  - (* Insert(T&&) *)
    unfold Insert_rvalue, Emplace in E. inv_M.
    match goal with X : emplace _ _ _ _ = _ |- _ => rename X into Ea end.
    destruct (emplace_this _ _ _ _ _ _ Ea) as [v Hv].
    pose proof (Hwf _ _ Hv) as Hwv. simpl in Hwv.
    destruct (wf_contents _ _ Hwv) as [l Hl].
    destruct (emplace_fwd_spec _ _ _ _ _ _ _ _ Hv Hwv Hl Ea)
      as (v' & y & i & _ & _ & _ & Hup & Hwf' & _).
    eapply (sound_update this v v'); [| |exact Hup|exact Hwf'];
      [by apply moved_out_sound|by rewrite moved_out_vecs].
  - (* Erase *)
    inv_M.
    match goal with X : Erase _ _ _ = _ |- _ => rename X into Ea end.
    destruct (Erase_this _ _ _ _ _ Ea) as [v Hv].
    pose proof (Hwf _ _ Hv) as Hwv. simpl in Hwv.
    destruct (wf_contents _ _ Hwv) as [l Hl].
    destruct (Erase_spec _ _ _ _ _ _ _ Hv Hwv Hl Ea)
      as (v' & i & _ & _ & Hup & Hwf' & _).
    by apply (sound_update this v v' m m').
  - (* PopBack *)
    destruct (PopBack_this _ _ _ E) as [v Hv].
    pose proof (Hwf _ _ Hv) as Hwv. simpl in Hwv.
    destruct (wf_contents _ _ Hwv) as [l Hl].
    destruct (PopBack_spec _ _ _ _ _ Hv Hwv Hl E) as (_ & v' & Hup & Hwf' & _).
    by apply (sound_update this v v' m m').
  - (* Swap *)
    destruct (Swap_this _ _ _ _ E) as [[t Ht] [o Ho]].
    pose proof (Swap_same_heap _ _ _ _ E) as [Hh _].
    pose proof (Swap_vecs _ _ _ _ _ _ Ht Ho E) as Hm'.
    apply (sound_relabel
             (fun a => if decide (a = this) then other
                       else if decide (a = other) then this else a) m m');
      [done..| |].
    + intros a v' Hv'. rewrite Hm' in Hv'. right.
      rewrite !lookup_insert in Hv'. repeat case_decide; by simplify_eq.
    + intros a a' v v' b i j _ _ _ _ Hf. repeat case_decide; congruence.
  - (* size() *)
    inv_M. match goal with X : Size _ _ = _ |- _ => apply Size_same in X end.
    by subst.
  - (* capacity() *)
    inv_M. match goal with X : Capacity _ _ = _ |- _ => apply Capacity_same in X end.
    by subst.
  - (* operator[] *)
    inv_M.
    match goal with X : Vector_index _ _ _ = _ |- _ =>
      apply Vector_index_same in X end.
    by subst.
Qed.


(** *** A vector built by [PushBack] alone *)

Lemma push_all_spec this xs : ∀ m m' v l,
  vecs m !! this = Some v → wf m v → contents m v = Some l →
  (size_ v = 0 ∧ capacity_ (data_ v) = 0 ∨
   ∃ k, 0 <= k ∧ capacity_ (data_ v) = 2 ^ k ∧
        capacity_ (data_ v) < 2 * size_ v) →
  push_all this xs m = Ret tt m' →
  ∃ v', vecs m' !! this = Some v' ∧ wf m' v' ∧
        size_ v' = size_ v + Z.of_nat (length xs) ∧
        contents m' v' = Some (l ++ xs) ∧
        (size_ v' = 0 ∧ capacity_ (data_ v') = 0 ∨
         ∃ k, 0 <= k ∧ capacity_ (data_ v') = 2 ^ k ∧
              capacity_ (data_ v') < 2 * size_ v').
Proof.
  induction xs as [|x xs IH]; intros m m' v l Hv Hwf Hl Hcap E; simpl in E.
  - inv_M. exists v. rewrite app_nil_r, Z.add_0_r. done.
  - apply bind_Ret in E as ([] & m1 & E1 & E2).
    unfold PushBack in E1. apply bind_Ret in E1 as (p & m0 & Ea & Er).
    apply ret_Ret in Er as [_ ->].
    pose proof Hwf as ([Hsr Hcr] & [Hs0 Hsc] & _).
    destruct (append_spec _ _ _ _ _ _ _ Hv Hwf Hl Ea)
      as (v1 & (Hm1 & _) & Hwf1 & Hs1 & Hc1 & _).
    destruct (append_vecs _ _ _ _ _ _ Hv Ea) as (d & Hm1' & _ & Hd).
    assert (data_ v1 = d) as Hd1.
    { assert (<[this:=v1]> (vecs m) !! this
              = Some (mkVector d (wrap (size_ v + 1)))) as Heq
        by (rewrite <- Hm1, Hm1'; apply lookup_insert_eq).
      rewrite lookup_insert_eq in Heq. by injection Heq as ->. }
    destruct (IH m1 m' v1 (l ++ [x])) as (v' & Hv' & Hwf' & Hs' & Hc' & Hcap');
      [rewrite Hm1; apply lookup_insert_eq|done|done| |done|].
    + right. rewrite Hd1, Hs1.
      destruct Hd as [[Hne ->]|[Hfull Hg]].
      * destruct Hcap as [[? ?]|(k & Hk & Hck & Hlt)]; [lia|].
        exists k. split; [done|]. split; [done|]. lia.
      * destruct (grown_spec (size_ v)) as (Hgr & _); [done| |].
        { pose proof Hwf1 as (_ & [_ Hsc1] & _). rewrite Hd1, Hg in Hsc1. lia. }
        rewrite Hg, Hgr.
        destruct Hcap as [[Hz ?]|(k & Hk & Hck & Hlt)].
        -- exists 0. rewrite Hz. simpl. lia.
        -- exists (k + 1). rewrite Z.pow_add_r by lia.
           assert (0 < 2 ^ k) by (apply Z.pow_pos_nonneg; lia).
           split; [lia|]. split; lia.
    + exists v'. split; [done|]. split; [done|].
      split; [rewrite Hs', Hs1; simpl length; lia|].
      split; [by rewrite Hc', <- app_assoc|done].
Qed.

(** X16: pushing the values of a list, one by one, onto a
    default-constructed vector gives, when all the calls return, a
    well-formed vector whose elements are the list; its capacity is 0
    for the empty list and otherwise a power of two below twice the
    size. *)
Theorem push_all_builds this xs m m' :
  (Vector_default this >> push_all this xs) m = Ret tt m' →
  ∃ v', vecs m' !! this = Some v' ∧ wf m' v' ∧
        size_ v' = Z.of_nat (length xs) ∧
        contents m' v' = Some xs ∧
        (xs = [] ∧ capacity_ (data_ v') = 0 ∨
         ∃ k, 0 <= k ∧ capacity_ (data_ v') = 2 ^ k ∧
              capacity_ (data_ v') < 2 * size_ v').
Proof.
  intros E. apply bind_Ret in E as ([] & m0 & Ed & E).
  apply Vector_default_vecs in Ed as Hm0.
  assert (vecs m0 !! this = Some (mkVector RawMemory_default 0)) as Hv0
    by (rewrite Hm0; apply lookup_insert_eq).
  assert (contents m0 (mkVector RawMemory_default 0) = Some []) as Hl0 by done.
  destruct (push_all_spec this xs m0 m' (mkVector RawMemory_default 0) []
              Hv0 (wf_empty m0) Hl0 ltac:(by left) E)
    as (v' & Hv' & Hwf' & Hs' & Hc' & Hcap').
  exists v'. simpl in Hs'. split; [done|]. split; [done|]. split; [done|].
  split; [done|]. destruct Hcap' as [[Hz Hcz]|?]; [left|by right].
  split; [|done]. destruct xs; [done|]. simpl in Hs'. lia.
Qed.


(** *** What throws and what does not *)

Lemma nothrow_ret {A} (a : A) : nothrow T (ret a).
Proof. by intros m m'. Qed.

Lemma nothrow_abort {A} : nothrow T (@abort T A).
Proof. by intros m m'. Qed.

Lemma nothrow_assert c : nothrow T (assert c).
Proof. intros m m'. by destruct c. Qed.

Lemma nothrow_bind {A B} (c : M A) (f : A → M B) :
  nothrow T c → (∀ a, nothrow T (f a)) → nothrow T (bind c f).
Proof.
  intros Hc Hf m m'. unfold bind. destruct (c m) as [a m1| |] eqn:E.
  - apply Hf.
  - by destruct (Hc m m0).
  - done.
Qed.

Lemma nothrow_for_n k i body :
  (∀ j, nothrow T (body j)) → nothrow T (for_n k i body).
Proof.
  intros Hb. revert i. induction k as [|k IH]; intros i; simpl.
  - apply nothrow_ret.
  - apply nothrow_bind; [apply Hb|intros _; apply IH].
Qed.

Lemma nothrow_emit e : nothrow T (emit e).
Proof. by intros m m'. Qed.

Lemma nothrow_load p : nothrow T (load p).
Proof. intros m m'. unfold load. by destruct (slot m p) as [[?|]|]. Qed.

Lemma nothrow_store p o : nothrow T (store p o).
Proof.
  intros m m'. unfold store. destruct p; [done|]. by destruct (slot m _).
Qed.

Lemma nothrow_get a : nothrow T (get a).
Proof. intros m m'. unfold get. by destruct (vecs m !! a). Qed.

Lemma nothrow_put a v : nothrow T (put a v).
Proof. by intros m m'. Qed.

Lemma nothrow_forget a : nothrow T (forget a).
Proof. by intros m m'. Qed.

Lemma nothrow_new_local : nothrow T new_local.
Proof. by intros m m'. Qed.

Lemma nothrow_operator_delete p : nothrow T (operator_delete p).
Proof.
  intros m m'. unfold operator_delete. destruct p; [done|].
  case_decide; [|done]. by destruct (heap m !! b).
Qed.

Create HintDb nothrow discriminated.

#[local] Hint Resolve nothrow_ret nothrow_abort nothrow_assert nothrow_emit
  nothrow_load nothrow_store nothrow_get nothrow_put nothrow_forget
  nothrow_new_local nothrow_operator_delete : nothrow.

Ltac solve_nothrow :=
  repeat first
    [ solve [eauto with nothrow]
    | apply nothrow_bind; [|intros ?]
    | apply nothrow_for_n; intros ?
    | match goal with
      | |- nothrow _ (if ?c then _ else _) => destruct c
      | |- nothrow _ (match ?x with _ => _ end) => destruct x
      | |- nothrow _ (let '(_, _) := ?x in _) => destruct x
      end
    | progress unfold destroy_at, destroy_n, distance,
        Deallocate, RawMemory_dtor, RawMemory_plus, RawMemory_index,
        set_data, set_size, reset_data, adopt, begin, end_, Size, Capacity,
        Vector_index, Swap, Vector_move, Vector_move_assign, Vector_dtor,
        PopBack, Vector_default ].

Lemma nothrow_destroy_n p n : nothrow T (destroy_n p n).
Proof. solve_nothrow. Qed.

Lemma nothrow_RawMemory_dtor r : nothrow T (RawMemory_dtor r).
Proof. solve_nothrow. Qed.

Lemma nothrow_adopt this d : nothrow T (adopt this d).
Proof. solve_nothrow. Qed.

Lemma nothrow_set_size this n : nothrow T (set_size this n).
Proof. solve_nothrow. Qed.

Lemma nothrow_set_data this d : nothrow T (set_data this d).
Proof. solve_nothrow. Qed.

Lemma nothrow_RawMemory_plus r n : nothrow T (RawMemory_plus r n).
Proof. solve_nothrow. Qed.

(** X17: no exception leaves a member function declared [noexcept]:
    the move constructor, move assignment, the destructor, [PopBack],
    [Swap], [begin], [end], [Size], [Capacity] and [operator[]] never
    throw, whatever the memory and whatever the element type does. *)
Theorem declared_noexcept_never_throws c m m' :
  declared_noexcept c = true → exec c m ≠ Exc m'.
Proof.
  intros Hc. revert m m'. change (nothrow T (exec c)).
  destruct c; simpl in Hc; try done; simpl; solve_nothrow.
Qed.


(** *** What an exception leaves behind *)

Lemma nothrow_on_exception {A} (c : M A) h :
  nothrow T c → nothrow T (on_exception c h).
Proof.
  intros Hc m m'. unfold on_exception. destruct (c m) as [| m1 |] eqn:E; [done| |done].
  by destruct (Hc m m1).
Qed.

Lemma nothrow_move_construct src dst :
  (∀ x, move_throws x = false) → nothrow T (move_construct src dst).
Proof.
  intros Hm. unfold move_construct. apply nothrow_bind; [apply nothrow_load|].
  intros x. rewrite Hm. solve_nothrow.
Qed.

Lemma nothrow_uninitialized_move_n src n dst :
  (∀ x, move_throws x = false) → nothrow T (uninitialized_move_n src n dst).
Proof.
  intros Hm. unfold uninitialized_move_n. apply nothrow_for_n. intros j.
  by apply nothrow_on_exception, nothrow_move_construct.
Qed.

(** Rule out an exception from code that cannot throw. *)
Ltac no_exc :=
  match goal with
  | X : ?c ?m = Exc ?m' |- _ =>
      let Hn := fresh in
      assert (Hn : nothrow T c) by solve_nothrow; destruct (Hn m m' X)
  end.

Ltac exc_split :=
  match goal with
  | X : bind _ _ _ = Exc _ |- _ =>
      apply bind_Exc in X as [X|(? & ? & ? & X)]; cbv beta in X
  | X : on_exception _ _ _ = Exc _ |- _ =>
      apply on_exception_Exc in X as (? & X & ?)
  | X : (if ?c then _ else _) _ = Exc _ |- _ => destruct c eqn:?
  | X : (let '(_, _) := ?x in _) _ = Exc _ |- _ => destruct x eqn:?
  end.

(** The same, with the construction from values named as such *)
Ltac values_new :=
  repeat match goal with
  | X : placement_new _ (Values _) _ = _ |- _ =>
      progress cbn [placement_new] in X
  | X : local_object (Values _) _ = _ |- _ =>
      progress cbn [local_object] in X
  end.

Ltac exc_step := exc_split; values_new.

Lemma construct_at_Exc p a m m' :
  construct_at p a m = Exc m' → vecs m' = vecs m ∧ heap m' = heap m.
Proof.
  unfold construct_at, bind, emit, throw. destruct (init_throws a).
  - by intros [= <-].
  - intros E. by no_exc.
Qed.

(** A relocation that throws has written to the destination block
    only. *)
Lemma relocate_Exc src n dst m m' :
  relocation_nothrow →
  relocate src n dst m = Exc m' →
  vecs m' = vecs m ∧ outside T (fun b => ∃ i, dst = Ptr b i) m m'.
Proof.
  intros Hr E. unfold relocate in E.
  change (is_nothrow_move_constructible || negb is_copy_constructible)
    with relocates_by_move in E.
  destruct relocates_by_move eqn:Hp.
  - by destruct (nothrow_uninitialized_move_n src n dst (Hr Hp) m m').
  - split.
    + eapply (respects_Exc (same_vecs T)); [|exact E]. solve_respects.
    + eapply (respects_Exc (outside T _)); [|exact E]. solve_outside.
Qed.

(** A block allocated for the call, written to and freed again: the
    heap is what it was. *)
Lemma scratch_released n m nd m1 m2 m' :
  RawMemory_ctor n m = Ret nd m1 →
  outside T (fun b => ∃ i, buffer_ nd = Ptr b i) m1 m2 →
  RawMemory_dtor nd m2 = Ret tt m' →
  vecs m' = vecs m2 ∧ heap m' = heap m.
Proof.
  intros Ec Ho Ed.
  apply RawMemory_ctor_Ret in Ec
    as (_ & [(_ & Hnull & ->)|(_ & nb & Hbuf & Hf & ->)]);
    unfold RawMemory_dtor, Deallocate, operator_delete in Ed;
    rewrite ?Hnull, ?Hbuf in Ed, Ho.
  - injection Ed as <-. split; [done|]. apply map_eq. intros c.
    apply Ho. by intros [i Hi].
  - simpl in Ed. destruct (heap m2 !! nb); [|done]. injection Ed as <-.
    split; [done|]. apply map_eq. intros c. cbn [heap set_heap].
    destruct (decide (c = nb)) as [->|Hne].
    + by rewrite lookup_delete_eq.
    + rewrite lookup_delete_ne by done.
      rewrite Ho by (intros [i Hi]; congruence).
      cbn [heap set_heap]. by apply lookup_insert_ne.
Qed.

Lemma Reserve_Exc this n m m' :
  relocation_nothrow →
  Reserve this n m = Exc m' → vecs m' = vecs m ∧ heap m' = heap m.
Proof.
  intros Hr E. unfold Reserve in E.
  exc_step; [no_exc|]. inv_M.
  exc_step; [no_exc|].
  exc_step; [by apply RawMemory_ctor_Exc in E as ->|].
  exc_step; [|exc_step; no_exc].
  exc_step. exc_step; [|no_exc].
  apply relocate_Exc in E as [Hv Ho]; [|done].
  match goal with
  | Ec : RawMemory_ctor _ _ = _, Ed : RawMemory_dtor _ _ = _ |- _ =>
      destruct (scratch_released _ _ _ _ _ _ Ec Ho Ed) as [Hv' Hh];
      apply (respects_Ret (same_vecs T)) in Ec; [|solve_respects]
  end.
  split; [|done]. unfold same_vecs in *. congruence.
Qed.

Lemma append_Exc this (a : init) m m' :
  relocation_nothrow →
  append this a m = Exc m' → vecs m' = vecs m ∧ heap m' = heap m.
Proof.
  intros Hr E. unfold append in E.
  exc_step; [no_exc|]. inv_M.
  exc_step.
  - (* full *)
    exc_step; [by apply RawMemory_ctor_Exc in E as ->|].
    exc_step; [|exc_step; no_exc].
    exc_step.
    match goal with
    | Ec : RawMemory_ctor _ _ = Ret ?x ?m1, Ed : RawMemory_dtor _ ?m2 = _ |- _ =>
        rename x into nd;
        assert (vecs m2 = vecs m1 ∧
                outside T (fun b => ∃ i, buffer_ nd = Ptr b i) m1 m2) as [Hv Ho]
    end.
    { exc_step; [no_exc|]. inv_M.
      exc_step.
      - split.
        + eapply (respects_Exc (same_vecs T)); [|exact E]. solve_respects.
        + eapply (respects_Exc (outside T _)); [|exact E]. solve_outside.
      - match goal with Ec : construct_at _ _ ?m1 = Ret _ ?m2 |- _ =>
          assert (vecs m2 = vecs m1) as Hv1
            by (eapply (respects_Ret (same_vecs T)); [|exact Ec]; solve_respects);
          assert (outside T (fun b => ∃ i, buffer_ nd = Ptr b i) m1 m2) as Ho1
            by (eapply (respects_Ret (outside T _)); [|exact Ec]; solve_outside)
        end.
        exc_step; [|exc_step; no_exc].
        apply relocate_Exc in E as [Hv2 Ho2]; [|done].
        split; [unfold same_vecs in *; congruence|].
        by etrans. }
    match goal with
    | Ec : RawMemory_ctor _ _ = _, Ed : RawMemory_dtor _ _ = _ |- _ =>
        destruct (scratch_released _ _ _ _ _ _ Ec Ho Ed) as [Hv' Hh];
        apply (respects_Ret (same_vecs T)) in Ec; [|solve_respects]
    end.
    split; [|done]. unfold same_vecs in *. congruence.
  - (* room left *)
    exc_step; [no_exc|]. inv_M.
    exc_step; [by apply construct_at_Exc in E|].
    exc_step; no_exc.
Qed.

Lemma outside_weaken (P Q : nat → Prop) m m' :
  (∀ b, P b → Q b) → outside T P m m' → outside T Q m m'.
Proof. intros HPQ Ho c Hc. apply Ho. intros HP. by apply Hc, HPQ. Qed.

Lemma relocate_copy src n dst :
  relocates_by_move = false →
  relocate src n dst = uninitialized_copy_n src n dst.
Proof. unfold relocate, relocates_by_move. by intros ->. Qed.

Lemma nothrow_relocate src n dst :
  relocation_nothrow → relocates_by_move = true →
  nothrow T (relocate src n dst).
Proof.
  intros Hr Hp. unfold relocate.
  change (is_nothrow_move_constructible || negb is_copy_constructible)
    with relocates_by_move.
  rewrite Hp. by apply nothrow_uninitialized_move_n, Hr.
Qed.

Lemma nothrow_index_of this pos : nothrow T (index_of this pos).
Proof. unfold index_of. solve_nothrow. Qed.

Lemma emplace_Exc this pos (a : init) m m' v :
  relocation_nothrow →
  vecs m !! this = Some v → size_ v = capacity_ (data_ v) →
  emplace this pos a m = Exc m' → vecs m' = vecs m ∧ heap m' = heap m.
Proof.
  intros Hr Hv Hfull E. unfold emplace in E.
  exc_step; [by apply nothrow_index_of in E|].
  match goal with X : index_of _ _ _ = Ret _ _ |- _ =>
    apply index_of_Ret in X as [-> _] end.
  exc_step; [no_exc|]. inv_M.
  exc_step; [|exc_step; no_exc].
  exc_step.
  { exc_step; [|no_exc]. apply append_Exc in E as [? ?]; [|done].
    by split. }
  exc_step.
  2:{ unfold RawMemory_Capacity in *. congruence. }
  exc_step; [apply RawMemory_ctor_Exc in E as ->; by split|].
  exc_step; [|no_exc].
  exc_step.
  match goal with
  | Ec : RawMemory_ctor _ _ = Ret ?x ?m1, Ed : RawMemory_dtor _ ?m2 = _ |- _ =>
      rename x into nd;
      assert (vecs m2 = vecs m1 ∧
              outside T (fun b => ∃ i, buffer_ nd = Ptr b i) m1 m2) as [Hv' Ho]
  end.
  { exc_step; [no_exc|]. inv_M.
    exc_step.
    - split.
      + eapply (respects_Exc (same_vecs T)); [|exact E]. solve_respects.
      + eapply (respects_Exc (outside T _)); [|exact E]. solve_outside.
    - match goal with Ec : construct_at _ _ ?m1 = Ret _ ?m2 |- _ =>
        assert (vecs m2 = vecs m1) as Hv1
          by (eapply (respects_Ret (same_vecs T)); [|exact Ec]; solve_respects);
        assert (outside T (fun b => ∃ i, buffer_ nd = Ptr b i) m1 m2) as Ho1
          by (eapply (respects_Ret (outside T _)); [|exact Ec]; solve_outside)
      end.
      exc_step; [no_exc|]. inv_M.
      exc_step; [no_exc|]. inv_M.
      exc_step.
      + apply relocate_Exc in E as [Hv2 Ho2]; [|done].
        split; [congruence|]. by etrans.
      + destruct relocates_by_move eqn:Hp.
        { exc_step; [|no_exc]. by apply nothrow_relocate in E. }
        unfold relocate in *.
        change (is_nothrow_move_constructible || negb is_copy_constructible)
          with relocates_by_move in *.
        rewrite Hp in *. unfold GetAddress in *.
        match goal with Er : uninitialized_copy_n _ _ _ ?m1 = Ret _ ?m2 |- _ =>
          assert (vecs m2 = vecs m1) as Hv2
            by (eapply (respects_Ret (same_vecs T)); [|exact Er]; solve_respects);
          assert (outside T (fun b => ∃ i, buffer_ nd = Ptr b i) m1 m2) as Ho2
            by (eapply (respects_Ret (outside T _)); [|exact Er]; solve_outside)
        end.
        exc_step; [|no_exc].
        apply (respects_Exc (same_vecs T)) in E as Hv3; [|solve_respects].
        apply (respects_Exc (outside T (fun b => ∃ i, buffer_ nd = Ptr b i))) in E as Ho3;
          [|solve_outside].
        unfold same_vecs in *.
        split; [congruence|]. etrans; [done|]. by etrans. }
  match goal with
  | Ec : RawMemory_ctor _ _ = _, Ed : RawMemory_dtor _ _ = _ |- _ =>
      destruct (scratch_released _ _ _ _ _ _ Ec Ho Ed) as [Hv'' Hh];
      apply (respects_Ret (same_vecs T)) in Ec; [|solve_respects]
  end.
  unfold same_vecs in *. split; congruence.
Qed.

Lemma Vector_sized_Exc this n m m' :
  Vector_sized this n m = Exc m' → vecs m' = vecs m ∧ heap m' = heap m.
Proof.
  intros E. unfold Vector_sized in E.
  exc_step; [by apply RawMemory_ctor_Exc in E as ->|].
  exc_step; [|no_exc].
  exc_step.
  apply (respects_Exc (same_vecs T)) in E as Hv; [|solve_respects].
  apply (respects_Exc (outside T (fun b => ∃ i, buffer_ x = Ptr b i))) in E as Ho;
    [|unfold GetAddress; solve_outside].
  match goal with
  | Ec : RawMemory_ctor _ _ = _, Ed : RawMemory_dtor _ _ = _ |- _ =>
      destruct (scratch_released _ _ _ _ _ _ Ec Ho Ed) as [Hv' Hh];
      apply (respects_Ret (same_vecs T)) in Ec; [|solve_respects]
  end.
  unfold same_vecs in *. split; congruence.
Qed.

Lemma Vector_copy_Exc this other m m' :
  Vector_copy this other m = Exc m' → vecs m' = vecs m ∧ heap m' = heap m.
Proof.
  intros E. unfold Vector_copy in E.
  exc_step; [no_exc|]. inv_M.
  exc_step; [by apply RawMemory_ctor_Exc in E as ->|].
  exc_step; [|no_exc].
  exc_step.
  apply (respects_Exc (same_vecs T)) in E as Hv; [|solve_respects].
  match goal with Ec : RawMemory_ctor _ _ = Ret ?nd _ |- _ =>
    apply (respects_Exc (outside T (fun b => ∃ i, buffer_ nd = Ptr b i))) in E as Ho;
      [|unfold GetAddress; solve_outside]
  end.
  match goal with
  | Ec : RawMemory_ctor _ _ = _, Ed : RawMemory_dtor _ _ = _ |- _ =>
      destruct (scratch_released _ _ _ _ _ _ Ec Ho Ed) as [Hv' Hh];
      apply (respects_Ret (same_vecs T)) in Ec; [|solve_respects]
  end.
  unfold same_vecs in *. split; congruence.
Qed.

(** *** The old block after a growth *)

Lemma block_raw m b n :
  length <$> heap m !! b = Some n →
  (∀ j, 0 <= j < Z.of_nat n → slot m (Ptr b j) = Some None) →
  heap m !! b = Some (replicate n None).
Proof.
  intros Hlen Hraw. destruct (heap m !! b) as [blk|] eqn:Eb; [|done].
  injection Hlen as Hlen. f_equal. apply list_eq. intros i.
  destruct (decide (i < n)%nat).
  - rewrite lookup_replicate_2 by done.
    specialize (Hraw (Z.of_nat i) ltac:(lia)).
    apply slot_Ptr in Hraw as (_ & blk' & Eb' & Hi).
    rewrite Nat2Z.id in Hi. congruence.
  - rewrite !lookup_ge_None_2; [done|rewrite length_replicate; lia|lia].
Qed.

Lemma old_block_destroyed ob n m1 m2 :
  destroy_n (Ptr ob 0) n m1 = Ret tt m2 →
  length <$> heap m1 !! ob = Some (Z.to_nat n) →
  heap m2 !! ob = Some (replicate (Z.to_nat n) None).
Proof.
  intros Ed Hlen. apply block_raw.
  - rewrite <- Hlen. eapply (respects_Ret (same_shape T)); [|exact Ed].
    solve_respects.
  - intros j Hj. apply destroy_n_raw in Ed as [Hraw _].
    rewrite <- (Z.add_0_l j). apply Hraw. lia.
Qed.

Lemma append_old_block this a m p m' v ob :
  vecs m !! this = Some v → wf m v →
  size_ v = capacity_ (data_ v) → buffer_ (data_ v) = Ptr ob 0 →
  append this a m = Ret p m' →
  heap m' !! ob = Some (replicate (Z.to_nat (size_ v)) None).
Proof.
  intros Hv Hwf Hfull Hob E.
  destruct (wf_elim _ _ _ _ Hwf Hob) as (_ & Hlen & _).
  unfold append, RawMemory_Capacity in E. inv_M.
  match goal with X : RawMemory_ctor _ _ = Ret ?nd _ |- _ =>
    apply RawMemory_ctor_Ret in X as (Hc & [(_ & Hnull & _)|(_ & nb & Hbuf & Hf & ->)]) end.
  { rewrite Hnull in *.
    no_null_new. }
  unfold GetAddress in *. rewrite Hbuf, Hob in *.
  match goal with X : adopt _ _ _ = _ |- _ =>
    rewrite (adopt_same_heap _ _ _ _ X) end.
  match goal with X : destroy_n _ _ _ = _ |- _ =>
    apply (old_block_destroyed _ _ _ _ X) end.
  frame_shape. shape_chain ob. cbn [heap set_heap].
  rewrite lookup_insert_ne by (intros ->; by rewrite Hf in Hlen).
  by rewrite Hlen, Hfull.
Qed.

Lemma emplace_old_block this pos a m it m' v ob :
  vecs m !! this = Some v → wf m v →
  size_ v = capacity_ (data_ v) → buffer_ (data_ v) = Ptr ob 0 →
  emplace this pos a m = Ret it m' →
  heap m' !! ob = Some (replicate (Z.to_nat (size_ v)) None).
Proof.
  intros Hv Hwf Hfull Hob E.
  destruct (wf_elim _ _ _ _ Hwf Hob) as (_ & Hlen & _).
  unfold emplace in E.
  apply bind_Ret in E as (index & m0 & Ei & E).
  destruct (index_of_Ret _ _ _ _ _ Ei) as [-> Hi].
  unfold RawMemory_Capacity in E. inv_M.
  - match goal with X : append _ _ _ = _ |- _ =>
      by apply (append_old_block _ _ _ _ _ _ ob Hv Hwf Hfull Hob) in X end.
  - match goal with X : RawMemory_ctor _ _ = Ret ?nd _ |- _ =>
      apply RawMemory_ctor_Ret in X as (Hc & [(_ & Hnull & _)|(_ & nb & Hbuf & Hf & ->)]) end.
    { rewrite Hnull in *.
      no_null_new. }
    unfold GetAddress in *. rewrite Hbuf, Hob in *.
    match goal with X : adopt _ _ _ = _ |- _ =>
      rewrite (adopt_same_heap _ _ _ _ X) end.
    match goal with X : destroy_n _ _ _ = _ |- _ =>
      apply (old_block_destroyed _ _ _ _ X) end.
    frame_shape. shape_chain ob. cbn [heap set_heap].
    rewrite lookup_insert_ne by (intros ->; by rewrite Hf in Hlen).
    by rewrite Hlen, Hfull.
Qed.

(** X21: a growth through an insertion never frees the old block.
    After [PushBack], [EmplaceBack], [Emplace] or [Insert] on a
    well-formed vector whose size equals its capacity and which holds
    a block, that block is still allocated, every slot of it is raw
    (the elements have been destroyed), and no [Vector] of the store
    holds it: [data_ = std::move(new_data)] overwrites the pointer
    without deallocating. *)
Theorem growth_abandons_old_block c this a m m' v ob :
  sound m →
  inserts c = Some (this, a) →
  vecs m !! this = Some v →
  size_ v = capacity_ (data_ v) →
  buffer_ (data_ v) = Ptr ob 0 →
  exec c m = Ret tt m' →
  heap m' !! ob = Some (replicate (Z.to_nat (capacity_ (data_ v))) None) ∧
  ∀ a' u o, vecs m' !! a' = Some u → buffer_ (data_ u) ≠ Ptr ob o.
Proof.
  intros [Hwfs Hsep] Hc Hv Hfull Hob E.
  pose proof (Hwfs _ _ Hv) as Hwf. simpl in Hwf.
  pose proof Hwf as ([Hsr _] & _).
  destruct (wf_elim _ _ _ _ Hwf Hob) as (_ & Hlen & _).
  assert (∃ nb, heap m !! nb = None ∧
            vecs m' = <[this := mkVector (mkRawMemory (Ptr nb 0) (grown (size_ v)))
                                         (wrap (size_ v + 1))]> (vecs m) ∧
            heap m' !! ob = Some (replicate (Z.to_nat (size_ v)) None))
    as (nb & Hf & Hm' & Hold).
  { destruct (exec_inserts _ _ _ _ _ Hc E) as [[p Ea]|(pos & it & Ee)].
    - destruct (append_grow _ _ _ _ _ _ Hv Hfull Ea) as (nb & _ & Hf & Hm' & _).
      exists nb. split; [done|]. split; [done|].
      by apply (append_old_block _ _ _ _ _ _ _ Hv Hwf Hfull Hob Ea).
    - destruct (emplace_grow _ _ _ _ _ _ _ Hv Hsr Hfull Ee)
        as (nb & index & _ & _ & _ & Hf & Hm' & _).
      exists nb. split; [done|]. split; [done|].
      by apply (emplace_old_block _ _ _ _ _ _ _ _ Hv Hwf Hfull Hob Ee). }
  split; [by rewrite <- Hfull|].
  intros a' u o Hu Hbu. rewrite Hm' in Hu.
  destruct (decide (a' = this)) as [->|Hne].
  - rewrite lookup_insert_eq in Hu. injection Hu as <-. simpl in Hbu.
    injection Hbu as -> _. by rewrite Hf in Hlen.
  - rewrite lookup_insert_ne in Hu by done.
    by destruct (Hsep a' this u v ob o 0 Hu Hv Hbu Hob).
Qed.

(** X22: a growing [Reserve] frees the old block.  After
    [Reserve(n)] with [n] above the capacity of a well-formed vector,
    the vector holds a block that was not allocated before, the block
    it held is no longer in the heap, and every other block that was
    there is what it was. *)
Theorem Reserve_frees_old_block this n m m' v :
  vecs m !! this = Some v → wf m v →
  capacity_ (data_ v) < n →
  Reserve this n m = Ret tt m' →
  ∃ nb, heap m !! nb = None ∧ is_Some (heap m' !! nb) ∧
        vecs m' !! this = Some (mkVector (mkRawMemory (Ptr nb 0) n) (size_ v)) ∧
        (∀ ob o, buffer_ (data_ v) = Ptr ob o → heap m' !! ob = None) ∧
        (∀ c, is_Some (heap m !! c) → (∀ o, buffer_ (data_ v) ≠ Ptr c o) →
              heap m' !! c = heap m !! c).
Proof.
  intros Hv Hwf Hlt E.
  destruct (Reserve_block _ _ _ _ _ Hv Hwf Hlt E)
    as (nb & Hf & Hm' & Hlen & _ & _ & Hfree & Hframe).
  exists nb. split; [done|]. split; [by destruct (heap m' !! nb)|].
  split; [rewrite Hm'; apply lookup_insert_eq|]. by split.
Qed.

(** *** Memories with the same live objects *)

#[local] Instance same_live_preorder : PreOrder (same_live T).
Proof.
  split; [by split|].
  intros m1 m2 m3 [S1 L1] [S2 L2]. split; [by etrans|].
  intros p. by rewrite L2, L1.
Qed.

Lemma same_heap_same_live {A} (c : M A) :
  respects (same_heap T) c → respects (same_live T) c.
Proof.
  intros Hc m. specialize (Hc m). unfold same_heap in Hc.
  destruct (c m) as [a m'|m'|]; try done;
    (split; [intros b; by rewrite Hc|intros p; by rewrite (slot_same_heap _ _ _ Hc)]).
Qed.

Lemma same_live_wf m m' v : same_live T m m' → wf m v → wf m' v.
Proof.
  intros [Hs Hl] Hwf. pose proof Hwf as (Hr & Hi & Hb).
  destruct (buffer_ (data_ v)) as [|b o] eqn:Hbuf.
  { split; [done|]. split; [done|]. by rewrite Hbuf. }
  destruct (wf_elim _ _ _ _ Hwf Hbuf) as (-> & Hlen & Hlive & Hraw).
  apply (wf_intro _ _ b); try done.
  - by rewrite Hs.
  - intros k Hk. destruct (Hlive k Hk) as [x Hx]. specialize (Hl (Ptr b k)).
    unfold live in *. destruct (slot m (Ptr b k)) as [[y|]|]; try done.
    by destruct (slot m' (Ptr b k)) as [[z|]|].
  - intros k Hk. specialize (Hl (Ptr b k)). rewrite (Hraw k Hk) in Hl.
    by destruct (slot m' (Ptr b k)) as [[z|]|].
Qed.

Lemma same_live_sound m m' :
  vecs m' = vecs m → same_live T m m' → sound m → sound m'.
Proof.
  intros Hv Hl [Hwf Hsep]. split.
  - intros a v Ha. rewrite Hv in Ha. simpl.
    apply (same_live_wf m); [done|]. by apply (Hwf _ _ Ha).
  - unfold separate. rewrite Hv. exact Hsep.
Qed.

Lemma same_state_sound m m' :
  vecs m' = vecs m → heap m' = heap m → sound m → sound m'.
Proof.
  intros Hv Hh. apply same_live_sound; [done|].
  split; [intros b; by rewrite Hh|intros p; by rewrite (slot_same_heap _ _ _ Hh)].
Qed.

(** An assignment replaces a live object by a live object. *)
Lemma store_over_live p x y m m' :
  slot m p = Some (Some y) →
  store p (Some x) m = Ret tt m' → same_live T m m'.
Proof.
  intros Hp E. split.
  - eapply (respects_Ret (same_shape T)); [|exact E]. solve_respects.
  - apply store_slot in E as [_ Hq]. intros q. rewrite Hq.
    case_decide; [subst q; by rewrite Hp|done].
Qed.

Lemma add_log_same_live e m : same_live T m (add_log e m).
Proof. split; [by intros b|by intros p]. Qed.

Lemma copy_assign_same_live src dst : respects (same_live T) (copy_assign src dst).
Proof.
  intros m. unfold copy_assign, bind, load, emit, throw.
  destruct (slot m src) as [[x|]|]; try done.
  destruct (slot m dst) as [[y|]|] eqn:Hd; try done.
  destruct (copy_assign_throws x); [apply add_log_same_live|].
  destruct (store dst (Some x) _) as [[] m'|m'|] eqn:E; try done.
  - etrans; [apply add_log_same_live|].
    exact (store_over_live dst x y (add_log _ m) m' Hd E).
  - by destruct (nothrow_store _ _ _ _ E).
Qed.

Lemma move_assign_same_live src dst : respects (same_live T) (move_assign src dst).
Proof.
  intros m. unfold move_assign, bind, load, emit, throw.
  destruct (slot m src) as [[x|]|] eqn:Hs; try done.
  destruct (slot m dst) as [[y|]|] eqn:Hd; try done.
  destruct (move_assign_throws x); [apply add_log_same_live|].
  destruct (store dst (Some x) _) as [[] m1|m1|] eqn:E1; try done.
  - pose proof (store_over_live dst x y (add_log _ m) m1 Hd E1) as L1.
    apply store_slot in E1 as [_ Hq].
    assert (∃ z, slot m1 src = Some (Some z)) as [z Hz].
    { rewrite Hq. case_decide; [eauto|]. rewrite slot_add_log. eauto. }
    destruct (store src (Some (moved_from x)) m1) as [[] m2|m2|] eqn:E2; try done.
    + etrans; [apply add_log_same_live|]. etrans; [exact L1|].
      exact (store_over_live src _ z m1 m2 Hz E2).
    + by destruct (nothrow_store _ _ _ _ E2).
  - by destruct (nothrow_store _ _ _ _ E1).
Qed.

Ltac solve_live :=
  repeat first
    [ respects_step
    | apply same_heap_same_live; solve [eauto with respects]
    | apply copy_assign_same_live
    | apply move_assign_same_live
    | progress unfold copy_n, distance, std_move, RawMemory_plus,
        RawMemory_index ].

Lemma copy_n_same_live src n dst : respects (same_live T) (copy_n src n dst).
Proof. solve_live. Qed.

Lemma std_move_same_live first last d_first :
  respects (same_live T) (std_move first last d_first).
Proof. solve_live. Qed.

(** *** Construction that is rolled back *)

(** A loop that throws has run some iterations to the end and thrown
    in the next one. *)
Lemma for_n_Exc body k : ∀ i m m',
  for_n k i body m = Exc m' →
  ∃ j m1, i <= j < i + Z.of_nat k ∧
          for_n (Z.to_nat (j - i)) i body m = Ret tt m1 ∧
          body j m1 = Exc m'.
Proof.
  induction k as [|k IH]; intros i m m' E; simpl in E; [done|].
  apply bind_Exc in E as [E|([] & m1 & E1 & E2)].
  - exists i, m. split; [lia|]. by rewrite Z.sub_diag.
  - destruct (IH (i + 1) m1 m' E2) as (j & m2 & Hj & Ep & Eb).
    exists j, m2. split; [lia|]. split; [|done].
    replace (Z.to_nat (j - i)) with (S (Z.to_nat (j - (i + 1)))) by lia.
    simpl. by rewrite (run_bind _ _ _ _ _ E1).
Qed.

Lemma heap_ext m m' :
  same_shape T m m' → (∀ q, slot m' q = slot m q) → heap m' = heap m.
Proof.
  intros Hs Hq. apply map_eq. intros b. specialize (Hs b).
  destruct (heap m' !! b) as [blk'|] eqn:E', (heap m !! b) as [blk|] eqn:E;
    try done.
  f_equal. apply list_eq. intros i.
  specialize (Hq (Ptr b (Z.of_nat i))). unfold slot in Hq.
  rewrite E, E' in Hq. simpl in Hq.
  destruct (Z.leb_spec 0 (Z.of_nat i)); [|lia]. by rewrite Nat2Z.id in Hq.
Qed.

(** The loop of the [uninitialized_*_n] algorithms: each iteration
    builds one object in the next slot; when one throws, the objects
    built are destroyed, and the slots, raw before, are raw again. *)
Lemma rollback_slots (c : Z → M unit) b o n m m' :
  (∀ j m1 m2, c j m1 = Ret tt m2 →
     ∀ q, q ≠ Ptr b (o + j) → slot m2 q = slot m1 q) →
  (∀ j m1 m2, c j m1 = Exc m2 → ∀ q, slot m2 q = slot m1 q) →
  (∀ j, 0 <= j < n → slot m (Ptr b (o + j)) = Some None) →
  for_n (Z.to_nat n) 0
    (fun j => on_exception (c j) (destroy_n (Ptr b o) j)) m = Exc m' →
  ∀ q, slot m' q = slot m q.
Proof.
  intros Hret Hexc Hraw E q.
  apply for_n_Exc in E as (j & m1 & Hj & Ep & Eb).
  rewrite Z.sub_0_r in Ep.
  apply on_exception_Exc in Eb as (m2 & Ec & Ed).
  apply destroy_n_raw in Ed as [D1 D2].
  assert (∀ q, (∀ i, 0 <= i < j → q ≠ Ptr b (o + i)) → slot m1 q = slot m q)
    as Hpre.
  { intros q' Hq'.
    apply (for_n_touches (fun i => Ptr b (o + i)) _ _ _ _ _
             (fun i m3 m4 E3 => Hret i m3 m4 (on_exception_Ret _ _ _ _ _ E3)) Ep).
    intros i Hi. apply Hq'. lia. }
  destruct q as [|c' k].
  { rewrite D2 by done. rewrite (Hexc _ _ _ Ec). by apply Hpre. }
  destruct (decide (c' = b ∧ o <= k < o + j)) as [[-> Hk]|Hn].
  - replace k with (o + (k - o)) by lia.
    rewrite D1 by lia. rewrite Hraw by lia. done.
  - assert (∀ i, 0 <= i < j → Ptr c' k ≠ Ptr b (o + i)) as Hq'
      by (intros i Hi [= -> ->]; apply Hn; split; [done|lia]).
    rewrite D2 by done. rewrite (Hexc _ _ _ Ec). by apply Hpre.
Qed.

Lemma value_construct_at_Exc p m m' :
  value_construct_at p m = Exc m' → heap m' = heap m.
Proof.
  unfold value_construct_at, bind, emit, throw.
  destruct value_init_throws; [by intros [= <-]|].
  intros E. by destruct (nothrow_store _ _ _ _ E).
Qed.

Lemma copy_construct_Exc src dst m m' :
  copy_construct src dst m = Exc m' → heap m' = heap m.
Proof.
  unfold copy_construct, bind, load, emit, throw.
  destruct (slot m src) as [[x|]|]; try done.
  destruct (copy_throws x); [by intros [= <-]|].
  intros E. by destruct (nothrow_store _ _ _ _ E).
Qed.

Lemma uninitialized_value_construct_n_Exc b o n m m' :
  (∀ j, 0 <= j < n → slot m (Ptr b (o + j)) = Some None) →
  uninitialized_value_construct_n (Ptr b o) n m = Exc m' →
  vecs m' = vecs m ∧ heap m' = heap m.
Proof.
  intros Hraw E. split.
  { eapply (respects_Exc (same_vecs T)); [|exact E]. solve_respects. }
  apply heap_ext.
  { eapply (respects_Exc (same_shape T)); [|exact E]. solve_respects. }
  unfold uninitialized_value_construct_n in E.
  apply (rollback_slots (fun j => value_construct_at (Ptr b o +p j)) b o n m m');
    [| |done|done].
  - intros j m1 m2 E1 q Hq. rewrite (value_construct_at_slot _ _ _ E1).
    by rewrite decide_False.
  - intros j m1 m2 E1 q. by apply slot_same_heap, (value_construct_at_Exc _ _ _ E1).
Qed.

Lemma uninitialized_copy_n_Exc src b o n m m' :
  (∀ j, 0 <= j < n → slot m (Ptr b (o + j)) = Some None) →
  uninitialized_copy_n src n (Ptr b o) m = Exc m' →
  vecs m' = vecs m ∧ heap m' = heap m.
Proof.
  intros Hraw E. split.
  { eapply (respects_Exc (same_vecs T)); [|exact E]. solve_respects. }
  apply heap_ext.
  { eapply (respects_Exc (same_shape T)); [|exact E]. solve_respects. }
  unfold uninitialized_copy_n in E.
  apply (rollback_slots (fun j => copy_construct (src +p j) (Ptr b o +p j))
           b o n m m'); [| |done|done].
  - intros j m1 m2 E1 q Hq. apply copy_construct_slot in E1 as [_ E1].
    rewrite E1. by rewrite decide_False.
  - intros j m1 m2 E1 q. by apply slot_same_heap, (copy_construct_Exc _ _ _ _ E1).
Qed.

(** *** Member functions that throw *)

Lemma updates_same_state this v v' m m1 m' :
  updates this v v' m m1 → vecs m' = vecs m1 → heap m' = heap m1 →
  updates this v v' m m'.
Proof.
  intros (Hm & Hnew & Hframe) Hv Hh. split; [congruence|]. split; [done|].
  intros c Hc Hne. rewrite Hh. by apply Hframe.
Qed.

(** [Resize] that throws: the vector may have a new block, and has
    the size and the elements it had. *)
Lemma Resize_Exc this n m m' v l :
  relocation_nothrow →
  vecs m !! this = Some v → wf m v → contents m v = Some l →
  in_size_t n → n * sizeof < size_t_modulus →
  Resize this n m = Exc m' →
  ∃ v', updates this v v' m m' ∧ wf m' v' ∧
        size_ v' = size_ v ∧ contents m' v' = Some l ∧
        (capacity_ (data_ v') = capacity_ (data_ v) ∨
         capacity_ (data_ v') = n).
Proof.
  intros Hr Hv Hwf Hl Hn Hno E.
  pose proof Hwf as ([Hsr Hcr] & [Hs0 Hsc] & _).
  unfold Resize in E. rewrite (run_bind _ _ _ _ _ (get_Some _ _ _ Hv)) in E.
  case_decide as Heq; [done|].
  destruct (Z.ltb_spec n (size_ v)) as [Hlt|Hge].
  { exc_step; no_exc. }
  exc_step.
  - (* Reserve throws *)
    apply Reserve_Exc in E as [Hv' Hh]; [|done].
    exists v. split.
    { apply (updates_same_state _ _ _ m m); [by apply updates_refl|done..]. }
    split; [apply (wf_frame m); [done|intros; by rewrite Hh]|].
    split; [done|]. split; [by rewrite (contents_same_heap _ _ _ Hh)|by left].
  - (* a constructor throws *)
    match goal with X : Reserve _ _ _ = Ret ?u _ |- _ =>
      destruct u;
      destruct (Reserve_spec _ _ _ _ _ _ Hv Hwf Hl Hn Hno X)
        as (v1 & Hup & Hwf1 & Hs1 & Hc1 & Hl1) end.
    pose proof Hup as (Hm1 & _).
    exc_step; [no_exc|].
    match goal with X : get _ _ = Ret _ _ |- _ =>
      apply get_Ret in X as [-> Hv1] end.
    rewrite Hm1, lookup_insert_eq in Hv1. injection Hv1 as <-.
    exc_step; [|no_exc].
    destruct (wf_buffer _ _ Hwf1) as [(_ & _ & Hz)|(b & Hb & _)]; [lia|].
    destruct (wf_elim _ _ _ _ Hwf1 Hb) as (_ & _ & _ & Hraw).
    unfold GetAddress in E. rewrite Hb in E. cbn [ptr_add] in E.
    rewrite Z.add_0_l in E.
    apply uninitialized_value_construct_n_Exc in E as [Hv' Hh].
    2:{ intros j Hj. apply Hraw.
        rewrite wrap_small in Hj by (unfold in_size_t in *; lia). lia. }
    exists v1. split; [by apply (updates_same_state _ _ _ m x0)|].
    split; [apply (wf_frame x0); [done|intros; by rewrite Hh]|].
    split; [done|]. split; [by rewrite (contents_same_heap _ _ _ Hh)|].
    lia.
Qed.

(** [Erase] that throws has assigned elements and nothing else. *)
Lemma Erase_Exc this pos m m' :
  Erase this pos m = Exc m' → vecs m' = vecs m ∧ same_live T m m'.
Proof.
  intros E. unfold Erase in E.
  exc_step; [by apply nothrow_index_of in E|].
  match goal with X : index_of _ _ _ = Ret _ _ |- _ =>
    apply index_of_Ret in X as [-> _] end.
  exc_step; [no_exc|]. inv_M.
  exc_step; [no_exc|]. inv_M.
  exc_step; [no_exc|]. inv_M.
  exc_step; [no_exc|]. inv_M.
  exc_step.
  - split.
    + eapply (respects_Exc (same_vecs T)); [|exact E]. solve_respects.
    + eapply (respects_Exc (same_live T)); [|exact E]. apply std_move_same_live.
  - exc_step; [no_exc|]. exc_step; [no_exc|]. exc_step; no_exc.
Qed.

Lemma same_heap_live m m' : heap m' = heap m → same_live T m m'.
Proof.
  intros Hh. split; [intros b; by rewrite Hh|].
  intros p. by rewrite (slot_same_heap _ _ _ Hh).
Qed.

(** Copy assignment that throws has assigned elements, and has
    created or destroyed none. *)
Lemma Vector_copy_assign_Exc this rhs m m' :
  store_wf m →
  Vector_copy_assign this rhs m = Exc m' →
  vecs m' = vecs m ∧ same_live T m m'.
Proof.
  intros Hwfs E. unfold Vector_copy_assign in E. case_decide; [|done].
  exc_step; [no_exc|]. inv_M.
  exc_step; [no_exc|]. inv_M.
  match goal with
  | X : vecs m !! this = Some ?t0, Y : vecs m !! rhs = Some ?r0 |- _ =>
      rename t0 into t; rename r0 into r; rename X into Ht; rename Y into Hr
  end.
  pose proof (Hwfs _ _ Ht) as Hwt. pose proof (Hwfs _ _ Hr) as Hwr.
  simpl in Hwt, Hwr.
  pose proof Hwt as ([Htr Htc] & [Ht0 Htsc] & _).
  pose proof Hwr as ([Hrr Hrc] & [Hr0 Hrsc] & _).
  unfold RawMemory_Capacity, GetAddress in E.
  exc_step.
  - (* copy and swap *)
    exc_step; [no_exc|].
    match goal with X : new_local _ = Ret _ _ |- _ =>
      unfold new_local in X; injection X as <- <- end.
    exc_step; [|exc_step; no_exc].
    apply Vector_copy_Exc in E as [? ?]. split; [done|by apply same_heap_live].
  - exc_step.
    + (* fewer elements *)
      exc_step; [|exc_step; no_exc].
      split.
      * eapply (respects_Exc (same_vecs T)); [|exact E]. solve_respects.
      * eapply (respects_Exc (same_live T)); [|exact E]. apply copy_n_same_live.
    + (* more elements *)
      exc_step.
      { split.
        * eapply (respects_Exc (same_vecs T)); [|exact E]. solve_respects.
        * eapply (respects_Exc (same_live T)); [|exact E]. apply copy_n_same_live. }
      match goal with X : copy_n _ _ _ _ = Ret ?it0 ?m0 |- _ =>
        rename X into Ec; rename it0 into it; rename m0 into m1 end.
      assert (vecs m1 = vecs m) as Hv1
        by (eapply (respects_Ret (same_vecs T)); [|exact Ec]; solve_respects).
      assert (same_live T m m1) as Hl1
        by (eapply (respects_Ret (same_live T)); [|exact Ec]; apply copy_n_same_live).
      exc_step; [|no_exc].
      assert (it = buffer_ (data_ t) +p size_ t) as ->
        by (unfold copy_n in Ec; by inv_M).
      pose proof (same_live_wf _ _ _ Hl1 Hwt) as Hwt1.
      destruct (Z.gtb_spec (capacity_ (data_ r)) (capacity_ (data_ t))); [done|].
      destruct (Z.gtb_spec (size_ t) (size_ r)); [done|].
      rewrite wrap_small in E by (unfold in_size_t in *; lia).
      destruct (wf_buffer _ _ Hwt1) as [(_ & Hz & Hc)|(b & Hb & _)].
      { assert (size_ r - size_ t = 0) as Hd by lia.
        rewrite Hd in E. done. }
      destruct (wf_elim _ _ _ _ Hwt1 Hb) as (_ & _ & _ & Hraw).
      rewrite Hb in E. cbn [ptr_add] in E. rewrite Z.add_0_l in E.
      apply uninitialized_copy_n_Exc in E as [Hv' Hh].
      2:{ intros j Hj. apply Hraw. lia. }
      split; [congruence|]. etrans; [exact Hl1|]. by apply same_heap_live.
Qed.

Lemma move_construct_Exc src dst m m' :
  move_construct src dst m = Exc m' → vecs m' = vecs m ∧ heap m' = heap m.
Proof.
  unfold move_construct, bind, load, emit, throw.
  destruct (slot m src) as [[x|]|]; try done.
  destruct (move_throws x); [by intros [= <-]|].
  intros E. exfalso. revert E.
  change (store dst (Some x) (add_log (EvMoveCtor (At src) (At dst)) m))
    with ((store dst (Some x)) (add_log (EvMoveCtor (At src) (At dst)) m)).
  destruct (store dst (Some x) _) as [[] m1|m1|] eqn:E1; try done.
  - intros E. by destruct (nothrow_store _ _ _ _ E).
  - by destruct (nothrow_store _ _ _ _ E1).
Qed.

Lemma construct_local_Exc a m m' :
  construct_local a m = Exc m' → vecs m' = vecs m ∧ heap m' = heap m.
Proof.
  unfold construct_local, bind, emit, throw, ret.
  destruct (init_throws a); [by intros [= <-]|done].
Qed.

Lemma nothrow_move_assign src dst :
  (∀ x, move_assign_throws x = false) → nothrow T (move_assign src dst).
Proof.
  intros Hm. unfold move_assign. apply nothrow_bind; [apply nothrow_load|].
  intros x. rewrite Hm. solve_nothrow.
Qed.

Lemma nothrow_move_assign_local x dst :
  (∀ x, move_assign_throws x = false) → nothrow T (move_assign_local x dst).
Proof. intros Hm. unfold move_assign_local. rewrite Hm. solve_nothrow. Qed.

Lemma nothrow_move_backward first last d_last :
  (∀ x, move_assign_throws x = false) →
  nothrow T (move_backward first last d_last).
Proof.
  intros Hm. unfold move_backward. apply nothrow_bind; [solve_nothrow|].
  intros n. apply nothrow_for_n. intros j. by apply nothrow_move_assign.
Qed.

(** An insertion that throws, when a move assignment cannot *)
Lemma emplace_Exc_any this pos (a : init) m m' :
  relocation_nothrow → (∀ x, move_assign_throws x = false) →
  emplace this pos a m = Exc m' → vecs m' = vecs m ∧ heap m' = heap m.
Proof.
  intros Hr Hm E.
  assert (is_Some (vecs m !! this)) as [v Hv].
  { unfold emplace in E. exc_step; [by apply nothrow_index_of in E|].
    match goal with X : index_of _ _ _ = Ret _ _ |- _ =>
      apply index_of_Ret in X as [-> _] end.
    exc_step; [no_exc|]. inv_M. eauto. }
  destruct (decide (size_ v = capacity_ (data_ v))) as [Hfull|Hroom];
    [by apply (emplace_Exc _ _ _ _ _ _ Hr Hv Hfull) in E|].
  unfold emplace in E.
  exc_step; [by apply nothrow_index_of in E|].
  match goal with X : index_of _ _ _ = Ret _ _ |- _ =>
    apply index_of_Ret in X as [-> _] end.
  exc_step; [no_exc|]. inv_M.
  exc_step; [|exc_step; no_exc].
  exc_step.
  { exc_step; [|no_exc]. by apply append_Exc in E. }
  exc_step; [unfold RawMemory_Capacity in *; congruence|].
  exc_step; [by apply construct_local_Exc in E|].
  match goal with X : construct_local _ _ = Ret _ ?m0 |- _ =>
    assert (vecs m0 = vecs m ∧ heap m0 = heap m) as [Hv0 Hh0]
      by (unfold construct_local in X; inv_M;
          match goal with Y : emit _ _ = Ret _ _ |- _ =>
            apply emit_Ret in Y as -> end; done)
  end.
  exc_step; [|no_exc].
  exc_step.
  match goal with X : emit _ _ = Ret _ _ |- _ => apply emit_Ret in X as -> end.
  cbn [vecs heap add_log].
  exc_step; [no_exc|]. inv_M.
  exc_step; [no_exc|]. inv_M.
  exc_step.
  { apply move_construct_Exc in E as [? ?]. split; congruence. }
  exfalso.
  exc_step; [by apply nothrow_move_backward in E|].
  exc_step; [no_exc|].
  exc_step; [by apply nothrow_move_assign_local in E|].
  no_exc.
Qed.

(** X18: [Reserve] gives the strong exception guarantee.  If the call
    throws ([operator new] fails, or a copy constructor throws while
    the elements are copied to the new block), then every [Vector]
    object and every block of the heap is what it was before the
    call, so every vector has the elements it had; the new block has
    been freed.  A relocation by move is taken not to throw. *)
Theorem Reserve_throw_restores this n m m' :
  relocation_nothrow →
  Reserve this n m = Exc m' →
  vecs m' = vecs m ∧ heap m' = heap m ∧
  ∀ v, contents m' v = contents m v.
Proof.
  intros Hr E. destruct (Reserve_Exc _ _ _ _ Hr E) as [Hv Hh].
  auto using contents_same_heap.
Qed.

(** An insertion that throws, whatever its arguments: what holds of
    the memory after the insertion of a temporary holds of it, with
    the memory before replaced by the one where the construction of
    the new element has left the arguments. *)
Lemma fwd_Exc {B} (f : forwarded → M B) (a : forwarded) (P : Prop) m m' :
  (∀ src, (f (MoveOf src) m = Exc m ∧ P) ∨
     match live m src with
     | Some x =>
         f (MoveOf src) m = f (ByMove x) (constructed_from (MoveOf src) m)
     | None => f (MoveOf src) m = Abort
     end) →
  (∀ (a0 : init) m0 m1, vecs m0 = vecs m → f a0 m0 = Exc m1 →
     vecs m1 = vecs m0 ∧ heap m1 = heap m0) →
  f a m = Exc m' →
  ∃ m0, (m0 = m ∨ (forwarded_throws m a = false ∧ m0 = moved_out a m)) ∧
        vecs m' = vecs m0 ∧ heap m' = heap m0.
Proof.
  intros Hsim Hval E. destruct a as [a|src].
  - exists m. split; [by left|]. by apply (Hval a).
  - destruct (Hsim src) as [[E0 _]|E1].
    { rewrite E0 in E. injection E as <-. exists m. split; [by left|done]. }
    destruct (live m src) as [x|] eqn:Hx; [|congruence].
    rewrite E1 in E. apply Hval in E; [|apply constructed_from_vecs].
    unfold constructed_from in E. cbn [forwarded_throws] in *. rewrite Hx in *.
    destruct (move_throws x) eqn:Ht.
    + exists m. split; [by left|done].
    + exists (moved_out (MoveOf src) m). split; [by right|done].
Qed.

Lemma append_fwd_Exc this (a : forwarded) m m' :
  relocation_nothrow →
  append this a m = Exc m' →
  ∃ m0, (m0 = m ∨ (forwarded_throws m a = false ∧ m0 = moved_out a m)) ∧
        vecs m' = vecs m0 ∧ heap m' = heap m0.
Proof.
  intros Hr E.
  apply (fwd_Exc (append this) a (full this m) m m');
    [intros src; apply append_MoveOf_eq| |exact E].
  intros a0 m0 m1 _ E0. by apply append_Exc in E0.
Qed.

Lemma emplace_fwd_Exc this pos (a : forwarded) m m' v :
  relocation_nothrow →
  vecs m !! this = Some v → size_ v = capacity_ (data_ v) →
  emplace this pos a m = Exc m' →
  ∃ m0, (m0 = m ∨ (forwarded_throws m a = false ∧ m0 = moved_out a m)) ∧
        vecs m' = vecs m0 ∧ heap m' = heap m0.
Proof.
  intros Hr Hv Hfull E.
  apply (fwd_Exc (emplace this pos) a (full this m) m m');
    [intros src; apply emplace_MoveOf_eq| |exact E].
  intros a0 m0 m1 Hv0 E0.
  apply (emplace_Exc _ _ _ _ _ v Hr) in E0; [done| |done]. by rewrite Hv0.
Qed.

Lemma emplace_fwd_Exc_any this pos (a : forwarded) m m' :
  relocation_nothrow → (∀ x, move_assign_throws x = false) →
  emplace this pos a m = Exc m' →
  ∃ m0, (m0 = m ∨ (forwarded_throws m a = false ∧ m0 = moved_out a m)) ∧
        vecs m' = vecs m0 ∧ heap m' = heap m0.
Proof.
  intros Hr Hm E.
  apply (fwd_Exc (emplace this pos) a (full this m) m m');
    [intros src; apply emplace_MoveOf_eq| |exact E].
  intros a0 m0 m1 _ E0. by apply (emplace_Exc_any _ _ _ _ _ Hr Hm) in E0.
Qed.

Lemma fwd_Exc_sound (a : forwarded) (P : Prop) m m0 m' :
  sound m → m0 = m ∨ (P ∧ m0 = moved_out a m) →
  vecs m' = vecs m0 → heap m' = heap m0 → sound m'.
Proof.
  intros Hs Hm0 Hv Hh. apply (same_state_sound m0); [done..|].
  destruct Hm0 as [->|[_ ->]]; [done|by apply moved_out_sound].
Qed.

(** X19: the strong exception guarantee of the insertions, and where
    it ends.  If [PushBack] or [EmplaceBack] throws, or if [Emplace]
    or [Insert] throws on a vector whose size equals its capacity or
    for an element type whose move assignment does not throw, then
    every [Vector] object is what it was before the call, and every
    block of the heap is what it was, whichever step threw (the
    allocation, the construction of the new element or the copy of an
    old one), with one exception: when the new element had been
    constructed from an object in a block handed over as an rvalue, as
    in [v.PushBack(std::move(v[0]))], and a later step threw, that
    object is left moved-from.  A relocation by move is taken not to
    throw. *)
Theorem insertion_throw_restores c this a m m' v :
  relocation_nothrow →
  inserts c = Some (this, a) →
  vecs m !! this = Some v →
  appends c = Some (this, a) ∨ size_ v = capacity_ (data_ v) ∨
    (∀ x, move_assign_throws x = false) →
  exec c m = Exc m' →
  ∃ m0, (m0 = m ∨ (forwarded_throws m a = false ∧ m0 = moved_out a m)) ∧
        vecs m' = vecs m ∧ heap m' = heap m0 ∧
        ∀ u, contents m' u = contents m0 u.
Proof.
  intros Hr Hc Hv Hor E.
  enough (∃ m0, (m0 = m ∨ (forwarded_throws m a = false ∧ m0 = moved_out a m)) ∧
                vecs m' = vecs m0 ∧ heap m' = heap m0)
    as (m0 & Hm0 & Hv' & Hh).
  { exists m0. split; [done|]. split; [|auto using contents_same_heap].
    rewrite Hv'. destruct Hm0 as [->|[_ ->]]; [done|apply moved_out_vecs]. }
  assert ((∃ p : ptr, appends c = Some (this, a) ∧ False) ∨
          append this a m = Exc m' ∨
          ((size_ v = capacity_ (data_ v) ∨ (∀ x, move_assign_throws x = false)) ∧
           ∃ pos, emplace this pos a m = Exc m')) as [(_ & _ & [])|[Ea|[Hor' [pos Ee]]]].
  { destruct c; simpl in Hc; simplify_eq; simpl in E;
      unfold PushBack, PushBack_rvalue, EmplaceBack, Insert,
        Insert_rvalue, Emplace in E;
      (exc_split; [|no_exc]); eauto;
      destruct Hor as [Ha|Hor]; [done|eauto|done|eauto|done|eauto]. }
  - by apply (append_fwd_Exc this).
  - destruct Hor' as [Hfull|Hm].
    + by apply (emplace_fwd_Exc this pos a m m' v).
    + by apply (emplace_fwd_Exc_any this pos).
Qed.

(** X20: a constructor that throws leaves nothing behind.  If
    [Vector(size)] or the copy constructor throws, or a copy
    assignment from a vector of larger capacity (which builds a copy
    and swaps with it), then every [Vector] object and every block of
    the heap is what it was before the call: no vector has been
    created or changed and the block allocated for the copy has been
    freed. *)
Theorem building_throw_restores c m m' :
  match c with
  | CallSized _ _ | CallCopy _ _ => True
  | CallCopyAssign this rhs =>
      ∃ t r, vecs m !! this = Some t ∧ vecs m !! rhs = Some r ∧
             capacity_ (data_ t) < capacity_ (data_ r)
  | _ => False
  end →
  exec c m = Exc m' →
  vecs m' = vecs m ∧ heap m' = heap m ∧
  ∀ u, contents m' u = contents m u.
Proof.
  intros Hc E.
  assert (vecs m' = vecs m ∧ heap m' = heap m) as [Hv' Hh];
    [|auto using contents_same_heap].
  destruct c; try done; simpl in E.
  - by apply Vector_sized_Exc in E.
  - by apply Vector_copy_Exc in E.
  - destruct Hc as (t & r & Ht & Hr & Hlt).
    unfold Vector_copy_assign in E. case_decide; [|done].
    exc_step; [no_exc|]. inv_M.
    exc_step; [no_exc|]. inv_M.
    unfold RawMemory_Capacity in E.
    destruct (Z.gtb_spec (capacity_ (data_ r)) (capacity_ (data_ t))); [|lia].
    exc_step; [no_exc|].
    match goal with X : new_local _ = Ret _ _ |- _ =>
      unfold new_local in X; injection X as <- <- end.
    exc_step; [by apply Vector_copy_Exc in E|].
    exc_step; no_exc.
Qed.

(** X23: the basic exception guarantee.  If every vector of the store
    is well formed and no two hold the same block, the same is true
    after any public member function that throws: no element is
    left outside [0, size), no block is shared.  [Emplace] and
    [Insert] need an element type whose move assignment does not
    throw; a relocation by move is taken not to throw, arguments are
    in the range of [size_t], and for [Resize(n)] so is
    [n * sizeof(T)]. *)
Theorem exec_throw_keeps_sound c m m' :
  sound m → args_representable c → resize_fits c →
  relocation_nothrow →
  (shifts c = true → ∀ x, move_assign_throws x = false) →
  exec c m = Exc m' →
  sound m'.
Proof.
  intros Hs Ha Hfit Hr Hm E. pose proof Hs as [Hwfs _].
  destruct c; simpl in E, Ha, Hfit, Hm;
    unfold PushBack, PushBack_rvalue, EmplaceBack, Insert,
      Insert_rvalue, Emplace in E;
    try (repeat exc_step; no_exc).
  - apply Vector_sized_Exc in E as [? ?]. by apply (same_state_sound m).
  - apply Vector_copy_Exc in E as [? ?]. by apply (same_state_sound m).
  - apply Vector_copy_assign_Exc in E as [? ?]; [|done].
    by apply (same_live_sound m).
  - apply Reserve_Exc in E as [? ?]; [|done]. by apply (same_state_sound m).
  - assert (is_Some (vecs m !! this)) as [v Hv].
    { unfold Resize in E. exc_step; [no_exc|]. inv_M. eauto. }
    pose proof (Hwfs _ _ Hv) as Hwf. simpl in Hwf.
    destruct (wf_contents _ _ Hwf) as [l Hl].
    destruct (Resize_Exc _ _ _ _ _ _ Hr Hv Hwf Hl Ha Hfit E)
      as (v' & Hup & Hwf' & _).
    by apply (sound_update this v v' m m').
  - exc_step; [|no_exc].
    apply append_fwd_Exc in E as (m0 & Hm0 & ? & ?); [|done].
    by eapply (fwd_Exc_sound _ _ m m0); [|exact Hm0|..].
  - exc_step; [|no_exc].
    apply append_fwd_Exc in E as (m0 & Hm0 & ? & ?); [|done].
    by eapply (fwd_Exc_sound _ _ m m0); [|exact Hm0|..].
  - exc_step; [|no_exc].
    apply append_fwd_Exc in E as (m0 & Hm0 & ? & ?); [|done].
    by eapply (fwd_Exc_sound _ _ m m0); [|exact Hm0|..].
  - exc_step; [|no_exc].
    apply emplace_fwd_Exc_any in E as (m0 & Hm0 & ? & ?);
      [|done|by apply Hm].
    by eapply (fwd_Exc_sound _ _ m m0); [|exact Hm0|..].
  - exc_step; [|no_exc].
    apply emplace_fwd_Exc_any in E as (m0 & Hm0 & ? & ?);
      [|done|by apply Hm].
    by eapply (fwd_Exc_sound _ _ m m0); [|exact Hm0|..].
  - exc_step; [|no_exc].
    apply emplace_fwd_Exc_any in E as (m0 & Hm0 & ? & ?);
      [|done|by apply Hm].
    by eapply (fwd_Exc_sound _ _ m m0); [|exact Hm0|..].
  - exc_step; [|no_exc]. apply Erase_Exc in E as [? ?].
    by apply (same_live_sound m).
Qed.

(** X24: [Resize] that throws keeps the elements.  If [Resize(n)]
    throws on a well-formed vector ([operator new] fails, or a copy or
    value-initialisation throws), the vector is well formed and has
    the size and the elements it had; its capacity is what it was or,
    when the exception came after the reallocation, [n].  A
    relocation by move is taken not to throw and [n * sizeof(T)] to
    fit [size_t]. *)
Theorem Resize_throw_keeps_elements this n m m' v l :
  relocation_nothrow →
  vecs m !! this = Some v → wf m v → contents m v = Some l →
  in_size_t n → n * sizeof < size_t_modulus →
  Resize this n m = Exc m' →
  ∃ v', vecs m' !! this = Some v' ∧ wf m' v' ∧
        size_ v' = size_ v ∧ contents m' v' = Some l ∧
        (capacity_ (data_ v') = capacity_ (data_ v) ∨
         capacity_ (data_ v') = n).
Proof.
  intros Hr Hv Hwf Hl Hn Hno E.
  destruct (Resize_Exc _ _ _ _ _ _ Hr Hv Hwf Hl Hn Hno E)
    as (v' & (Hm' & _) & Hwf' & Hs & Hl' & Hc).
  exists v'. split; [rewrite Hm'; apply lookup_insert_eq|done].
Qed.

(** *** The vectors a call is not applied to *)

Lemma others_alone m m' a u :
  sound m → vecs m !! a = Some u → vecs m' !! a = vecs m !! a →
  (∀ b o, buffer_ (data_ u) = Ptr b o → heap m' !! b = heap m !! b) →
  vecs m' !! a = Some u ∧ wf m' u ∧ contents m' u = contents m u ∧
  ∀ b o, buffer_ (data_ u) = Ptr b o → heap m' !! b = heap m !! b.
Proof.
  intros [Hwf _] Hu Hv' Hh. split; [congruence|].
  split; [apply (wf_frame m); [by apply (Hwf _ _ Hu)|done]|].
  split; [by apply contents_frame|done].
Qed.

(** The block of another vector is not the block of [v]. *)
Lemma other_block this v m a u b o :
  sound m → vecs m !! this = Some v → a ≠ this → vecs m !! a = Some u →
  buffer_ (data_ u) = Ptr b o →
  is_Some (heap m !! b) ∧ ∀ o', buffer_ (data_ v) ≠ Ptr b o'.
Proof.
  intros [Hwf Hsep] Hv Hne Hu Hb. split.
  - apply (wf_block_exists m u b o); [by apply (Hwf _ _ Hu)|done].
  - intros o' Hb'. apply Hne. by apply (Hsep a this u v b o o').
Qed.

Lemma updates_others this v v' m m' a u :
  sound m → vecs m !! this = Some v → updates this v v' m m' →
  a ≠ this → vecs m !! a = Some u →
  vecs m' !! a = Some u ∧ wf m' u ∧ contents m' u = contents m u ∧
  ∀ b o, buffer_ (data_ u) = Ptr b o → heap m' !! b = heap m !! b.
Proof.
  intros Hs Hv (Hm' & _ & Hframe) Hne Hu.
  apply others_alone; [done..|by rewrite Hm', lookup_insert_ne|].
  intros b o Hb.
  destruct (other_block _ _ _ _ _ _ _ Hs Hv Hne Hu Hb) as [Hex Hnb].
  by apply Hframe.
Qed.

(** X25: a call leaves the vectors it is not applied to alone.  In a
    store where every vector is well formed and no two hold the same
    block, after any public member function that returns, every
    [Vector] object other than [*this] and the [Vector] argument is
    what it was, is still well formed, and has the block and the
    elements it had, with one exception: an element of it that an
    insertion was handed as an rvalue, as in
    [a.PushBack(std::move(b[0]))], is left moved-from. *)
Theorem exec_leaves_others_alone c m m' a u :
  sound m → args_representable c →
  a ∉ operands c → vecs m !! a = Some u →
  exec c m = Ret tt m' →
  vecs m' !! a = Some u ∧ wf m' u ∧
  contents m' u = contents (arguments_moved c m) u ∧
  ∀ b o, buffer_ (data_ u) = Ptr b o →
         heap m' !! b = heap (arguments_moved c m) !! b.
Proof.
  intros Hs Ha Hna Hu E. pose proof Hs as [Hwf Hsep].
  unfold arguments_moved.
  assert (∀ b o, buffer_ (data_ u) = Ptr b o → is_Some (heap m !! b)) as Hex.
  { intros b o Hb. apply (wf_block_exists m u b o); [by apply (Hwf _ _ Hu)|done]. }
  destruct c; simpl in E, Ha, Hna; cbn [inserts];
    repeat (apply not_elem_of_cons in Hna as [? Hna]).
  - (* Vector() *)
    apply others_alone; [done..| |].
    + apply Vector_default_vecs in E as ->. by rewrite lookup_insert_ne.
    + intros b o _. unfold Vector_default, put in E. by simplify_eq.
  - (* Vector(size) *)
    destruct (Vector_sized_spec _ _ _ _ Ha E) as (d & Hm' & _ & _ & _ & _ & Hframe).
    apply others_alone; [done..|by rewrite Hm', lookup_insert_ne|].
    intros b o Hb. apply Hframe. by eapply Hex.
  - (* Vector(const Vector&) *)
    destruct (Vector_copy_this _ _ _ _ E) as [o Ho].
    pose proof (Hwf _ _ Ho) as Hwo. simpl in Hwo.
    destruct (wf_contents _ _ Hwo) as [l Hl].
    destruct (Vector_copy_spec _ _ _ _ _ _ Ho Hwo Hl E)
      as (d & Hm' & _ & _ & _ & _ & Hframe).
    apply others_alone; [done..|by rewrite Hm', lookup_insert_ne|].
    intros b o' Hb. apply Hframe. by eapply Hex.
  - (* Vector(Vector&&) *)
    destruct (Vector_move_this _ _ _ _ E) as [o Ho].
    apply others_alone; [done..| |].
    + rewrite (Vector_move_vecs _ _ _ _ _ Ho E).
      by rewrite !lookup_insert_ne.
    + intros b o' _. by rewrite (Vector_move_heap _ _ _ _ E).
  - (* ~Vector() *)
    assert (is_Some (vecs m !! this)) as [v Hv]
      by (unfold Vector_dtor in E; inv_M; eauto).
    pose proof (Hwf _ _ Hv) as Hwv. simpl in Hwv.
    destruct (Vector_dtor_spec _ _ _ _ Hv Hwv E) as (Hm' & Hh & _).
    apply others_alone; [done..|by rewrite Hm', lookup_delete_ne|].
    intros b o Hb. rewrite Hh.
    destruct (buffer_ (data_ v)) as [|bv ov] eqn:Hbv; [done|].
    apply lookup_delete_ne. intros ->.
    by destruct (other_block this v m a u b o Hs Hv ltac:(done) Hu Hb)
      as [_ Hnb]; destruct (Hnb ov).
  - (* begin() *)
    inv_M. match goal with X : begin _ _ = _ |- _ => apply begin_same in X end.
    subst. by apply others_alone.
  - (* end() *)
    inv_M. match goal with X : end_ _ _ = _ |- _ => apply end_same in X end.
    subst. by apply others_alone.
  - (* operator=(const Vector&) *)
    destruct (decide (this = rhs)) as [->|Hne].
    { unfold Vector_copy_assign in E. case_decide; [done|]. inv_M.
      by apply others_alone. }
    destruct (Vector_copy_assign_this _ _ _ _ Hne E) as [[t Ht] [r Hr]].
    pose proof (Hwf _ _ Ht) as Hwt. pose proof (Hwf _ _ Hr) as Hwr.
    simpl in Hwt, Hwr. destruct (wf_contents _ _ Hwr) as [l Hl].
    assert (∀ b i j, buffer_ (data_ t) = Ptr b i → buffer_ (data_ r) ≠ Ptr b j)
      as Hapart.
    { intros b i j Hb Hb'. apply Hne. by apply (Hsep this rhs t r b i j). }
    destruct (Vector_copy_assign_spec _ _ _ _ _ _ _ Hne Ht Hr Hwt Hwr Hl Hapart E)
      as (t' & Hup & _).
    by apply (updates_others this t t' m m').
  - (* operator=(Vector&&) *)
    destruct (Vector_move_assign_this _ _ _ _ E) as [_ [r Hr]].
    apply others_alone; [done..| |].
    + rewrite (Vector_move_assign_vecs _ _ _ _ _ Hr E).
      by rewrite !lookup_insert_ne.
    + intros b o' _. by rewrite (Vector_move_assign_heap _ _ _ _ E).
  - (* Reserve *)
    destruct (Reserve_this _ _ _ _ E) as [v Hv].
    pose proof (Hwf _ _ Hv) as Hwv. simpl in Hwv.
    destruct (decide (new_capacity <= capacity_ (data_ v))) as [Hle|Hgt].
    { rewrite (Reserve_noop _ _ _ _ Hv Hle) in E. injection E as <-.
      by apply others_alone. }
    destruct (Reserve_block this new_capacity m m' v Hv Hwv ltac:(lia) E)
      as (nb & _ & Hm' & _ & _ & _ & _ & Hframe).
    apply others_alone; [done..|by rewrite Hm', lookup_insert_ne|].
    intros b o Hb.
    destruct (other_block this v m a u b o Hs Hv ltac:(done) Hu Hb) as [? ?].
    by apply Hframe.
  - (* Resize *)
    destruct (Resize_this _ _ _ _ E) as [v Hv].
    pose proof (Hwf _ _ Hv) as Hwv. simpl in Hwv.
    destruct (wf_contents _ _ Hwv) as [l Hl].
    destruct (Resize_spec _ _ _ _ _ _ Hv Hwv Hl Ha E) as (v' & Hup & _).
    by apply (updates_others this v v' m m').
  - (* PushBack(const T&) *)
    unfold PushBack in E. inv_M.
    match goal with X : append _ _ _ = _ |- _ => rename X into Ea end.
    destruct (append_this _ _ _ _ _ Ea) as [v Hv].
    pose proof (Hwf _ _ Hv) as Hwv. simpl in Hwv.
    destruct (wf_contents _ _ Hwv) as [l Hl].
    destruct (append_fwd_spec _ _ _ _ _ _ _ Hv Hwv Hl Ea)
      as (v' & y & _ & Hup & _).
    eapply (updates_others this v v');
      [by apply moved_out_sound|by rewrite moved_out_vecs|exact Hup|done|
       by rewrite moved_out_vecs].
  - (* PushBack(T&&) *)
    unfold PushBack_rvalue in E. inv_M.
    match goal with X : append _ _ _ = _ |- _ => rename X into Ea end.
    destruct (append_this _ _ _ _ _ Ea) as [v Hv].
    pose proof (Hwf _ _ Hv) as Hwv. simpl in Hwv.
    destruct (wf_contents _ _ Hwv) as [l Hl].
    destruct (append_fwd_spec _ _ _ _ _ _ _ Hv Hwv Hl Ea)
      as (v' & y & _ & Hup & _).
    eapply (updates_others this v v');
      [by apply moved_out_sound|by rewrite moved_out_vecs|exact Hup|done|
       by rewrite moved_out_vecs].
  - (* EmplaceBack *)
    unfold EmplaceBack in E. inv_M.
    match goal with X : append _ _ _ = _ |- _ => rename X into Ea end.
    destruct (append_this _ _ _ _ _ Ea) as [v Hv].
    pose proof (Hwf _ _ Hv) as Hwv. simpl in Hwv.
    destruct (wf_contents _ _ Hwv) as [l Hl].
    destruct (append_fwd_spec _ _ _ _ _ _ _ Hv Hwv Hl Ea)
      as (v' & y & _ & Hup & _).
    eapply (updates_others this v v');
      [by apply moved_out_sound|by rewrite moved_out_vecs|exact Hup|done|
       by rewrite moved_out_vecs].
  - (* Emplace *)
    unfold Emplace in E. inv_M.
    match goal with X : emplace _ _ _ _ = _ |- _ => rename X into Ea end.
    destruct (emplace_this _ _ _ _ _ _ Ea) as [v Hv].
    pose proof (Hwf _ _ Hv) as Hwv. simpl in Hwv.
    destruct (wf_contents _ _ Hwv) as [l Hl].
    destruct (emplace_fwd_spec _ _ _ _ _ _ _ _ Hv Hwv Hl Ea)
      as (v' & y & i & _ & _ & _ & Hup & _).
    eapply (updates_others this v v');
      [by apply moved_out_sound|by rewrite moved_out_vecs|exact Hup|done|
       by rewrite moved_out_vecs].
  - (* Insert(const T&) *)
    unfold Insert, Emplace in E. inv_M.
    match goal with X : emplace _ _ _ _ = _ |- _ => rename X into Ea end.
    destruct (emplace_this _ _ _ _ _ _ Ea) as [v Hv].
    pose proof (Hwf _ _ Hv) as Hwv. simpl in Hwv.
    destruct (wf_contents _ _ Hwv) as [l Hl].
    destruct (emplace_fwd_spec _ _ _ _ _ _ _ _ Hv Hwv Hl Ea)
      as (v' & y & i & _ & _ & _ & Hup & _).
    eapply (updates_others this v v');
      [by apply moved_out_sound|by rewrite moved_out_vecs|exact Hup|done|
       by rewrite moved_out_vecs].
  - (* Insert(T&&) *)
    unfold Insert_rvalue, Emplace in E. inv_M.
    match goal with X : emplace _ _ _ _ = _ |- _ => rename X into Ea end.
    destruct (emplace_this _ _ _ _ _ _ Ea) as [v Hv].
    pose proof (Hwf _ _ Hv) as Hwv. simpl in Hwv.
    destruct (wf_contents _ _ Hwv) as [l Hl].
    destruct (emplace_fwd_spec _ _ _ _ _ _ _ _ Hv Hwv Hl Ea)
      as (v' & y & i & _ & _ & _ & Hup & _).
    eapply (updates_others this v v');
      [by apply moved_out_sound|by rewrite moved_out_vecs|exact Hup|done|
       by rewrite moved_out_vecs].
  - (* Erase *)
    inv_M.
    match goal with X : Erase _ _ _ = _ |- _ => rename X into Ea end.
    destruct (Erase_this _ _ _ _ _ Ea) as [v Hv].
    pose proof (Hwf _ _ Hv) as Hwv. simpl in Hwv.
    destruct (wf_contents _ _ Hwv) as [l Hl].
    destruct (Erase_spec _ _ _ _ _ _ _ Hv Hwv Hl Ea)
      as (v' & i & _ & _ & Hup & _).
    by apply (updates_others this v v' m m').
  - (* PopBack *)
    destruct (PopBack_this _ _ _ E) as [v Hv].
    pose proof (Hwf _ _ Hv) as Hwv. simpl in Hwv.
    destruct (wf_contents _ _ Hwv) as [l Hl].
    destruct (PopBack_spec _ _ _ _ _ Hv Hwv Hl E) as (_ & v' & Hup & _).
    by apply (updates_others this v v' m m').
  - (* Swap *)
    destruct (Swap_this _ _ _ _ E) as [[t Ht] [o Ho]].
    pose proof (Swap_same_heap _ _ _ _ E) as [Hh _].
    apply others_alone; [done..| |].
    + rewrite (Swap_vecs _ _ _ _ _ _ Ht Ho E). by rewrite !lookup_insert_ne.
    + intros b o' _. by rewrite Hh.
  - (* size() *)
    inv_M. match goal with X : Size _ _ = _ |- _ => apply Size_same in X end.
    subst. by apply others_alone.
  - (* capacity() *)
    inv_M. match goal with X : Capacity _ _ = _ |- _ => apply Capacity_same in X end.
    subst. by apply others_alone.
  - (* operator[] *)
    inv_M.
    match goal with X : Vector_index _ _ _ = _ |- _ =>
      apply Vector_index_same in X end.
    subst. by apply others_alone.
Qed.

(** *** An insertion in place that throws half way *)

Lemma move_assign_local_same_live x dst :
  respects (same_live T) (move_assign_local x dst).
Proof.
  intros m. unfold move_assign_local, bind, load, emit, throw.
  destruct (slot m dst) as [[y|]|] eqn:Hd; try done.
  destruct (move_assign_throws x); [apply add_log_same_live|].
  destruct (store dst (Some x) _) as [[] m'|m'|] eqn:E; try done.
  - etrans; [apply add_log_same_live|].
    exact (store_over_live dst x y (add_log _ m) m' Hd E).
  - by destruct (nothrow_store _ _ _ _ E).
Qed.

Lemma move_backward_same_live first last d_last :
  respects (same_live T) (move_backward first last d_last).
Proof. unfold move_backward. solve_live. Qed.

Lemma move_construct_Ret_live src dst m m' :
  move_construct src dst m = Ret tt m' → is_Some (live m' dst).
Proof.
  intros E. unfold move_construct in E. inv_M. inv_heap. unfold live.
  slot_cases; eauto.
Qed.

Lemma same_live_live m m' p :
  same_live T m m' → is_Some (live m p) → is_Some (live m' p).
Proof.
  intros [_ Hl] [x Hx]. specialize (Hl p). unfold live in *.
  destruct (slot m p) as [[y|]|]; try done.
  by destruct (slot m' p) as [[z|]|].
Qed.

Lemma nothrow_construct_at p a :
  init_throws a = false → nothrow T (construct_at p a).
Proof. intros Ht. unfold construct_at. rewrite Ht. solve_nothrow. Qed.

Lemma nothrow_construct_local a :
  init_throws a = false → nothrow T (construct_local a).
Proof. intros Ht. unfold construct_local. rewrite Ht. solve_nothrow. Qed.

Lemma live_not_wf m v :
  is_Some (live m (buffer_ (data_ v) +p size_ v)) → ¬ wf m v.
Proof.
  intros [x Hx] Hwf. unfold live in Hx.
  destruct (slot m (buffer_ (data_ v) +p size_ v)) as [[y|]|] eqn:Hs; try done.
  apply (wf_live _ _ _ _ Hwf) in Hs. lia.
Qed.

Lemma emplace_room_Exc this pos a m m' v :
  vecs m !! this = Some v →
  size_ v ≠ capacity_ (data_ v) →
  init_throws a = false → (∀ x, move_throws x = false) →
  emplace this pos a m = Exc m' →
  vecs m' = vecs m ∧ is_Some (live m' (buffer_ (data_ v) +p size_ v)).
Proof.
  intros Hv Hroom Ha Hmv E. unfold emplace in E.
  exc_step; [by apply nothrow_index_of in E|].
  match goal with X : index_of _ _ _ = Ret _ _ |- _ =>
    apply index_of_Ret in X as [-> _] end.
  exc_step; [no_exc|]. inv_M.
  exc_step; [|exc_step; no_exc].
  unfold RawMemory_Capacity in *.
  exc_step.
  { (* at the end *)
    exfalso. exc_step; [|no_exc]. unfold append in E.
    exc_step; [no_exc|]. inv_M.
    unfold RawMemory_Capacity in *. case_decide; [done|].
    exc_step; [no_exc|]. inv_M.
    exc_step; [by apply nothrow_construct_at in E|].
    exc_step; no_exc. }
  exc_step; [done|].
  exc_step; [by apply nothrow_construct_local in E|].
  match goal with X : construct_local _ _ = Ret _ ?m0 |- _ =>
    assert (vecs m0 = vecs m ∧ heap m0 = heap m) as [Hv0 Hh0]
      by (unfold construct_local in X; inv_M;
          match goal with Y : emit _ _ = Ret _ _ |- _ =>
            apply emit_Ret in Y as -> end; done)
  end.
  exc_step; [|no_exc].
  exc_step.
  match goal with X : emit _ _ = Ret _ _ |- _ => apply emit_Ret in X as -> end.
  cbn [vecs heap add_log]. unfold live. rewrite slot_add_log.
  exc_step; [no_exc|]. inv_M.
  exc_step; [no_exc|]. inv_M.
  exc_step; [by apply nothrow_move_construct in E|].
  match goal with X : move_construct _ _ ?m0 = Ret ?u ?m1 |- _ =>
    destruct u;
    pose proof (move_construct_Ret_live _ _ _ _ X) as Hlive;
    assert (vecs m1 = vecs m0) as Hv1
      by (eapply (respects_Ret (same_vecs T)); [|exact X]; solve_respects)
  end.
  match goal with X : _ ?ma = Exc ?mb |- _ =>
    rename ma into mc; rename mb into mx end.
  assert (vecs mx = vecs mc ∧ same_live T mc mx) as [Hv2 Hl2].
  { exc_step.
    - split.
      + eapply (respects_Exc (same_vecs T)); [|exact E]. solve_respects.
      + eapply (respects_Exc (same_live T)); [|exact E].
        apply move_backward_same_live.
    - match goal with X : move_backward _ _ _ ?m0 = Ret _ ?m1 |- _ =>
        assert (vecs m1 = vecs m0) as Hv3
          by (eapply (respects_Ret (same_vecs T)); [|exact X]; solve_respects);
        assert (same_live T m0 m1) as Hl3
          by (eapply (respects_Ret (same_live T)); [|exact X];
              apply move_backward_same_live)
      end.
      exc_step; [no_exc|]. inv_M.
      exc_step; [|no_exc].
      split.
      + etrans; [|exact Hv3].
        eapply (respects_Exc (same_vecs T)); [|exact E]. solve_respects.
      + etrans; [exact Hl3|].
        eapply (respects_Exc (same_live T)); [|exact E].
        apply move_assign_local_same_live. }
  split; [congruence|].
  by apply (same_live_live mc).
Qed.

Lemma append_room_Exc this a m m' v :
  vecs m !! this = Some v →
  size_ v ≠ capacity_ (data_ v) →
  init_throws a = false →
  append this a m = Exc m' → False.
Proof.
  intros Hv Hroom Ha E. unfold append in E.
  exc_step; [no_exc|]. inv_M.
  unfold RawMemory_Capacity in *. case_decide; [congruence|].
  exc_step; [no_exc|]. inv_M.
  exc_step; [by apply nothrow_construct_at in E|].
  exc_step; no_exc.
Qed.

Lemma append_room_fwd_Exc this (a : forwarded) m m' v :
  vecs m !! this = Some v →
  size_ v ≠ capacity_ (data_ v) →
  forwarded_throws m a = false →
  append this a m = Exc m' → False.
Proof.
  intros Hv Hroom Ha E. destruct a as [a|src].
  { by apply (append_room_Exc this a m m' v). }
  destruct (append_MoveOf_eq this src m) as [[_ (v0 & Hv0 & Hfull)]|E1].
  { by simplify_eq. }
  cbn [forwarded_throws] in Ha.
  destruct (live m src) as [x|] eqn:Hx; [|congruence].
  rewrite E1 in E. unfold constructed_from in E.
  cbn [forwarded_throws] in E. rewrite Hx, Ha in E.
  apply (append_room_Exc this (ByMove x) _ m' v) in E; [done| |done..].
  by rewrite moved_out_vecs.
Qed.

Lemma emplace_room_fwd_Exc this pos (a : forwarded) m m' v :
  vecs m !! this = Some v →
  size_ v ≠ capacity_ (data_ v) →
  forwarded_throws m a = false → (∀ x, move_throws x = false) →
  emplace this pos a m = Exc m' →
  vecs m' = vecs m ∧ is_Some (live m' (buffer_ (data_ v) +p size_ v)).
Proof.
  intros Hv Hroom Ha Hmv E. destruct a as [a|src].
  { by apply (emplace_room_Exc this pos a m m' v). }
  destruct (emplace_MoveOf_eq this pos src m) as [[_ (v0 & Hv0 & Hfull)]|E1].
  { by simplify_eq. }
  cbn [forwarded_throws] in Ha.
  destruct (live m src) as [x|] eqn:Hx; [|congruence].
  rewrite E1 in E. unfold constructed_from in E.
  cbn [forwarded_throws] in E. rewrite Hx, Ha in E.
  apply (emplace_room_Exc this pos (ByMove x) _ m' v) in E as [Hv' Hl];
    [|by rewrite moved_out_vecs|done..].
  split; [|done]. by rewrite Hv', moved_out_vecs.
Qed.

(** X26: an insertion in place that throws half way leaves an
    element outside the vector.  On a well-formed vector with spare
    capacity, if [Emplace] or [Insert] throws although neither the
    construction of the new element nor a move construction throws
    (so a move assignment of [T] threw while the elements were
    shifted), then the vector has the size it had but an object lives
    at index [size]: the vector is no longer well formed. *)
Theorem Emplace_throw_strands_element c this a m m' v :
  inserts c = Some (this, a) →
  vecs m !! this = Some v → wf m v →
  size_ v ≠ capacity_ (data_ v) →
  forwarded_throws m a = false → (∀ x, move_throws x = false) →
  exec c m = Exc m' →
  shifts c = true ∧
  vecs m' !! this = Some v ∧
  is_Some (live m' (buffer_ (data_ v) +p size_ v)) ∧
  ¬ wf m' v.
Proof.
  intros Hc Hv Hwf Hroom Ha Hmv E.
  assert (shifts c = true ∧ ∃ pos, emplace this pos a m = Exc m')
    as [Hsh [pos Ee]].
  { destruct c; simpl in Hc; simplify_eq; simpl in E;
      unfold PushBack, PushBack_rvalue, EmplaceBack, Insert,
        Insert_rvalue, Emplace in E;
      (exc_split; [|no_exc]);
      try (by destruct (append_room_fwd_Exc _ _ _ _ _ Hv Hroom Ha E));
      (split; [done|eauto]). }
  destruct (emplace_room_fwd_Exc _ _ _ _ _ _ Hv Hroom Ha Hmv Ee) as [Hv' Hl].
  split; [done|]. split; [by rewrite Hv'|]. split; [done|].
  by apply live_not_wf.
Qed.

(** *** The log of a relocation that throws *)

Lemma copy_construct_Exc_log src dst m m' :
  copy_construct src dst m = Exc m' →
  log m' = log m ++ [EvCopyCtor (At src) (At dst)].
Proof.
  unfold copy_construct, bind, load, emit, throw.
  destruct (slot m src) as [[x|]|]; try done.
  destruct (copy_throws x); [by intros [= <-]|].
  intros E. by destruct (nothrow_store _ _ _ _ E).
Qed.

Lemma move_construct_Exc_log src dst m m' :
  move_construct src dst m = Exc m' →
  log m' = log m ++ [EvMoveCtor (At src) (At dst)].
Proof.
  unfold move_construct, bind, load, emit, throw.
  destruct (slot m src) as [[x|]|]; try done.
  destruct (move_throws x); [by intros [= <-]|].
  destruct (store dst (Some x) _) as [[] m1|m1|] eqn:E1; try done.
  - intros E. by destruct (nothrow_store _ _ _ _ E).
  - by destruct (nothrow_store _ _ _ _ E1).
Qed.

Lemma relocation_snoc src j dst :
  0 <= j →
  relocation src (j + 1) dst =
    relocation src j dst ++
      [if relocates_by_move then EvMoveCtor (At (src +p j)) (At (dst +p j))
       else EvCopyCtor (At (src +p j)) (At (dst +p j))].
Proof.
  intros Hj. unfold relocation, moves, copies.
  replace (Z.to_nat (j + 1)) with (S (Z.to_nat j)) by lia.
  rewrite seq_S, !fmap_app. simpl. rewrite Z2Nat.id by done.
  by destruct relocates_by_move.
Qed.

(** A relocation that throws at the element [j] has built [j]
    objects, tried one more, and destroyed the [j] it had built. *)
Lemma relocate_Exc_log src n dst m m' :
  relocate src n dst m = Exc m' →
  ∃ j, 0 <= j < n ∧
       log m' = log m ++ relocation src (j + 1) dst ++ dtors dst j.
Proof.
  intros E.
  assert (∃ j m1, 0 <= j < n ∧ relocate src j dst m = Ret tt m1 ∧
            on_exception
              (if relocates_by_move
               then move_construct (src +p j) (dst +p j)
               else copy_construct (src +p j) (dst +p j))
              (destroy_n dst j) m1 = Exc m') as (j & m1 & Hj & Ep & Eb).
  { unfold relocate, relocates_by_move, uninitialized_move_n,
      uninitialized_copy_n in *.
    destruct (_ || _); apply for_n_Exc in E as (j & m1 & Hj & Ep & Eb);
      rewrite Z.sub_0_r in Ep; exists j, m1; (split; [lia|done]). }
  exists j. split; [done|].
  apply relocate_log in Ep.
  apply on_exception_Exc in Eb as (m2 & Ec & Ed).
  apply destroy_n_log in Ed.
  rewrite Ed, relocation_snoc by lia. rewrite <- !app_assoc. 
  destruct relocates_by_move.
  - apply move_construct_Exc_log in Ec. by rewrite Ec, Ep, <- !app_assoc.
  - apply copy_construct_Exc_log in Ec. by rewrite Ec, Ep, <- !app_assoc.
Qed.

Lemma dtors_elem p n e :
  e ∈ dtors p n → ∃ i, 0 <= i < n ∧ e = EvDtor (At (p +p i)).
Proof.
  unfold dtors. intros (i & -> & Hi)%list_elem_of_fmap.
  apply elem_of_seq in Hi. exists (Z.of_nat i). split; [lia|done].
Qed.

Lemma relocation_no_dtor src n dst (w : place) :
  EvDtor w ∉ relocation src n dst.
Proof.
  unfold relocation, moves, copies.
  destruct relocates_by_move; by intros (i & ? & _)%list_elem_of_fmap.
Qed.

Lemma append_relocation_Exc_log this (a : init) m m' v :
  vecs m !! this = Some v →
  size_ v = capacity_ (data_ v) →
  init_throws a = false →
  append this a m = Exc m' →
  log m' = log m ∨
  ∃ nb j, heap m !! nb = None ∧ 0 <= j < size_ v ∧
    log m' = log m ++ init_event a (At (Ptr nb (size_ v)))
                   :: relocation (buffer_ (data_ v)) (j + 1) (Ptr nb 0)
                   ++ dtors (Ptr nb 0) j ∧
    EvDtor (At (Ptr nb (size_ v))) ∉
      relocation (buffer_ (data_ v)) (j + 1) (Ptr nb 0) ++ dtors (Ptr nb 0) j.
Proof.
  intros Hv Hfull Ha Ea.
  unfold append in Ea.
  rewrite (run_bind _ _ _ _ _ (get_Some _ _ _ Hv)) in Ea.
  unfold RawMemory_Capacity in Ea. case_decide; [|done].
  exc_step; [apply RawMemory_ctor_Exc in Ea as ->; by left|].
  exc_step; [|exc_step; no_exc].
  exc_step.
  match goal with X : RawMemory_ctor _ _ = Ret ?nd ?m1 |- _ =>
    apply RawMemory_ctor_Ret in X
      as (Hcap & [(_ & Hnull & _)|(_ & nb & Hbuf & Hf & ->)])
  end.
  { exfalso. exc_step; [no_exc|]. inv_M. rewrite Hnull in *.
    exc_step.
    - by apply nothrow_construct_at in Ea.
    - no_null_new. }
  right. exists nb.
  exc_step; [no_exc|]. inv_M.
  exc_step; [by apply nothrow_construct_at in Ea|].
  match goal with X : construct_at _ _ _ = Ret ?u _ |- _ =>
    destruct u; apply construct_at_log in X as Hlc end.
  exc_step; [|exc_step; no_exc].
  apply relocate_Exc_log in Ea as (j & Hj & Hl).
  match goal with X : RawMemory_dtor _ _ = Ret _ _ |- _ =>
    apply (respects_Ret (same_log T)) in X as Hld; [|solve_respects] end.
  unfold same_log, GetAddress in *. rewrite Hbuf in *. cbn [ptr_add] in *.
  rewrite Z.add_0_l in *.
  exists j. split; [done|]. split; [done|]. split.
  - rewrite Hld, Hl, Hlc. cbn [log set_heap]. by rewrite <- app_assoc.
  - intros [Hin|Hin]%elem_of_app.
    + by apply relocation_no_dtor in Hin.
    + apply dtors_elem in Hin as (i & Hi & [= Heq]). lia.
Qed.

(** X27: when the relocation throws in a growing [PushBack] or
    [EmplaceBack], the new element is never destroyed.  On a vector
    whose size equals its capacity, with a new element whose
    construction does not throw, a call that throws has either failed
    to allocate (nothing is logged) or has built the new element at
    index [size] of a new block, relocated [j] old elements, failed
    on the next, and destroyed those [j] copies: no destructor runs
    for the new element before its block is freed. *)
Theorem relocation_throw_leaks_new_element c this a m m' v :
  appends c = Some (this, a) →
  vecs m !! this = Some v →
  size_ v = capacity_ (data_ v) →
  forwarded_throws m a = false →
  exec c m = Exc m' →
  log m' = log m ∨
  ∃ nb j, heap m !! nb = None ∧ 0 <= j < size_ v ∧
    log m' = log m ++ forwarded_event a (At (Ptr nb (size_ v)))
                   :: relocation (buffer_ (data_ v)) (j + 1) (Ptr nb 0)
                   ++ dtors (Ptr nb 0) j ∧
    EvDtor (At (Ptr nb (size_ v))) ∉
      relocation (buffer_ (data_ v)) (j + 1) (Ptr nb 0) ++ dtors (Ptr nb 0) j.
Proof.
  intros Hc Hv Hfull Ha E.
  pose proof (exec_appends c this a m _ Hc E) as Ea. simpl in Ea. clear E.
  destruct a as [a|src].
  { by apply (append_relocation_Exc_log this a m m' v). }
  destruct (append_MoveOf_eq this src m) as [[E0 _]|E1].
  { left. congruence. }
  cbn [forwarded_throws] in Ha.
  destruct (live m src) as [x|] eqn:Hx; [|congruence].
  rewrite E1 in Ea. unfold constructed_from in Ea.
  cbn [forwarded_throws] in Ea. rewrite Hx, Ha in Ea.
  apply (append_relocation_Exc_log this (ByMove x) _ m' v) in Ea;
    [|by rewrite moved_out_vecs|done..].
  rewrite moved_out_log in Ea.
  destruct Ea as [?|(nb & j & Hnb & Hj & Hl & Hn)]; [by left|right].
  exists nb, j. split; [|done].
  pose proof (moved_out_shape (MoveOf src) m nb) as Hs. rewrite Hnb in Hs.
  by destruct (heap m !! nb).
Qed.

(** *** Running without undefined behaviour *)

Lemma wp_mono {A} (c : M A) (Q Q' : A → mem → Prop) (E E' : mem → Prop) m :
  (∀ a m', Q a m' → Q' a m') → (∀ m', E m' → E' m') →
  wp c Q E m → wp c Q' E' m.
Proof. unfold wp. intros HQ HE. destruct (c m); eauto. Qed.

Lemma wp_bind {A B} (c : M A) (f : A → M B) Q E m :
  wp c (fun a m1 => wp (f a) Q E m1) E m → wp (bind c f) Q E m.
Proof. unfold wp, bind. by destruct (c m). Qed.

(** A loop with an invariant *)
Lemma wp_for_n (I : Z → mem → Prop) (E : mem → Prop) body k : ∀ i m,
  I i m →
  (∀ j m1, i <= j < i + Z.of_nat k → I j m1 →
     wp (body j) (fun _ => I (j + 1)) E m1) →
  wp (for_n k i body) (fun _ => I (i + Z.of_nat k)) E m.
Proof.
  induction k as [|k IH]; intros i m Hi Hb; simpl.
  - unfold wp, ret. by rewrite Z.add_0_r.
  - apply wp_bind. eapply wp_mono; [| |apply (Hb i m); [lia|done]]; [|done].
    intros [] m1 H1. simpl.
    replace (i + Z.of_nat (S k)) with (i + 1 + Z.of_nat k) by lia.
    apply IH; [done|]. intros j m2 Hj. apply Hb. lia.
Qed.

#[local] Instance extends_preorder : PreOrder (extends T).
Proof.
  split; [by split|].
  intros m1 m2 m3 (V1 & S1 & L1) (V2 & S2 & L2).
  split; [congruence|]. split; [by etrans|]. auto.
Qed.

Lemma same_shape_slot m m' q :
  same_shape T m m' → is_Some (slot m q) → is_Some (slot m' q).
Proof.
  intros Hs [o Ho]. destruct q as [|b i]; [done|].
  apply slot_Ptr in Ho as (Hi & blk & Hb & Hl). specialize (Hs b).
  rewrite Hb in Hs. destruct (heap m' !! b) as [blk'|] eqn:Hb'; [|done].
  injection Hs as Hs. apply lookup_lt_Some in Hl.
  destruct (lookup_lt_is_Some_2 blk' (Z.to_nat i)) as [o' Ho']; [lia|].
  exists o'. apply slot_Ptr. eauto.
Qed.

Lemma extends_slot m m' q :
  extends T m m' → is_Some (slot m q) → is_Some (slot m' q).
Proof. intros (_ & Hs & _). by apply same_shape_slot. Qed.

Lemma live_is_slot m q : is_Some (live m q) → is_Some (slot m q).
Proof. unfold live. destruct (slot m q); [eauto|by intros [? ?]]. Qed.

(** Writing an object into a slot *)
Lemma store_extends p x m m' :
  store p (Some x) m = Ret tt m' →
  extends T m m' ∧ live m' p = Some x.
Proof.
  intros E.
  assert (vecs m' = vecs m) as Hv
    by (eapply (respects_Ret (same_vecs T)); [|exact E]; solve_respects).
  assert (same_shape T m m') as Hs
    by (eapply (respects_Ret (same_shape T)); [|exact E]; solve_respects).
  apply store_slot in E as [_ Hq].
  split; [split; [done|split; [done|]]|].
  - intros q. unfold live. rewrite Hq. case_decide; [eauto|done].
  - unfold live. rewrite Hq. by rewrite decide_True.
Qed.

Lemma add_log_extends e m : extends T m (add_log e m).
Proof. split; [done|]. split; [by intros b|done]. Qed.

Lemma construct_at_wp p a m :
  is_Some (slot m p) →
  wp (construct_at p a)
     (fun _ m' => extends T m m' ∧ is_Some (live m' p))
     (fun m' => vecs m' = vecs m ∧ heap m' = heap m) m.
Proof.
  intros Hp. unfold wp, construct_at, bind, emit, throw.
  destruct (init_throws a); [done|].
  destruct (store_run p (Some (init_value a)) (add_log (init_event a (At p)) m))
    as [m' E]; [by rewrite slot_add_log|].
  rewrite E. apply store_extends in E as [He Hl].
  split; [|by rewrite Hl]. etrans; [apply add_log_extends|done].
Qed.

Lemma copy_construct_wp src dst m :
  is_Some (live m src) → is_Some (slot m dst) →
  wp (copy_construct src dst)
     (fun _ m' => extends T m m' ∧ is_Some (live m' dst))
     (fun m' => vecs m' = vecs m ∧ heap m' = heap m) m.
Proof.
  intros [x Hx] Hd. unfold wp, copy_construct, bind, load, emit, throw.
  unfold live in Hx. destruct (slot m src) as [[y|]|]; try done.
  destruct (copy_throws y); [done|].
  destruct (store_run dst (Some y) (add_log (EvCopyCtor (At src) (At dst)) m))
    as [m' E]; [by rewrite slot_add_log|].
  rewrite E. apply store_extends in E as [He Hl].
  split; [|by rewrite Hl]. etrans; [apply add_log_extends|done].
Qed.

Lemma move_construct_wp src dst m :
  is_Some (live m src) → is_Some (slot m dst) →
  wp (move_construct src dst)
     (fun _ m' => extends T m m' ∧ is_Some (live m' dst))
     (fun m' => vecs m' = vecs m ∧ heap m' = heap m) m.
Proof.
  intros [x Hx] Hd. unfold wp, move_construct, bind, load, emit, throw.
  unfold live in Hx. destruct (slot m src) as [[y|]|] eqn:Hy; try done.
  destruct (move_throws y); [done|].
  destruct (store_run dst (Some y) (add_log (EvMoveCtor (At src) (At dst)) m))
    as [m1 E1]; [by rewrite slot_add_log|].
  rewrite E1. apply store_extends in E1 as [He1 Hl1].
  destruct (store_run src (Some (moved_from y)) m1) as [m2 E2].
  { apply (extends_slot _ _ _ He1). rewrite slot_add_log, Hy. eauto. }
  rewrite E2. apply store_extends in E2 as [He2 Hl2].
  split.
  - etrans; [apply add_log_extends|]. by etrans.
  - destruct He2 as (_ & _ & Hl). apply Hl. by rewrite Hl1.
Qed.

Lemma destroy_at_wp p m :
  is_Some (live m p) →
  wp (destroy_at p)
     (fun _ m' => vecs m' = vecs m ∧ same_shape T m m' ∧
                  ∀ q, q ≠ p → slot m' q = slot m q)
     (fun _ => False) m.
Proof.
  intros [x Hx]. unfold live in Hx.
  destruct (slot m p) as [[y|]|] eqn:Hy; try done.
  destruct (destroy_at_run _ _ _ Hy) as [m' E]. unfold wp. rewrite E.
  split; [eapply (respects_Ret (same_vecs T)); [|exact E]; solve_respects|].
  split; [eapply (respects_Ret (same_shape T)); [|exact E]; solve_respects|].
  intros q Hq. rewrite (destroy_at_slot _ _ _ E). by rewrite decide_False.
Qed.

(** Destroying a range of live objects *)
Lemma destroy_n_wp b o n m :
  (∀ i, 0 <= i < n → is_Some (live m (Ptr b (o + i)))) →
  wp (destroy_n (Ptr b o) n)
     (fun _ m' => vecs m' = vecs m ∧ same_shape T m m')
     (fun _ => False) m.
Proof.
  intros Hlive. unfold destroy_n.
  eapply wp_mono; [| |apply (wp_for_n
    (fun j m1 => vecs m1 = vecs m ∧ same_shape T m m1 ∧
                 ∀ i, j <= i < n → live m1 (Ptr b (o + i)) = live m (Ptr b (o + i)))
    (fun _ => False))].
  - intros _ m' (? & ? & _). done.
  - done.
  - split; [done|]. split; [by intros ?|done].
  - intros j m1 Hj (Hv & Hs & Hl). cbn [ptr_add].
    eapply wp_mono; [| |apply destroy_at_wp].
    + intros _ m2 (Hv2 & Hs2 & Hq). split; [congruence|].
      split; [by etrans|]. intros i Hi. rewrite <- Hl by lia.
      unfold live. rewrite Hq; [done|]. intros [=]. lia.
    + done.
    + rewrite Hl by lia. apply Hlive. lia.
Qed.

Lemma wp_on_exception {A} (c : M A) h Q (E E1 : mem → Prop) m :
  wp c Q E1 m →
  (∀ m1, E1 m1 → wp h (fun _ => E) (fun _ => False) m1) →
  wp (on_exception c h) Q E m.
Proof.
  unfold wp at 1 3, on_exception. destruct (c m) as [a m1|m1|]; [done| |done].
  intros H1 Hh. specialize (Hh m1 H1). unfold wp in Hh.
  by destruct (h m1) as [[] m2|m2|].
Qed.

Lemma wp_ret {A} (a : A) (Q : A → mem → Prop) E m : Q a m → wp (ret a) Q E m.
Proof. done. Qed.

Lemma wp_run {A} (c : M A) a m1 (Q : A → mem → Prop) E m :
  c m = Ret a m1 → Q a m1 → wp c Q E m.
Proof. unfold wp. by intros ->. Qed.

(** A relocation of live objects into slots that exist *)
Lemma relocate_wp sb so n db do_ m :
  (∀ i, 0 <= i < n → is_Some (live m (Ptr sb (so + i)))) →
  (∀ i, 0 <= i < n → is_Some (slot m (Ptr db (do_ + i)))) →
  wp (relocate (Ptr sb so) n (Ptr db do_))
     (fun _ m' => extends T m m' ∧
                  ∀ i, 0 <= i < n → is_Some (live m' (Ptr db (do_ + i))))
     (fun m' => vecs m' = vecs m ∧ same_shape T m m') m.
Proof.
  intros Hsrc Hdst.
  set (I := fun j m1 => extends T m m1 ∧
                        ∀ i, 0 <= i < j → is_Some (live m1 (Ptr db (do_ + i)))).
  set (E := fun m' : mem => vecs m' = vecs m ∧ same_shape T m m').
  assert (∀ c : Z → M unit,
            (∀ j m1, is_Some (live m1 (Ptr sb (so + j))) →
                     is_Some (slot m1 (Ptr db (do_ + j))) →
               wp (c j) (fun _ m' => extends T m1 m' ∧
                                     is_Some (live m' (Ptr db (do_ + j))))
                        (fun m' => vecs m' = vecs m1 ∧ heap m' = heap m1) m1) →
            wp (for_n (Z.to_nat n) 0
                  (fun j => on_exception (c j) (destroy_n (Ptr db do_) j)))
               (fun _ m' => extends T m m' ∧
                  ∀ i, 0 <= i < n → is_Some (live m' (Ptr db (do_ + i)))) E m)
    as Hloop.
  { intros c Hc.
    eapply wp_mono; [| |apply (wp_for_n I E)].
    - intros _ m' [He Hl]. split; [done|]. intros i Hi. apply Hl. lia.
    - done.
    - split; [reflexivity|]. intros i Hi. lia.
    - intros j m1 Hj [He Hl].
      apply (wp_on_exception _ _ _ _
               (fun m' => vecs m' = vecs m1 ∧ heap m' = heap m1)).
      + eapply wp_mono; [| |apply Hc].
        * intros _ m2 [He2 Hl2]. split; [by etrans|].
          intros i Hi. destruct (decide (i = j)) as [->|Hne]; [done|].
          destruct He2 as (_ & _ & Hm). apply Hm, Hl. lia.
        * done.
        * destruct He as (_ & _ & Hm). apply Hm, Hsrc. lia.
        * apply (extends_slot _ _ _ He), Hdst. lia.
      + intros mx [Hvx Hhx].
        eapply wp_mono; [| |apply destroy_n_wp].
        * intros _ m2 [Hv2 Hs2]. destruct He as (Hv1 & Hs1 & _).
          split; [congruence|]. etrans; [exact Hs1|].
          intros b. rewrite Hs2. by rewrite Hhx.
        * done.
        * intros i Hi. unfold live. rewrite (slot_same_heap _ _ _ Hhx).
          apply Hl. lia. }
  unfold relocate.
  destruct (is_nothrow_move_constructible || negb is_copy_constructible).
  - apply (Hloop (fun j => move_construct (Ptr sb so +p j) (Ptr db do_ +p j))).
    intros j m1. apply move_construct_wp.
  - apply (Hloop (fun j => copy_construct (Ptr sb so +p j) (Ptr db do_ +p j))).
    intros j m1. apply copy_construct_wp.
Qed.

Lemma adopt_runs this new_data m v :
  vecs m !! this = Some v → ∃ m', adopt this new_data m = Ret tt m'.
Proof.
  intros Hv.
  unfold adopt, set_data, set_size, RawMemory_dtor, Deallocate,
    operator_delete, RawMemory_move_assign, RawMemory_default, bind, get, put.
  rewrite !Hv. cbn [buffer_ capacity_ vecs set_vecs].
  rewrite lookup_insert_eq. eauto.
Qed.

(** An append to a well-formed vector, when the byte count of a new
    block fits [size_t], returns or throws. *)
Lemma append_wp this (a : init) m v :
  vecs m !! this = Some v → wf m v →
  (size_ v = capacity_ (data_ v) →
   Z.max 1 (2 * size_ v) * sizeof < size_t_modulus) →
  wp (append this a) (fun _ _ => True) (fun _ => True) m.
Proof.
  intros Hv Hwf Hno.
  pose proof Hwf as ([Hsr Hcr] & [Hs0 Hsc] & _).
  pose proof sizeof_pos as Hp.
  unfold append. apply wp_bind. apply (wp_run _ v m); [by apply get_Some|].
  unfold RawMemory_Capacity. case_decide as Hfull.
  - (* full *)
    specialize (Hno Hfull).
    assert (grown (size_ v) = Z.max 1 (2 * size_ v)) as Hg.
    { unfold grown. case_decide; [lia|].
      rewrite wrap_small; [lia|]. unfold in_size_t in *. nia. }
    apply wp_bind.
    destruct (RawMemory_ctor_cases (grown (size_ v)) m ltac:(lia))
      as [Ec|(nb & Hf & Ec)].
    { unfold wp. by rewrite Ec. }
    apply (wp_run _ _ _ _ _ _ Ec).
    assert (wrap (grown (size_ v) * sizeof) / sizeof = grown (size_ v)) as HL.
    { rewrite wrap_small by (unfold in_size_t; nia).
      apply Z.div_mul. lia. }
    rewrite HL.
    set (g := grown (size_ v)) in *.
    set (m1 := set_heap <[nb := replicate (Z.to_nat g) None]> m).
    assert (∀ i, 0 <= i < g → is_Some (slot m1 (Ptr nb (0 + i)))) as Hnew.
    { intros i Hi. unfold m1. rewrite slot_fresh_block.
      rewrite decide_True by lia. eauto. }
    apply wp_bind.
    eapply (wp_mono _ (fun _ m' => vecs m' = vecs m1) _ (fun _ => True)).
    { intros elem m' Hvm.
      destruct (adopt_runs this (mkRawMemory (Ptr nb 0) g) m' v) as [m2 Ea];
        [by rewrite Hvm|].
      apply wp_bind. by apply (wp_run _ _ _ _ _ _ Ea). }
    { done. }
    apply (wp_on_exception _ _ _ _ (fun m' => same_shape T m1 m')).
    2:{ intros mx Hsx. unfold wp, RawMemory_dtor, Deallocate, operator_delete.
        simpl. specialize (Hsx nb). unfold m1 in Hsx.
        cbn [heap set_heap] in Hsx. rewrite lookup_insert_eq in Hsx.
        by destruct (heap mx !! nb). }
    apply wp_bind.
    apply (wp_run _ (Ptr nb (0 + size_ v)) m1);
      [apply (RawMemory_plus_run (mkRawMemory (Ptr nb 0) g)); simpl; lia|].
    apply wp_bind. eapply wp_mono; [| |apply construct_at_wp].
    3:{ apply Hnew. lia. }
    2:{ intros m' [_ Hh] b. by rewrite Hh. }
    intros _ mc [Hec Hlc]. simpl.
    unfold GetAddress. cbn [buffer_].
    destruct (wf_buffer _ _ Hwf) as [(Hnull & Hz & _)|(ob & Hob & Hex)].
    { rewrite Hz.
      apply wp_bind. apply (wp_run _ tt mc); [apply relocate_0|].
      apply wp_bind. apply (wp_run _ tt mc); [apply destroy_n_0|].
      apply wp_ret. by destruct Hec. }
    rewrite Hob.
    destruct (wf_elim _ _ _ _ Hwf Hob) as (_ & _ & Hlive & _).
    assert (ob ≠ nb) as Hne by (intros ->; destruct Hex; congruence).
    assert (∀ i, 0 <= i < size_ v → is_Some (live m1 (Ptr ob (0 + i)))) as Hold.
    { intros i Hi. unfold live, m1. rewrite slot_set_heap_insert by done.
      rewrite Z.add_0_l. by apply Hlive. }
    apply wp_bind. eapply wp_mono; [| |apply relocate_wp].
    4:{ intros i Hi. apply (extends_slot _ _ _ Hec), Hnew. lia. }
    3:{ intros i Hi. destruct Hec as (_ & _ & Hm). by apply Hm, Hold. }
    2:{ intros m' [_ Hs]. destruct Hec as (_ & Hs1 & _). by etrans. }
    intros _ mr [Her Hlr]. simpl.
    apply wp_bind. eapply wp_mono; [| |apply destroy_n_wp].
    3:{ intros i Hi. destruct Her as (_ & _ & Hm). apply Hm.
        destruct Hec as (_ & _ & Hm'). by apply Hm', Hold. }
    2:{ done. }
    intros _ md [Hvd _]. apply wp_ret.
    destruct Hec as (Hv1 & _). destruct Her as (Hv2 & _).
    rewrite Hvd, Hv2, Hv1. done.
  - (* room left *)
    apply wp_bind.
    apply (wp_run _ (buffer_ (data_ v) +p size_ v) m);
      [apply RawMemory_plus_run; lia|].
    apply wp_bind. eapply wp_mono; [| |apply construct_at_wp].
    3:{ destruct (wf_buffer _ _ Hwf) as [(_ & _ & Hz)|(b & Hb & _)]; [lia|].
        destruct (wf_elim _ _ _ _ Hwf Hb) as (_ & _ & _ & Hraw).
        rewrite Hb. cbn [ptr_add]. rewrite Z.add_0_l, Hraw by lia. eauto. }
    2:{ done. }
    intros _ mc [(Hvc & _) _]. simpl.
    apply wp_bind.
    eapply wp_run; [apply (set_size_Some _ _ v); by rewrite Hvc|].
    by apply wp_ret.
Qed.

(** *** Construction followed by destruction *)

Lemma built_then_destroyed n nd m ma mb this size :
  RawMemory_ctor n m = Ret nd ma →
  outside T (fun b => ∃ i, buffer_ nd = Ptr b i) ma mb →
  same_shape T ma mb →
  (∀ i, 0 <= i < size → is_Some (live mb (buffer_ nd +p i))) →
  (buffer_ nd = Null → size <= 0) →
  ∃ m', Vector_dtor this (set_vecs <[this := mkVector nd size]> mb) = Ret tt m' ∧
        heap m' = heap m ∧ vecs m' = delete this (vecs mb).
Proof.
  intros Ec Ho Hs Hlive Hnull.
  set (m1 := set_vecs <[this := mkVector nd size]> mb).
  assert (vecs m1 !! this = Some (mkVector nd size)) as Hv1
    by apply lookup_insert_eq.
  assert (∃ md, destroy_n (buffer_ nd) size m1 = Ret tt md ∧
                vecs md = vecs m1 ∧ same_shape T m1 md) as (md & Ed & Hvd & Hsd).
  { destruct (buffer_ nd) as [|b o] eqn:Hb.
    - exists m1. replace (Z.to_nat size) with 0%nat by (specialize (Hnull eq_refl); lia).
      unfold destroy_n. replace (Z.to_nat size) with 0%nat
        by (specialize (Hnull eq_refl); lia). done.
    - pose proof (destroy_n_wp b o size m1 Hlive) as Hw. unfold wp in Hw.
      destruct (destroy_n (Ptr b o) size m1) as [[] md|md|]; [|done..].
      by exists md. }
  assert (outside T (fun b => ∃ i, buffer_ nd = Ptr b i) m1 md) as Hod
    by (eapply (respects_Ret (outside T _)); [|exact Ed]; solve_outside).
  assert (∃ mf, RawMemory_dtor nd md = Ret tt mf) as [mf Ef].
  { unfold RawMemory_dtor, Deallocate, operator_delete.
    pose proof (RawMemory_ctor_Ret _ _ _ _ Ec)
      as (_ & [(_ & Hb & _)|(_ & nb & Hb & Hf & ->)]); rewrite Hb; [eauto|].
    simpl. specialize (Hs nb). specialize (Hsd nb).
    cbn [heap set_heap set_vecs m1] in *. rewrite lookup_insert_eq in Hs.
    rewrite Hs in Hsd. destruct (heap md !! nb); [eauto|done]. }
  destruct (scratch_released n m nd ma md mf Ec) as [Hvf Hhf];
    [by etrans|done|].
  exists (set_vecs (delete this) mf). split; [|split; [done|]].
  - unfold Vector_dtor. rewrite (run_bind _ _ _ _ _ (get_Some _ _ _ Hv1)).
    unfold GetAddress. cbn [data_ size_].
    rewrite (run_bind _ _ _ _ _ Ed), (run_bind _ _ _ _ _ Ef). done.
  - cbn [vecs set_vecs]. rewrite Hvf, Hvd. unfold m1. cbn [vecs set_vecs].
    by rewrite delete_insert_eq.
Qed.

(** X29: a vector that is constructed and then destroyed leaves no
    block behind.  After [Vector()], [Vector(size)] or the copy
    constructor has returned, in a store of well-formed vectors, the
    destructor of the new vector returns, and then the heap is
    exactly what it was before the construction and the object is
    gone. *)
Theorem construct_destroy_restores c this m m1 :
  store_wf m →
  match c with
  | CallDefault t | CallSized t _ | CallCopy t _ => t = this
  | _ => False
  end →
  exec c m = Ret tt m1 →
  ∃ m', Vector_dtor this m1 = Ret tt m' ∧
        heap m' = heap m ∧ vecs m' = delete this (vecs m).
Proof.
  intros Hwfs Hc E. destruct c; try done; subst this0; simpl in E.
  - (* Vector() *)
    unfold Vector_default, put in E. injection E as <-.
    assert (RawMemory_ctor 0 m = Ret RawMemory_default m) as Ec by done.
    apply (built_then_destroyed 0 RawMemory_default m m m this 0 Ec); try done.
    intros i Hi. lia.
  - (* Vector(size) *)
    unfold Vector_sized in E. inv_M.
    match goal with
    | E1 : RawMemory_ctor _ _ = Ret ?d ?m1,
      E2 : uninitialized_value_construct_n _ _ _ = Ret _ ?m2 |- _ =>
        rename E1 into Ec; rename E2 into Eu; rename d into nd;
        rename m1 into ma; rename m2 into mb
    end.
    assert (vecs mb = vecs m) as Hvb by (frame_vecs; congruence).
    rewrite <- Hvb. unfold GetAddress in Eu.
    apply (built_then_destroyed size nd m ma mb this size Ec).
    + eapply (respects_Ret (outside T _)); [|exact Eu]. solve_outside.
    + eapply (respects_Ret (same_shape T)); [|exact Eu]. solve_respects.
    + intros i Hi. destruct (buffer_ nd) as [|b o] eqn:Hb.
      * apply RawMemory_ctor_Ret in Ec as (_ & [(? & _)|(_ & nb & ? & _)]);
          [lia|congruence].
      * apply uninitialized_value_construct_n_slots in Eu as [Hl _].
        cbn [ptr_add]. unfold live. rewrite Hl by done. eauto.
    + intros Hb. apply RawMemory_ctor_Ret in Ec as (_ & [(? & _)|(_ & nb & ? & _)]);
        [lia|congruence].
  - (* Vector(const Vector&) *)
    destruct (Vector_copy_this _ _ _ _ E) as [o Ho].
    pose proof (Hwfs _ _ Ho) as Hwo. simpl in Hwo.
    destruct (wf_contents _ _ Hwo) as [l Hl].
    destruct (Vector_copy_spec _ _ _ _ _ _ Ho Hwo Hl E)
      as (d & Hm1 & Hcap & Hwd & _).
    unfold Vector_copy in E. inv_M.
    match goal with
    | E1 : RawMemory_ctor _ _ = Ret ?d0 ?m1,
      E2 : uninitialized_copy_n _ _ _ _ = Ret _ ?m2 |- _ =>
        rename E1 into Ec; rename E2 into Eu; rename d0 into nd;
        rename m1 into ma; rename m2 into mb
    end.
    match goal with X : vecs m !! other = Some ?x |- _ =>
      rename x into o' end.
    assert (vecs mb = vecs m) as Hvb by (frame_vecs; congruence).
    assert (d = nd) as ->.
    { cbn [vecs set_vecs] in Hm1. rewrite Hvb in Hm1.
      apply (f_equal (fun s => s !! this)) in Hm1.
      rewrite !lookup_insert_eq in Hm1. by injection Hm1. }
    rewrite <- Hvb. unfold GetAddress in Eu.
    apply (built_then_destroyed (size_ o') nd m ma mb this (size_ o') Ec).
    + eapply (respects_Ret (outside T _)); [|exact Eu]. solve_outside.
    + eapply (respects_Ret (same_shape T)); [|exact Eu]. solve_respects.
    + intros i Hi. destruct (buffer_ nd) as [|b ofs] eqn:Hb.
      * destruct Hwd as (_ & [? ?] & Hz). simpl in *. rewrite Hb in Hz. lia.
      * destruct (wf_elim _ _ _ _ Hwd Hb) as (-> & _ & Hlive & _).
        cbn [ptr_add]. rewrite Z.add_0_l.
        exact (Hlive i Hi).
    + intros Hb. destruct Hwd as (_ & [? ?] & Hz). simpl in *.
      rewrite Hb in Hz. lia.
Qed.

(** *** Every member function within its precondition *)

Lemma wp_top {A} (c : M A) (Q : A → mem → Prop) (E : mem → Prop) m :
  wp c Q E m → wp c (fun _ _ => True) (fun _ => True) m.
Proof. by apply wp_mono. Qed.

(** The loop of the [uninitialized_*_n] algorithms: each iteration
    builds an object in the next slot of the destination. *)
Lemma construct_loop_wp (c : Z → M unit) db do_ n m :
  (∀ j m1, 0 <= j < n → extends T m m1 →
     wp (c j) (fun _ m' => extends T m1 m' ∧
                           is_Some (live m' (Ptr db (do_ + j))))
              (fun m' => vecs m' = vecs m1 ∧ heap m' = heap m1) m1) →
  wp (for_n (Z.to_nat n) 0
        (fun j => on_exception (c j) (destroy_n (Ptr db do_) j)))
     (fun _ m' => extends T m m' ∧
                  ∀ i, 0 <= i < n → is_Some (live m' (Ptr db (do_ + i))))
     (fun m' => vecs m' = vecs m ∧ same_shape T m m') m.
Proof.
  intros Hc.
  set (I := fun j m1 => extends T m m1 ∧
                        ∀ i, 0 <= i < j → is_Some (live m1 (Ptr db (do_ + i)))).
  set (E := fun m' : mem => vecs m' = vecs m ∧ same_shape T m m').
  eapply wp_mono; [| |apply (wp_for_n I E)].
  - intros _ m' [He Hl]. split; [done|]. intros i Hi. apply Hl. lia.
  - done.
  - split; [reflexivity|]. intros i Hi. lia.
  - intros j m1 Hj [He Hl].
    apply (wp_on_exception _ _ _ _
             (fun m' => vecs m' = vecs m1 ∧ heap m' = heap m1)).
    + eapply wp_mono; [| |apply Hc; [lia|done]].
      * intros _ m2 [He2 Hl2]. split; [by etrans|].
        intros i Hi. destruct (decide (i = j)) as [->|Hne]; [done|].
        destruct He2 as (_ & _ & Hm). apply Hm, Hl. lia.
      * done.
    + intros mx [Hvx Hhx].
      eapply wp_mono; [| |apply destroy_n_wp].
      * intros _ m2 [Hv2 Hs2]. destruct He as (Hv1 & Hs1 & _).
        split; [congruence|]. etrans; [exact Hs1|].
        intros b. rewrite Hs2. by rewrite Hhx.
      * done.
      * intros i Hi. unfold live. rewrite (slot_same_heap _ _ _ Hhx).
        apply Hl. lia.
Qed.

Lemma value_construct_at_wp p m :
  is_Some (slot m p) →
  wp (value_construct_at p)
     (fun _ m' => extends T m m' ∧ is_Some (live m' p))
     (fun m' => vecs m' = vecs m ∧ heap m' = heap m) m.
Proof.
  intros Hp. unfold wp, value_construct_at, bind, emit, throw.
  destruct value_init_throws; [done|].
  destruct (store_run p (Some value_init) (add_log (EvValueCtor (At p)) m))
    as [m' E]; [by rewrite slot_add_log|].
  rewrite E. apply store_extends in E as [He Hl].
  split; [|by rewrite Hl]. etrans; [apply add_log_extends|done].
Qed.

Lemma uninitialized_value_construct_n_wp b o n m :
  (∀ i, 0 <= i < n → is_Some (slot m (Ptr b (o + i)))) →
  wp (uninitialized_value_construct_n (Ptr b o) n)
     (fun _ m' => extends T m m' ∧
                  ∀ i, 0 <= i < n → is_Some (live m' (Ptr b (o + i))))
     (fun m' => vecs m' = vecs m ∧ same_shape T m m') m.
Proof.
  intros Hdst. unfold uninitialized_value_construct_n.
  apply (construct_loop_wp (fun j => value_construct_at (Ptr b o +p j))).
  intros j m1 Hj He. apply value_construct_at_wp.
  apply (extends_slot _ _ _ He), Hdst. lia.
Qed.

Lemma uninitialized_copy_n_wp sb so n db do_ m :
  (∀ i, 0 <= i < n → is_Some (live m (Ptr sb (so + i)))) →
  (∀ i, 0 <= i < n → is_Some (slot m (Ptr db (do_ + i)))) →
  wp (uninitialized_copy_n (Ptr sb so) n (Ptr db do_))
     (fun _ m' => extends T m m' ∧
                  ∀ i, 0 <= i < n → is_Some (live m' (Ptr db (do_ + i))))
     (fun m' => vecs m' = vecs m ∧ same_shape T m m') m.
Proof.
  intros Hsrc Hdst. unfold uninitialized_copy_n.
  apply (construct_loop_wp
           (fun j => copy_construct (Ptr sb so +p j) (Ptr db do_ +p j))).
  intros j m1 Hj He. apply copy_construct_wp.
  - destruct He as (_ & _ & Hm). apply Hm, Hsrc. lia.
  - apply (extends_slot _ _ _ He), Hdst. lia.
Qed.

(** A fresh block of [n] slots when [n * sizeof(T)] fits [size_t] *)
Lemma RawMemory_ctor_fits n m :
  0 < n → n * sizeof < size_t_modulus →
  RawMemory_ctor n m = Exc m ∨
  ∃ nb, heap m !! nb = None ∧
        RawMemory_ctor n m =
          Ret (mkRawMemory (Ptr nb 0) n)
              (set_heap <[nb := replicate (Z.to_nat n) None]> m).
Proof.
  intros Hn Hfit. pose proof sizeof_pos.
  destruct (RawMemory_ctor_cases n m ltac:(lia)) as [Ec|(nb & Hf & Ec)];
    [by left|right].
  exists nb. split; [done|]. rewrite Ec. do 3 f_equal.
  rewrite wrap_small by (unfold in_size_t; nia).
  rewrite Z.div_mul by lia. done.
Qed.

Lemma RawMemory_dtor_wp nb n m :
  is_Some (heap m !! nb) →
  wp (RawMemory_dtor (mkRawMemory (Ptr nb 0) n))
     (fun _ m' => vecs m' = vecs m) (fun _ => False) m.
Proof.
  intros [blk Hb]. unfold wp, RawMemory_dtor, Deallocate, operator_delete.
  simpl. by rewrite Hb.
Qed.

Lemma same_shape_block m m' b :
  same_shape T m m' → is_Some (heap m !! b) → is_Some (heap m' !! b).
Proof.
  intros Hs [blk Hb]. specialize (Hs b). rewrite Hb in Hs.
  by destruct (heap m' !! b).
Qed.

(** [Vector(size)] *)
Lemma Vector_sized_wp this n m :
  in_size_t n → n * sizeof < size_t_modulus →
  wp (Vector_sized this n) (fun _ _ => True) (fun _ => True) m.
Proof.
  intros Hn Hfit. unfold Vector_sized. apply wp_bind.
  destruct (decide (n = 0)) as [->|Hne].
  { apply (wp_run _ RawMemory_default m); [done|].
    apply wp_bind. by apply (wp_run _ tt m). }
  destruct (RawMemory_ctor_fits n m) as [Ec|(nb & Hf & Ec)];
    [unfold in_size_t in *; lia|done| |].
  { unfold wp. by rewrite Ec. }
  apply (wp_run _ _ _ _ _ _ Ec).
  set (m1 := set_heap <[nb := replicate (Z.to_nat n) None]> m).
  apply wp_bind.
  eapply (wp_mono _ (fun _ _ => True) _ (fun _ => True)); [done..|].
  apply (wp_on_exception _ _ _ _ (fun m' => same_shape T m1 m')).
  - unfold GetAddress. cbn [buffer_].
    eapply wp_mono; [| |apply uninitialized_value_construct_n_wp]; [done| |].
    + by intros m' [_ ?].
    + intros i Hi. unfold m1. rewrite slot_fresh_block.
      rewrite decide_True by lia. eauto.
  - intros mx Hsx. eapply wp_mono; [| |apply RawMemory_dtor_wp]; [done..|].
    apply (same_shape_block _ _ _ Hsx). unfold m1. cbn [heap set_heap].
    rewrite lookup_insert_eq. eauto.
Qed.

(** [Vector(const Vector&)] *)
Lemma Vector_copy_wp this other m o :
  vecs m !! other = Some o → wf m o →
  size_ o * sizeof < size_t_modulus →
  wp (Vector_copy this other) (fun _ _ => True) (fun _ => True) m.
Proof.
  intros Ho Hwf Hfit. pose proof Hwf as ([Hsr _] & [Hs0 _] & _).
  unfold Vector_copy. apply wp_bind. apply (wp_run _ o m); [by apply get_Some|].
  apply wp_bind.
  destruct (decide (size_ o = 0)) as [Hz|Hne].
  { rewrite Hz. apply (wp_run _ RawMemory_default m); [done|].
    apply wp_bind. by apply (wp_run _ tt m). }
  destruct (RawMemory_ctor_fits (size_ o) m) as [Ec|(nb & Hf & Ec)];
    [lia|done| |].
  { unfold wp. by rewrite Ec. }
  apply (wp_run _ _ _ _ _ _ Ec).
  set (m1 := set_heap <[nb := replicate (Z.to_nat (size_ o)) None]> m).
  apply wp_bind.
  eapply (wp_mono _ (fun _ _ => True) _ (fun _ => True)); [done..|].
  apply (wp_on_exception _ _ _ _ (fun m' => same_shape T m1 m')).
  - unfold GetAddress. cbn [buffer_].
    destruct (wf_buffer _ _ Hwf) as [(_ & Hz & _)|(ob & Hob & Hex)]; [lia|].
    destruct (wf_elim _ _ _ _ Hwf Hob) as (_ & _ & Hlive & _).
    assert (ob ≠ nb) as Hnb by (intros ->; destruct Hex; congruence).
    rewrite Hob.
    eapply wp_mono; [| |apply uninitialized_copy_n_wp]; [done| | |].
    + by intros m' [_ ?].
    + intros i Hi. unfold live, m1. rewrite slot_set_heap_insert by done.
      rewrite Z.add_0_l. by apply Hlive.
    + intros i Hi. unfold m1. rewrite slot_fresh_block.
      rewrite decide_True by lia. eauto.
  - intros mx Hsx. eapply wp_mono; [| |apply RawMemory_dtor_wp]; [done..|].
    apply (same_shape_block _ _ _ Hsx). unfold m1. cbn [heap set_heap].
    rewrite lookup_insert_eq. eauto.
Qed.

(** [~Vector()] of a well-formed vector returns. *)
Lemma Vector_dtor_wp this m v :
  vecs m !! this = Some v → wf m v →
  wp (Vector_dtor this) (fun _ _ => True) (fun _ => False) m.
Proof.
  intros Hv Hwf. unfold Vector_dtor. apply wp_bind.
  apply (wp_run _ v m); [by apply get_Some|].
  unfold GetAddress. apply wp_bind.
  destruct (wf_buffer _ _ Hwf) as [(Hnull & Hz & _)|(b & Hb & Hex)].
  - rewrite Hnull, Hz. apply (wp_run _ tt m); [apply destroy_n_0|].
    apply wp_bind. apply (wp_run _ tt m); [|done].
    unfold RawMemory_dtor, Deallocate, operator_delete. by rewrite Hnull.
  - destruct (wf_elim _ _ _ _ Hwf Hb) as (_ & _ & Hlive & _).
    rewrite Hb. eapply wp_mono; [| |apply destroy_n_wp].
    3:{ intros i Hi. rewrite Z.add_0_l. by apply Hlive. }
    2:{ done. }
    intros _ md [Hvd Hsd]. simpl. apply wp_bind.
    assert (data_ v = mkRawMemory (Ptr b 0) (capacity_ (data_ v))) as ->
      by (destruct (data_ v); simpl in *; by subst).
    eapply wp_mono; [| |apply RawMemory_dtor_wp]; [done..|].
    by apply (same_shape_block _ _ _ Hsd).
Qed.

Lemma Vector_dtor_runs this m v :
  vecs m !! this = Some v → wf m v →
  ∃ m', Vector_dtor this m = Ret tt m'.
Proof.
  intros Hv Hwf. pose proof (Vector_dtor_wp _ _ _ Hv Hwf) as Hw.
  unfold wp in Hw. destruct (Vector_dtor this m) as [[] m'|m'|]; [eauto|done..].
Qed.

(** [Reserve(new_capacity)] *)
Lemma Reserve_wp this n m v :
  vecs m !! this = Some v → wf m v →
  in_size_t n → n * sizeof < size_t_modulus →
  wp (Reserve this n) (fun _ _ => True) (fun _ => True) m.
Proof.
  intros Hv Hwf Hn Hfit.
  pose proof Hwf as ([Hsr Hcr] & [Hs0 Hsc] & _).
  unfold Reserve, RawMemory_Capacity. apply wp_bind.
  apply (wp_run _ v m); [by apply get_Some|].
  destruct (Z.leb_spec n (capacity_ (data_ v))) as [Hle|Hgt]; [done|].
  apply wp_bind.
  destruct (RawMemory_ctor_fits n m) as [Ec|(nb & Hf & Ec)]; [lia|done| |].
  { unfold wp. by rewrite Ec. }
  apply (wp_run _ _ _ _ _ _ Ec).
  set (m1 := set_heap <[nb := replicate (Z.to_nat n) None]> m).
  assert (∀ i, 0 <= i < n → is_Some (slot m1 (Ptr nb (0 + i)))) as Hnew.
  { intros i Hi. unfold m1. rewrite slot_fresh_block.
    rewrite decide_True by lia. eauto. }
  apply wp_bind.
  eapply (wp_mono _ (fun _ m' => vecs m' = vecs m1 ∧ same_shape T m1 m')
            _ (fun _ => True)).
  { intros _ m' [Hvm Hsm]. simpl.
    apply wp_bind. eapply wp_run.
    { apply (set_data_Some _ _ v). by rewrite Hvm. }
    destruct (wf_buffer _ _ Hwf) as [(Hnull & _ & _)|(ob & Hob & Hex)].
    - unfold wp, RawMemory_dtor, Deallocate, operator_delete. cbn [buffer_].
      by rewrite Hnull.
    - assert (data_ v = mkRawMemory (Ptr ob 0) (capacity_ (data_ v))) as ->
        by (destruct (data_ v); simpl in *; by subst).
      cbn [buffer_ capacity_].
      eapply wp_mono; [| |apply RawMemory_dtor_wp]; [done..|].
      cbn [heap set_vecs]. apply (same_shape_block _ _ _ Hsm).
      unfold m1. cbn [heap set_heap].
      rewrite lookup_insert_ne by (intros ->; destruct Hex; congruence).
      done. }
  { done. }
  apply (wp_on_exception _ _ _ _ (fun m' => same_shape T m1 m')).
  2:{ intros mx Hsx. eapply wp_mono; [| |apply RawMemory_dtor_wp]; [done..|].
      apply (same_shape_block _ _ _ Hsx). unfold m1. cbn [heap set_heap].
      rewrite lookup_insert_eq. eauto. }
  unfold GetAddress. cbn [buffer_].
  destruct (wf_buffer _ _ Hwf) as [(Hnull & Hz & _)|(ob & Hob & Hex)].
  { rewrite Hnull, Hz.
    apply wp_bind. apply (wp_run _ tt m1); [apply relocate_0|].
    by apply (wp_run _ tt m1). }
  rewrite Hob.
  destruct (wf_elim _ _ _ _ Hwf Hob) as (_ & _ & Hlive & _).
  assert (ob ≠ nb) as Hne by (intros ->; destruct Hex; congruence).
  assert (∀ i, 0 <= i < size_ v → is_Some (live m1 (Ptr ob (0 + i)))) as Hold.
  { intros i Hi. unfold live, m1. rewrite slot_set_heap_insert by done.
    rewrite Z.add_0_l. by apply Hlive. }
  apply wp_bind. eapply wp_mono; [| |apply relocate_wp].
  4:{ intros i Hi. apply Hnew. lia. }
  3:{ done. }
  2:{ by intros m' [_ ?]. }
  intros _ mr [Her Hlr]. simpl.
  eapply wp_mono; [| |apply destroy_n_wp].
  3:{ intros i Hi. destruct Her as (_ & _ & Hm). by apply Hm, Hold. }
  2:{ done. }
  intros _ md [Hvd Hsd]. destruct Her as (Hv1 & Hs1 & _).
  split; [by rewrite Hvd, Hv1|by etrans].
Qed.

(** Assignments overwrite live objects. *)
Lemma store_over_extends p x m :
  is_Some (live m p) →
  ∃ m', store p (Some x) m = Ret tt m' ∧ extends T m m'.
Proof.
  intros Hl. destruct (store_run p (Some x) m (live_is_slot _ _ Hl)) as [m' E].
  exists m'. split; [done|]. by apply store_extends in E as [? _].
Qed.

Lemma copy_assign_wp src dst m :
  is_Some (live m src) → is_Some (live m dst) →
  wp (copy_assign src dst)
     (fun _ m' => extends T m m') (fun m' => extends T m m') m.
Proof.
  intros [x Hx] Hd. unfold wp, copy_assign, bind, load, emit, throw.
  pose proof Hd as [y Hy]. unfold live in Hx, Hy.
  destruct (slot m src) as [[x'|]|]; try done.
  destruct (slot m dst) as [[y'|]|]; try done.
  destruct (copy_assign_throws x'); [apply add_log_extends|].
  destruct (store_over_extends dst x' (add_log (EvCopyAssign (At src) (At dst)) m))
    as (m' & E & He); [done|].
  rewrite E. etrans; [apply add_log_extends|done].
Qed.

Lemma move_assign_wp src dst m :
  is_Some (live m src) → is_Some (live m dst) →
  wp (move_assign src dst)
     (fun _ m' => extends T m m') (fun m' => extends T m m') m.
Proof.
  intros Hs Hd. unfold wp, move_assign, bind, load, emit, throw.
  pose proof Hs as [x Hx]. pose proof Hd as [y Hy]. unfold live in Hx, Hy.
  destruct (slot m src) as [[x'|]|]; try done.
  destruct (slot m dst) as [[y'|]|]; try done.
  destruct (move_assign_throws x'); [apply add_log_extends|].
  destruct (store_over_extends dst x' (add_log (EvMoveAssign (At src) (At dst)) m))
    as (m1 & E1 & He1); [done|].
  rewrite E1.
  destruct (store_over_extends src (moved_from x') m1) as (m2 & E2 & He2).
  { destruct He1 as (_ & _ & Hm). by apply Hm. }
  rewrite E2. etrans; [apply add_log_extends|]. by etrans.
Qed.

Lemma move_assign_local_wp x dst m :
  is_Some (live m dst) →
  wp (move_assign_local x dst)
     (fun _ m' => extends T m m') (fun m' => extends T m m') m.
Proof.
  intros Hd. unfold wp, move_assign_local, bind, load, emit, throw.
  pose proof Hd as [y Hy]. unfold live in Hy.
  destruct (slot m dst) as [[y'|]|]; try done.
  destruct (move_assign_throws x); [apply add_log_extends|].
  destruct (store_over_extends dst x (add_log (EvMoveAssign Local (At dst)) m))
    as (m' & E & He); [done|].
  rewrite E. etrans; [apply add_log_extends|done].
Qed.

(** A loop of assignments between live objects *)
Lemma assign_loop_wp (c : Z → M unit) k i0 m :
  (∀ j m1, i0 <= j < i0 + Z.of_nat k → extends T m m1 →
     wp (c j) (fun _ m' => extends T m1 m') (fun m' => extends T m1 m') m1) →
  wp (for_n k i0 c) (fun _ m' => extends T m m') (fun m' => extends T m m') m.
Proof.
  intros Hc.
  eapply wp_mono; [| |apply (wp_for_n (fun _ m1 => extends T m m1)
                                      (fun m1 => extends T m m1))].
  - done.
  - done.
  - reflexivity.
  - intros j m1 Hj He. eapply wp_mono; [| |by apply Hc].
    + intros [] m2 He2. simpl in *. by etrans.
    + intros m2 He2. simpl in *. by etrans.
Qed.

Lemma copy_n_wp sb so n db do_ m :
  (∀ i, 0 <= i < n → is_Some (live m (Ptr sb (so + i)))) →
  (∀ i, 0 <= i < n → is_Some (live m (Ptr db (do_ + i)))) →
  wp (copy_n (Ptr sb so) n (Ptr db do_))
     (fun it m' => it = Ptr db (do_ + n) ∧ extends T m m')
     (fun m' => extends T m m') m.
Proof.
  intros Hsrc Hdst. unfold copy_n. apply wp_bind.
  eapply wp_mono; [| |apply assign_loop_wp].
  - intros [] m' He. simpl in He. by apply wp_ret.
  - done.
  - intros j m1 Hj (_ & _ & Hm). apply copy_assign_wp; apply Hm.
    + apply Hsrc. lia.
    + apply Hdst. lia.
Qed.

Lemma index_of_run this pos m v i :
  vecs m !! this = Some v → in_size_t i →
  pos = buffer_ (data_ v) +p i →
  (buffer_ (data_ v) = Null → i = 0) →
  index_of this pos m = Ret i m.
Proof.
  intros Hv Hi -> Hnull. unfold index_of, begin, bind, get, GetAddress.
  rewrite Hv. unfold ret at 1.
  destruct (buffer_ (data_ v)) as [|b o].
  - simpl. rewrite (Hnull eq_refl). done.
  - simpl. rewrite decide_True by done.
    replace (o + i - o) with i by lia. by rewrite wrap_small.
Qed.

(** [Resize(new_size)] *)
Lemma Resize_wp this n m v :
  vecs m !! this = Some v → wf m v →
  in_size_t n → n * sizeof < size_t_modulus →
  wp (Resize this n) (fun _ _ => True) (fun _ => True) m.
Proof.
  intros Hv Hwf Hn Hfit.
  pose proof Hwf as ([Hsr Hcr] & [Hs0 Hsc] & _).
  unfold Resize. apply wp_bind. apply (wp_run _ v m); [by apply get_Some|].
  case_decide as Heq; [done|].
  destruct (Z.ltb_spec n (size_ v)) as [Hlt|Hge].
  - (* shrink *)
    destruct (wf_buffer _ _ Hwf) as [(_ & Hz & _)|(b & Hb & _)];
      [unfold in_size_t in *; lia|].
    destruct (wf_elim _ _ _ _ Hwf Hb) as (_ & _ & Hlive & _).
    unfold GetAddress. rewrite Hb. cbn [ptr_add].
    rewrite wrap_small by (unfold in_size_t in *; lia).
    apply wp_bind. eapply wp_mono; [| |apply destroy_n_wp].
    3:{ intros i Hi. apply Hlive. unfold in_size_t in *. lia. }
    2:{ done. }
    intros _ md [Hvd _]. simpl.
    eapply wp_run; [apply (set_size_Some _ _ v); by rewrite Hvd|done].
  - (* grow *)
    apply wp_bind.
    pose proof (Reserve_wp this n m v Hv Hwf Hn Hfit) as Hw. unfold wp in Hw.
    unfold wp at 1.
    destruct (Reserve this n m) as [[] m1|m1|] eqn:Er; [|done..].
    destruct (wf_contents _ _ Hwf) as [l Hl].
    destruct (Reserve_spec _ _ _ _ _ _ Hv Hwf Hl Hn Hfit Er)
      as (v1 & (Hm1 & _) & Hwf1 & Hs1 & Hc1 & _).
    assert (vecs m1 !! this = Some v1) as Hv1
      by (rewrite Hm1; apply lookup_insert_eq).
    apply wp_bind. apply (wp_run _ v1 m1); [by apply get_Some|].
    destruct (wf_buffer _ _ Hwf1) as [(_ & _ & Hz)|(b & Hb & _)]; [lia|].
    destruct (wf_elim _ _ _ _ Hwf1 Hb) as (_ & _ & _ & Hraw).
    unfold GetAddress. rewrite Hb. cbn [ptr_add]. rewrite Z.add_0_l.
    rewrite Hs1. rewrite wrap_small by (unfold in_size_t in *; lia).
    apply wp_bind.
    eapply wp_mono; [| |apply uninitialized_value_construct_n_wp].
    3:{ intros i Hi. rewrite Hraw by lia. eauto. }
    2:{ done. }
    intros _ m2 [(Hv2 & _) _]. simpl.
    eapply wp_run; [apply (set_size_Some _ _ v1); by rewrite Hv2|done].
Qed.

Lemma distance_run b x y m :
  x <= y → distance (Ptr b x) (Ptr b y) m = Ret (y - x) m.
Proof.
  intros Hle. unfold distance. simpl. rewrite decide_True by done.
  unfold bind, assert. by destruct (Z.leb_spec 0 (y - x)); [|lia].
Qed.

(** [Erase(pos)] at an element *)
Lemma Erase_wp this pos m v i :
  vecs m !! this = Some v → wf m v →
  0 <= i < size_ v → pos = buffer_ (data_ v) +p i →
  wp (Erase this pos) (fun _ _ => True) (fun _ => True) m.
Proof.
  intros Hv Hwf Hi Hpos.
  pose proof Hwf as ([Hsr Hcr] & [Hs0 Hsc] & _).
  destruct (wf_buffer _ _ Hwf) as [(_ & Hz & _)|(b & Hb & _)]; [lia|].
  destruct (wf_elim _ _ _ _ Hwf Hb) as (_ & _ & Hlive & _).
  assert (in_size_t i) as Hir by (unfold in_size_t in *; lia).
  unfold Erase. apply wp_bind.
  apply (wp_run _ i m);
    [apply (index_of_run _ _ _ v); [done..|by rewrite Hb]|].
  apply wp_bind. apply (wp_run _ v m); [by apply get_Some|].
  rewrite (wrap_small (i + 1)) by (unfold in_size_t in *; lia).
  rewrite (wrap_small (size_ v - 1)) by (unfold in_size_t in *; lia).
  apply wp_bind. eapply wp_run; [apply RawMemory_plus_run; lia|].
  apply wp_bind. eapply wp_run; [apply RawMemory_plus_run; lia|].
  apply wp_bind. eapply wp_run; [apply RawMemory_plus_run; lia|].
  rewrite Hb. cbn [ptr_add]. rewrite !Z.add_0_l.
  apply wp_bind.
  eapply (wp_mono _ (fun _ m' => extends T m m') _ (fun _ => True)).
  { intros _ m1 (Hv1 & _ & Hm). simpl.
    apply wp_bind. eapply wp_run; [apply RawMemory_plus_run; lia|].
    rewrite Hb. cbn [ptr_add]. rewrite Z.add_0_l.
    apply wp_bind. eapply wp_mono; [| |apply destroy_at_wp].
    3:{ apply Hm, Hlive. lia. }
    2:{ done. }
    intros _ m2 (Hv2 & _). simpl.
    apply wp_bind.
    eapply wp_run; [apply (set_size_Some _ _ v); by rewrite Hv2, Hv1|].
    eapply wp_run; [apply RawMemory_plus_run; lia|done]. }
  { done. }
  unfold std_move. apply wp_bind.
  eapply wp_run; [apply distance_run; lia|].
  eapply wp_mono; [| |apply assign_loop_wp]; [done..|].
  intros j m1 Hj (_ & _ & Hm). cbn [ptr_add].
  apply move_assign_wp; apply Hm, Hlive; lia.
Qed.

Lemma Vector_index_wp this i m v :
  vecs m !! this = Some v → wf m v → 0 <= i < size_ v →
  wp (Vector_index this i) (fun _ _ => True) (fun _ => False) m.
Proof.
  intros Hv Hwf Hi. destruct Hwf as (_ & [_ Hsc] & _).
  unfold wp, Vector_index, RawMemory_index, bind, get, assert, ret.
  rewrite Hv.
  destruct (Z.ltb_spec i (size_ v)); [|lia].
  by destruct (Z.ltb_spec i (capacity_ (data_ v))); [|lia].
Qed.

(** The member functions that only exchange data members return
    whenever their operands exist. *)
Ltac run_members Ht Ho :=
  unfold Swap, Vector_move, Vector_move_assign, reset_data, set_data, set_size,
    RawMemory_Swap, RawMemory_move_ctor, RawMemory_move_assign,
    RawMemory_dtor, Deallocate, operator_delete, RawMemory_default,
    bind, get, put, ret;
  repeat first
    [ rewrite Ht | rewrite Ho | rewrite lookup_insert
    | progress cbn [vecs set_vecs buffer_ capacity_ data_ size_]
    | case_decide ];
  eauto.

Lemma Swap_runs this other m t o :
  vecs m !! this = Some t → vecs m !! other = Some o →
  ∃ m', Swap this other m = Ret tt m'.
Proof. intros Ht Ho. run_members Ht Ho. Qed.

Lemma Vector_move_runs this other m o :
  vecs m !! other = Some o → ∃ m', Vector_move this other m = Ret tt m'.
Proof. intros Ho. run_members Ho Ho. Qed.

Lemma Vector_move_assign_runs this rhs m t r :
  vecs m !! this = Some t → vecs m !! rhs = Some r →
  ∃ m', Vector_move_assign this rhs m = Ret tt m'.
Proof. intros Ht Hr. run_members Ht Hr. Qed.

(** [operator=(const Vector&)] *)
Lemma Vector_copy_assign_wp this rhs m t r :
  store_wf m →
  vecs m !! this = Some t → vecs m !! rhs = Some r →
  size_ r * sizeof < size_t_modulus →
  wp (Vector_copy_assign this rhs) (fun _ _ => True) (fun _ => True) m.
Proof.
  intros Hwfs Ht Hr Hfit.
  pose proof (Hwfs _ _ Ht) as Hwt. pose proof (Hwfs _ _ Hr) as Hwr.
  simpl in Hwt, Hwr.
  pose proof Hwt as ([Htr Htc] & [Ht0 Htsc] & _).
  pose proof Hwr as ([Hrr Hrc] & [Hr0 Hrsc] & _).
  unfold Vector_copy_assign. case_decide as Hne; [|done].
  apply wp_bind. apply (wp_run _ t m); [by apply get_Some|].
  apply wp_bind. apply (wp_run _ r m); [by apply get_Some|].
  unfold RawMemory_Capacity, GetAddress.
  destruct (Z.gtb_spec (capacity_ (data_ r)) (capacity_ (data_ t))) as [Hgt|Hle].
  - (* copy and swap *)
    set (c := fresh (dom (vecs m))).
    assert (vecs m !! c = None) as Hc by (apply not_elem_of_dom, is_fresh).
    apply wp_bind. apply (wp_run _ c m); [done|].
    apply wp_bind.
    pose proof (Vector_copy_wp c rhs m r Hr Hwr Hfit) as Hw. unfold wp in Hw.
    unfold wp at 1.
    destruct (Vector_copy c rhs m) as [[] m1|m1|] eqn:Ec; [|done..].
    destruct (wf_contents _ _ Hwr) as [l Hl].
    destruct (Vector_copy_spec _ _ _ _ _ _ Hr Hwr Hl Ec)
      as (d & Hm1 & _ & Hwd & _ & _ & Hframe).
    assert (this ≠ c) as Hnc by congruence.
    assert (vecs m1 !! this = Some t) as Ht1
      by (by rewrite Hm1, lookup_insert_ne).
    assert (vecs m1 !! c = Some (mkVector d (size_ r))) as Hc1
      by (rewrite Hm1; apply lookup_insert_eq).
    destruct (Swap_runs this c m1 _ _ Ht1 Hc1) as [m2 Es].
    apply wp_bind. apply (wp_run _ _ _ _ _ _ Es).
    pose proof (Swap_vecs _ _ _ _ _ _ Ht1 Hc1 Es) as Hm2.
    pose proof (Swap_same_heap _ _ _ _ Es) as [Hh2 _].
    eapply wp_mono; [| |apply (Vector_dtor_wp c m2 t)]; [done|done| |].
    + rewrite Hm2. apply lookup_insert_eq.
    + apply (wf_frame m); [done|]. intros b o Hb. rewrite Hh2.
      apply Hframe. by apply (wf_block_exists m t b o).
  - destruct (Z.gtb_spec (size_ t) (size_ r)) as [Hmore|Hless].
    + (* fewer elements in rhs *)
      destruct (wf_buffer _ _ Hwt) as [(_ & Hz & _)|(tb & Htb & _)]; [lia|].
      destruct (wf_elim _ _ _ _ Hwt Htb) as (_ & _ & Hlt & _).
      rewrite Htb.
      rewrite wrap_small by (unfold in_size_t in *; lia).
      assert (wp (copy_n (buffer_ (data_ r)) (size_ r) (Ptr tb 0))
                (fun it m' => it = Ptr tb (0 + size_ r) ∧ extends T m m')
                (fun _ => True) m) as Hcopy.
      { destruct (wf_buffer _ _ Hwr) as [(Hnull & Hz & _)|(rb & Hrb & _)].
        - rewrite Hnull, Hz. apply (wp_run _ (Ptr tb (0 + 0)) m); [done|].
          split; [done|reflexivity].
        - destruct (wf_elim _ _ _ _ Hwr Hrb) as (_ & _ & Hlr & _).
          rewrite Hrb. eapply wp_mono; [| |apply copy_n_wp]; [done|done| |].
          + intros i Hi. rewrite Z.add_0_l. by apply Hlr.
          + intros i Hi. rewrite Z.add_0_l. apply Hlt. lia. }
      apply wp_bind. eapply wp_mono; [| |exact Hcopy]; [|done].
      intros it m1 [-> (Hv1 & _ & Hm)]. simpl.
      apply wp_bind. eapply wp_mono; [| |apply destroy_n_wp].
      3:{ intros i Hi. apply Hm. rewrite Z.add_0_l. apply Hlt. lia. }
      2:{ done. }
      intros _ m2 [Hv2 _]. simpl.
      eapply wp_run; [apply (set_size_Some _ _ t); by rewrite Hv2, Hv1|done].
    + (* at least as many elements in rhs *)
      rewrite wrap_small by (unfold in_size_t in *; lia).
      destruct (decide (size_ r = 0)) as [Hz|Hpos].
      { assert (size_ t = 0) as Hzt by lia. rewrite Hz, Hzt.
        unfold copy_n, uninitialized_copy_n. simpl.
        apply wp_bind. apply wp_bind. apply wp_ret. apply wp_ret.
        apply wp_bind. apply wp_ret.
        eapply wp_run; [apply (set_size_Some _ _ t); exact Ht|done]. }
      destruct (wf_buffer _ _ Hwr) as [(_ & Hz & _)|(rb & Hrb & _)]; [lia|].
      destruct (wf_buffer _ _ Hwt) as [(_ & _ & Hz)|(tb & Htb & _)]; [lia|].
      destruct (wf_elim _ _ _ _ Hwr Hrb) as (_ & _ & Hlr & _).
      destruct (wf_elim _ _ _ _ Hwt Htb) as (_ & _ & Hlt & Hraw).
      rewrite Hrb, Htb. cbn [ptr_add].
      apply wp_bind. eapply wp_mono; [| |apply copy_n_wp].
      4:{ intros i Hi. rewrite Z.add_0_l. by apply Hlt. }
      3:{ intros i Hi. rewrite Z.add_0_l. apply Hlr. lia. }
      2:{ done. }
      intros it m1 [-> He]. simpl. pose proof He as (Hv1 & _ & Hm).
      apply wp_bind. eapply wp_mono; [| |apply uninitialized_copy_n_wp].
      4:{ intros i Hi. apply (extends_slot _ _ _ He).
          rewrite !Z.add_0_l. rewrite Hraw by lia. eauto. }
      3:{ intros i Hi. apply Hm. rewrite Z.add_0_l. apply Hlr. lia. }
      2:{ done. }
      intros _ m2 [(Hv2 & _) _]. simpl.
      eapply wp_run; [apply (set_size_Some _ _ t); by rewrite Hv2, Hv1|done].
Qed.

Lemma RawMemory_index_run r n m :
  n < capacity_ r → RawMemory_index r n m = Ret (buffer_ r +p n) m.
Proof.
  intros Hn. unfold RawMemory_index, bind, assert.
  by destruct (Z.ltb_spec n (capacity_ r)); [|lia].
Qed.

Lemma construct_local_wp a m :
  wp (construct_local a)
     (fun _ m' => extends T m m') (fun _ => True) m.
Proof.
  unfold wp, construct_local, bind, emit, throw, ret.
  destruct (init_throws a); [done|apply add_log_extends].
Qed.

(** [Emplace(pos, args...)] at a position of the vector *)
Lemma emplace_wp this pos (a : init) m v i :
  vecs m !! this = Some v → wf m v →
  (size_ v = capacity_ (data_ v) →
   Z.max 1 (2 * size_ v) * sizeof < size_t_modulus) →
  0 <= i <= size_ v → pos = buffer_ (data_ v) +p i →
  wp (emplace this pos a) (fun _ _ => True) (fun _ => True) m.
Proof.
  intros Hv Hwf Hno Hi Hpos.
  pose proof Hwf as ([Hsr Hcr] & [Hs0 Hsc] & _).
  pose proof sizeof_pos as Hp.
  assert (in_size_t i) as Hir by (unfold in_size_t in *; lia).
  assert (buffer_ (data_ v) = Null → i = 0) as Hnull.
  { intros Hb. destruct (wf_buffer _ _ Hwf) as [(_ & ? & _)|(b & ? & _)];
      [lia|congruence]. }
  unfold emplace. apply wp_bind.
  apply (wp_run _ i m); [by apply (index_of_run _ _ _ v)|].
  apply wp_bind. apply (wp_run _ v m); [by apply get_Some|].
  apply wp_bind.
  eapply (wp_mono _ (fun _ m' => ∃ v', vecs m' !! this = Some v' ∧
                                       i <= capacity_ (data_ v'))
            _ (fun _ => True)).
  { intros _ m' (v' & Hv' & Hc). simpl.
    apply wp_bind. apply (wp_run _ v' m'); [by apply get_Some|].
    eapply wp_run; [by apply RawMemory_plus_run|done]. }
  { done. }
  unfold RawMemory_Capacity. case_decide as Hend.
  - (* at the end *)
    apply wp_bind.
    pose proof (append_wp this a m v Hv Hwf Hno) as Hw. unfold wp in Hw.
    unfold wp at 1.
    destruct (append this a m) as [p m1|m1|] eqn:Ea; [|done..].
    destruct (wf_contents _ _ Hwf) as [l Hl].
    destruct (append_spec _ _ _ _ _ _ _ Hv Hwf Hl Ea)
      as (v' & (Hm' & _) & Hwf' & Hs' & _).
    apply wp_ret. exists v'. split; [rewrite Hm'; apply lookup_insert_eq|].
    destruct Hwf' as (_ & [_ ?] & _). lia.
  - assert (0 < size_ v) as Hpos' by lia.
    destruct (wf_buffer _ _ Hwf) as [(_ & Hz & _)|(ob & Hob & Hex)]; [lia|].
    destruct (wf_elim _ _ _ _ Hwf Hob) as (_ & _ & Hlive & Hraw).
    case_decide as Hfull.
    + (* a full vector *)
      specialize (Hno Hfull).
      assert (grown (size_ v) = 2 * size_ v) as Hg.
      { unfold grown. case_decide; [lia|].
        rewrite wrap_small; [lia|]. unfold in_size_t in *. nia. }
      rewrite Hg.
      apply wp_bind.
      destruct (RawMemory_ctor_fits (2 * size_ v) m) as [Ec|(nb & Hf & Ec)];
        [lia|lia| |].
      { unfold wp. by rewrite Ec. }
      apply (wp_run _ _ _ _ _ _ Ec).
      set (g := 2 * size_ v) in *.
      set (m1 := set_heap <[nb := replicate (Z.to_nat g) None]> m).
      assert (∀ k, 0 <= k < g → is_Some (slot m1 (Ptr nb k))) as Hnew.
      { intros k Hk. unfold m1. rewrite slot_fresh_block.
        rewrite decide_True by lia. eauto. }
      assert (ob ≠ nb) as Hne by (intros ->; destruct Hex; congruence).
      assert (∀ k, 0 <= k < size_ v → is_Some (live m1 (Ptr ob k))) as Hold.
      { intros k Hk. unfold live, m1. rewrite slot_set_heap_insert by done.
        by apply Hlive. }
      apply wp_bind.
      eapply (wp_mono _ (fun _ m' => vecs m' = vecs m1) _ (fun _ => True)).
      { intros _ m' Hvm. simpl.
        destruct (adopt_runs this (mkRawMemory (Ptr nb 0) g) m' v) as [m2 Ea];
          [by rewrite Hvm|].
        apply (wp_run _ _ _ _ _ _ Ea).
        eapply adopt_vecs in Ea; [|by rewrite Hvm].
        eexists. split; [rewrite Ea; apply lookup_insert_eq|]. simpl. lia. }
      { done. }
      apply (wp_on_exception _ _ _ _ (fun m' => same_shape T m1 m')).
      2:{ intros mx Hsx. eapply wp_mono; [| |apply RawMemory_dtor_wp]; [done..|].
          apply (same_shape_block _ _ _ Hsx). unfold m1. cbn [heap set_heap].
          rewrite lookup_insert_eq. eauto. }
      rewrite (wrap_small (i + 1)) by (unfold in_size_t in *; lia).
      rewrite (wrap_small (size_ v - i)) by (unfold in_size_t in *; lia).
      apply wp_bind.
      eapply wp_run;
        [apply (RawMemory_plus_run (mkRawMemory (Ptr nb 0) g)); simpl; lia|].
      cbn [buffer_ ptr_add]. rewrite Z.add_0_l.
      apply wp_bind. eapply wp_mono; [| |apply construct_at_wp].
      3:{ apply Hnew. lia. }
      2:{ intros m' [_ Hh] b. by rewrite Hh. }
      intros _ mc [Hec _]. simpl.
      apply wp_bind. eapply wp_run; [apply RawMemory_plus_run; lia|].
      apply wp_bind.
      eapply wp_run;
        [apply (RawMemory_plus_run (mkRawMemory (Ptr nb 0) g)); simpl; lia|].
      unfold GetAddress. rewrite Hob. cbn [buffer_ ptr_add]. rewrite !Z.add_0_l.
      apply wp_bind. eapply wp_mono; [| |apply relocate_wp].
      4:{ intros k Hk. apply (extends_slot _ _ _ Hec), Hnew. lia. }
      3:{ intros k Hk. destruct Hec as (_ & _ & Hm). apply Hm, Hold. lia. }
      2:{ intros m' [_ Hs]. destruct Hec as (_ & Hs1 & _). by etrans. }
      intros _ mr [Her _]. simpl.
      assert (extends T m1 mr) as He1 by (by etrans).
      apply wp_bind. eapply wp_mono; [| |apply relocate_wp].
      4:{ intros k Hk. apply (extends_slot _ _ _ He1), Hnew. lia. }
      3:{ intros k Hk. destruct He1 as (_ & _ & Hm). apply Hm, Hold. lia. }
      2:{ intros m' [_ Hs]. destruct He1 as (_ & Hs1 & _). by etrans. }
      intros _ mr' [Her' _]. simpl.
      assert (extends T m1 mr') as He2 by (by etrans).
      eapply wp_mono; [| |apply destroy_n_wp].
      3:{ intros k Hk. destruct He2 as (_ & _ & Hm). apply Hm, Hold. lia. }
      2:{ done. }
      intros _ md [Hvd _]. destruct He2 as (Hv2 & _). by rewrite Hvd, Hv2.
    + (* in place *)
      assert (i < size_ v) as Hlt by lia.
      assert (size_ v < capacity_ (data_ v)) as Hroom by lia.
      apply wp_bind. eapply wp_mono; [| |apply construct_local_wp]; [|done].
      intros elem m0 He0. simpl in He0. simpl.
      apply wp_bind.
      eapply (wp_mono _ (fun _ m' => ∃ v', vecs m' !! this = Some v' ∧
                                           i <= capacity_ (data_ v'))
                _ (fun _ => True)).
      { intros _ m' Hx. by apply (wp_run _ tt (add_log (EvDtor Local) m')). }
      { done. }
      apply (wp_on_exception _ _ _ _ (fun _ => True)); [|done].
      rewrite (wrap_small (size_ v - 1)) by (unfold in_size_t in *; lia).
      rewrite (wrap_small (size_ v + 1)) by (unfold in_size_t in *; lia).
      apply wp_bind. eapply wp_run; [apply RawMemory_plus_run; lia|].
      apply wp_bind. eapply wp_run; [apply RawMemory_plus_run; lia|].
      unfold GetAddress. rewrite Hob. cbn [ptr_add]. rewrite !Z.add_0_l.
      apply wp_bind. eapply wp_mono; [| |apply move_construct_wp].
      4:{ apply (extends_slot _ _ _ He0). rewrite Hraw by lia. eauto. }
      3:{ destruct He0 as (_ & _ & Hm). apply Hm, Hlive. lia. }
      2:{ done. }
      intros _ m1 [He1 Hback]. simpl.
      assert (extends T m m1) as Hem1 by (by etrans).
      apply wp_bind.
      eapply (wp_mono _ (fun _ m' => extends T m1 m') _ (fun _ => True)).
      3:{ unfold move_backward. apply wp_bind.
          eapply wp_run; [apply distance_run; lia|].
          eapply wp_mono; [| |apply assign_loop_wp]; [done..|].
          intros j m2 Hj He2. cbn [ptr_add].
          assert (extends T m m2) as (_ & _ & Hm) by (by etrans).
          apply move_assign_wp; apply Hm, Hlive; lia. }
      2:{ done. }
      intros [] m2 He2. simpl in He2. simpl.
      assert (extends T m m2) as Hem2 by (by etrans).
      apply wp_bind. eapply wp_run; [apply RawMemory_index_run; lia|].
      rewrite Hob. cbn [ptr_add]. rewrite Z.add_0_l.
      apply wp_bind. eapply wp_mono; [| |apply move_assign_local_wp].
      3:{ destruct Hem2 as (_ & _ & Hm). apply Hm, Hlive. lia. }
      2:{ done. }
      intros _ m3 (Hv3 & _). simpl. destruct Hem2 as (Hv2 & _).
      eapply wp_run; [apply (set_size_Some _ _ v); by rewrite Hv3, Hv2|].
      eexists. split; [apply lookup_insert_eq|]. simpl. lia.
Qed.

Lemma constructed_from_wf (a : forwarded) m v :
  wf m v → wf (constructed_from a m) v.
Proof.
  intros Hwf. unfold constructed_from.
  destruct (forwarded_throws m a); [done|by apply moved_out_wf].
Qed.

Lemma fwd_wp {B} (f : forwarded → M B) (a : forwarded) (P : Prop) m :
  (∀ src,
     (f (MoveOf src) m = Exc m ∧ P) ∨
     match live m src with
     | Some x => f (MoveOf src) m =
                   f (ByMove x) (constructed_from (MoveOf src) m)
     | None => f (MoveOf src) m = Abort
     end) →
  bound a m →
  (∀ (a0 : init) b,
     wp (f a0) (fun _ _ => True) (fun _ => True) (constructed_from b m)) →
  (∀ a0 : init, wp (f a0) (fun _ _ => True) (fun _ => True) m) →
  wp (f a) (fun _ _ => True) (fun _ => True) m.
Proof.
  intros Hsim Hb Hc Hm. destruct a as [a|src]; [apply Hm|].
  destruct (Hsim src) as [[E _]|E].
  - unfold wp. by rewrite E.
  - destruct Hb as [x Hx]. rewrite Hx in E. unfold wp. rewrite E.
    apply Hc.
Qed.

Lemma append_fwd_wp this (a : forwarded) m v :
  vecs m !! this = Some v → wf m v →
  (size_ v = capacity_ (data_ v) →
   Z.max 1 (2 * size_ v) * sizeof < size_t_modulus) →
  bound a m →
  wp (append this a) (fun _ _ => True) (fun _ => True) m.
Proof.
  intros Hv Hwf Hfit Hb.
  apply (fwd_wp (append this) a (full this m) m);
    [intros src; apply append_MoveOf_eq|done| |].
  - intros a0 b. apply (append_wp _ _ _ v); [|by apply constructed_from_wf|done].
    by rewrite constructed_from_vecs.
  - intros a0. by apply (append_wp _ _ _ v).
Qed.

Lemma emplace_fwd_wp this pos (a : forwarded) m v i :
  vecs m !! this = Some v → wf m v →
  (size_ v = capacity_ (data_ v) →
   Z.max 1 (2 * size_ v) * sizeof < size_t_modulus) →
  0 <= i <= size_ v → pos = buffer_ (data_ v) +p i →
  bound a m →
  wp (emplace this pos a) (fun _ _ => True) (fun _ => True) m.
Proof.
  intros Hv Hwf Hfit Hi Hpos Hb.
  apply (fwd_wp (emplace this pos) a (full this m) m);
    [intros src; apply emplace_MoveOf_eq|done| |].
  - intros a0 b.
    apply (emplace_wp _ _ _ _ v i);
      [|by apply constructed_from_wf|done..].
    by rewrite constructed_from_vecs.
  - intros a0. by apply (emplace_wp _ _ _ _ v i).
Qed.

Lemma wp_defined (c : M unit) (Q : unit → mem → Prop) (E : mem → Prop) m :
  wp c Q E m →
  (∃ m', c m = Ret tt m') ∨ (∃ m', c m = Exc m').
Proof. unfold wp. destruct (c m) as [[] m'|m'|]; [eauto..|done]. Qed.

Lemma wp_then_ret {A} (c : M A) (Q : A → mem → Prop) (E : mem → Prop) m :
  wp c Q E m → wp (c >> ret tt) (fun _ _ => True) (fun _ => True) m.
Proof. intros Hw. apply wp_bind. by eapply wp_mono; [| |exact Hw]. Qed.

(** X28: within its precondition no public member function has
    undefined behaviour.  In a store of well-formed vectors, a call
    whose operands exist, whose size argument is in the range of
    [size_t], whose position lies in the vector ([begin() + i] with
    [i <= size] for [Emplace] and [Insert], [i < size] for [Erase]
    and [operator[]]), which for [PopBack] has an element to remove
    whose rvalue or forwarded argument, where it names an object in
    a block, names a live one, and whose allocation, if any, has a
    byte count that fits [size_t], returns or throws: it never reads a slot that holds no
    object, writes outside a block, frees what is not allocated or
    fails an assertion. *)
Theorem exec_defined c m :
  store_wf m → precondition c m →
  (∃ m', exec c m = Ret tt m') ∨ (∃ m', exec c m = Exc m').
Proof.
  intros Hwfs Hpre.
  assert (∀ a v, vecs m !! a = Some v → wf m v) as Hwf
    by (intros a v Hv; apply (Hwfs _ _ Hv)).
  destruct c; simpl in Hpre; simpl; unfold fits in Hpre.
  - (* Vector() *) left. unfold Vector_default, put. eauto.
  - (* Vector(size) *)
    destruct Hpre as [Hn Hfit]. eapply wp_defined. by apply Vector_sized_wp.
  - (* Vector(const Vector&) *)
    destruct Hpre as (o & Ho & Hfit). eapply wp_defined.
    by apply (Vector_copy_wp _ _ _ o); [|apply (Hwf other)|].
  - (* Vector(Vector&&) *)
    destruct Hpre as [o Ho]. left. by apply (Vector_move_runs _ _ _ o).
  - (* ~Vector() *)
    destruct Hpre as [v Hv]. left.
    by apply (Vector_dtor_runs _ _ v); [|apply (Hwf this)].
  - (* begin() *)
    destruct Hpre as [v Hv]. left. unfold begin, bind, get. rewrite Hv. eauto.
  - (* end() *)
    destruct Hpre as [v Hv]. eapply wp_defined. eapply wp_then_ret.
    unfold end_. apply wp_bind. apply (wp_run _ v m); [by apply get_Some|].
    destruct (Hwf _ _ Hv) as (_ & [_ Hsc] & _).
    eapply (wp_run _ _ _ (fun _ _ => True) (fun _ => True));
      [by apply RawMemory_plus_run|done].
  - (* operator=(const Vector&) *)
    destruct Hpre as ([t Ht] & r & Hr & Hfit). eapply wp_defined.
    by apply (Vector_copy_assign_wp _ _ _ t r).
  - (* operator=(Vector&&) *)
    destruct Hpre as ([t Ht] & [r Hr]). left.
    by apply (Vector_move_assign_runs _ _ _ t r).
  - (* Reserve *)
    destruct Hpre as ([v Hv] & Hn & Hfit). eapply wp_defined.
    by apply (Reserve_wp _ _ _ v); [|apply (Hwf this)|..].
  - (* Resize *)
    destruct Hpre as ([v Hv] & Hn & Hfit). eapply wp_defined.
    by apply (Resize_wp _ _ _ v); [|apply (Hwf this)|..].
  - (* PushBack(const T&) *)
    destruct Hpre as (v & Hv & Hfit). eapply wp_defined.
    unfold PushBack. eapply wp_then_ret.
    by apply (append_wp _ _ _ v); [|apply (Hwf this)|].
  - (* PushBack(T&&) *)
    destruct Hpre as (Hb & v & Hv & Hfit). eapply wp_defined.
    unfold PushBack_rvalue. eapply wp_then_ret.
    by apply (append_fwd_wp _ _ _ v); [|apply (Hwf this)|..].
  - (* EmplaceBack *)
    destruct Hpre as (Hb & v & Hv & Hfit). eapply wp_defined.
    unfold EmplaceBack. eapply wp_then_ret.
    by apply (append_fwd_wp _ _ _ v); [|apply (Hwf this)|..].
  - (* Emplace *)
    destruct Hpre as (Hb & v & i & Hv & Hfit & Hi & Hpos). eapply wp_defined.
    unfold Emplace. eapply wp_then_ret.
    by apply (emplace_fwd_wp _ _ _ _ v i); [|apply (Hwf this)|..].
  - (* Insert(const T&) *)
    destruct Hpre as (v & i & Hv & Hfit & Hi & Hpos). eapply wp_defined.
    unfold Insert, Emplace. eapply wp_then_ret.
    by apply (emplace_wp _ _ _ _ v i); [|apply (Hwf this)|..].
  - (* Insert(T&&) *)
    destruct Hpre as (Hb & v & i & Hv & Hfit & Hi & Hpos). eapply wp_defined.
    unfold Insert_rvalue, Emplace. eapply wp_then_ret.
    by apply (emplace_fwd_wp _ _ _ _ v i); [|apply (Hwf this)|..].
  - (* Erase *)
    destruct Hpre as (v & i & Hv & Hi & Hpos). eapply wp_defined.
    eapply wp_then_ret.
    by apply (Erase_wp _ _ _ v i); [|apply (Hwf this)|..].
  - (* PopBack *)
    destruct Hpre as (v & Hv & Hpos). left.
    by apply (PopBack_runs _ _ v); [|apply (Hwf this)|].
  - (* Swap *)
    destruct Hpre as ([t Ht] & [o Ho]). left. by apply (Swap_runs _ _ _ t o).
  - (* size() *)
    destruct Hpre as [v Hv]. left. unfold Size, bind, get. rewrite Hv. eauto.
  - (* capacity() *)
    destruct Hpre as [v Hv]. left. unfold Capacity, bind, get. rewrite Hv. eauto.
  - (* operator[] *)
    destruct Hpre as (v & Hv & Hi). eapply wp_defined. eapply wp_then_ret.
    by apply (Vector_index_wp _ _ _ v); [|apply (Hwf this)|].
Qed.

(** *** Exceptions of the vector's own *)

Lemma quiet_ret {A} (a : A) : quiet T (@ret T A a).
Proof. by intros m Hm. Qed.

Lemma quiet_abort {A} : quiet T (@abort T A).
Proof. by intros m Hm. Qed.

Lemma quiet_assert c : quiet T (@assert T c).
Proof. destruct c; [apply quiet_ret|apply quiet_abort]. Qed.

Lemma quiet_bind {A B} (c : M A) (f : A → M B) :
  quiet T c → (∀ a, quiet T (f a)) → quiet T (bind c f).
Proof.
  intros Hc Hf m Hm. unfold bind. specialize (Hc m Hm).
  destruct (c m) as [a m1| |]; [|done..].
  specialize (Hf a m1). rewrite Hc in Hf. specialize (Hf Hm).
  destruct (f a m1); [congruence|done..].
Qed.

Lemma quiet_for_n k i body :
  (∀ j, quiet T (body j)) → quiet T (for_n k i body).
Proof.
  intros Hb. revert i. induction k as [|k IH]; intros i; simpl.
  - apply quiet_ret.
  - apply quiet_bind; [apply Hb|intros _; apply IH].
Qed.

Lemma quiet_on_exception {A} (c : M A) h :
  quiet T c → quiet T (on_exception c h).
Proof.
  intros Hc m Hm. unfold on_exception. specialize (Hc m Hm).
  by destruct (c m).
Qed.

(** What neither throws nor touches the limit *)
Lemma quiet_prim {A} (c : M A) :
  respects (same_limit T) c → nothrow T c → quiet T c.
Proof.
  intros Hr Hn m Hm. specialize (Hr m). specialize (Hn m).
  destruct (c m) as [a m1|m1|]; [done| |done]. by destruct (Hn m1).
Qed.

Lemma quiet_Allocate n : quiet T (Allocate n).
Proof.
  intros m Hm. unfold Allocate. case_decide; [|done].
  unfold operator_new. pose proof (wrap_range (n * sizeof)) as [_ Hw].
  by destruct (Z.leb_spec (wrap (n * sizeof)) (max_alloc m)); [|lia].
Qed.

Ltac solve_quiet :=
  repeat first
    [ apply quiet_ret
    | apply quiet_abort
    | apply quiet_assert
    | apply quiet_Allocate
    | apply quiet_prim;
        [solve [eauto with respects]|solve [eauto with nothrow]]
    | solve [eauto with quiet]
    | apply quiet_bind; [|intros ?]
    | apply quiet_for_n; intros ?
    | apply quiet_on_exception
    | match goal with
      | |- quiet _ (if ?c then _ else _) => destruct c
      | |- quiet _ (match ?x with _ => _ end) => destruct x
      | |- quiet _ (let '(_, _) := ?x in _) => destruct x
      end
    | progress unfold destroy_at, destroy_n, uninitialized_value_construct_n,
        uninitialized_copy_n, uninitialized_move_n, copy_n, distance,
        std_move, move_backward, relocate,
        Deallocate, RawMemory_ctor, RawMemory_dtor, RawMemory_plus,
        RawMemory_index, set_data, set_size, reset_data, adopt, begin, end_,
        Size, Capacity, Vector_index, Swap, Vector_move, Vector_move_assign,
        Vector_dtor, PopBack, Vector_default, Vector_sized, Vector_copy,
        Vector_copy_assign, Reserve, Resize, append, PushBack,
        PushBack_rvalue, EmplaceBack, index_of, emplace, Emplace, Insert,
        Insert_rvalue, Erase ].

Create HintDb quiet discriminated.

Section Quiet.

Hypothesis Hnt : never_throws.

Lemma init_never_throws a : init_throws a = false.
Proof.
  destruct Hnt as (_ & Hmake & Hx). destruct a as [x|x|a]; simpl.
  - apply Hx.
  - apply Hx.
  - apply Hmake.
Qed.

Lemma quiet_construct_at p a : quiet T (construct_at p a).
Proof.
  unfold construct_at. rewrite init_never_throws. solve_quiet.
Qed.

Lemma quiet_construct_local a : quiet T (construct_local a).
Proof.
  unfold construct_local. rewrite init_never_throws. solve_quiet.
Qed.

Lemma quiet_placement_new p a : quiet T (placement_new p a).
Proof.
  destruct a as [a|src]; cbn [placement_new]; [apply quiet_construct_at|].
  apply quiet_bind; [solve_quiet|]. intros x.
  destruct Hnt as (_ & _ & Hx). destruct (Hx x) as (_ & -> & _). solve_quiet.
Qed.

Lemma quiet_local_object a : quiet T (local_object a).
Proof.
  destruct a as [a|src]; cbn [local_object]; [apply quiet_construct_local|].
  apply quiet_bind; [solve_quiet|]. intros x.
  destruct Hnt as (_ & _ & Hx). destruct (Hx x) as (_ & -> & _). solve_quiet.
Qed.

Lemma quiet_value_construct_at p : quiet T (value_construct_at p).
Proof.
  unfold value_construct_at. destruct Hnt as (-> & _). solve_quiet.
Qed.

Lemma quiet_copy_construct src dst : quiet T (copy_construct src dst).
Proof.
  unfold copy_construct. apply quiet_bind; [solve_quiet|]. intros x.
  destruct Hnt as (_ & _ & Hx). destruct (Hx x) as (-> & _). solve_quiet.
Qed.

Lemma quiet_move_construct src dst : quiet T (move_construct src dst).
Proof.
  unfold move_construct. apply quiet_bind; [solve_quiet|]. intros x.
  destruct Hnt as (_ & _ & Hx). destruct (Hx x) as (_ & -> & _). solve_quiet.
Qed.

Lemma quiet_copy_assign src dst : quiet T (copy_assign src dst).
Proof.
  unfold copy_assign. apply quiet_bind; [solve_quiet|]. intros x.
  destruct Hnt as (_ & _ & Hx). destruct (Hx x) as (_ & _ & -> & _).
  solve_quiet.
Qed.

Lemma quiet_move_assign src dst : quiet T (move_assign src dst).
Proof.
  unfold move_assign. apply quiet_bind; [solve_quiet|]. intros x.
  destruct Hnt as (_ & _ & Hx). destruct (Hx x) as (_ & _ & _ & ->).
  solve_quiet.
Qed.

Lemma quiet_move_assign_local x dst : quiet T (move_assign_local x dst).
Proof.
  unfold move_assign_local.
  destruct Hnt as (_ & _ & Hx). destruct (Hx x) as (_ & _ & _ & ->).
  solve_quiet.
Qed.

End Quiet.

#[local] Hint Resolve quiet_construct_at quiet_construct_local
  quiet_placement_new quiet_local_object
  quiet_value_construct_at quiet_copy_construct quiet_move_construct
  quiet_copy_assign quiet_move_assign quiet_move_assign_local : quiet.

Lemma exec_quiet c : never_throws → quiet T (exec c).
Proof. intros Hnt. destruct c; simpl; solve_quiet. Qed.

(** X30: the vector throws nothing of its own.  When no constructor
    and no assignment of [T] throws and [operator new] grants every
    request that a [size_t] can express, no public member function
    throws, whatever the store, the operands and the arguments: every
    exception that leaves the vector was raised by [T] or by the
    allocation. *)
Theorem exec_throws_nothing_of_its_own c m m' :
  never_throws → size_t_modulus <= max_alloc m → exec c m ≠ Exc m'.
Proof.
  intros Hnt Hm He. pose proof (exec_quiet c Hnt m Hm) as Hq.
  by rewrite He in Hq.
Qed.

End Proofs.

(** ** Instances of the theorems on [long] elements *)

Lemma Vector_move_steals_witness :
  (1 ≠ 0)%nat ∧
  vecs mem12 !! 0%nat = Some (mkVector (mkRawMemory (Ptr 1 0) 2) 2) ∧
  Vector_move 1 0 mem12 =
    Ret tt (set_vecs
              (fun vs => <[0%nat := mkVector RawMemory_default 0]>
                           (<[1%nat := mkVector (mkRawMemory (Ptr 1 0) 2) 2]> vs))
              mem12).
Proof.
  split; [done|]. split; [by vm_compute|].
  apply Vector_move_steals; [done | by vm_compute].
Defined.

Lemma exec_preserves_invariant_witness :
  store_wf mem12 ∧ args_representable (CallPushBack 0 3) ∧
  exec (CallPushBack 0 3) mem12 = Ret tt (after (PushBack 0 3) mem12) ∧
  store_invariant (after (PushBack 0 3) mem12).
Proof.
  assert (store_wf mem12) as Hwf
    by (apply (bool_decide_unpack (store_wf mem12)); by vm_compute).
  assert (exec (CallPushBack 0 3) mem12 = Ret tt (after (PushBack 0 3) mem12))
    as Hrun by (vm_compute; reflexivity).
  split; [exact Hwf|]. split; [exact I|]. split; [exact Hrun|].
  exact (exec_preserves_invariant (CallPushBack 0 3) mem12 _ Hwf I Hrun).
Defined.

Lemma full_vector_doubles_witness :
  let v := mkVector (mkRawMemory (Ptr 1 0) 2) 2 in
  let m' := after (PushBack 0 3) mem12 in
  inserts_into (CallPushBack 0 3) = Some 0%nat ∧
  vecs mem12 !! 0%nat = Some v ∧
  representable v ∧
  size_ v = capacity_ (data_ v) ∧
  exec (CallPushBack 0 3) mem12 = Ret tt m' ∧
  ∃ v', vecs m' !! 0%nat = Some v' ∧
        capacity_ (data_ v') = Z.max 1 (2 * capacity_ (data_ v)).
Proof.
  intros v m'.
  assert (vecs mem12 !! 0%nat = Some v) as Hv by (vm_compute; reflexivity).
  assert (representable v) as Hr by (by vm_compute).
  assert (exec (CallPushBack 0 3) mem12 = Ret tt m') as Hrun
    by (vm_compute; reflexivity).
  split; [reflexivity|]. split; [exact Hv|]. split; [exact Hr|].
  split; [reflexivity|]. split; [exact Hrun|].
  exact (full_vector_doubles (CallPushBack 0 3) 0 mem12 m' v
           eq_refl Hv Hr eq_refl Hrun).
Defined.

(** Copy assignment from a vector of larger capacity lowers the
    capacity of the target: [this] has capacity 4, [rhs] has capacity 8
    and size 1, and after [this = rhs] the capacity of [this] is 1. *)
Lemma copy_assign_lowers_capacity :
  ¬ (∀ (m m' : @mem Z) (this rhs : nat) (before after_ : Z),
       store_wf m →
       Capacity this m = Ret before m →
       Vector_copy_assign this rhs m = Ret tt m' →
       Capacity this m' = Ret after_ m' →
       before <= after_).
Proof.
  intros Hall.
  specialize (Hall mem_4_8 (after (Vector_copy_assign 0 1) mem_4_8) 0%nat 1%nat 4 1).
  enough (4 <= 1) by lia. apply Hall.
  - apply (bool_decide_unpack (store_wf mem_4_8)). by vm_compute.
  - vm_compute; reflexivity.
  - vm_compute; reflexivity.
  - vm_compute; reflexivity.
Qed.

Lemma capacity_changes_witness :
  let v := mkVector (mkRawMemory (Ptr 0 0) 4) 0 in
  let v' := mkVector (mkRawMemory (Ptr 2 0) 1) 1 in
  let r := mkVector (mkRawMemory (Ptr 1 0) 8) 1 in
  let m' := after (Vector_copy_assign 0 1) mem_4_8 in
  store_wf mem_4_8 ∧
  exec (CallCopyAssign 0 1) mem_4_8 = Ret tt m' ∧
  vecs mem_4_8 !! 0%nat = Some v ∧
  vecs m' !! 0%nat = Some v' ∧
  vecs mem_4_8 !! 1%nat = Some r ∧
  (0%nat ≠ 0%nat → capacity_ (data_ v') = capacity_ (data_ v)) ∧
  (0%nat = 0%nat →
   ∃ r, vecs mem_4_8 !! 1%nat = Some r ∧
        (capacity_ (data_ r) <= capacity_ (data_ v) →
         capacity_ (data_ v') = capacity_ (data_ v)) ∧
        (capacity_ (data_ v) < capacity_ (data_ r) →
         capacity_ (data_ v') = size_ r)).
Proof.
  intros v v' r m'.
  assert (store_wf mem_4_8) as Hwf
    by (apply (bool_decide_unpack (store_wf mem_4_8)); by vm_compute).
  assert (exec (CallCopyAssign 0 1) mem_4_8 = Ret tt m') as Hrun
    by (vm_compute; reflexivity).
  assert (vecs mem_4_8 !! 0%nat = Some v) as Hv by (vm_compute; reflexivity).
  assert (vecs m' !! 0%nat = Some v') as Hv' by (vm_compute; reflexivity).
  split; [exact Hwf|]. split; [exact Hrun|]. split; [exact Hv|].
  split; [exact Hv'|]. split; [vm_compute; reflexivity|].
  exact (proj2 (capacity_changes (CallCopyAssign 0 1) mem_4_8 m' 0 v v'
                  Hwf I Hrun Hv Hv' ltac:(discriminate))).
Defined.

Lemma append_builds_new_element_first_witness :
  let v := mkVector (mkRawMemory (Ptr 1 0) 2) 2 in
  (∃ b, heap mem12 !! b = None ∧
        vecs (after (PushBack 0 3) mem12) !! 0%nat =
          Some (mkVector (mkRawMemory (Ptr b 0) (grown 2)) (wrap (2 + 1))) ∧
        log (after (PushBack 0 3) mem12) =
          log mem12 ++ init_event (ByCopy 3) (At (Ptr b 2))
                    :: relocation (Ptr 1 0) 2 (Ptr b 0) ++ dtors (Ptr 1 0) 2) ∧
  (∃ m', exec (CallPushBack 0 (-5)) mem12 = Exc m' ∧
         vecs m' = vecs mem12 ∧ heap m' = heap mem12 ∧
         contents m' v = contents mem12 v).
Proof.
  intros v.
  assert (vecs mem12 !! 0%nat = Some v) as Hv by (vm_compute; reflexivity).
  assert (in_size_t (size_ v)) as Hs by (by vm_compute).
  split.
  - apply (proj1 (append_builds_new_element_first
                    (CallPushBack 0 3) 0 (ByCopy 3) mem12 v
                    eq_refl Hv Hs eq_refl)).
    vm_compute; reflexivity.
  - apply (proj2 (append_builds_new_element_first
                    (CallPushBack 0 (-5)) 0 (ByCopy (-5)) mem12 v
                    eq_refl Hv Hs eq_refl)).
    + reflexivity.
    + by vm_compute.
Defined.

Lemma relocation_follows_policy_witness :
  let v := mkVector (mkRawMemory (Ptr 1 0) 2) 2 in
  (∃ b, vecs (after (Reserve 0 5) mem12) !! 0%nat =
          Some (mkVector (mkRawMemory (Ptr b 0) 5) 2) ∧
        log (after (Reserve 0 5) mem12) =
          log mem12 ++ relocation (Ptr 1 0) 2 (Ptr b 0) ++ dtors (Ptr 1 0) 2) ∧
  (∃ b index, 0 <= index <= 2 ∧
        vecs (after (Insert 0 (Ptr 1 1) 5) mem12) !! 0%nat =
          Some (mkVector (mkRawMemory (Ptr b 0) (grown 2)) (wrap (2 + 1))) ∧
        log (after (Insert 0 (Ptr 1 1) 5) mem12) =
          log mem12 ++ growth_log (ByCopy 5) (Ptr 1 0) 2 index b) ∧
  (∀ src n dst,
     @relocation Z _ src n dst = moves src n dst ∧
     Forall (fun e => is_copy e = false) (@relocation Z _ src n dst ++ dtors src n)).
Proof.
  intros v.
  assert (vecs mem12 !! 0%nat = Some v) as Hv by (vm_compute; reflexivity).
  assert (representable v) as Hr by (by vm_compute).
  destruct (relocation_follows_policy 0 mem12 v Hv Hr) as (H1 & H2 & H3 & _).
  split; [|split].
  - apply H1; [by vm_compute | vm_compute; reflexivity].
  - apply (H2 (CallInsert 0 (Ptr 1 1) 5)); [reflexivity..| vm_compute; reflexivity].
  - apply H3. reflexivity.
Defined.

Lemma Insert_then_Erase_restores_witness :
  let v := mkVector (mkRawMemory (Ptr 1 0) 2) 2 in
  let m1 := after (Insert 0 (Ptr 1 1) 5) mem12 in
  let m2 := after (Erase 0 (Ptr 2 1)) m1 in
  vecs mem12 !! 0%nat = Some v ∧
  wf mem12 v ∧
  contents mem12 v = Some [1; 2] ∧
  Ptr 1 1 = buffer_ (data_ v) +p 1 ∧
  0 <= 1 <= size_ v ∧
  Insert 0 (Ptr 1 1) 5 mem12 = Ret (Ptr 2 1) m1 ∧
  Erase 0 (Ptr 2 1) m1 = Ret (Ptr 2 1) m2 ∧
  ∃ v2,
    index_of 0 (Ptr 2 1) m1 = Ret 1 m1 ∧
    vecs m2 !! 0%nat = Some v2 ∧
    size_ v2 = size_ v ∧
    contents m2 v2 = Some [1; 2].
Proof.
  intros v m1 m2.
  assert (vecs mem12 !! 0%nat = Some v) as Hv by (vm_compute; reflexivity).
  assert (wf mem12 v) as Hwf
    by (apply (bool_decide_unpack (wf mem12 v)); by vm_compute).
  assert (contents mem12 v = Some [1; 2]) as Hl by (vm_compute; reflexivity).
  assert (0 <= 1 <= size_ v) as Hi by (simpl; lia).
  assert (Insert 0 (Ptr 1 1) 5 mem12 = Ret (Ptr 2 1) m1) as Hins
    by (vm_compute; reflexivity).
  assert (Erase 0 (Ptr 2 1) m1 = Ret (Ptr 2 1) m2) as He
    by (vm_compute; reflexivity).
  split; [exact Hv|]. split; [exact Hwf|]. split; [exact Hl|].
  split; [reflexivity|]. split; [exact Hi|]. split; [exact Hins|].
  split; [exact He|].
  exact (proj1 (Insert_then_Erase_restores 0 (Ptr 1 1) 1 mem12 v [1; 2]
                  Hv Hwf Hl eq_refl Hi)
           5 (Ptr 2 1) m1 (Ptr 2 1) m2 Hins He).
Defined.

(** [Insert] of an element of the vector itself, handed over as an
    rvalue, followed by [Erase] does not restore the contents: on the
    vector [1; 2], [v.Insert(v.begin() + 1, std::move(v[0]))] followed
    by [v.Erase] at the returned position leaves [-1; 2], the first
    element moved-from. *)
Lemma Insert_rvalue_then_Erase_loses_value :
  ¬ (∀ (m m1 m2 : @mem Z) (this : nat) (pos it it' : ptr) (i : Z)
       (value : @rvalue Z) (v v2 : Vector),
       store_wf m →
       vecs m !! this = Some v →
       pos = buffer_ (data_ v) +p i → 0 <= i <= size_ v →
       Insert_rvalue this pos value m = Ret it m1 →
       Erase this it m1 = Ret it' m2 →
       vecs m2 !! this = Some v2 →
       contents m2 v2 = contents m v).
Proof.
  intros Hall.
  pose (m1 := after (Insert_rvalue 0 (Ptr 1 1) (Held (Ptr 1 0))) mem12).
  pose (m2 := after (Erase 0 (Ptr 2 1)) m1).
  specialize (Hall mem12 m1 m2 0%nat (Ptr 1 1) (Ptr 2 1) (Ptr 2 1) 1
                (Held (Ptr 1 0))
                (mkVector (mkRawMemory (Ptr 1 0) 2) 2)
                (mkVector (mkRawMemory (Ptr 2 0) 4) 2)).
  enough (Some [-1; 2] = Some [1; 2]) by done.
  transitivity (contents m2 (mkVector (mkRawMemory (Ptr 2 0) 4) 2));
    [vm_compute; reflexivity|].
  transitivity (contents mem12 (mkVector (mkRawMemory (Ptr 1 0) 2) 2));
    [|vm_compute; reflexivity].
  apply Hall.
  - apply (bool_decide_unpack (store_wf mem12)). by vm_compute.
  - vm_compute; reflexivity.
  - reflexivity.
  - simpl; lia.
  - vm_compute; reflexivity.
  - vm_compute; reflexivity.
  - vm_compute; reflexivity.
Qed.

Lemma Reserve_then_pushes_witness :
  let v := mkVector (mkRawMemory (Ptr 1 0) 2) 2 in
  let pushes := [CallPushBack 0 3; CallPushBackRvalue 0 (Temporary 4);
                 CallPushBackRvalue 0 (Held (Ptr 2 0))] in
  let m1 := after (Reserve 0 5) mem12 in
  let m2 := after (exec_all pushes) m1 in
  vecs mem12 !! 0%nat = Some v ∧
  wf mem12 v ∧
  in_size_t 5 ∧
  Reserve 0 5 mem12 = Ret tt m1 ∧
  exec_all pushes m1 = Ret tt m2 ∧
  (∃ v', vecs m1 !! 0%nat = Some v' ∧
         capacity_ (data_ v') = 5 ∧
         size_ v' = size_ v ∧
         contents m1 v' = contents mem12 v) ∧
  (∃ v1 v2, vecs m1 !! 0%nat = Some v1 ∧ vecs m2 !! 0%nat = Some v2 ∧
            5 <= capacity_ (data_ v1) ∧
            capacity_ (data_ v2) = capacity_ (data_ v1) ∧
            size_ v2 = size_ v + Z.of_nat (length pushes)).
Proof.
  intros v pushes m1 m2.
  assert (vecs mem12 !! 0%nat = Some v) as Hv by (vm_compute; reflexivity).
  assert (wf mem12 v) as Hwf
    by (apply (bool_decide_unpack (wf mem12 v)); by vm_compute).
  assert (in_size_t 5) as Hn by (unfold in_size_t, size_t_modulus; lia).
  assert (Reserve 0 5 mem12 = Ret tt m1) as Hr by (vm_compute; reflexivity).
  assert (exec_all pushes m1 = Ret tt m2) as Hp
    by (vm_compute; reflexivity).
  split; [exact Hv|]. split; [exact Hwf|]. split; [exact Hn|].
  split; [exact Hr|]. split; [exact Hp|].
  pose proof (Reserve_then_pushes 0 5 mem12 v Hv Hwf Hn) as (_ & Hgrow & Hpush).
  split.
  - apply Hgrow; [simpl; lia|exact Hr].
  - apply (Hpush m1 pushes m2 Hr); [|simpl; lia|exact Hp].
    intros c Hc. unfold pushes in Hc. rewrite !elem_of_cons in Hc.
    destruct Hc as [->|[->|[->|Hc]]]; [eauto..|].
    by apply elem_of_nil in Hc.
Defined.

(** ** Instances of the theorems on the member functions *)

Lemma mem12_vector :
  vecs mem12 !! 0%nat = Some (mkVector (mkRawMemory (Ptr 1 0) 2) 2).
Proof. vm_compute. reflexivity. Qed.

Lemma mem12_wf : wf mem12 (mkVector (mkRawMemory (Ptr 1 0) 2) 2).
Proof.
  apply (bool_decide_unpack (wf mem12 (mkVector (mkRawMemory (Ptr 1 0) 2) 2))).
  by vm_compute.
Qed.

Lemma mem12_contents :
  contents mem12 (mkVector (mkRawMemory (Ptr 1 0) 2) 2) = Some [1; 2].
Proof. vm_compute. reflexivity. Qed.

Lemma append_adds_last_witness :
  let v := mkVector (mkRawMemory (Ptr 1 0) 2) 2 in
  let c := CallPushBackRvalue 0 (Held (Ptr 1 0)) in
  let a := MoveOf (Ptr 1 0) in
  let m' := after (exec c) mem12 in
  appends c = Some (0%nat, a) ∧
  vecs mem12 !! 0%nat = Some v ∧ wf mem12 v ∧
  contents mem12 v = Some [1; 2] ∧
  exec c mem12 = Ret tt m' ∧
  left_behind v a [1; 2] = [-1; 2] ∧
  ∃ v' x, forwarded_value mem12 a = Some x ∧
          vecs m' !! 0%nat = Some v' ∧ wf m' v' ∧
          size_ v' = size_ v + 1 ∧
          contents m' v' = Some (left_behind v a [1; 2] ++ [x]).
Proof.
  intros v c a m'.
  assert (exec c mem12 = Ret tt m') as Hrun by (vm_compute; reflexivity).
  split; [reflexivity|]. split; [exact mem12_vector|].
  split; [exact mem12_wf|]. split; [exact mem12_contents|].
  split; [exact Hrun|]. split; [vm_compute; reflexivity|].
  exact (append_adds_last c 0 a mem12 m' v [1; 2]
           eq_refl mem12_vector mem12_wf mem12_contents Hrun).
Defined.

Lemma EmplaceBack_returns_last_witness :
  let v := mkVector (mkRawMemory (Ptr 1 0) 2) 2 in
  let args := MoveOf (Ptr 1 0) in
  let m' := after (EmplaceBack 0 args) mem12 in
  vecs mem12 !! 0%nat = Some v ∧ wf mem12 v ∧
  EmplaceBack 0 args mem12 = Ret (Ptr 2 2) m' ∧
  ∃ x, forwarded_value mem12 args = Some x ∧
       Vector_index 0 (size_ v) m' = Ret (Ptr 2 2) m' ∧
       load (Ptr 2 2) m' = Ret x m'.
Proof.
  intros v args m'.
  assert (EmplaceBack 0 args mem12 = Ret (Ptr 2 2) m') as Hrun
    by (vm_compute; reflexivity).
  split; [exact mem12_vector|]. split; [exact mem12_wf|]. split; [exact Hrun|].
  exact (EmplaceBack_returns_last 0 args mem12 (Ptr 2 2) m' v
           mem12_vector mem12_wf Hrun).
Defined.

Lemma Insert_places_value_witness :
  let v := mkVector (mkRawMemory (Ptr 1 0) 2) 2 in
  let a := MoveOf (Ptr 1 0) in
  let m' := after (Insert_rvalue 0 (Ptr 1 1) (Held (Ptr 1 0))) mem12 in
  vecs mem12 !! 0%nat = Some v ∧ wf mem12 v ∧
  contents mem12 v = Some [1; 2] ∧
  Ptr 1 1 = buffer_ (data_ v) +p 1 ∧
  0 <= 1 <= size_ v ∧
  Insert_rvalue 0 (Ptr 1 1) (Held (Ptr 1 0)) mem12 = Ret (Ptr 2 1) m' ∧
  left_behind v a [1; 2] = [-1; 2] ∧
  ∃ v' x,
    forwarded_value mem12 a = Some x ∧
    vecs m' !! 0%nat = Some v' ∧ wf m' v' ∧
    size_ v' = size_ v + 1 ∧
    contents m' v' =
      Some (take (Z.to_nat 1) (left_behind v a [1; 2]) ++
            x :: drop (Z.to_nat 1) (left_behind v a [1; 2])) ∧
    Ptr 2 1 = buffer_ (data_ v') +p 1.
Proof.
  intros v a m'.
  assert (0 <= 1 <= size_ v) as Hi by (simpl; lia).
  assert (Insert_rvalue 0 (Ptr 1 1) (Held (Ptr 1 0)) mem12 = Ret (Ptr 2 1) m')
    as Hrun by (vm_compute; reflexivity).
  split; [exact mem12_vector|]. split; [exact mem12_wf|].
  split; [exact mem12_contents|]. split; [reflexivity|]. split; [exact Hi|].
  split; [exact Hrun|]. split; [vm_compute; reflexivity|].
  exact (proj1 (proj2 (Insert_places_value 0 (Ptr 1 1) 1 mem12 v [1; 2]
                         mem12_vector mem12_wf mem12_contents eq_refl Hi))
           (Held (Ptr 1 0)) (Ptr 2 1) m' Hrun).
Defined.

Lemma Erase_removes_element_witness :
  let v := mkVector (mkRawMemory (Ptr 1 0) 2) 2 in
  let m' := after (Erase 0 (Ptr 1 0)) mem12 in
  vecs mem12 !! 0%nat = Some v ∧ wf mem12 v ∧
  contents mem12 v = Some [1; 2] ∧
  Ptr 1 0 = buffer_ (data_ v) +p 0 ∧
  0 <= 0 < size_ v ∧
  Erase 0 (Ptr 1 0) mem12 = Ret (Ptr 1 0) m' ∧
  ∃ v',
    vecs m' !! 0%nat = Some v' ∧ wf m' v' ∧
    data_ v' = data_ v ∧ size_ v' = size_ v - 1 ∧
    contents m' v' = Some (delete (Z.to_nat 0) [1; 2]) ∧
    Ptr 1 0 = buffer_ (data_ v) +p 0.
Proof.
  intros v m'.
  assert (0 <= 0 < size_ v) as Hi by (simpl; lia).
  assert (Erase 0 (Ptr 1 0) mem12 = Ret (Ptr 1 0) m') as Hrun
    by (vm_compute; reflexivity).
  split; [exact mem12_vector|]. split; [exact mem12_wf|].
  split; [exact mem12_contents|]. split; [reflexivity|]. split; [exact Hi|].
  split; [exact Hrun|].
  exact (Erase_removes_element 0 (Ptr 1 0) 0 mem12 (Ptr 1 0) m' v [1; 2]
           mem12_vector mem12_wf mem12_contents eq_refl Hi Hrun).
Defined.

Lemma PopBack_drops_last_witness :
  let v := mkVector (mkRawMemory (Ptr 1 0) 2) 2 in
  vecs mem12 !! 0%nat = Some v ∧ wf mem12 v ∧
  contents mem12 v = Some [1; 2] ∧
  (size_ v = 0 → PopBack 0 mem12 = Abort) ∧
  (size_ v ≠ 0 →
   ∃ m' v', PopBack 0 mem12 = Ret tt m' ∧
            vecs m' !! 0%nat = Some v' ∧ wf m' v' ∧
            data_ v' = data_ v ∧ size_ v' = size_ v - 1 ∧
            contents m' v' = Some (take (Z.to_nat (size_ v - 1)) [1; 2])).
Proof.
  intros v.
  split; [exact mem12_vector|]. split; [exact mem12_wf|].
  split; [exact mem12_contents|].
  exact (PopBack_drops_last 0 mem12 v [1; 2]
           mem12_vector mem12_wf mem12_contents).
Defined.


Lemma Vector_index_reads_witness :
  let v := mkVector (mkRawMemory (Ptr 1 0) 2) 2 in
  vecs mem12 !! 0%nat = Some v ∧ wf mem12 v ∧
  contents mem12 v = Some [1; 2] ∧
  (size_ v <= 1 → Vector_index 0 1 mem12 = Abort) ∧
  (0 <= 1 < size_ v →
   ∃ x, [1; 2] !! Z.to_nat 1 = Some x ∧
        Vector_index 0 1 mem12 = Ret (buffer_ (data_ v) +p 1) mem12 ∧
        load (buffer_ (data_ v) +p 1) mem12 = Ret x mem12).
Proof.
  intros v.
  split; [exact mem12_vector|]. split; [exact mem12_wf|].
  split; [exact mem12_contents|].
  exact (Vector_index_reads 0 1 mem12 v [1; 2]
           mem12_vector mem12_wf mem12_contents).
Defined.


Lemma Vector_sized_fills_witness :
  let m' := after (Vector_sized 0 3) mem0 in
  in_size_t 3 ∧
  (3 = 0 → Vector_sized 0 3 mem0 = Vector_default 0 mem0) ∧
  (∀ m', Vector_sized 0 3 mem0 = Ret tt m' →
     ∃ v', vecs m' !! 0%nat = Some v' ∧ wf m' v' ∧
           size_ v' = 3 ∧ capacity_ (data_ v') = 3 ∧
           contents m' v' = Some (replicate (Z.to_nat 3) value_init)) ∧
  Vector_sized 0 3 mem0 = Ret tt m'.
Proof.
  intros m'.
  assert (in_size_t 3) as Hn by (unfold in_size_t, size_t_modulus; lia).
  split; [exact Hn|].
  split; [exact (proj1 (Vector_sized_fills 0 3 mem0 Hn))|].
  split; [exact (proj2 (Vector_sized_fills 0 3 mem0 Hn))|].
  vm_compute. reflexivity.
Defined.

Lemma Vector_copy_copies_witness :
  let o := mkVector (mkRawMemory (Ptr 1 0) 2) 2 in
  let m' := after (Vector_copy 1 0) mem12 in
  1%nat ≠ 0%nat ∧
  vecs mem12 !! 0%nat = Some o ∧ wf mem12 o ∧
  contents mem12 o = Some [1; 2] ∧
  Vector_copy 1 0 mem12 = Ret tt m' ∧
  ∃ v', vecs m' !! 1%nat = Some v' ∧ wf m' v' ∧
        size_ v' = size_ o ∧ capacity_ (data_ v') = size_ o ∧
        contents m' v' = Some [1; 2] ∧
        (∀ b i j, buffer_ (data_ v') = Ptr b i → buffer_ (data_ o) ≠ Ptr b j) ∧
        vecs m' !! 0%nat = Some o ∧ wf m' o ∧ contents m' o = Some [1; 2].
Proof.
  intros o m'.
  assert (Vector_copy 1 0 mem12 = Ret tt m') as Hrun by (vm_compute; reflexivity).
  assert (1%nat ≠ 0%nat) as Hne by lia.
  split; [exact Hne|]. split; [exact mem12_vector|]. split; [exact mem12_wf|].
  split; [exact mem12_contents|]. split; [exact Hrun|].
  exact (Vector_copy_copies 1 0 mem12 m' o [1; 2] Hne
           mem12_vector mem12_wf mem12_contents Hrun).
Defined.

Lemma Resize_sets_size_witness :
  let v := mkVector (mkRawMemory (Ptr 1 0) 2) 2 in
  let m' := after (Resize 0 4) mem12 in
  vecs mem12 !! 0%nat = Some v ∧ wf mem12 v ∧
  contents mem12 v = Some [1; 2] ∧ in_size_t 4 ∧
  Resize 0 4 mem12 = Ret tt m' ∧
  ∃ v', vecs m' !! 0%nat = Some v' ∧ wf m' v' ∧
        size_ v' = 4 ∧
        capacity_ (data_ v') = Z.max 4 (capacity_ (data_ v)) ∧
        contents m' v' =
          Some (take (Z.to_nat 4) [1; 2]
                  ++ replicate (Z.to_nat (4 - size_ v)) value_init).
Proof.
  intros v m'.
  assert (Resize 0 4 mem12 = Ret tt m') as Hrun by (vm_compute; reflexivity).
  assert (in_size_t 4) as Hn by (unfold in_size_t, size_t_modulus; lia).
  split; [exact mem12_vector|]. split; [exact mem12_wf|].
  split; [exact mem12_contents|]. split; [exact Hn|]. split; [exact Hrun|].
  exact (Resize_sets_size 0 4 mem12 m' v [1; 2]
           mem12_vector mem12_wf mem12_contents Hn Hrun).
Defined.

Lemma Reserve_allocates_modulo_witness :
  let v := mkVector (mkRawMemory (Ptr 1 0) 2) 2 in
  let n := 2 ^ 61 + 2 in
  let m' := after (Reserve 0 n) mem12 in
  vecs mem12 !! 0%nat = Some v ∧ wf mem12 v ∧ in_size_t n ∧
  capacity_ (data_ v) < n ∧
  Reserve 0 n mem12 = Ret tt m' ∧
  ∃ v' b blk,
    vecs m' !! 0%nat = Some v' ∧ capacity_ (data_ v') = n ∧
    buffer_ (data_ v') = Ptr b 0 ∧ heap m' !! b = Some blk ∧
    Z.of_nat (length blk) = wrap (n * sizeof) / sizeof ∧
    (n * sizeof < size_t_modulus → wf m' v') ∧
    (size_t_modulus <= n * sizeof → Z.of_nat (length blk) < n ∧ ¬ wf m' v').
Proof.
  intros v n m'.
  assert (Reserve 0 n mem12 = Ret tt m') as Hrun by (vm_compute; reflexivity).
  assert (in_size_t n) as Hn by (unfold in_size_t, size_t_modulus, n; lia).
  assert (capacity_ (data_ v) < n) as Hlt by (unfold n; simpl; lia).
  split; [exact mem12_vector|]. split; [exact mem12_wf|].
  split; [exact Hn|]. split; [exact Hlt|]. split; [exact Hrun|].
  exact (Reserve_allocates_modulo 0 n mem12 m' v
           mem12_vector mem12_wf Hn Hlt Hrun).
Defined.


Lemma mem_4_8_sound : sound mem_4_8.
Proof. apply (bool_decide_unpack (sound mem_4_8)). by vm_compute. Qed.

Lemma mem_4_8_this :
  vecs mem_4_8 !! 0%nat = Some (mkVector (mkRawMemory (Ptr 0 0) 4) 0).
Proof. vm_compute. reflexivity. Qed.

Lemma mem_4_8_rhs :
  vecs mem_4_8 !! 1%nat = Some (mkVector (mkRawMemory (Ptr 1 0) 8) 1).
Proof. vm_compute. reflexivity. Qed.

Lemma Vector_copy_assign_copies_witness :
  let t := mkVector (mkRawMemory (Ptr 0 0) 4) 0 in
  let r := mkVector (mkRawMemory (Ptr 1 0) 8) 1 in
  let m' := after (Vector_copy_assign 0 1) mem_4_8 in
  sound mem_4_8 ∧ 0%nat ≠ 1%nat ∧
  vecs mem_4_8 !! 0%nat = Some t ∧ vecs mem_4_8 !! 1%nat = Some r ∧
  contents mem_4_8 r = Some [7] ∧
  Vector_copy_assign 0 1 mem_4_8 = Ret tt m' ∧
  sound m' ∧
  vecs m' !! 1%nat = Some r ∧ contents m' r = Some [7] ∧
  ∃ t', vecs m' !! 0%nat = Some t' ∧
        size_ t' = size_ r ∧ contents m' t' = Some [7] ∧
        capacity_ (data_ t') =
          if decide (capacity_ (data_ t) < capacity_ (data_ r))
          then size_ r else capacity_ (data_ t).
Proof.
  intros t r m'.
  assert (Vector_copy_assign 0 1 mem_4_8 = Ret tt m') as Hrun
    by (vm_compute; reflexivity).
  assert (0%nat ≠ 1%nat) as Hne by lia.
  assert (contents mem_4_8 r = Some [7]) as Hl by (vm_compute; reflexivity).
  split; [exact mem_4_8_sound|]. split; [exact Hne|].
  split; [exact mem_4_8_this|]. split; [exact mem_4_8_rhs|].
  split; [exact Hl|]. split; [exact Hrun|].
  exact (Vector_copy_assign_copies 0 1 mem_4_8 m' t r [7]
           mem_4_8_sound Hne mem_4_8_this mem_4_8_rhs Hl Hrun).
Defined.

Lemma Swap_exchanges_witness :
  let t := mkVector (mkRawMemory (Ptr 0 0) 4) 0 in
  let o := mkVector (mkRawMemory (Ptr 1 0) 8) 1 in
  vecs mem_4_8 !! 0%nat = Some t ∧ vecs mem_4_8 !! 1%nat = Some o ∧
  ∃ m', Swap 0 1 mem_4_8 = Ret tt m' ∧
        vecs m' = <[1%nat := t]> (<[0%nat := o]> (vecs mem_4_8)) ∧
        heap m' = heap mem_4_8 ∧ log m' = log mem_4_8 ∧
        contents m' o = contents mem_4_8 o ∧
        contents m' t = contents mem_4_8 t ∧
        Swap 0 1 m' = Ret tt mem_4_8.
Proof.
  intros t o.
  split; [exact mem_4_8_this|]. split; [exact mem_4_8_rhs|].
  exact (Swap_exchanges 0 1 mem_4_8 t o mem_4_8_this mem_4_8_rhs).
Defined.

Lemma Vector_move_assign_steals_witness :
  let t := mkVector (mkRawMemory (Ptr 1 0) 8) 1 in
  let r := mkVector (mkRawMemory (Ptr 0 0) 4) 0 in
  vecs mem_4_8 !! 1%nat = Some t ∧ vecs mem_4_8 !! 0%nat = Some r ∧
  ∃ m', Vector_move_assign 1 0 mem_4_8 = Ret tt m' ∧
        heap m' = heap mem_4_8 ∧ log m' = log mem_4_8 ∧
        vecs m' = <[0%nat := mkVector RawMemory_default 0]>
                    (<[1%nat := r]> (vecs mem_4_8)) ∧
        (1%nat = 0%nat → vecs m' !! 1%nat = Some (mkVector RawMemory_default 0)) ∧
        (1%nat ≠ 0%nat →
         vecs m' !! 1%nat = Some r ∧ contents m' r = contents mem_4_8 r).
Proof.
  intros t r.
  split; [exact mem_4_8_rhs|]. split; [exact mem_4_8_this|].
  exact (Vector_move_assign_steals 1 0 mem_4_8 t r mem_4_8_rhs mem_4_8_this).
Defined.

Lemma Vector_dtor_releases_witness :
  let v := mkVector (mkRawMemory (Ptr 1 0) 2) 2 in
  let m' := after (Vector_dtor 0) mem12 in
  vecs mem12 !! 0%nat = Some v ∧ wf mem12 v ∧
  Vector_dtor 0 mem12 = Ret tt m' ∧
  vecs m' = delete 0%nat (vecs mem12) ∧
  log m' = log mem12 ++ dtors (buffer_ (data_ v)) (size_ v) ∧
  heap m' = match buffer_ (data_ v) with
            | Ptr b _ => delete b (heap mem12)
            | Null => heap mem12
            end.
Proof.
  intros v m'.
  assert (Vector_dtor 0 mem12 = Ret tt m') as Hrun by (vm_compute; reflexivity).
  split; [exact mem12_vector|]. split; [exact mem12_wf|]. split; [exact Hrun|].
  exact (Vector_dtor_releases 0 mem12 m' v mem12_vector mem12_wf Hrun).
Defined.


Lemma exec_preserves_sound_witness :
  let c := CallInsert 1 (Ptr 1 0) 5 in
  let m' := after (exec c) mem_4_8 in
  sound mem_4_8 ∧ args_representable c ∧ no_overflow c ∧
  exec c mem_4_8 = Ret tt m' ∧ sound m'.
Proof.
  intros c m'.
  assert (exec c mem_4_8 = Ret tt m') as Hrun by (vm_compute; reflexivity).
  split; [exact mem_4_8_sound|]. split; [exact I|]. split; [exact I|].
  split; [exact Hrun|].
  exact (exec_preserves_sound c mem_4_8 m' mem_4_8_sound I I Hrun).
Defined.

Lemma push_all_builds_witness :
  let m' := after (Vector_default 0 >> push_all 0 [4; 5; 6]) mem0 in
  (Vector_default 0 >> push_all 0 [4; 5; 6]) mem0 = Ret tt m' ∧
  ∃ v', vecs m' !! 0%nat = Some v' ∧ wf m' v' ∧
        size_ v' = Z.of_nat (length [4; 5; 6]) ∧
        contents m' v' = Some [4; 5; 6] ∧
        ([4; 5; 6] = [] ∧ capacity_ (data_ v') = 0 ∨
         ∃ k, 0 <= k ∧ capacity_ (data_ v') = 2 ^ k ∧
              capacity_ (data_ v') < 2 * size_ v').
Proof.
  intros m'.
  assert ((Vector_default 0 >> push_all 0 [4; 5; 6]) mem0 = Ret tt m') as Hrun
    by (vm_compute; reflexivity).
  split; [exact Hrun|].
  exact (push_all_builds 0 [4; 5; 6] mem0 m' Hrun).
Defined.


Lemma declared_noexcept_never_throws_witness :
  declared_noexcept (CallPopBack 0 : @call Z _) = true ∧
  ∀ m', exec (CallPopBack 0) mem12 ≠ Exc m'.
Proof.
  split; [reflexivity|].
  intros m'. exact (declared_noexcept_never_throws (CallPopBack 0) mem12 m' eq_refl).
Defined.

Lemma Z_relocation_nothrow : @relocation_nothrow Z _.
Proof. intros _ x. reflexivity. Qed.

Lemma Reserve_throw_restores_witness :
  let m' := after (Reserve 0 1000) mem12 in
  relocation_nothrow ∧ Reserve 0 1000 mem12 = Exc m' ∧
  vecs m' = vecs mem12 ∧ heap m' = heap mem12 ∧
  ∀ v, contents m' v = contents mem12 v.
Proof.
  intros m'.
  assert (Reserve 0 1000 mem12 = Exc m') as Hrun by (vm_compute; reflexivity).
  split; [exact Z_relocation_nothrow|]. split; [exact Hrun|].
  exact (Reserve_throw_restores 0 1000 mem12 m' Z_relocation_nothrow Hrun).
Defined.

Lemma insertion_throw_restores_witness :
  let v := mkVector (mkRawMemory (Ptr 1 0) 2) 2 in
  let c := @CallPushBackRvalue Z Z_fragile 0 (Held (Ptr 1 0)) in
  let a := @MoveOf Z Z_fragile (Ptr 1 0) in
  let m' := after (@exec Z Z_fragile c) mem_1_neg in
  @relocation_nothrow Z Z_fragile ∧
  @inserts Z Z_fragile c = Some (0%nat, a) ∧
  vecs mem_1_neg !! 0%nat = Some v ∧
  @exec Z Z_fragile c mem_1_neg = Exc m' ∧
  contents mem_1_neg v = Some [1; -5] ∧
  contents m' v = Some [-1; -5] ∧
  ∃ m0, (m0 = mem_1_neg ∨
         (@forwarded_throws Z Z_fragile mem_1_neg a = false ∧
          m0 = @moved_out Z Z_fragile a mem_1_neg)) ∧
        vecs m' = vecs mem_1_neg ∧ heap m' = heap m0 ∧
        ∀ u, contents m' u = contents m0 u.
Proof.
  intros v c a m'.
  assert (@relocation_nothrow Z Z_fragile) as Hr by (intros _ x; reflexivity).
  assert (vecs mem_1_neg !! 0%nat = Some v) as Hv by (vm_compute; reflexivity).
  assert (@exec Z Z_fragile c mem_1_neg = Exc m') as Hrun
    by (vm_compute; reflexivity).
  split; [exact Hr|]. split; [reflexivity|]. split; [exact Hv|].
  split; [exact Hrun|]. split; [vm_compute; reflexivity|].
  split; [vm_compute; reflexivity|].
  exact (@insertion_throw_restores Z Z_fragile c 0 a mem_1_neg m' v
           Hr eq_refl Hv (or_introl eq_refl) Hrun).
Defined.

Lemma building_throw_restores_witness :
  let c := CallCopy 1 0 in
  let m' := after (exec c) mem_neg in
  exec c mem_neg = Exc m' ∧
  vecs m' = vecs mem_neg ∧ heap m' = heap mem_neg ∧
  ∀ u, contents m' u = contents mem_neg u.
Proof.
  intros c m'.
  assert (exec c mem_neg = Exc m') as Hrun by (vm_compute; reflexivity).
  split; [exact Hrun|].
  exact (building_throw_restores c mem_neg m' I Hrun).
Defined.

Lemma mem12_sound : sound mem12.
Proof. apply (bool_decide_unpack (sound mem12)). by vm_compute. Qed.

Lemma growth_abandons_old_block_witness :
  let c := CallPushBack 0 3 in
  let v := mkVector (mkRawMemory (Ptr 1 0) 2) 2 in
  let m' := after (exec c) mem12 in
  sound mem12 ∧ inserts c = Some (0%nat, Values (ByCopy 3)) ∧
  vecs mem12 !! 0%nat = Some v ∧ size_ v = capacity_ (data_ v) ∧
  exec c mem12 = Ret tt m' ∧
  heap m' !! 1%nat = Some (replicate (Z.to_nat (capacity_ (data_ v))) None) ∧
  ∀ a' u o, vecs m' !! a' = Some u → buffer_ (data_ u) ≠ Ptr 1 o.
Proof.
  intros c v m'.
  assert (exec c mem12 = Ret tt m') as Hrun by (vm_compute; reflexivity).
  split; [exact mem12_sound|]. split; [reflexivity|].
  split; [exact mem12_vector|]. split; [reflexivity|]. split; [exact Hrun|].
  exact (growth_abandons_old_block c 0 (ByCopy 3) mem12 m' v 1
           mem12_sound eq_refl mem12_vector eq_refl eq_refl Hrun).
Defined.

Lemma Reserve_frees_old_block_witness :
  let v := mkVector (mkRawMemory (Ptr 1 0) 2) 2 in
  let m' := after (Reserve 0 5) mem12 in
  vecs mem12 !! 0%nat = Some v ∧ wf mem12 v ∧ capacity_ (data_ v) < 5 ∧
  Reserve 0 5 mem12 = Ret tt m' ∧
  ∃ nb, heap mem12 !! nb = None ∧ is_Some (heap m' !! nb) ∧
        vecs m' !! 0%nat = Some (mkVector (mkRawMemory (Ptr nb 0) 5) (size_ v)) ∧
        (∀ ob o, buffer_ (data_ v) = Ptr ob o → heap m' !! ob = None) ∧
        (∀ c, is_Some (heap mem12 !! c) → (∀ o, buffer_ (data_ v) ≠ Ptr c o) →
              heap m' !! c = heap mem12 !! c).
Proof.
  intros v m'.
  assert (Reserve 0 5 mem12 = Ret tt m') as Hrun by (vm_compute; reflexivity).
  assert (capacity_ (data_ v) < 5) as Hlt by (simpl; lia).
  split; [exact mem12_vector|]. split; [exact mem12_wf|].
  split; [exact Hlt|]. split; [exact Hrun|].
  exact (Reserve_frees_old_block 0 5 mem12 m' v mem12_vector mem12_wf Hlt Hrun).
Defined.

Lemma exec_throw_keeps_sound_witness :
  let c := CallPushBack 0 (-5) in
  let m' := after (exec c) mem12 in
  sound mem12 ∧ args_representable c ∧ resize_fits c ∧ relocation_nothrow ∧
  exec c mem12 = Exc m' ∧ sound m'.
Proof.
  intros c m'.
  assert (exec c mem12 = Exc m') as Hrun by (vm_compute; reflexivity).
  split; [exact mem12_sound|]. split; [exact I|]. split; [exact I|].
  split; [exact Z_relocation_nothrow|]. split; [exact Hrun|].
  exact (exec_throw_keeps_sound c mem12 m' mem12_sound I I
           Z_relocation_nothrow (fun _ _ => eq_refl) Hrun).
Defined.

Lemma Resize_throw_keeps_elements_witness :
  let v := mkVector (mkRawMemory (Ptr 1 0) 2) 2 in
  let m' := after (Resize 0 1000) mem12 in
  relocation_nothrow ∧ vecs mem12 !! 0%nat = Some v ∧ wf mem12 v ∧
  contents mem12 v = Some [1; 2] ∧ in_size_t 1000 ∧
  1000 * sizeof < size_t_modulus ∧
  Resize 0 1000 mem12 = Exc m' ∧
  ∃ v', vecs m' !! 0%nat = Some v' ∧ wf m' v' ∧
        size_ v' = size_ v ∧ contents m' v' = Some [1; 2] ∧
        (capacity_ (data_ v') = capacity_ (data_ v) ∨
         capacity_ (data_ v') = 1000).
Proof.
  intros v m'.
  assert (Resize 0 1000 mem12 = Exc m') as Hrun by (vm_compute; reflexivity).
  assert (in_size_t 1000) as Hn by (by vm_compute).
  assert (1000 * sizeof < size_t_modulus) as Hno by (by vm_compute).
  split; [exact Z_relocation_nothrow|]. split; [exact mem12_vector|].
  split; [exact mem12_wf|]. split; [exact mem12_contents|].
  split; [exact Hn|]. split; [exact Hno|]. split; [exact Hrun|].
  exact (Resize_throw_keeps_elements 0 1000 mem12 m' v [1; 2]
           Z_relocation_nothrow mem12_vector mem12_wf mem12_contents
           Hn Hno Hrun).
Defined.

Lemma exec_leaves_others_alone_witness :
  let c := CallPushBackRvalue 0 (Held (Ptr 1 0)) in
  let u := mkVector (mkRawMemory (Ptr 1 0) 8) 1 in
  let m' := after (exec c) mem_4_8 in
  sound mem_4_8 ∧ args_representable c ∧ (1%nat ∉ operands c) ∧
  vecs mem_4_8 !! 1%nat = Some u ∧ exec c mem_4_8 = Ret tt m' ∧
  contents mem_4_8 u = Some [7] ∧
  contents (arguments_moved c mem_4_8) u = Some [-1] ∧
  vecs m' !! 1%nat = Some u ∧ wf m' u ∧
  contents m' u = contents (arguments_moved c mem_4_8) u ∧
  ∀ b o, buffer_ (data_ u) = Ptr b o →
         heap m' !! b = heap (arguments_moved c mem_4_8) !! b.
Proof.
  intros c u m'.
  assert (exec c mem_4_8 = Ret tt m') as Hrun by (vm_compute; reflexivity).
  assert (1%nat ∉ operands c) as Hna
    by (apply not_elem_of_cons; split; [lia|apply not_elem_of_nil]).
  split; [exact mem_4_8_sound|]. split; [exact I|]. split; [exact Hna|].
  split; [exact mem_4_8_rhs|]. split; [exact Hrun|].
  split; [vm_compute; reflexivity|]. split; [vm_compute; reflexivity|].
  exact (exec_leaves_others_alone c mem_4_8 m' 1 u
           mem_4_8_sound I Hna mem_4_8_rhs Hrun).
Defined.

Lemma Emplace_throw_strands_element_witness :
  let c := @CallInsertRvalue Z Z_fragile 1 (Ptr 1 0) (Temporary (-5)) in
  let a := @Values Z Z_fragile (@ByMove Z Z_fragile (-5)) in
  let v := mkVector (mkRawMemory (Ptr 1 0) 8) 1 in
  let m' := after (@exec Z Z_fragile c) mem_4_8 in
  @inserts Z Z_fragile c = Some (1%nat, a) ∧
  vecs mem_4_8 !! 1%nat = Some v ∧ wf mem_4_8 v ∧
  size_ v ≠ capacity_ (data_ v) ∧
  @forwarded_throws Z Z_fragile mem_4_8 a = false ∧
  (∀ x, @move_throws Z Z_fragile x = false) ∧
  @exec Z Z_fragile c mem_4_8 = Exc m' ∧
  vecs m' !! 1%nat = Some v ∧
  live m' (Ptr 1 1) = Some 7 ∧ ¬ wf m' v.
Proof.
  intros c a v m'.
  assert (@exec Z Z_fragile c mem_4_8 = Exc m') as Hrun
    by (vm_compute; reflexivity).
  assert (wf mem_4_8 v) as Hwf
    by (apply (bool_decide_unpack (wf mem_4_8 v)); by vm_compute).
  assert (size_ v ≠ capacity_ (data_ v)) as Hroom by (simpl; lia).
  destruct (@Emplace_throw_strands_element Z Z_fragile c 1 a mem_4_8 m' v
              eq_refl mem_4_8_rhs Hwf Hroom eq_refl (fun _ => eq_refl) Hrun)
    as (_ & Hv' & _ & Hn).
  split; [reflexivity|].
  split; [exact mem_4_8_rhs|]. split; [exact Hwf|]. split; [exact Hroom|].
  split; [reflexivity|]. split; [intros x; reflexivity|].
  split; [exact Hrun|]. split; [exact Hv'|]. split; [|exact Hn].
  vm_compute. reflexivity.
Defined.

Lemma mem_neg_vector :
  vecs mem_neg !! 0%nat = Some (mkVector (mkRawMemory (Ptr 0 0) 1) 1).
Proof. vm_compute. reflexivity. Qed.

Lemma relocation_throw_leaks_new_element_witness :
  let c := @CallPushBack Z Z_fragile 0 3 in
  let a := @Values Z Z_fragile (@ByCopy Z Z_fragile 3) in
  let v := mkVector (mkRawMemory (Ptr 0 0) 1) 1 in
  let m' := after (@exec Z Z_fragile c) mem_neg in
  @appends Z Z_fragile c = Some (0%nat, a) ∧
  vecs mem_neg !! 0%nat = Some v ∧ size_ v = capacity_ (data_ v) ∧
  @forwarded_throws Z Z_fragile mem_neg a = false ∧
  @exec Z Z_fragile c mem_neg = Exc m' ∧
  log m' = log mem_neg ++
    [EvCopyCtor Argument (At (Ptr 1 1));
     EvCopyCtor (At (Ptr 0 0)) (At (Ptr 1 0))] ∧
  (log m' = log mem_neg ∨
   ∃ nb j, heap mem_neg !! nb = None ∧ 0 <= j < size_ v ∧
     log m' = log mem_neg ++
       @forwarded_event Z Z_fragile a (At (Ptr nb (size_ v)))
       :: @relocation Z Z_fragile (buffer_ (data_ v)) (j + 1) (Ptr nb 0)
       ++ dtors (Ptr nb 0) j ∧
     EvDtor (At (Ptr nb (size_ v))) ∉
       @relocation Z Z_fragile (buffer_ (data_ v)) (j + 1) (Ptr nb 0)
       ++ dtors (Ptr nb 0) j).
Proof.
  intros c a v m'.
  assert (@exec Z Z_fragile c mem_neg = Exc m') as Hrun
    by (vm_compute; reflexivity).
  split; [reflexivity|].
  split; [exact mem_neg_vector|]. split; [reflexivity|].
  split; [reflexivity|].
  split; [exact Hrun|]. split; [vm_compute; reflexivity|].
  exact (@relocation_throw_leaks_new_element Z Z_fragile c 0 a mem_neg m' v
           eq_refl mem_neg_vector eq_refl eq_refl Hrun).
Defined.

Lemma construct_destroy_restores_witness :
  let c := CallSized 5 3 in
  let m1 := after (exec c) mem12 in
  store_wf mem12 ∧ exec c mem12 = Ret tt m1 ∧
  ∃ m', Vector_dtor 5 m1 = Ret tt m' ∧
        heap m' = heap mem12 ∧ vecs m' = delete 5%nat (vecs mem12).
Proof.
  intros c m1.
  assert (exec c mem12 = Ret tt m1) as Hrun by (vm_compute; reflexivity).
  split; [exact (proj1 mem12_sound)|]. split; [exact Hrun|].
  exact (construct_destroy_restores c 5 mem12 m1
           (proj1 mem12_sound) eq_refl Hrun).
Defined.

Lemma exec_defined_witness :
  let c := CallInsertRvalue 1 (Ptr 1 0) (Held (Ptr 1 0)) in
  store_wf mem_4_8 ∧ precondition c mem_4_8 ∧
  ((∃ m', exec c mem_4_8 = Ret tt m') ∨ (∃ m', exec c mem_4_8 = Exc m')).
Proof.
  intros c.
  assert (precondition c mem_4_8) as Hpre.
  { split; [exists 7; vm_compute; reflexivity|].
    exists (mkVector (mkRawMemory (Ptr 1 0) 8) 1), 0.
    split; [exact mem_4_8_rhs|]. split; [intros _; by vm_compute|].
    split; [simpl; lia|reflexivity]. }
  split; [exact (proj1 mem_4_8_sound)|]. split; [exact Hpre|].
  exact (exec_defined c mem_4_8 (proj1 mem_4_8_sound) Hpre).
Defined.

Lemma Z_plain_never_throws : @never_throws Z Z_plain.
Proof. by repeat split. Qed.

Lemma exec_throws_nothing_of_its_own_witness :
  let c := @CallSized Z Z_plain 0 3 in
  @never_throws Z Z_plain ∧ size_t_modulus <= max_alloc mem_unbounded ∧
  @exec Z Z_plain c mem_unbounded ≠ Exc mem_unbounded.
Proof.
  intros c. split; [exact Z_plain_never_throws|]. split; [by vm_compute|].
  apply (@exec_throws_nothing_of_its_own Z Z_plain c mem_unbounded
           mem_unbounded Z_plain_never_throws).
  by vm_compute.
Defined.

